(** * MailCat: MIME normalizer and signal extractor

    A shallow embedding of [src/utils/extractor.ts] ([extractData]) and of
    the MIME part of [src/handlers/email.ts] ([parseMimeContent],
    [decodeQuotedPrintable], [htmlToText]), with the JavaScript string and
    regular-expression primitives they rest on.

    JavaScript strings are sequences of UTF-16 code units; none of the
    regular expressions of the source carries the [u] flag, so they work
    on code units too.  A string is a [list N]. *)

From Stdlib Require Import String Ascii List NArith ZArith Bool Arith Lia.
Import ListNotations.

Set Implicit Arguments.

(* ================================================================== *)
(** * Part I: definitions *)
(* ================================================================== *)

(** ** JavaScript strings *)

Module JsString.

Definition jsstring := list N.

(** Decoding of a UTF-8 literal of this file into UTF-16 code units, so
    that inputs can be written as they appear in the source and tests. *)
Fixpoint utf16_of_utf8 (bs : list N) : jsstring :=
  match bs with
  | [] => []
  | b0 :: r0 =>
    if (b0 <? 128)%N then b0 :: utf16_of_utf8 r0
    else match r0 with
    | [] => [b0]
    | b1 :: r1 =>
      if (b0 <? 224)%N then
        (N.land b0 31 * 64 + N.land b1 63)%N :: utf16_of_utf8 r1
      else match r1 with
      | [] => [b0; b1]
      | b2 :: r2 =>
        if (b0 <? 240)%N then
          (N.land b0 15 * 4096 + N.land b1 63 * 64 + N.land b2 63)%N
            :: utf16_of_utf8 r2
        else match r2 with
        | [] => [b0; b1; b2]
        | b3 :: r3 =>
          let cp := (N.land b0 7 * 262144 + N.land b1 63 * 4096
                     + N.land b2 63 * 64 + N.land b3 63 - 65536)%N in
          (55296 + N.shiftr cp 10)%N :: (56320 + N.land cp 1023)%N
            :: utf16_of_utf8 r3
        end
      end
    end
  end.

Definition js (s : string) : jsstring :=
  utf16_of_utf8 (map (fun b => N.of_nat (Byte.to_nat b)) (list_byte_of_string s)).

(** Code units the source names. *)
Definition CR : N := 13.
Definition LF : N := 10.
Definition DQUOTE : N := 34.
Definition SQUOTE : N := 39.

(** WhiteSpace and LineTerminator code points of ECMAScript: what [\s]
    matches and what [String.prototype.trim] strips. *)
Definition is_space (c : N) : bool :=
  existsb (N.eqb c) [9; 10; 11; 12; 13; 32; 160; 5760; 8232; 8233; 8239; 8287; 12288; 65279]%N
  || ((8192 <=? c) && (c <=? 8202))%N.

Fixpoint trimStart (s : jsstring) : jsstring :=
  match s with
  | c :: t => if is_space c then trimStart t else s
  | [] => []
  end.

Definition trimEnd (s : jsstring) : jsstring := rev (trimStart (rev s)).

Definition trim (s : jsstring) : jsstring := trimEnd (trimStart s).

Definition jseqb (a b : jsstring) : bool :=
  if list_eq_dec N.eq_dec a b then true else false.

Fixpoint startsWith (p s : jsstring) : bool :=
  match p, s with
  | [], _ => true
  | a :: p', b :: s' => (a =? b)%N && startsWith p' s'
  | _ :: _, [] => false
  end.

(** [s.indexOf(p)]: the first position at which [p] occurs, or -1. *)
Fixpoint indexOf_from (p s : jsstring) (i : Z) : Z :=
  if startsWith p s then i
  else match s with
       | [] => (-1)%Z
       | _ :: t => indexOf_from p t (i + 1)%Z
       end.

Definition indexOf (s p : jsstring) : Z := indexOf_from p s 0%Z.

(** [s.substring(i)] with the end left out: [i] is clamped to
    [0 .. length s]. *)
Definition substring (s : jsstring) (i : Z) : jsstring :=
  skipn (Z.to_nat (Z.max 0 i)) s.

(** [s.split(sep)] for a string separator.  With [skip > 0] the scan is
    inside a separator it has just recognised. *)
Fixpoint split_go (sep s : jsstring) (skip : nat) (cur : jsstring)
  : list jsstring :=
  match s with
  | [] => [rev cur]
  | c :: t =>
    match skip with
    | S k => split_go sep t k cur
    | O =>
      if startsWith sep s
      then rev cur :: split_go sep t (length sep - 1) []
      else split_go sep t 0 (c :: cur)
    end
  end.

Definition split (s sep : jsstring) : list jsstring :=
  match sep with
  | [] => map (fun c => [c]) s
  | _ => split_go sep s 0 []
  end.

(** Truthiness of a string: the empty string is falsy. *)
Definition truthy (s : jsstring) : bool :=
  match s with [] => false | _ => true end.

End JsString.
Import JsString.

(** ** Regular expressions

    A backtracking matcher in continuation-passing style, with the
    priorities of ECMAScript: alternatives left to right, greedy
    quantifiers longest first, lazy ones shortest first.  The source's
    expressions use no assertion that looks to the left of the current
    position, so the matcher runs on the rest of the input. *)

Module Regex.

Inductive citem : Type :=
| CChar (c : N)
| CRange (lo hi : N)
| CSpace                        (* \s *)
| CNonSpace                     (* \S *)
| CDigit.                       (* \d *)

Inductive re : Type :=
| REps
| RChar (c : N)
| RClass (negated : bool) (items : list citem)
| RSeq (r1 r2 : re)
| RAlt (r1 r2 : re)
| RStar (greedy : bool) (r : re)
| RGroup (r : re)               (* capture group 1 *)
| REnd.                         (* $ without the m flag *)

(** Derived forms. *)
Definition ROpt (r : re) : re := RAlt r REps.
Definition RPlus (r : re) : re := RSeq r (RStar true r).

Fixpoint RExactly (n : nat) (r : re) : re :=
  match n with
  | O => REps
  | S k => RSeq r (RExactly k r)
  end.

(** [r{0,n}], greedy. *)
Fixpoint RUpTo (n : nat) (r : re) : re :=
  match n with
  | O => REps
  | S k => ROpt (RSeq r (RUpTo k r))
  end.

(** [r{lo,hi}] *)
Definition RRange (lo hi : nat) (r : re) : re :=
  RSeq (RExactly lo r) (RUpTo (hi - lo) r).

(** [r{lo,}] *)
Definition RAtLeast (lo : nat) (r : re) : re :=
  RSeq (RExactly lo r) (RStar true r).

Fixpoint RLit (s : jsstring) : re :=
  match s with
  | [] => REps
  | [c] => RChar c
  | c :: t => RSeq (RChar c) (RLit t)
  end.

Fixpoint RAlts (rs : list re) : re :=
  match rs with
  | [] => REps
  | [r] => r
  | r :: t => RAlt r (RAlts t)
  end.

Fixpoint RSeqs (rs : list re) : re :=
  match rs with
  | [] => REps
  | [r] => r
  | r :: t => RSeq r (RSeqs t)
  end.

Definition toUpper (c : N) : N :=
  if ((97 <=? c) && (c <=? 122))%N then (c - 32)%N else c.
Definition toLower (c : N) : N :=
  if ((65 <=? c) && (c <=? 90))%N then (c + 32)%N else c.

(** Canonicalize of ECMAScript for the [i] flag without [u].  Every
    character the source's case-insensitive patterns name is ASCII or a
    white-space code point, and on those Canonicalize relates exactly
    the two cases of an ASCII letter. *)
Definition canon (ci : bool) (c : N) : N := if ci then toUpper c else c.

Definition item_mem (it : citem) (c : N) : bool :=
  match it with
  | CChar a => (a =? c)%N
  | CRange lo hi => ((lo <=? c) && (c <=? hi))%N
  | CSpace => is_space c
  | CNonSpace => negb (is_space c)
  | CDigit => ((48 <=? c) && (c <=? 57))%N
  end.

Definition items_mem (ci : bool) (items : list citem) (c : N) : bool :=
  existsb (fun it => item_mem it c) items
  || (ci && (existsb (fun it => item_mem it (toUpper c)) items
             || existsb (fun it => item_mem it (toLower c)) items)).

Definition class_mem (ci negated : bool) (items : list citem) (c : N) : bool :=
  xorb negated (items_mem ci items c).

(** The continuation receives the rest of the input and capture 1. *)
Definition cont (A : Type) : Type := jsstring -> option jsstring -> option A.

(** RepeatMatcher for [r*] and [r*?], [step] being the matcher of [r]:
    a round that consumes nothing is rejected.  Every accepted round
    shortens the input, so [length s] rounds of fuel are never used up. *)
Section Repeat.
Variable A : Type.
Variable step : jsstring -> option jsstring -> cont A -> option A.
Variable greedy : bool.
Variable k : cont A.

Fixpoint star_loop (fuel : nat) (s : jsstring) (cap : option jsstring)
  {struct fuel} : option A :=
  match fuel with
  | O => k s cap
  | S fuel' =>
    let more :=
      step s cap (fun s1 c1 =>
        if length s1 <? length s then star_loop fuel' s1 c1 else None) in
    if greedy then
      match more with
      | Some x => Some x
      | None => k s cap
      end
    else
      match k s cap with
      | Some x => Some x
      | None => more
      end
  end.
End Repeat.

Section Matcher.
Variable A : Type.
Variable ci : bool.

Fixpoint mrun (r : re) (s : jsstring) (cap : option jsstring) (k : cont A)
  {struct r} : option A :=
  match r with
  | REps => k s cap
  | RChar a =>
    match s with
    | c :: t => if (canon ci c =? canon ci a)%N then k t cap else None
    | [] => None
    end
  | RClass neg items =>
    match s with
    | c :: t => if class_mem ci neg items c then k t cap else None
    | [] => None
    end
  | RSeq r1 r2 => mrun r1 s cap (fun s1 c1 => mrun r2 s1 c1 k)
  | RAlt r1 r2 =>
    match mrun r1 s cap k with
    | Some x => Some x
    | None => mrun r2 s cap k
    end
  | RStar greedy r0 => star_loop (mrun r0) greedy k (length s) s cap
  | RGroup r0 =>
    mrun r0 s cap (fun s1 _ => k s1 (Some (firstn (length s - length s1) s)))
  | REnd =>
    match s with
    | [] => k s cap
    | _ :: _ => None
    end
  end.
End Matcher.

(** A successful match: position and end in the input, [match[0]] and
    [match[1]]. *)
Record MatchResult : Type := mkMatch {
  m_index : nat;
  m_end : nat;
  m_0 : jsstring;
  m_1 : option jsstring
}.

Definition match_here (ci : bool) (r : re) (s : jsstring)
  : option (jsstring * option jsstring) :=
  mrun ci r s None (fun s1 c1 => Some (s1, c1)).

(** Leftmost match in [s], which starts at position [i] of the input. *)
Fixpoint search (ci : bool) (r : re) (s : jsstring) (i : nat)
  : option MatchResult :=
  match match_here ci r s with
  | Some (s1, c1) =>
    let n := length s - length s1 in
    Some (mkMatch i (i + n) (firstn n s) c1)
  | None =>
    match s with
    | [] => None
    | _ :: t => search ci r t (S i)
    end
  end.

(** A RegExp object: its pattern, its [i] flag and its mutable
    [lastIndex], which only [g] expressions use. *)
Record RegExp : Type := mkRegExp {
  source : re;
  ignoreCase : bool;
  lastIndex : nat
}.

Definition setLastIndex (rx : RegExp) (i : nat) : RegExp :=
  mkRegExp (source rx) (ignoreCase rx) i.

(** [rx.exec(str)] of an expression with the [g] flag: the search starts
    at [lastIndex]; a match leaves [lastIndex] at its end, a failure
    resets it to 0. *)
Definition exec (rx : RegExp) (str : jsstring) : option MatchResult * RegExp :=
  if length str <? lastIndex rx then (None, setLastIndex rx 0)
  else
    match search (ignoreCase rx) (source rx) (skipn (lastIndex rx) str)
                 (lastIndex rx) with
    | Some m => (Some m, setLastIndex rx (m_end m))
    | None => (None, setLastIndex rx 0)
    end.

(** Expressions without [g] ([str.match(rx)], [rx.test(str)],
    [str.replace(rx, ..)]) always search from 0 and keep no position. *)
Definition match_ (ci : bool) (r : re) (str : jsstring) : option MatchResult :=
  search ci r str 0.

Definition test (ci : bool) (r : re) (str : jsstring) : bool :=
  match search ci r str 0 with Some _ => true | None => false end.

Definition replace_first (ci : bool) (r : re) (f : MatchResult -> jsstring)
  (str : jsstring) : jsstring :=
  match search ci r str 0 with
  | Some m => firstn (m_index m) str ++ f m ++ skipn (m_end m) str
  | None => str
  end.

(** [str.replace(rx, f)] with the [g] flag: every match, left to right,
    each search resuming where the last match ended (one further after
    an empty match). *)
Fixpoint replace_loop (fuel : nat) (ci : bool) (r : re)
  (f : MatchResult -> jsstring) (s : jsstring) : jsstring :=
  match fuel with
  | O => s
  | S fuel' =>
    match search ci r s 0 with
    | None => s
    | Some m =>
      firstn (m_index m) s ++ f m ++
      (if m_end m =? m_index m then
         match skipn (m_index m) s with
         | [] => []
         | c :: t => c :: replace_loop fuel' ci r f t
         end
       else replace_loop fuel' ci r f (skipn (m_end m) s))
    end
  end.

Definition replace_all (ci : bool) (r : re) (f : MatchResult -> jsstring)
  (str : jsstring) : jsstring :=
  replace_loop (S (length str)) ci r f str.

End Regex.
Import Regex.

(** ** The signal extractor ([src/utils/extractor.ts]) *)

Module Extractor.

Local Open Scope string_scope.
Local Open Scope list_scope.

Definition ch (s : string) : N := hd 0%N (js s).

Definition digit : re := RClass false [CDigit].
Definition digits48 : re := RGroup (RRange 4 8 digit).       (* (\d{4,8}) *)
Definition colon_space : re := RClass false [CChar (ch ":"); CSpace].   (* [:\s] *)
Definition space : re := RClass false [CSpace].              (* \s *)
Definition words (ws : list string) : re := RAlts (map (fun w => RLit (js w)) ws).

(** A [g] expression as the module creates it, with [lastIndex] 0. *)
Definition rx_gi (r : re) : RegExp := mkRegExp r true 0.
Definition rx_g (r : re) : RegExp := mkRegExp r false 0.

(** [[：:\s]*] of the Chinese patterns. *)
Definition zh_sep : re :=
  RStar true (RClass false [CChar (ch "："); CChar (ch ":"); CSpace]).

Definition zh_label (w : string) : RegExp :=
  rx_g (RSeqs [RLit (js w); zh_sep; digits48]).

Definition codePatterns : list RegExp := [
  (* /(?:code|otp|pin|passcode|password|verification)[:\s]+(\d{4,8})/gi *)
  rx_gi (RSeqs [words ["code"; "otp"; "pin"; "passcode"; "password"; "verification"];
                RPlus colon_space; digits48]);
  (* /(?:enter|use|your)\s+(?:code|otp|pin)[:\s]+(\d{4,8})/gi *)
  rx_gi (RSeqs [words ["enter"; "use"; "your"]; RPlus space;
                words ["code"; "otp"; "pin"]; RPlus colon_space; digits48]);
  (* /(\d{4,8})\s+(?:is your|is the)?\s*(?:code|otp|pin|verification)/gi *)
  rx_gi (RSeqs [digits48; RPlus space; ROpt (words ["is your"; "is the"]);
                RStar true space;
                words ["code"; "otp"; "pin"; "verification"]]);
  (* /verification[:\s]*(\d{4,8})/gi *)
  rx_gi (RSeqs [RLit (js "verification"); RStar true colon_space; digits48]);
  (* /one-time\s*(?:password|code)[:\s]*(\d{4,8})/gi *)
  rx_gi (RSeqs [RLit (js "one-time"); RStar true space;
                words ["password"; "code"]; RStar true colon_space; digits48]);
  (* /验证码[：:\s]*(\d{4,8})/g and its three siblings *)
  zh_label "验证码";
  zh_label "校验码";
  zh_label "动态码";
  zh_label "安全码";
  (* /(\d{4,8})[是为]?[您你]的?验证码/g *)
  rx_g (RSeqs [digits48;
               ROpt (RClass false [CChar (ch "是"); CChar (ch "为")]);
               RClass false [CChar (ch "您"); CChar (ch "你")];
               ROpt (RChar (ch "的"));
               RLit (js "验证码")])
].

(** [[^\s<>\x22]], the source writing the double quote [\x22] as itself *)
Definition url_char : re :=
  RClass true [CSpace; CChar (ch "<"); CChar (ch ">"); CChar DQUOTE].

(** [https?:\/\/[^\s<>\x22]+] *)
Definition url_head : list re :=
  [RLit (js "http"); ROpt (RChar (ch "s")); RLit (js "://"); RPlus url_char].

(** [/https?:\/\/[^\s<>\x22]+(?:k1|k2|..)[^\s<>\x22]*/gi] *)
Definition keyword_link (ks : list string) : RegExp :=
  rx_gi (RSeqs (url_head ++ [words ks; RStar true url_char])).

Definition linkPatterns : list RegExp := [
  keyword_link ["verify"; "confirm"; "activate"; "validate"; "auth"];
  keyword_link ["reset"; "password"; "recover"];
  keyword_link ["magic"; "login"; "signin"; "sign-in"];
  (* /https?:\/\/[^\s<>\x22]+[?&](?:token|code|key)=[a-zA-Z0-9_-]+[^\s<>\x22]*/gi *)
  rx_gi (RSeqs (url_head ++
                [RClass false [CChar (ch "?"); CChar (ch "&")];
                 words ["token"; "code"; "key"]; RChar (ch "=");
                 RPlus (RClass false [CRange (ch "a") (ch "z");
                                      CRange (ch "A") (ch "Z");
                                      CRange (ch "0") (ch "9");
                                      CChar (ch "_"); CChar (ch "-")]);
                 RStar true url_char]));
  keyword_link ["unsubscribe"; "opt-out"; "optout"]
].

(** [/[.,;:!?)\]}>]+$/] *)
Definition trailing_punct : re :=
  RSeq (RPlus (RClass false (map (fun s => CChar (ch s))
                 ["."; ","; ";"; ":"; "!"; "?"; ")"; "]"; "}"; ">"])))
       REnd.

(** The module-level arrays of RegExp objects are the only state the
    extractor has: each object carries its [lastIndex] from one call of
    [extractData] to the next. *)
Record Patterns : Type := mkPatterns {
  codeRx : list RegExp;
  linkRx : list RegExp
}.

Definition loaded : Patterns := mkPatterns codePatterns linkPatterns.

Record ExtractedData : Type := mkExtracted {
  code : option jsstring;
  links : option (list jsstring)
}.

(** [match && match[1]]: the captured group when there is a match and
    the group is a non-empty string. *)
Definition group1 (m : option MatchResult) : option jsstring :=
  match m with
  | Some mr =>
    match m_1 mr with
    | Some c => if truthy c then Some c else None
    | None => None
    end
  | None => None
  end.

(** The [for] loop over [codePatterns].  On a hit the loop is left with
    [break], before the statement that resets [lastIndex]. *)
Fixpoint code_loop (pats : list RegExp) (content : jsstring)
  : option jsstring * list RegExp :=
  match pats with
  | [] => (None, [])
  | pattern :: rest =>
    let (m, pattern1) := exec pattern content in
    match group1 m with
    | Some c => (Some c, pattern1 :: rest)
    | None =>
      let (c, rest1) := code_loop rest content in
      (c, setLastIndex pattern1 0 :: rest1)
    end
  end.

(** [links.add(url)] on a Set, which keeps insertion order. *)
Fixpoint set_add (url : jsstring) (set : list jsstring) : list jsstring :=
  match set with
  | [] => [url]
  | u :: rest => if jseqb url u then set else u :: set_add url rest
  end.

(** [match[0].replace(/[.,;:!?)\]}>]+$/, '')] *)
Definition clean_url (m0 : jsstring) : jsstring :=
  replace_first false trailing_punct (fun _ => []) m0.

(** The [while] loop of one link pattern; [None] when the fuel runs
    out before [exec] returns null. *)
Fixpoint link_while (fuel : nat) (pattern : RegExp) (content : jsstring)
  (set : list jsstring) : option (list jsstring * RegExp) :=
  match fuel with
  | O => None
  | S fuel' =>
    let (m, pattern1) := exec pattern content in
    match m with
    | None => Some (set, pattern1)
    | Some mr => link_while fuel' pattern1 content (set_add (clean_url (m_0 mr)) set)
    end
  end.

Fixpoint link_loop (fuel : nat) (pats : list RegExp) (content : jsstring)
  (set : list jsstring) : option (list jsstring * list RegExp) :=
  match pats with
  | [] => Some (set, [])
  | pattern :: rest =>
    match link_while fuel pattern content set with
    | None => None
    | Some (set1, pattern1) =>
      match link_loop fuel rest content set1 with
      | None => None
      | Some (set2, rest1) => Some (set2, setLastIndex pattern1 0 :: rest1)
      end
    end
  end.

(** [`${text} ${html || ''}`] *)
Definition content_of (text : jsstring) (html : option jsstring) : jsstring :=
  text ++ [ch " "] ++ match html with Some h => h | None => [] end.

Definition extractData_fuel (fuel : nat) (st : Patterns) (text : jsstring)
  (html : option jsstring) : option (ExtractedData * Patterns) :=
  let content := content_of text html in
  let (c, codeRx1) := code_loop (codeRx st) content in
  match link_loop fuel (linkRx st) content [] with
  | None => None
  | Some (set, linkRx1) =>
    Some (mkExtracted c (match set with [] => None | _ => Some set end),
          mkPatterns codeRx1 linkRx1)
  end.

(** No match of a link pattern is empty, so one unit of fuel per
    position of the content and one for the last, failing [exec] are
    enough: [extractData_run] shows that the result is never [None] for
    want of fuel. *)
Definition extractData (st : Patterns) (text : jsstring) (html : option jsstring)
  : option (ExtractedData * Patterns) :=
  extractData_fuel (S (length (content_of text html))) st text html.

(** [extractData] on the module as loaded: what a single call returns. *)
Definition extract (text : jsstring) (html : option jsstring)
  : option ExtractedData :=
  option_map fst (extractData loaded text html).

(** Two calls in a row on the same module instance. *)
Definition extract_twice (text : jsstring) (html : option jsstring)
  : option (ExtractedData * ExtractedData) :=
  match extractData loaded text html with
  | Some (r1, st1) =>
    match extractData st1 text html with
    | Some (r2, _) => Some (r1, r2)
    | None => None
    end
  | None => None
  end.

(** The states the module can be in: as loaded, or after a call. *)
Inductive reachable : Patterns -> Prop :=
| reach_loaded : reachable loaded
| reach_call st text html r st1 :
    reachable st -> extractData st text html = Some (r, st1) -> reachable st1.

End Extractor.
Import Extractor.


(** ** The MIME normalizer ([src/handlers/email.ts]) *)

Module Mime.

Local Open Scope string_scope.
Local Open Scope list_scope.

(** Completion of a JavaScript computation: a value, or a thrown
    exception (named by its error name). *)
Inductive completion (A : Type) : Type :=
| Normal (a : A)
| Throw (e : string).
Arguments Normal {A} a.
Arguments Throw {A} e.

Definition bind {A B : Type} (c : completion A) (f : A -> completion B)
  : completion B :=
  match c with
  | Normal a => f a
  | Throw e => Throw e
  end.

(** [try { body } catch { handler }] *)
Definition try_catch {A : Type} (body : completion A) (handler : completion A)
  : completion A :=
  match body with
  | Normal a => Normal a
  | Throw _ => handler
  end.

(** *** [atob]

    [atob] belongs to the platform, not to the repository; this is the
    forgiving-base64 decode of the HTML standard, which it is specified
    to be.  It throws InvalidCharacterError on a string that is not
    base64. *)
Definition b64_value (c : N) : option N :=
  if ((65 <=? c) && (c <=? 90))%N then Some (c - 65)%N
  else if ((97 <=? c) && (c <=? 122))%N then Some (c - 71)%N
  else if ((48 <=? c) && (c <=? 57))%N then Some (c + 4)%N
  else if (c =? 43)%N then Some 62%N
  else if (c =? 47)%N then Some 63%N
  else None.

Fixpoint b64_values (s : jsstring) : option (list N) :=
  match s with
  | [] => Some []
  | c :: t =>
    match b64_value c, b64_values t with
    | Some v, Some vs => Some (v :: vs)
    | _, _ => None
    end
  end.

Fixpoint b64_bytes (vs : list N) : jsstring :=
  match vs with
  | a :: b :: c :: d :: rest =>
    (a * 4 + b / 16)%N :: ((b mod 16) * 16 + c / 4)%N
      :: ((c mod 4) * 64 + d)%N :: b64_bytes rest
  | [a; b; c] => [(a * 4 + b / 16)%N; ((b mod 16) * 16 + c / 4)%N]
  | [a; b] => [(a * 4 + b / 16)%N]
  | _ => []
  end.

Definition is_ascii_whitespace (c : N) : bool :=
  existsb (N.eqb c) [9; 10; 12; 13; 32]%N.

Definition strip_padding (s : jsstring) : jsstring :=
  match rev s with
  | 61%N :: 61%N :: r => rev r
  | 61%N :: r => rev r
  | _ => s
  end.

Definition atob (data : jsstring) : completion jsstring :=
  let d := filter (fun c => negb (is_ascii_whitespace c)) data in
  let d := if (length d mod 4 =? 0)%nat then strip_padding d else d in
  if (length d mod 4 =? 1)%nat then Throw "InvalidCharacterError"
  else match b64_values d with
       | Some vs => Normal (b64_bytes vs)
       | None => Throw "InvalidCharacterError"
       end.

(** *** The expressions of the source *)

Definition sp : re := RClass false [CSpace].

(** [/boundary=\x22?([^\x22\r\n]+)\x22?/i], [\x22] being the double quote *)
Definition boundary_re : re :=
  RSeqs [RLit (js "boundary="); ROpt (RChar DQUOTE);
         RGroup (RPlus (RClass true [CChar DQUOTE; CChar CR; CChar LF]));
         ROpt (RChar DQUOTE)].

(** [/content-type:\s*text\/html/i] and [/content-type:\s*text\/plain/i] *)
Definition content_type_re (t : string) : re :=
  RSeqs [RLit (js "content-type:"); RStar true sp; RLit (js t)].

(** [/content-transfer-encoding:\s*quoted-printable/i] and [.. base64/i] *)
Definition transfer_encoding_re (e : string) : re :=
  RSeqs [RLit (js "content-transfer-encoding:"); RStar true sp; RLit (js e)].

Definition CRLFCRLF : jsstring := [CR; LF; CR; LF].

(** A replacement string without [$] patterns. *)
Definition literal (s : jsstring) : MatchResult -> jsstring := fun _ => s.

(** *** [decodeQuotedPrintable] *)

Definition hex_digit : re :=
  RClass false [CRange (ch "0") (ch "9"); CRange (ch "A") (ch "F");
                CRange (ch "a") (ch "f")].

Definition hex_value (c : N) : N :=
  if ((48 <=? c) && (c <=? 57))%N then (c - 48)%N
  else if ((65 <=? c) && (c <=? 70))%N then (c - 55)%N
  else if ((97 <=? c) && (c <=? 102))%N then (c - 87)%N
  else 0%N.

(** [parseInt(hex, 16)] on the two hexadecimal digits the group holds *)
Definition parseInt16 (hex : jsstring) : N :=
  fold_left (fun acc c => (acc * 16 + hex_value c)%N) hex 0%N.

(** [(_, hex) => String.fromCharCode(parseInt(hex, 16))] *)
Definition hex_char (m : MatchResult) : jsstring :=
  match m_1 m with
  | Some hex => [(parseInt16 hex mod 65536)%N]
  | None => [0%N]
  end.

Definition decodeQuotedPrintable (input : jsstring) : jsstring :=
  (* .replace(/=\r?\n/g, '') *)
  let s := replace_all false (RSeqs [RChar (ch "="); ROpt (RChar CR); RChar LF])
                       (literal []) input in
  (* .replace(/=([0-9A-Fa-f]{2})/g, ..) *)
  replace_all false (RSeq (RChar (ch "=")) (RGroup (RExactly 2 hex_digit)))
              hex_char s.

(** *** [htmlToText] *)

(** [/<tag[^>]*>[\s\S]*?<\/tag>/gi] *)
Definition block_re (tag : string) : re :=
  RSeqs [RLit (js ("<" ++ tag)); RStar true (RClass true [CChar (ch ">")]);
         RChar (ch ">"); RStar false (RClass false [CSpace; CNonSpace]);
         RLit (js ("</" ++ tag ++ ">"))].

Definition htmlToText (html : jsstring) : jsstring :=
  let s := replace_all true (block_re "style") (literal []) html in
  let s := replace_all true (block_re "script") (literal []) s in
  (* /<br\s*\/?>/gi *)
  let s := replace_all true
             (RSeqs [RLit (js "<br"); RStar true sp; ROpt (RChar (ch "/"));
                     RChar (ch ">")]) (literal [LF]) s in
  let s := replace_all true (RLit (js "</p>")) (literal [LF; LF]) s in
  let s := replace_all true (RLit (js "</div>")) (literal [LF]) s in
  (* /<[^>]+>/g *)
  let s := replace_all false
             (RSeqs [RChar (ch "<"); RPlus (RClass true [CChar (ch ">")]);
                     RChar (ch ">")]) (literal []) s in
  let s := replace_all false (RLit (js "&nbsp;")) (literal (js " ")) s in
  let s := replace_all false (RLit (js "&amp;")) (literal (js "&")) s in
  let s := replace_all false (RLit (js "&lt;")) (literal (js "<")) s in
  let s := replace_all false (RLit (js "&gt;")) (literal (js ">")) s in
  let s := replace_all false (RLit (js "&quot;")) (literal [DQUOTE]) s in
  let s := replace_all false (RLit (js "&#39;")) (literal [SQUOTE]) s in
  (* /\n{3,}/g *)
  let s := replace_all false (RAtLeast 3 (RChar LF)) (literal [LF; LF]) s in
  trim s.

(** *** [parseMimeContent] *)

Record NormalizedBody : Type := mkBody {
  text : jsstring;
  html : option jsstring
}.

(** The transfer decoding, written twice in the source with the same
    shape: the headers are looked for in [scope] (the raw message, or
    the part) and [body] is decoded.  When [atob] throws, the [catch]
    keeps [body] as it is. *)
Definition transfer_decode (scope body : jsstring) : completion jsstring :=
  if test true (transfer_encoding_re "quoted-printable") scope then
    Normal (decodeQuotedPrintable body)
  else if test true (transfer_encoding_re "base64") scope then
    try_catch (atob (replace_all false sp (literal []) body)) (Normal body)
  else Normal body.

(** The branch without a boundary. *)
Definition parseSinglePart (raw : jsstring) : completion NormalizedBody :=
  let isHtml := test true (content_type_re "text/html") raw in
  let bodyStart := indexOf raw CRLFCRLF in
  let body := if (0 <? bodyStart)%Z then substring raw (bodyStart + 4) else raw in
  bind (transfer_decode raw body) (fun decoded =>
  if isHtml then Normal (mkBody (htmlToText decoded) (Some decoded))
  else Normal (mkBody decoded None)).

(** One round of [for (literal part of parts)] on the variables [text]
    and [html]. *)
Definition part_step (acc : jsstring * option jsstring) (part : jsstring)
  : completion (jsstring * option jsstring) :=
  if jseqb (trim part) [] || jseqb (trim part) (js "--") then Normal acc
  else
    let isTextPart := test true (content_type_re "text/plain") part in
    let isHtmlPart := test true (content_type_re "text/html") part in
    if negb isTextPart && negb isHtmlPart then Normal acc
    else
      let bodyStart := indexOf part CRLFCRLF in
      if (bodyStart <? 0)%Z then Normal acc
      else
        bind (transfer_decode part (trim (substring part (bodyStart + 4))))
             (fun content =>
        if isTextPart && negb (truthy (fst acc)) then Normal (content, snd acc)
        else if isHtmlPart then Normal (fst acc, Some content)
        else Normal acc).

Fixpoint parts_loop (parts : list jsstring) (acc : jsstring * option jsstring)
  : completion (jsstring * option jsstring) :=
  match parts with
  | [] => Normal acc
  | part :: rest => bind (part_step acc part) (parts_loop rest)
  end.

Definition truthy_opt (h : option jsstring) : bool :=
  match h with Some s => truthy s | None => false end.

(** What follows the loop: [if (!text && html) text = htmlToText(html)]
    and the [return]. *)
Definition finish (acc : jsstring * option jsstring) : NormalizedBody :=
  match acc with
  | (text, html) =>
    if negb (truthy text) && truthy_opt html
    then mkBody (match html with Some h => htmlToText h | None => text end) html
    else mkBody text html
  end.

(** The branch with a boundary. *)
Definition parseMultipart (raw boundary : jsstring) : completion NormalizedBody :=
  let parts := split raw (js "--" ++ boundary) in
  bind (parts_loop parts ([], None)) (fun acc => Normal (finish acc)).

(** [raw.match(/boundary=.../i)] and its group 1 *)
Definition boundaryMatch (raw : jsstring) : option jsstring :=
  match match_ true boundary_re raw with
  | Some m => Some (match m_1 m with Some b => b | None => js "undefined" end)
  | None => None
  end.

Definition parseMimeContent (raw : jsstring) : completion NormalizedBody :=
  match boundaryMatch raw with
  | None => parseSinglePart raw
  | Some boundary => parseMultipart raw boundary
  end.

End Mime.
Import Mime.

(** ** Declarative reading of the expressions

    [Matches ci r s s1 c c1]: [r] can match at the front of [s] and leave
    [s1], taking capture 1 from [c] to [c1].  The relation says which
    matches exist; [mrun] chooses among them by priority. *)

Module RegexSpec.

Inductive Matches (ci : bool)
  : re -> jsstring -> jsstring -> option jsstring -> option jsstring -> Prop :=
| M_eps s c : Matches ci REps s s c c
| M_char a x s c :
    canon ci x = canon ci a -> Matches ci (RChar a) (x :: s) s c c
| M_class neg items x s c :
    class_mem ci neg items x = true ->
    Matches ci (RClass neg items) (x :: s) s c c
| M_seq r1 r2 s s1 s2 c c1 c2 :
    Matches ci r1 s s1 c c1 -> Matches ci r2 s1 s2 c1 c2 ->
    Matches ci (RSeq r1 r2) s s2 c c2
| M_alt_l r1 r2 s s1 c c1 :
    Matches ci r1 s s1 c c1 -> Matches ci (RAlt r1 r2) s s1 c c1
| M_alt_r r1 r2 s s1 c c1 :
    Matches ci r2 s s1 c c1 -> Matches ci (RAlt r1 r2) s s1 c c1
| M_star_stop g r s c : Matches ci (RStar g r) s s c c
| M_star_more g r s s1 s2 c c1 c2 :
    Matches ci r s s1 c c1 -> length s1 < length s ->
    Matches ci (RStar g r) s1 s2 c1 c2 ->
    Matches ci (RStar g r) s s2 c c2
| M_group r s s1 c c1 :
    Matches ci r s s1 c c1 ->
    Matches ci (RGroup r) s s1 c (Some (firstn (length s - length s1) s))
| M_end c : Matches ci REnd [] [] c c.

(** [rx] has a match that starts at position [i] of [str]. *)
Definition matches_at (rx : RegExp) (str : jsstring) (i : nat) : Prop :=
  i <= length str /\
  exists s1 c1, Matches (ignoreCase rx) (source rx) (skipn i str) s1 None c1.

Definition matches_somewhere (rx : RegExp) (str : jsstring) : Prop :=
  exists i, matches_at rx str i.

(** Every capture group of [r] holds only strings that satisfy [P]. *)
Fixpoint groups_sat (ci : bool) (P : jsstring -> Prop) (r : re) : Prop :=
  match r with
  | RGroup r0 =>
    forall s s1 c c1, Matches ci r0 s s1 c c1 ->
                      P (firstn (length s - length s1) s)
  | RSeq r1 r2 | RAlt r1 r2 => groups_sat ci P r1 /\ groups_sat ci P r2
  | RStar _ r0 => groups_sat ci P r0
  | _ => True
  end.

(** The group takes part in every match of [r]. *)
Fixpoint always_captures (r : re) : bool :=
  match r with
  | RGroup _ => true
  | RSeq r1 r2 => always_captures r1 || always_captures r2
  | RAlt r1 r2 => always_captures r1 && always_captures r2
  | _ => false
  end.

(** Every match of [r] consumes at least one code unit. *)
Fixpoint consumes (r : re) : bool :=
  match r with
  | RChar _ | RClass _ _ => true
  | RSeq r1 r2 => consumes r1 || consumes r2
  | RAlt r1 r2 => consumes r1 && consumes r2
  | RGroup r0 => consumes r0
  | _ => false
  end.

End RegexSpec.
Import RegexSpec.

(** ** Vocabulary of the extractor's specification *)

Module ExtractorSpec.

Definition is_digit (c : N) : bool := ((48 <=? c) && (c <=? 57))%N.

(** A verification code: four to eight decimal digits. *)
Definition is_code (c : jsstring) : Prop :=
  4 <= length c <= 8 /\ Forall (fun x => is_digit x = true) c.

(** The first pattern of [pats], in their order, that matches somewhere
    in [content] decides, with what its leftmost match captured. *)
Fixpoint first_code (pats : list RegExp) (content : jsstring)
  : option jsstring :=
  match pats with
  | [] => None
  | p :: rest =>
    match group1 (search (ignoreCase p) (source p) content 0) with
    | Some c => Some c
    | None => first_code rest content
    end
  end.

(** [x] is a contiguous piece of [s]. *)
Definition slice_of (x s : jsstring) : Prop :=
  exists a b, s = a ++ x ++ b.

(** The punctuation the link clean-up removes: . , ; : ! ? ) ] } > *)
Definition is_punct (c : N) : bool :=
  existsb (N.eqb c) (js ".,;:!?)]}>").

(** [u] does not end with punctuation. *)
Definition no_trailing_punct (u : jsstring) : Prop :=
  forall v x, u = v ++ [x] -> is_punct x = false.

(** The matches of an expression in [s] in order of appearance, each
    search resuming where the previous match ended. *)
Fixpoint all_matches (fuel : nat) (ci : bool) (r : re) (s : jsstring)
  : list jsstring :=
  match fuel with
  | O => []
  | S fuel' =>
    match search ci r s 0 with
    | None => []
    | Some m => m_0 m :: all_matches fuel' ci r (skipn (m_end m) s)
    end
  end.

(** [ms] are matches of the expression in [s] in order of appearance:
    each starts at the leftmost place, after the end of the one before,
    where the expression matches, and after the last one it matches
    nowhere. *)
Inductive in_order_of_appearance (ci : bool) (r : re)
  : jsstring -> list jsstring -> Prop :=
| scan_done s :
    (forall j, j <= length s ->
               forall s1 c1, ~ Matches ci r (skipn j s) s1 None c1) ->
    in_order_of_appearance ci r s []
| scan_next pre w rest c1 ms :
    Matches ci r (w ++ rest) rest None c1 ->
    (forall j, j < length pre ->
               forall s1 c1, ~ Matches ci r (skipn j (pre ++ w ++ rest)) s1 None c1) ->
    in_order_of_appearance ci r rest ms ->
    in_order_of_appearance ci r (pre ++ w ++ rest) (w :: ms).

Definition matches_of (rx : RegExp) (content : jsstring) : list jsstring :=
  all_matches (S (length content)) (ignoreCase rx) (source rx) content.

(** Category by category, and in order of appearance within each. *)
Definition link_candidates (content : jsstring) : list jsstring :=
  flat_map (fun rx => map clean_url (matches_of rx content)) linkPatterns.

(** Each string once, at the place of its first occurrence. *)
Fixpoint dedup (l : list jsstring) : list jsstring :=
  match l with
  | [] => []
  | x :: t => x :: filter (fun y => negb (jseqb x y)) (dedup t)
  end.

Definition nonempty_or_null (l : list jsstring) : option (list jsstring) :=
  match l with [] => None | _ => Some l end.

(** What identifies a RegExp object apart from its position. *)
Definition shape (rx : RegExp) : re * bool := (source rx, ignoreCase rx).

(** A code pattern: its group holds codes only and takes part in every
    match. *)
Definition code_pattern_ok (rx : RegExp) : Prop :=
  groups_sat (ignoreCase rx) is_code (source rx) /\
  always_captures (source rx) = true.

(** [links.add] for each of [urls] in turn. *)
Definition add_all (urls set : list jsstring) : list jsstring :=
  fold_left (fun acc u => set_add u acc) urls set.

(** [links.has(u)] *)
Definition memb (u : jsstring) (set : list jsstring) : bool :=
  existsb (jseqb u) set.

End ExtractorSpec.
Import ExtractorSpec.

(** ** Vocabulary of the normalizer's specification *)

Module MimeSpec.

Local Open Scope string_scope.
Local Open Scope list_scope.

(** An input written with bare newlines, each turned into CR LF. *)
Definition crlf (s : string) : jsstring :=
  flat_map (fun c => if (c =? LF)%N then [CR; LF] else [c]) (js s).

(** [p] occurs in [s]. *)
Definition occurs (p s : jsstring) : Prop := exists a b, s = a ++ p ++ b.

(** The headers of a raw message: what precedes the first blank line. *)
Definition headers_of (raw : jsstring) : jsstring :=
  let i := indexOf raw CRLFCRLF in
  if (i <? 0)%Z then raw else firstn (Z.to_nat i) raw.

(** A part of a multipart message that the loop does not pass over:
    what it declares and its decoded content. *)
Record Segment : Type := mkSegment {
  isText : bool;
  isHtml : bool;
  decoded : jsstring
}.

Definition declares_plain (part : jsstring) : bool :=
  test true (content_type_re "text/plain") part.
Definition declares_html (part : jsstring) : bool :=
  test true (content_type_re "text/html") part.

Definition decoded_body (scope body : jsstring) : jsstring :=
  match transfer_decode scope body with
  | Normal d => d
  | Throw _ => body
  end.

Definition segment_of (part : jsstring) : option Segment :=
  if jseqb (trim part) [] || jseqb (trim part) (js "--") then None
  else if negb (declares_plain part) && negb (declares_html part) then None
  else if (indexOf part CRLFCRLF <? 0)%Z then None
  else Some (mkSegment (declares_plain part) (declares_html part)
               (decoded_body part
                  (trim (substring part (indexOf part CRLFCRLF + 4))))).

Fixpoint segments_of (parts : list jsstring) : list Segment :=
  match parts with
  | [] => []
  | part :: rest =>
    match segment_of part with
    | Some sg => sg :: segments_of rest
    | None => segments_of rest
    end
  end.

Definition segments (raw boundary : jsstring) : list Segment :=
  segments_of (split raw (js "--" ++ boundary)).

(** The effect of a segment on [text] and [html]. *)
Definition seg_step (acc : jsstring * option jsstring) (sg : Segment)
  : jsstring * option jsstring :=
  if isText sg && negb (truthy (fst acc)) then (decoded sg, snd acc)
  else if isHtml sg then (fst acc, Some (decoded sg))
  else acc.

(** The first segment that declares text/plain and has content. *)
Definition first_text (segs : list Segment) : option Segment :=
  find (fun sg => isText sg && truthy (decoded sg)) segs.

(** The last segment that declares text/html. *)
Definition last_html (segs : list Segment) : option Segment :=
  find isHtml (rev segs).

Definition boundary_rx : RegExp := mkRegExp boundary_re true 0.

(** Equality up to the case of ASCII letters. *)
Definition eq_nocase (a b : jsstring) : Prop := map toUpper a = map toUpper b.

(** A code unit that a boundary value can hold. *)
Definition boundary_char (c : N) : Prop := c <> DQUOTE /\ c <> CR /\ c <> LF.

(** The text holds [boundary=], in any case, followed by a value, with
    or without a double quote before it. *)
Definition has_boundary_param (raw : jsstring) : Prop :=
  exists pre kw q c rest,
    raw = pre ++ kw ++ q ++ c :: rest /\
    eq_nocase kw (js "boundary=") /\
    (q = [] \/ q = [DQUOTE]) /\
    boundary_char c.

(** *** Messages used as examples *)

(** Two text/plain parts, the first with an empty body. *)
Definition msg_empty_first_plain : jsstring := crlf
"Content-Type: multipart/mixed; boundary=XYZ

--XYZ
Content-Type: text/plain


--XYZ
Content-Type: text/plain

Second
--XYZ--
".

(** One part that declares text/html and, in another header, names
    text/plain too. *)
Definition msg_both_types : jsstring := crlf
"Content-Type: multipart/mixed; boundary=XYZ

--XYZ
Content-Type: text/html
X-Original-Content-Type: text/plain

<p>Hello</p>
--XYZ--
".

(** Two text/plain and two text/html parts. *)
Definition msg_two_of_each : jsstring := crlf
"Content-Type: multipart/alternative; boundary=XYZ

--XYZ
Content-Type: text/plain

First plain
--XYZ
Content-Type: text/html

<p>First html</p>
--XYZ
Content-Type: text/plain

Second plain
--XYZ
Content-Type: text/html

<p>Last html</p>
--XYZ--
".

(** A message without a Content-Type header whose body names a
    boundary. *)
Definition msg_boundary_in_body : jsstring := crlf
"Subject: hi

set boundary=1 please".

(** An HTML part only. *)
Definition msg_html_only : jsstring := crlf
"Content-Type: multipart/alternative; boundary=XYZ

--XYZ
Content-Type: text/html

<p>Your code is <b>123456</b></p>
--XYZ--
".

(** A part whose headers and body are separated by bare LF. *)
Definition msg_bare_lf_part : jsstring :=
  crlf "Content-Type: multipart/mixed; boundary=XYZ

--XYZ" ++ js "
Content-Type: text/plain

Lost body
" ++ crlf "--XYZ--
".

(** A body announced as base64 that is not base64. *)
Definition msg_bad_base64 : jsstring := crlf
"Content-Type: text/plain
Content-Transfer-Encoding: base64

!!not base64!!".

(** No blank line at all. *)
Definition msg_no_separator : jsstring := js "just one line of text".

End MimeSpec.
Import MimeSpec.

(* ================================================================== *)
(** * Part I, continued: the code around the extractor and the
      normalizer *)
(* ================================================================== *)

(** ** Mailbox names ([src/utils/names.ts]) *)

Module Names.

Local Open Scope string_scope.
Local Open Scope list_scope.

Definition adjectives : list jsstring := map js [
  "swift"; "bright"; "calm"; "bold"; "warm"; "cool"; "kind"; "wise";
  "keen"; "fair"; "pure"; "true"; "free"; "wild"; "soft"; "deep";
  "clear"; "fresh"; "light"; "quick"; "sharp"; "smart"; "proud"; "brave";
  "gentle"; "happy"; "lucky"; "merry"; "noble"; "quiet"; "royal"; "sunny";
  "vivid"; "witty"; "zesty"; "agile"; "clever"; "daring"; "eager"; "fancy"
].

Definition nouns : list jsstring := map js [
  "coral"; "river"; "cloud"; "spark"; "flame"; "bloom"; "frost"; "storm";
  "stone"; "maple"; "cedar"; "ocean"; "pearl"; "amber"; "crystal"; "ember";
  "forest"; "garden"; "harbor"; "island"; "jungle"; "meadow"; "mountain"; "prairie";
  "rainbow"; "shadow"; "sunset"; "thunder"; "valley"; "whisper"; "zenith"; "aurora";
  "breeze"; "canyon"; "delta"; "echo"; "falcon"; "glacier"; "horizon"; "ivy"
].

(** [String(n)] for a natural number (below 10^21, where JavaScript
    changes to the exponent notation): its decimal digits. *)
Fixpoint decimal_digits (fuel n : nat) : jsstring :=
  match fuel with
  | O => []
  | S fuel' =>
    if (n <? 10)%nat then [N.of_nat (48 + n)]
    else decimal_digits fuel' (n / 10) ++ [N.of_nat (48 + n mod 10)]
  end.

Definition String_of_nat (n : nat) : jsstring := decimal_digits (S n) n.

(** [arr[i]] in a template literal: an index out of range gives
    [undefined], printed as such. *)
Definition element (arr : list jsstring) (i : nat) : jsstring :=
  nth i arr (js "undefined").

(** [generateEmailName], the three values of
    [Math.floor(Math.random() * n)] being its arguments: each lies
    between 0 and [n - 1], [n] being 40, 40 and 100. *)
Definition generateEmailName (i j num : nat) : jsstring :=
  element adjectives i ++ js "-" ++ element nouns j ++ js "-" ++ String_of_nat num.

(** [[a-z0-9_-]{3,30}$] *)
Definition name_re : re :=
  RSeq (RRange 3 30 (RClass false [CRange (ch "a") (ch "z");
                                   CRange (ch "0") (ch "9");
                                   CChar (ch "_"); CChar (ch "-")]))
       REnd.

(** [rx.test(str)] for an expression that begins with [^] and has
    neither the [g] nor the [m] flag: [^] holds at position 0 only, so
    the search can succeed there and nowhere else. *)
Definition test_anchored (ci : bool) (r : re) (str : jsstring) : bool :=
  match match_here ci r str with Some _ => true | None => false end.

(** [/^[a-z0-9_-]{3,30}$/.test(name)] *)
Definition isValidName (name : jsstring) : bool :=
  test_anchored false name_re name.

End Names.
Import Names.

(** ** Vocabulary for the replacements *)

Module ReplaceSpec.

(** Every match of [r] begins with the code unit [a], in either case
    when the expression ignores case. *)
Fixpoint starts_with_char (a : N) (r : re) : bool :=
  match r with
  | RChar b => (b =? a)%N
  | RSeq r1 _ => starts_with_char a r1
  | RAlt r1 r2 => starts_with_char a r1 && starts_with_char a r2
  | RGroup r0 => starts_with_char a r0
  | _ => false
  end.

(** The replacement function looks at what was matched and captured,
    not at where. *)
Definition position_free (f : MatchResult -> jsstring) : Prop :=
  forall m i e, f (mkMatch i e (m_0 m) (m_1 m)) = f m.

(** The upper-case hexadecimal digit of a value below 16. *)
Definition hex_digit_of (v : N) : N :=
  if (v <? 10)%N then (48 + v)%N else (55 + v)%N.

(** The quoted-printable escape of a byte: = and two hexadecimal
    digits. *)
Definition qp_escape (b : N) : jsstring :=
  [61%N; hex_digit_of (b / 16); hex_digit_of (b mod 16)].

(** A quoted-printable encoder that breaks no line: the bytes that
    [plain] selects, the equals sign never among them, stand for
    themselves and the others are escaped. *)
Definition qp_encode (plain : N -> bool) (bytes : list N) : jsstring :=
  flat_map (fun b => if plain b && negb (b =? 61)%N then [b] else qp_escape b)
           bytes.

(** The number of newlines [s] begins with. *)
Fixpoint leading_newlines (s : jsstring) : nat :=
  match s with
  | c :: t => if (c =? LF)%N then S (leading_newlines t) else 0
  | [] => 0
  end.

(** [s] without the newlines it begins with. *)
Fixpoint drop_newlines (s : jsstring) : jsstring :=
  match s with
  | c :: t => if (c =? LF)%N then drop_newlines t else s
  | [] => []
  end.

(** Neither the first nor the last code unit of [s] is white space. *)
Definition trimmed (s : jsstring) : Prop :=
  (forall c t, s = c :: t -> is_space c = false) /\
  (forall t c, s = t ++ [c] -> is_space c = false).

End ReplaceSpec.
Import ReplaceSpec.

(** ** Vocabulary for the shape of links *)

Module LinkSpec.

(** No item of [excluded] holds [c]. *)
Definition outside (excluded : list citem) (c : N) : bool :=
  negb (existsb (fun it => item_mem it c) excluded).

(** [c] and its two cases are outside. *)
Definition outside_any_case (excluded : list citem) (c : N) : bool :=
  outside excluded c && outside excluded (toUpper c)
  && outside excluded (toLower c).

(** The code units from [lo] to [hi]. *)
Definition code_units (lo hi : N) : list N :=
  map (fun k => (lo + N.of_nat k)%N) (seq 0 (S (N.to_nat (hi - lo)))).

Definition citem_eqb (a b : citem) : bool :=
  match a, b with
  | CChar x, CChar y => (x =? y)%N
  | CRange l1 h1, CRange l2 h2 => ((l1 =? l2) && (h1 =? h2))%N
  | CSpace, CSpace | CNonSpace, CNonSpace | CDigit, CDigit => true
  | _, _ => false
  end.

(** Every code unit the item holds, in either case, is outside. *)
Definition item_outside (excluded : list citem) (it : citem) : bool :=
  match it with
  | CChar a => outside_any_case excluded a
  | CRange lo hi => forallb (outside_any_case excluded) (code_units lo hi)
  | CDigit => forallb (outside_any_case excluded) (code_units 48 57)
  | CSpace | CNonSpace => false
  end.

(** A sufficient condition for [r] to match only strings whose code
    units are all outside [excluded]: a class that is negated has to
    name every excluded item. *)
Fixpoint avoids (excluded : list citem) (r : re) : bool :=
  match r with
  | REps | REnd => true
  | RChar a => outside_any_case excluded a
  | RClass false items => forallb (item_outside excluded) items
  | RClass true items =>
    forallb (fun e => existsb (citem_eqb e) items) excluded
  | RSeq r1 r2 | RAlt r1 r2 => avoids excluded r1 && avoids excluded r2
  | RStar _ r0 | RGroup r0 => avoids excluded r0
  end.

(** A sufficient condition for every match of [r] to hold a code unit
    outside [excluded]. *)
Fixpoint holds_outside (excluded : list citem) (r : re) : bool :=
  match r with
  | RChar a => outside_any_case excluded a
  | RClass false items => forallb (item_outside excluded) items
  | RSeq r1 r2 => holds_outside excluded r1 || holds_outside excluded r2
  | RAlt r1 r2 => holds_outside excluded r1 && holds_outside excluded r2
  | RGroup r0 => holds_outside excluded r0
  | _ => false
  end.

(** What a URL of the link patterns cannot hold: white space, the
    angle brackets and the double quote. *)
Definition url_excluded : list citem :=
  [CSpace; CChar 60%N; CChar 62%N; CChar DQUOTE].

(** The punctuation of the clean-up, as class items. *)
Definition punct_items : list citem := map CChar (js ".,;:!?)]}>").

(** [http://] or [https://] in any case, and something behind it. *)
Definition has_scheme (u : jsstring) : Prop :=
  exists h rest,
    u = h ++ rest /\ rest <> [] /\
    (eq_nocase h (js "http://") \/ eq_nocase h (js "https://")).

(** A link pattern: the scheme, then an expression [r]. *)
Definition after_scheme (r : re) : re :=
  RSeq (RLit (js "http"))
       (RSeq (ROpt (RChar (ch "s"))) (RSeq (RLit (js "://")) r)).

(** The module after a call that found the code of "Code: 123456". *)
Definition after_code_call : Patterns :=
  match extractData loaded (js "Code: 123456") None with
  | Some (_, st) => st
  | None => loaded
  end.

End LinkSpec.
Import LinkSpec.

(** ** Further vocabulary for the normalizer *)

Module NormalizerSpec.

(** What follows the boundary value, less the closing double quote if
    there is one. *)
Definition after_value (rest : jsstring) : jsstring :=
  match rest with
  | c :: t => if (canon true c =? canon true DQUOTE)%N then t else rest
  | [] => []
  end.



(** A boundary parameter starts at position [i] of the text:
    [boundary=], in any case, and a value, with or without a double
    quote before it. *)
Definition boundary_param_at (raw : jsstring) (i : nat) : Prop :=
  exists pre kw q c rest,
    raw = pre ++ kw ++ q ++ c :: rest /\
    length pre = i /\
    eq_nocase kw (js "boundary=") /\
    (q = [] \/ q = [DQUOTE]) /\
    boundary_char c.

(** [text] is still empty after the segments [before]: none of them
    declares text/plain and has content. *)
Definition text_open (before : list Segment) : bool :=
  forallb (fun sg => negb (isText sg && truthy (decoded sg))) before.

(** The segment [sg], which comes after the segments [before], is taken
    as the text: it declares text/plain and [text] is still empty. *)
Definition taken_as_text (before : list Segment) (sg : Segment) : bool :=
  isText sg && text_open before.

(** It is taken as the html: it declares text/html and is not taken as
    the text. *)
Definition taken_as_html (before : list Segment) (sg : Segment) : bool :=
  isHtml sg && negb (taken_as_text before sg).

(** The segments of [segs] taken as the html, in their order; [before]
    are the segments that come before [segs]. *)
Fixpoint html_segments (before segs : list Segment) : list Segment :=
  match segs with
  | [] => []
  | sg :: rest =>
    (if taken_as_html before sg then [sg] else [])
    ++ html_segments (before ++ [sg]) rest
  end.

(** The last segment that is taken as the html. *)
Definition last_taken_html (segs : list Segment) : option Segment :=
  hd_error (rev (html_segments [] segs)).

(** *** Further messages used as examples *)

Local Open Scope string_scope.

(** Two text/html parts, the last of which names text/plain in another
    header. *)
Definition msg_last_html_names_plain : jsstring := crlf
"Content-Type: multipart/alternative; boundary=XYZ

--XYZ
Content-Type: text/html

<p>First</p>
--XYZ
Content-Type: text/html
X-Original-Content-Type: text/plain

<p>Last</p>
--XYZ--
".

(** A text/plain part, a text/html part that names text/plain too, and
    a text/html part. *)
Definition msg_plain_then_two_html : jsstring := crlf
"Content-Type: multipart/alternative; boundary=XYZ

--XYZ
Content-Type: text/plain

Plain
--XYZ
Content-Type: text/html
X-Original-Content-Type: text/plain

<p>Middle</p>
--XYZ
Content-Type: text/html

<p>Last</p>
--XYZ--
".

(** A text/plain message, not multipart, whose body quotes a header. *)
Definition msg_plain_quotes_html : jsstring := crlf
"Content-Type: text/plain

Send it with Content-Type: text/html please".

(** Two text/plain parts, the second of which quotes a header. *)
Definition msg_plain_part_quotes_html : jsstring := crlf
"Content-Type: multipart/mixed; boundary=XYZ

--XYZ
Content-Type: text/plain

Hello
--XYZ
Content-Type: text/plain

Send it with Content-Type: text/html please
--XYZ--
".

(** An attachment and no text part. *)
Definition msg_attachment_only : jsstring := crlf
"Content-Type: multipart/mixed; boundary=XYZ

--XYZ
Content-Type: application/pdf
Content-Transfer-Encoding: base64

JVBERi0=
--XYZ--
".

(** A message with a From header only, whose body is the word
    boundary, an equals sign and a letter. *)
Definition msg_boundary_word_in_body : jsstring := crlf
"From: a@b.c

boundary=x".

(** A message that begins with the blank line. *)
Definition msg_separator_first : jsstring := crlf
"

Body after a blank line".

End NormalizerSpec.
Import NormalizerSpec.

(** ** Vocabulary for the mailbox names *)

Module NamesSpec.

(** A lower-case letter, a digit, an underscore or a hyphen. *)
Definition is_name_char (c : N) : bool :=
  ((97 <=? c) && (c <=? 122))%N || ((48 <=? c) && (c <=? 57))%N
  || (c =? 95)%N || (c =? 45)%N.

End NamesSpec.
Import NamesSpec.

(** ** The records of [src/types.ts] *)

Module Types.

Record Mailbox : Type := mkMailbox {
  email : jsstring;
  name : jsstring;
  tokenHash : jsstring;
  createdAt : Z;
  lastActivity : Z
}.

Record Email : Type := mkEmail {
  id : jsstring;
  mailboxName : jsstring;
  from : jsstring;
  fromName : option jsstring;
  to : jsstring;
  subject : jsstring;
  bodyText : jsstring;
  bodyHtml : option jsstring;
  receivedAt : Z;
  read : bool;
  size : nat
}.

Record EmailSummary : Type := mkSummary {
  s_id : jsstring;
  s_from : jsstring;
  s_subject : jsstring;
  s_receivedAt : Z;
  s_read : bool
}.

End Types.

(** ** Workers KV *)

Module Kv.

(** A namespace whose values are of type [V]: for each key that is
    present, its value and, when it was written with [expirationTtl],
    the time in seconds at which it expires. *)
Definition KVNamespace (V : Type) : Type := jsstring -> option (V * option N).

Definition empty (V : Type) : KVNamespace V := fun _ => None.

(** [kv.get(key)] at the time [now] *)
Definition get (V : Type) (kv : KVNamespace V) (now : N) (key : jsstring)
  : option V :=
  match kv key with
  | Some (v, Some expiration) =>
    if (now <? expiration)%N then Some v else None
  | Some (v, None) => Some v
  | None => None
  end.

(** [kv.put(key, value)] and [kv.put(key, value, { expirationTtl })] at
    the time [now] *)
Definition put (V : Type) (kv : KVNamespace V) (now : N) (key : jsstring)
  (v : V) (expirationTtl : option N) : KVNamespace V :=
  fun k =>
    if jseqb k key
    then Some (v, option_map (fun ttl => (now + ttl)%N) expirationTtl)
    else kv k.

(** [kv.delete(key)] *)
Definition delete (V : Type) (kv : KVNamespace V) (key : jsstring)
  : KVNamespace V :=
  fun k => if jseqb k key then None else kv k.

End Kv.

(** ** The KV store ([src/store-kv.ts]) *)

Module StoreKv.

Import Types Kv.

Local Open Scope string_scope.
Local Open Scope list_scope.

(** What a key of the store holds.  The store writes its records with
    [JSON.stringify] and reads them back with [JSON.parse], which gives
    back what was written: a value is kept as the record it encodes. *)
Inductive Value : Type :=
| VMailbox (m : Mailbox)
| VEmail (e : Email)
| VIds (ids : list jsstring)
| VString (s : jsstring).

Definition KVStore : Type := KVNamespace Value.

Definition MAILBOX_PREFIX : jsstring := js "mailbox:".
Definition TOKEN_PREFIX : jsstring := js "token:".
Definition EMAIL_PREFIX : jsstring := js "email:".
Definition EMAIL_LIST_PREFIX : jsstring := js "emails:".

(** The methods of the class [Store].  [retentionMs] is the field of
    that name, a natural number; [now] is the time of the namespace in
    seconds and [dateNow] the value of [Date.now()] while the method
    runs. *)
Section Store.
Variable retentionMs : N.
Variable now : N.
Variable dateNow : Z.

(** [Math.ceil(this.retentionMs / 1000)] *)
Definition expirationTtl : N := ((retentionMs + 999) / 1000)%N.

Definition createMailbox (kv : KVStore) (name tokenHash domain : jsstring)
  : Mailbox * KVStore :=
  let mailbox := mkMailbox (name ++ js "@" ++ domain) name tokenHash
                           dateNow dateNow in
  let kv := put kv now (MAILBOX_PREFIX ++ name) (VMailbox mailbox) None in
  let kv := put kv now (TOKEN_PREFIX ++ tokenHash) (VString name) None in
  let kv := put kv now (EMAIL_LIST_PREFIX ++ name) (VIds []) None in
  (mailbox, kv).

(** [data ? JSON.parse(data) : null]; the key never holds anything but
    a mailbox. *)
Definition getMailboxByName (kv : KVStore) (name : jsstring)
  : option Mailbox :=
  match get kv now (MAILBOX_PREFIX ++ name) with
  | Some (VMailbox m) => Some m
  | _ => None
  end.

Definition getMailboxByToken (kv : KVStore) (tokenHash : jsstring)
  : option Mailbox :=
  match get kv now (TOKEN_PREFIX ++ tokenHash) with
  | Some (VString name) =>
    if truthy name then getMailboxByName kv name else None
  | _ => None
  end.

Definition nameExists (kv : KVStore) (name : jsstring) : bool :=
  match getMailboxByName kv name with Some _ => true | None => false end.

Definition updateLastActivity (kv : KVStore) (name : jsstring)
  : KVStore :=
  match getMailboxByName kv name with
  | Some m =>
    put kv now (MAILBOX_PREFIX ++ name)
        (VMailbox (mkMailbox (Types.email m) (Types.name m) (tokenHash m)
                             (createdAt m) dateNow))
        None
  | None => kv
  end.

(** [listData ? JSON.parse(listData) : []] *)
Definition emailIds_of (kv : KVStore) (listKey : jsstring)
  : list jsstring :=
  match get kv now listKey with
  | Some (VIds ids) => ids
  | _ => []
  end.

Definition maxEmails : nat := 100.

Definition storeEmail (kv : KVStore) (email : Email) : KVStore :=
  let kv := put kv now (EMAIL_PREFIX ++ id email) (VEmail email)
                (Some expirationTtl) in
  let listKey := EMAIL_LIST_PREFIX ++ mailboxName email in
  (* emailIds.unshift(email.id) *)
  let emailIds := id email :: emailIds_of kv listKey in
  (* if (emailIds.length > maxEmails) emailIds.splice(maxEmails) *)
  let emailIds :=
    if (maxEmails <? length emailIds)%nat then firstn maxEmails emailIds
    else emailIds in
  let kv := put kv now listKey (VIds emailIds) None in
  updateLastActivity kv (mailboxName email).

Definition getEmail (kv : KVStore) (id : jsstring) : option Email :=
  match get kv now (EMAIL_PREFIX ++ id) with
  | Some (VEmail e) => Some e
  | _ => None
  end.

(** [email.read = true] *)
Definition set_read (e : Email) : Email :=
  mkEmail (id e) (mailboxName e) (from e) (fromName e) (to e) (subject e)
          (bodyText e) (bodyHtml e) (receivedAt e) true (size e).

Definition markEmailRead (kv : KVStore) (id : jsstring) : KVStore :=
  match getEmail kv id with
  | Some email =>
    put kv now (EMAIL_PREFIX ++ id) (VEmail (set_read email))
        (Some expirationTtl)
  | None => kv
  end.

Definition deleteEmail (kv : KVStore) (id mailboxName : jsstring)
  : bool * KVStore :=
  match getEmail kv id with
  | None => (false, kv)
  | Some email =>
    if negb (jseqb (Types.mailboxName email) mailboxName) then (false, kv)
    else
      let kv := delete kv (EMAIL_PREFIX ++ id) in
      let listKey := EMAIL_LIST_PREFIX ++ mailboxName in
      match get kv now listKey with
      | Some (VIds emailIds) =>
        (* emailIds.filter(eid => eid !== id) *)
        let filtered := filter (fun eid => negb (jseqb eid id)) emailIds in
        (true, put kv now listKey (VIds filtered) None)
      | _ => (true, kv)
      end
  end.

Definition summary (e : Email) : EmailSummary :=
  mkSummary (id e) (from e) (subject e) (receivedAt e) (read e).

(** The loop of [getInbox] over the listed ids: the summaries of the
    emails that are still there and the number of unread ones. *)
Fixpoint inbox_loop (kv : KVStore) (emailIds : list jsstring)
  : list EmailSummary * nat :=
  match emailIds with
  | [] => ([], 0)
  | id :: rest =>
    let (validEmails, unread) := inbox_loop kv rest in
    match getEmail kv id with
    | Some email =>
      (summary email :: validEmails,
       if read email then unread else S unread)
    | None => (validEmails, unread)
    end
  end.

(** The numbers that reach [getInbox].  Its callers pass constants and
    results of [parseInt] and [Math.min]: NaN, an infinity, or a number
    without a fractional part, kept here as the integer it is.  The sum
    of two such numbers is taken exactly; JavaScript rounds a sum beyond
    2^53 in absolute value to a number that is again beyond 2^53 on the
    same side, or to an infinity, and [slice] brings both to the same
    end of the array, which is shorter than that. *)
Inductive number : Type :=
| NaN
| NegInfinity
| PosInfinity
| Int (z : Z).

(** [a + b] *)
Definition num_add (a b : number) : number :=
  match a, b with
  | NaN, _ | _, NaN => NaN
  | PosInfinity, NegInfinity | NegInfinity, PosInfinity => NaN
  | PosInfinity, _ | _, PosInfinity => PosInfinity
  | NegInfinity, _ | _, NegInfinity => NegInfinity
  | Int x, Int y => Int (x + y)
  end.

(** What [Array.prototype.slice] makes of one of its arguments, for an
    array of length [len]: [ToIntegerOrInfinity], which takes NaN to 0;
    then a negative index counts from the end, and the result is kept
    between 0 and [len]. *)
Definition relative_index (len : nat) (n : number) : nat :=
  match n with
  | NaN => 0
  | NegInfinity => 0
  | PosInfinity => len
  | Int z =>
    if (z <? 0)%Z then Z.to_nat (Z.max (Z.of_nat len + z) 0)
    else Nat.min (Z.to_nat z) len
  end.

(** [arr.slice(start, end)]: the elements from the index that [start]
    gives up to, and without, the one that [end] gives; none when the
    latter is not beyond the former. *)
Definition slice (A : Type) (arr : list A) (start end_ : number) : list A :=
  let k := relative_index (length arr) start in
  let final := relative_index (length arr) end_ in
  firstn (final - k) (skipn k arr).

Record Inbox : Type := mkInbox {
  emails : list EmailSummary;
  total : nat;
  unread : nat
}.

Definition getInbox (kv : KVStore) (mailboxName : jsstring)
  (limit offset : number) : Inbox * KVStore :=
  let listKey := EMAIL_LIST_PREFIX ++ mailboxName in
  let emailIds := emailIds_of kv listKey in
  let (validEmails, unread) := inbox_loop kv emailIds in
  let kv :=
    if negb (length validEmails =? length emailIds)%nat
    then put kv now listKey (VIds (map s_id validEmails)) None
    else kv in
  (mkInbox (slice validEmails offset (num_add offset limit))
           (length validEmails) unread, kv).

(** The loop of [getStats] over the listed ids, which adds up the sizes
    of the emails that are still there. *)
Fixpoint size_loop (kv : KVStore) (emailIds : list jsstring)
  (totalSize : nat) : nat :=
  match emailIds with
  | [] => totalSize
  | id :: rest =>
    size_loop kv rest
      match getEmail kv id with
      | Some email => totalSize + size email
      | None => totalSize
      end
  end.

Record Stats : Type := mkStats {
  totalEmails : nat;
  unreadEmails : nat;
  totalSize : nat
}.

Definition getStats (kv : KVStore) (mailboxName : jsstring)
  : Stats * KVStore :=
  let (inbox, kv) := getInbox kv mailboxName (Int 1000) (Int 0) in
  let totalSize :=
    match get kv now (EMAIL_LIST_PREFIX ++ mailboxName) with
    | Some (VIds emailIds) => size_loop kv emailIds 0
    | _ => 0
    end in
  (mkStats (total inbox) (unread inbox) totalSize, kv).

End Store.

End StoreKv.

(** ** Vocabulary for the store *)

Module StoreSpec.

Import Types Kv StoreKv.

Local Open Scope string_scope.
Local Open Scope list_scope.

(** An email is stored under [id] at the time [now]. *)
Definition present (now : N) (kv : KVStore) (id : jsstring) : bool :=
  match getEmail now kv id with Some _ => true | None => false end.

(** Every email is stored under the key of its own id, as [storeEmail]
    and [markEmailRead] write it. *)
Definition keyed_by_id (now : N) (kv : KVStore) : Prop :=
  forall i e, getEmail now kv i = Some e -> id e = i.

(** The size of the email stored under [id], if there is one. *)
Definition stored_size (now : N) (kv : KVStore) (id : jsstring) : nat :=
  match getEmail now kv id with Some e => size e | None => 0 end.

(** An email is stored under [id] and has not been read. *)
Definition is_unread (now : N) (kv : KVStore) (id : jsstring) : bool :=
  match getEmail now kv id with Some e => negb (read e) | None => false end.

(** The ids listed for a mailbox. *)
Definition listed (now : N) (kv : KVStore) (mailboxName : jsstring)
  : list jsstring :=
  emailIds_of now kv (EMAIL_LIST_PREFIX ++ mailboxName).

(** Two emails used as examples. *)
Definition email_a : Email :=
  mkEmail (js "a1") (js "swift-coral-42") (js "noreply@example.com") None
          (js "swift-coral-42@mailcat.ai") (js "Your code")
          (js "Code: 123456") None 1000 false 120.

Definition email_b : Email :=
  mkEmail (js "b2") (js "calm-river-7") (js "noreply@example.com") None
          (js "calm-river-7@mailcat.ai") (js "Welcome")
          (js "Verify: https://a.io/verify?t=1") None 2000 false 140.

(** A store that holds both, received at the times 5 and 6, with a
    retention of one hour. *)
Definition two_emails : KVStore :=
  storeEmail 3600000 6 2000 (storeEmail 3600000 5 1000 (Kv.empty Value) email_a) email_b.

End StoreSpec.

(** ** The inbox handlers ([src/handlers/inbox.ts]) *)

Module InboxHandlers.

Import Types.

Local Open Scope string_scope.
Local Open Scope list_scope.

(** The methods of [IStore] that the handlers of single emails call,
    on a store in the state [S]. *)
Record IStore (S : Type) : Type := mkStore {
  getEmail : S -> jsstring -> option Email;
  markEmailRead : S -> jsstring -> S;
  deleteEmail : S -> jsstring -> jsstring -> bool * S
}.

(** The object [agentHints], by the keys that the handler sets. *)
Record AgentHints : Type := mkHints {
  suggestion : option jsstring;
  tip : option jsstring;
  nextSteps : option (list jsstring)
}.

(** [data.email] of the response of [handleGetEmail] *)
Record EmailData : Type := mkEmailData {
  d_id : jsstring;
  d_from : jsstring;
  d_fromName : option jsstring;
  d_to : jsstring;
  d_subject : jsstring;
  d_text : jsstring;
  d_html : option jsstring;
  d_receivedAt : jsstring;
  d_size : nat
}.

(** A response, by what the handler gives to [error], [json] or
    [noContent], which add the same headers to each. *)
Inductive Response : Type :=
| ErrorResponse (code detail : jsstring) (status : nat)
| NoContent
| EmailResponse (email : EmailData) (code : option jsstring)
                (links : option (list jsstring)) (meta : option AgentHints).

Section Handlers.
Variable S : Type.
Variable store : IStore S.
(** [toISO8601], which formats a time with [Date] *)
Variable toISO8601 : Z -> jsstring.

(** [Object.keys(agentHints).length > 0] *)
Definition has_keys (h : AgentHints) : bool :=
  match suggestion h, tip h, nextSteps h with
  | None, None, None => false
  | _, _, _ => true
  end.

(** [handleGetEmail]: the response, the store and the module of the
    extractor after the call; [None] when [extractData] runs out of
    fuel. *)
Definition handleGetEmail (s : S) (st : Patterns) (emailId : jsstring)
  (mailbox_name : jsstring) : option (Response * S * Patterns) :=
  match getEmail store s emailId with
  | None => Some (ErrorResponse (js "not_found") (js "Email not found") 404, s, st)
  | Some email =>
    if negb (jseqb (mailboxName email) mailbox_name)
    then Some (ErrorResponse (js "not_found") (js "Email not found") 404, s, st)
    else
      let s1 := markEmailRead store s emailId in
      match extractData st (bodyText email) (bodyHtml email) with
      | None => None
      | Some (extracted, st1) =>
        let agentHints :=
          if match Extractor.code extracted with
             | Some c => truthy c
             | None => false
             end
          then mkHints (Some (js "Use the extracted verification code"))
                       (Some (js "Verification codes typically expire in 5-10 minutes"))
                       (Some [js "Submit the code to complete verification"])
          else if match Extractor.links extracted with
                  | Some l => (0 <? length l)%nat
                  | None => false
                  end
          then mkHints (Some (js "Click the verification link to complete"))
                       None
                       (Some [js "Open the verification link"])
          else mkHints None None None in
        Some (EmailResponse
                (mkEmailData (id email) (from email) (fromName email) (to email)
                             (subject email) (bodyText email) (bodyHtml email)
                             (toISO8601 (receivedAt email)) (size email))
                (Extractor.code extracted) (Extractor.links extracted)
                (if has_keys agentHints then Some agentHints else None),
              s1, st1)
      end
  end.

(** [handleDeleteEmail] *)
Definition handleDeleteEmail (s : S) (emailId : jsstring)
  (mailbox_name : jsstring) : Response * S :=
  let (deleted, s1) := deleteEmail store s emailId mailbox_name in
  if negb deleted
  then (ErrorResponse (js "not_found") (js "Email not found") 404, s1)
  else (NoContent, s1).

End Handlers.

(** The hints of the two kinds. *)
Definition code_hints : AgentHints :=
  mkHints (Some (js "Use the extracted verification code"))
          (Some (js "Verification codes typically expire in 5-10 minutes"))
          (Some [js "Submit the code to complete verification"]).

Definition link_hints : AgentHints :=
  mkHints (Some (js "Click the verification link to complete"))
          None
          (Some [js "Open the verification link"]).

(** The hints that go with what was extracted: those of the code when
    there is one, else those of the links when there are some. *)
Definition hints_for (r : ExtractedData) : option AgentHints :=
  match Extractor.code r, Extractor.links r with
  | Some _, _ => Some code_hints
  | None, Some _ => Some link_hints
  | None, None => None
  end.

(** [data.email] for a stored email *)
Definition email_data (toISO8601 : Z -> jsstring) (e : Email) : EmailData :=
  mkEmailData (id e) (from e) (fromName e) (to e) (subject e) (bodyText e)
              (bodyHtml e) (toISO8601 (receivedAt e)) (size e).

Definition not_found : Response :=
  ErrorResponse (js "not_found") (js "Email not found") 404.

(** The KV store as an [IStore], at a given time. *)
Definition kvStore (retentionMs now : N) : IStore StoreKv.KVStore :=
  mkStore (StoreKv.getEmail now)
          (StoreKv.markEmailRead retentionMs now)
          (StoreKv.deleteEmail now).

End InboxHandlers.

(** ** Rate limiting ([src/utils/auth.ts]) *)

Module RateLimit.

Import Types Kv.

Local Open Scope string_scope.
Local Open Scope list_scope.

(** A JavaScript number that is an integer, or NaN ([None]). *)
Definition number : Type := option Z.

Definition is_decimal_digit (c : N) : bool := ((48 <=? c) && (c <=? 57))%N.

(** The longest prefix of decimal digits. *)
Fixpoint digit_prefix (s : jsstring) : jsstring :=
  match s with
  | c :: t => if is_decimal_digit c then c :: digit_prefix t else []
  | [] => []
  end.

Definition digits_value (ds : jsstring) : Z :=
  fold_left (fun acc c => (acc * 10 + (Z.of_N c - 48))%Z) ds 0%Z.

(** [parseInt(s, 10)]: leading white space is skipped, a sign is read,
    then the longest run of decimal digits; NaN when there is none. *)
Definition parseInt10 (s : jsstring) : number :=
  let s := trimStart s in
  let (sign, s) :=
    match s with
    | c :: t => if (c =? 45)%N then ((-1)%Z, t)
                else if (c =? 43)%N then (1%Z, t) else (1%Z, s)
    | [] => (1%Z, s)
    end in
  match digit_prefix s with
  | [] => None
  | ds => Some (sign * digits_value ds)%Z
  end.

(** [String(n)] for an integer (of less than 22 digits) or NaN *)
Definition String_of_number (n : number) : jsstring :=
  match n with
  | None => js "NaN"
  | Some z =>
    (if (z <? 0)%Z then js "-" else []) ++ String_of_nat (Z.abs_nat z)
  end.

Record RateLimitInfo : Type := mkInfo {
  allowed : bool;
  limit : Z;
  remaining : number;
  resetAt : Z
}.

(** [Math.ceil(n / 1000)] *)
Definition ceil_div_1000 (n : Z) : Z := (- ((- n) / 1000))%Z.

(** [checkRateLimit(kv, ip, action, limit, windowMs)] at the time
    [now] of the namespace, [Date.now()] being [dateNow].  The values of
    the namespace are the strings it holds. *)
Definition checkRateLimit (kv : KVNamespace jsstring) (now : N) (dateNow : Z)
  (ip action : jsstring) (limit : Z) (windowMs : N)
  : RateLimitInfo * KVNamespace jsstring :=
  let key := js "ratelimit:" ++ action ++ js ":" ++ ip in
  let windowSec := ceil_div_1000 (Z.of_N windowMs) in
  let resetAt := (ceil_div_1000 dateNow + windowSec)%Z in
  let data := get kv now key in
  (* data ? parseInt(data, 10) : 0 *)
  let count : number :=
    match data with
    | Some d => if truthy d then parseInt10 d else Some 0%Z
    | None => Some 0%Z
    end in
  (* count >= limit, which is false for NaN *)
  if match count with Some c => (limit <=? c)%Z | None => false end
  then (mkInfo false limit (Some 0%Z) resetAt, kv)
  else
    let kv :=
      put kv now key
          (String_of_number (option_map (fun c => (c + 1)%Z) count))
          (Some (Z.to_N windowSec)) in
    (mkInfo true limit (option_map (fun c => (limit - c - 1)%Z) count) resetAt,
     kv).

End RateLimit.

(** ** Vocabulary for the rate limiter *)

Module RateLimitSpec.

Import Kv RateLimit.

Local Open Scope string_scope.
Local Open Scope list_scope.

(** The key of a client and an action. *)
Definition rate_key (ip action : jsstring) : jsstring :=
  js "ratelimit:" ++ action ++ js ":" ++ ip.

(** The window in seconds, as the namespace takes it. *)
Definition windowSec (windowMs : N) : N :=
  Z.to_N (ceil_div_1000 (Z.of_N windowMs)).

(** The key stands for [c] requests counted so far: absent for none,
    else the decimal digits of [c]. *)
Definition holds_count (kv : KVNamespace jsstring) (now : N) (key : jsstring)
  (c : nat) : Prop :=
  match c with
  | O => get kv now key = None
  | S _ => get kv now key = Some (String_of_nat c)
  end.

(** Requests of one client for one action, one after the other, at the
    given times: which ones are allowed. *)
Fixpoint check_all (kv : KVNamespace jsstring) (times : list N) (dateNow : Z)
  (ip action : jsstring) (limit : Z) (windowMs : N) : list bool :=
  match times with
  | [] => []
  | t :: rest =>
    let (info, kv1) := checkRateLimit kv t dateNow ip action limit windowMs in
    allowed info :: check_all kv1 rest dateNow ip action limit windowMs
  end.

(** Each request comes less than [w] seconds after the one before. *)
Fixpoint chained (w : N) (times : list N) : Prop :=
  match times with
  | t1 :: (t2 :: _) as rest => (t1 <= t2 < t1 + w)%N /\ chained w rest
  | _ => True
  end.

End RateLimitSpec.

(** ** The mailbox handler ([src/handlers/mailbox.ts]) *)

Module MailboxHandlers.

Import Types Kv RateLimit.

Local Open Scope string_scope.
Local Open Scope list_scope.

(** The methods of [IStore] that the creation of a mailbox calls. *)
Record IStore (S : Type) : Type := mkStore {
  nameExists : S -> jsstring -> bool;
  createMailbox : S -> jsstring -> jsstring -> jsstring -> Mailbox * S
}.

(** A response, by what the handler gives to [error] and [json]. *)
Inductive Response : Type :=
| ErrorResponse (code detail : jsstring) (status : nat)
                (extraHeaders : list (jsstring * jsstring))
| CreatedResponse (email token : jsstring)
                  (extraHeaders : list (jsstring * jsstring)).

(** [hasTestBypass]: the header [X-Test-Token] and [env.TEST_BYPASS_TOKEN] *)
Definition hasTestBypass (testToken TEST_BYPASS_TOKEN : option jsstring)
  : bool :=
  match TEST_BYPASS_TOKEN, testToken with
  | Some t, Some h => truthy t && jseqb h t
  | _, _ => false
  end.

Definition rateLimitHeaders (info : RateLimitInfo)
  : list (jsstring * jsstring) :=
  [(js "RateLimit-Limit", String_of_number (Some (limit info)));
   (js "RateLimit-Remaining", String_of_number (remaining info));
   (js "RateLimit-Reset", String_of_number (Some (resetAt info)))].

Section Handlers.
Variable S : Type.
Variable store : IStore S.
(** [hashToken], from [src/utils/crypto.ts] *)
Variable hashToken : jsstring -> jsstring.

(** [generateUniqueName], the draws of the successive calls of
    [generateEmailName] being given: [None] when they are used up, the
    loop still running. *)
Fixpoint generateUniqueName (s : S) (draws : list (nat * nat * nat))
  : option jsstring :=
  match draws with
  | [] => None
  | (i, j, num) :: rest =>
    let name := generateEmailName i j num in
    if nameExists store s name then generateUniqueName s rest else Some name
  end.

(** [handleCreateMailbox].  [cfConnectingIp] and [testToken] are the
    headers of the request, [bodyName] is [body.name] when the body is
    JSON and holds that string, [token] is the value of
    [generateToken()]; [dateNow] and [dateNow'] are the two values of
    [Date.now()], [now] the time of the namespace. *)
Definition handleCreateMailbox (kv : KVNamespace jsstring) (now : N)
  (dateNow dateNow' : Z) (s : S)
  (cfConnectingIp testToken TEST_BYPASS_TOKEN bodyName : option jsstring)
  (draws : list (nat * nat * nat)) (token EMAIL_DOMAIN : jsstring)
  : option (Response * KVNamespace jsstring * S) :=
  let ip := match cfConnectingIp with
            | Some h => if truthy h then h else js "unknown"
            | None => js "unknown"
            end in
  let (rateLimit, kv) :=
    checkRateLimit kv now dateNow ip (js "register") 60 3600000 in
  let rlHeaders := rateLimitHeaders rateLimit in
  if negb (allowed rateLimit) && negb (hasTestBypass testToken TEST_BYPASS_TOKEN)
  then
    Some (ErrorResponse (js "rate_limit_exceeded")
            (js "Too many requests. Please try again later.") 429
            (rlHeaders ++
             [(js "Retry-After",
               String_of_number
                 (Some (resetAt rateLimit - dateNow' / 1000)%Z))]),
          kv, s)
  else
    let create (name : jsstring) :=
      let (mailbox, s) := createMailbox store s name (hashToken token)
                                        EMAIL_DOMAIN in
      Some (CreatedResponse (Types.email mailbox) token rlHeaders, kv, s) in
    let generate :=
      match generateUniqueName s draws with
      | Some name => create name
      | None => None
      end in
    match bodyName with
    | Some name =>
      if truthy name then
        if negb (isValidName name) then
          Some (ErrorResponse (js "invalid_name")
                  (js "Invalid name. Use 3-30 lowercase letters, numbers, hyphens, or underscores.")
                  400 [], kv, s)
        else if nameExists store s name then
          Some (ErrorResponse (js "name_taken")
                  (js "This mailbox name is already in use.") 409 [], kv, s)
        else create name
      else generate
    | None => generate
    end.

End Handlers.

(** Two stores used as examples: one that keeps the names of its
    mailboxes in a list, and one in which every name is taken. *)
Definition list_store : IStore (list jsstring) :=
  mkStore (fun s n => existsb (jseqb n) s)
          (fun s n tokenHash domain =>
             (mkMailbox (n ++ js "@" ++ domain) n tokenHash 0 0, n :: s)).

Definition full_store : IStore unit :=
  mkStore (fun _ _ => true)
          (fun s n tokenHash domain =>
             (mkMailbox (n ++ js "@" ++ domain) n tokenHash 0 0, s)).

(** The KV store as an [IStore], at a given time. *)
Definition kvStore (now : N) (dateNow : Z) : IStore StoreKv.KVStore :=
  mkStore (StoreKv.nameExists now) (StoreKv.createMailbox now dateNow).

(** A draw of [generateEmailName] within the bounds of
    [Math.floor(Math.random() * n)]. *)
Definition in_range (d : nat * nat * nat) : Prop :=
  match d with (i, j, num) => i < 40 /\ j < 40 /\ num < 100 end.

End MailboxHandlers.

(** ** Authentication ([src/utils/auth.ts]) *)

Module Auth.

Import Types.

Local Open Scope string_scope.
Local Open Scope list_scope.

(** The method of [IStore] that [authenticate] calls. *)
Record IStore (S : Type) : Type := mkStore {
  getMailboxByToken : S -> jsstring -> option Mailbox
}.

(** What [authenticate] returns: the mailbox, or no mailbox and the
    response that [error] builds. *)
Inductive AuthResult : Type :=
| Authenticated (mailbox : Mailbox)
| AuthError (code detail : jsstring) (status : nat).

Section Authenticate.
Variable S : Type.
Variable store : IStore S.
(** [hashToken], from [src/utils/crypto.ts] *)
Variable hashToken : jsstring -> jsstring.

(** [authenticate], [auth] being the header [Authorization] of the
    request. *)
Definition authenticate (s : S) (auth : option jsstring) : AuthResult :=
  let unauthorized :=
    AuthError (js "unauthorized")
              (js "Missing or invalid Authorization header") 401 in
  match auth with
  | None => unauthorized
  | Some auth =>
    if negb (truthy auth) || negb (startsWith (js "Bearer ") auth)
    then unauthorized
    else
      (* auth.slice(7) *)
      let token := skipn 7 auth in
      let tokenHash := hashToken token in
      match getMailboxByToken store s tokenHash with
      | None =>
        AuthError (js "invalid_token")
          (js "The provided authentication token is invalid or expired") 401
      | Some mailbox => Authenticated mailbox
      end
  end.

End Authenticate.

(** The KV store as an [IStore], at a given time. *)
Definition kvStore (now : N) : IStore StoreKv.KVStore :=
  mkStore (StoreKv.getMailboxByToken now).

End Auth.

(** ** The reception of emails ([src/handlers/email.ts]) *)

Module EmailHandlers.

Import Types.

Local Open Scope string_scope.
Local Open Scope list_scope.

(** The methods of [IStore] that the reception of an email calls, on a
    store in the state [S].  Each returns a promise that the handlers
    await: a call completes with its result, or throws when the promise
    is rejected. *)
Record IStore (S : Type) : Type := mkStore {
  getMailboxByName : S -> jsstring -> completion (option Mailbox);
  storeEmail : S -> Email -> completion S
}.

(** The environment [Env], by the fields that the reception reads.  A
    binding is optional; one that is there is given by the store object
    that [createStore] builds on it:
    [new StoreKVAdapter(new StoreKV(env.MAILCAT, retentionMs))] for
    [MAILCAT] and [new StoreD1(env.DB, retentionMs)] for [DB].
    [STAGING_WORKER] tells whether the service is bound. *)
Record Env (S : Type) : Type := mkEnv {
  STORAGE_BACKEND : option jsstring;
  MAILCAT : option (IStore S);
  DB : option (IStore S);
  STAGING_EMAIL_DOMAIN : option jsstring;
  STAGING_WORKER : bool
}.

(** *** [parseEmailAddress]

    [/^(?:\x22?(N)\x22?\s+)?<?([^>]+@[^>]+)>?$/], where [N] stands for
    [[^\x22]*] and [\x22] for the double quote.  The expression has two
    groups: the matcher runs on the part that holds the first one, and
    goes on, in its continuation, with the part that holds the second
    one. *)
Definition name_part : re :=
  ROpt (RSeqs [ROpt (RChar DQUOTE);
               RGroup (RStar true (RClass true [CChar DQUOTE]));
               ROpt (RChar DQUOTE);
               RPlus sp]).

Definition not_gt : re := RClass true [CChar (ch ">")].

Definition address_part : re :=
  RSeqs [ROpt (RChar (ch "<"));
         RGroup (RSeqs [RPlus not_gt; RChar (ch "@"); RPlus not_gt]);
         ROpt (RChar (ch ">"));
         REnd].

(** [raw.match(..)]: [match[1]] and [match[2]] *)
Definition address_match (raw : jsstring)
  : option (option jsstring * option jsstring) :=
  mrun false name_part raw None (fun s1 c1 =>
    mrun false address_part s1 None (fun _ c2 => Some (c1, c2))).

Record Address : Type := mkAddress {
  a_name : option jsstring;
  a_email : jsstring
}.

(** *** The subject

    [/^subject:\s*(.+)$/mi].  With the [m] flag [^] holds at the start
    of the input and after a line terminator, and [$] at the end of the
    input and before a line terminator; the dot matches all but the line
    terminators. *)
Definition is_line_terminator (c : N) : bool :=
  ((c =? 10) || (c =? 13) || (c =? 8232) || (c =? 8233))%N.

Definition dot : re :=
  RClass true [CChar 10%N; CChar 13%N; CChar 8232%N; CChar 8233%N].

(** [subject:\s*(.+)], between the two assertions *)
Definition subject_re : re :=
  RSeqs [RLit (js "subject:"); RStar true sp; RGroup (RPlus dot)].

(** [$] with the [m] flag, on what is left of the input *)
Definition at_line_end (s : jsstring) : bool :=
  match s with
  | [] => true
  | c :: _ => is_line_terminator c
  end.

(** A match that starts here: [match[1]] *)
Definition subject_here (s : jsstring) : option (option jsstring) :=
  mrun true subject_re s None
       (fun s1 c1 => if at_line_end s1 then Some c1 else None).

(** The leftmost match in [s]; [line_start] tells whether [^] holds at
    the start of [s]. *)
Fixpoint subject_search (line_start : bool) (s : jsstring)
  : option (option jsstring) :=
  match (if line_start then subject_here s else None) with
  | Some c1 => Some c1
  | None =>
    match s with
    | [] => None
    | c :: t => subject_search (is_line_terminator c) t
    end
  end.

(** [subjectMatch ? subjectMatch[1].trim() : '(no subject)'] *)
Definition subject_of (rawEmail : jsstring) : completion jsstring :=
  match subject_search true rawEmail with
  | Some (Some m1) => Normal (trim m1)
  | Some None => Throw "TypeError"
  | None => Normal (js "(no subject)")
  end.

(** What becomes of a message. *)
Inductive Delivery (S : Type) : Type :=
| Forwarded (from to rawEmail : jsstring)
| Dropped
| StoredEmail (email : Email) (s : S).
Arguments Forwarded {S} from to rawEmail.
Arguments Dropped {S}.
Arguments StoredEmail {S} email s.

Section Handlers.
Variable S : Type.
(** [String.prototype.toLowerCase] *)
Variable toLowerCase : jsstring -> jsstring.

Definition parseEmailAddress (raw : jsstring) : completion Address :=
  match address_match raw with
  | Some (m1, m2) =>
    match m2 with
    | Some m2 =>
      Normal (mkAddress
                (* match[1]?.trim() || undefined *)
                match m1 with
                | Some m1 => if truthy (trim m1) then Some (trim m1) else None
                | None => None
                end
                (toLowerCase (trim m2)))
    | None => Throw "TypeError"
    end
  | None => Normal (mkAddress None (toLowerCase (trim raw)))
  end.

Definition getLocalPart (email : jsstring) : jsstring :=
  let atIndex := indexOf email (js "@") in
  if (0 <? atIndex)%Z
  then toLowerCase (firstn (Z.to_nat atIndex) email)
  else toLowerCase email.

(** [createStore] ([src/store-factory.ts]): the store of the backend
    that the environment names, D1 unless it names [kv]; it throws an
    [Error] when the binding of that backend is missing. *)
Definition createStore (env : Env S) : completion (IStore S) :=
  (* env.STORAGE_BACKEND?.toLowerCase() || 'd1' *)
  let backend :=
    match STORAGE_BACKEND env with
    | Some b => if truthy (toLowerCase b) then toLowerCase b else js "d1"
    | None => js "d1"
    end in
  if jseqb backend (js "kv") then
    match MAILCAT env with
    | None => Throw "Error"
    | Some store => Normal store
    end
  else
    match DB env with
    | None => Throw "Error"
    | Some store => Normal store
    end.


(** [handleInternalEmail] *)
Definition handleInternalEmail (env : Env S) (s : S)
  (from to rawEmail : jsstring) (id : jsstring) (dateNow : Z)
  : completion (Delivery S) :=
  bind (createStore env) (fun store =>
  let toAddress := toLowerCase to in
  let mailboxName := getLocalPart toAddress in
  bind (getMailboxByName store s mailboxName) (fun mailbox =>
  match mailbox with
  | None => Normal Dropped
  | Some _ =>
    if (1024 * 1024 <? length rawEmail)%nat then Normal Dropped
    else
      bind (parseEmailAddress from) (fun address =>
      bind (parseMimeContent rawEmail) (fun body =>
      bind (subject_of rawEmail) (fun subject =>
        let email :=
          mkEmail id mailboxName (a_email address) (a_name address)
                  toAddress subject (text body) (html body) dateNow false
                  (length rawEmail) in
        bind (storeEmail store s email) (fun s1 =>
        Normal (StoredEmail email s1)))))
  end)).

End Handlers.

(** The KV store as an [IStore], at a given time. *)
Definition kvStore (retentionMs now : N) (dateNow : Z)
  : IStore StoreKv.KVStore :=
  mkStore (fun kv name => Normal (StoreKv.getMailboxByName now kv name))
          (fun kv email =>
             Normal (StoreKv.storeEmail retentionMs now dateNow kv email)).

(** An environment with the KV backend: [STORAGE_BACKEND] is [kv] and
    [MAILCAT] is bound; no D1 database and no staging. *)
Definition kvEnv (retentionMs now : N) (dateNow : Z) : Env StoreKv.KVStore :=
  mkEnv (Some (js "kv")) (Some (kvStore retentionMs now dateNow)) None
        None false.

End EmailHandlers.

(** ** Vocabulary for the reception of emails *)

Module EmailSpec.

Import EmailHandlers.

(** [s] begins with [p], up to the case of the ASCII letters. *)
Fixpoint starts_nocase (p s : jsstring) : bool :=
  match p with
  | [] => true
  | a :: p' =>
    match s with
    | [] => false
    | y :: s' => (toUpper y =? toUpper a)%N && starts_nocase p' s'
    end
  end.

(** No line of [s] begins with [subject:], in either case;
    [line_start] tells whether [s] begins a line. *)
Fixpoint no_subject_line (line_start : bool) (s : jsstring) : bool :=
  match s with
  | [] => true
  | c :: t =>
    negb (line_start && starts_nocase (js "subject:") s)
    && no_subject_line (is_line_terminator c) t
  end.

(** [s] ends a line: what follows it begins one. *)
Definition ends_line (s : jsstring) : bool :=
  match rev s with
  | [] => true
  | c :: _ => is_line_terminator c
  end.

(** A code unit that is no white space, angle bracket or double
    quote. *)
Definition addr_char (c : N) : bool :=
  negb (is_space c) && negb (c =? 60)%N && negb (c =? 62)%N
  && negb (c =? 34)%N.

(** [local@domain], neither part empty, the domain without [@]. *)
Definition is_address (local domain : jsstring) : Prop :=
  local <> [] /\ domain <> [] /\
  forallb addr_char (local ++ domain) = true /\ ~ In 64%N domain.


(** The lower-case mapping on the letters A to Z, the other code units
    being left as they are. *)
Definition ascii_lower (s : jsstring) : jsstring := map toLower s.

(** A store with one mailbox and a message for it, used as
    examples. *)
Definition one_mailbox : StoreKv.KVStore :=
  snd (StoreKv.createMailbox 5 5000 (Kv.empty StoreKv.Value)
         (js "swift-coral-42") (js "h1") (js "mailcat.ai")).

Definition code_message : jsstring :=
  js "Subject: Your code" ++ [CR; LF; CR; LF] ++ js "Your code: 123456".

Definition code_email : Types.Email :=
  Types.mkEmail (js "e1") (js "swift-coral-42") (js "jo@x.io")
                (Some (js "Jo")) (js "swift-coral-42@mailcat.ai")
                (js "Your code") (js "Your code: 123456") None 10000 false
                39.

End EmailSpec.

(* ================================================================== *)
(** * Part II: theorems *)
(* ================================================================== *)

(** ** The primitives on examples *)

Example js_code_units :
  js "验证码：" = [39564; 35777; 30721; 65306]%N /\
  js "Code: 1" = [67; 111; 100; 101; 58; 32; 49]%N.
Proof. split; reflexivity. Qed.

Example decodeQuotedPrintable_examples :
  decodeQuotedPrintable (js "Hello=20World") = js "Hello World" /\
  decodeQuotedPrintable (crlf "Hello=
World") = js "HelloWorld".
Proof. split; vm_compute; reflexivity. Qed.

Example atob_examples :
  atob (js "SGVsbG8=") = Normal (js "Hello") /\
  atob (js "SGVsbG8") = Normal (js "Hello") /\
  atob (js "SGVsb") = Throw "InvalidCharacterError" /\
  atob (js "SGV$") = Throw "InvalidCharacterError".
Proof. repeat split; vm_compute; reflexivity. Qed.

Example htmlToText_example :
  htmlToText (js "<style>p{}</style><p>Hi &amp; <b>you</b></p><br/>x<div>y</div>")
  = js "Hi & you

xy".
Proof. vm_compute. reflexivity. Qed.

Example split_example :
  split (js "a--Xb--X--X") (js "--X") = [js "a"; js "b"; []; []].
Proof. vm_compute. reflexivity. Qed.

(** The end-to-end scenario of the specification; the link keeps the
    single quote that closes the attribute, which no pattern excludes. *)
Example end_to_end :
  parseMimeContent (crlf "Content-Type: multipart/alternative; boundary=XYZ

--XYZ
Content-Type: text/plain

Your code is 123456
--XYZ
Content-Type: text/html

<p>Click <a href='https://example.com/verify?token=abc'>here</a></p>
--XYZ--
") = Normal (mkBody (js "Your code is 123456")
       (Some (js "<p>Click <a href='https://example.com/verify?token=abc'>here</a></p>"))) /\
  option_map links
    (extract (js "Your code is 123456")
       (Some (js "<p>Click <a href='https://example.com/verify?token=abc'>here</a></p>")))
  = Some (Some [js "https://example.com/verify?token=abc'"]).
Proof. split; vm_compute; reflexivity. Qed.

(** ** The matcher against the declarative reading *)

Section MatcherFacts.
Variable ci : bool.

Lemma Matches_suffix r s s1 c c1 :
  Matches ci r s s1 c c1 -> exists w, s = w ++ s1.
Proof.
  induction 1.
  - exists []; reflexivity.
  - exists [x]; reflexivity.
  - exists [x]; reflexivity.
  - destruct IHMatches1 as [w1 ->], IHMatches2 as [w2 ->].
    exists (w1 ++ w2). now rewrite app_assoc.
  - assumption.
  - assumption.
  - exists []; reflexivity.
  - destruct IHMatches1 as [w1 ->], IHMatches2 as [w2 ->].
    exists (w1 ++ w2). now rewrite app_assoc.
  - assumption.
  - exists []; reflexivity.
Qed.

Lemma Matches_length r s s1 c c1 :
  Matches ci r s s1 c c1 -> length s1 <= length s.
Proof.
  intros H. destruct (Matches_suffix H) as [w ->].
  rewrite length_app. lia.
Qed.

(** What [match[0]] is when [w] was consumed. *)
Lemma firstn_consumed (w s1 : jsstring) :
  firstn (length (w ++ s1) - length s1) (w ++ s1) = w.
Proof.
  rewrite length_app.
  replace (length w + length s1 - length s1) with (length w) by lia.
  rewrite firstn_app, firstn_all, Nat.sub_diag. simpl. apply app_nil_r.
Qed.

Section Sound.
Variable A : Type.

Lemma star_loop_sound (r0 : re) (g : bool) (k : cont A)
  (IH : forall s cap (k : cont A) x, mrun ci r0 s cap k = Some x ->
          exists s1 c1, Matches ci r0 s s1 cap c1 /\ k s1 c1 = Some x) :
  forall fuel s cap x,
    star_loop (mrun ci r0) g k fuel s cap = Some x ->
    exists s1 c1, Matches ci (RStar g r0) s s1 cap c1 /\ k s1 c1 = Some x.
Proof.
  induction fuel as [|fuel IHf]; intros s cap x H; simpl in H.
  - exists s, cap. split; [constructor | assumption].
  - assert (More : forall y,
      mrun ci r0 s cap (fun s1 c1 =>
        if length s1 <? length s
        then star_loop (mrun ci r0) g k fuel s1 c1 else None) = Some y ->
      exists s1 c1, Matches ci (RStar g r0) s s1 cap c1 /\ k s1 c1 = Some y).
    { intros y Hy. apply IH in Hy. destruct Hy as (s1 & c1 & M1 & Hy).
      destruct (Nat.ltb_spec (length s1) (length s)) as [Hlt|]; [|discriminate].
      apply IHf in Hy. destruct Hy as (s2 & c2 & M2 & Hk).
      exists s2, c2. split; [|assumption].
      eapply M_star_more; eassumption. }
    assert (Stop : forall y, k s cap = Some y ->
      exists s1 c1, Matches ci (RStar g r0) s s1 cap c1 /\ k s1 c1 = Some y).
    { intros y Hy. exists s, cap. split; [constructor | assumption]. }
    destruct g.
    + destruct (mrun ci r0 s cap _) eqn:E.
      * inversion H; subst. now apply More.
      * now apply Stop.
    + destruct (k s cap) eqn:E.
      * inversion H; subst. now apply Stop.
      * now apply More.
Qed.

(** Soundness: a result of the matcher comes from a match. *)
Lemma mrun_sound r : forall s cap (k : cont A) x,
  mrun ci r s cap k = Some x ->
  exists s1 c1, Matches ci r s s1 cap c1 /\ k s1 c1 = Some x.
Proof.
  induction r; intros s cap k x H; simpl in H.
  - exists s, cap. split; [constructor | assumption].
  - destruct s as [|y t]; [discriminate|].
    destruct (N.eqb_spec (canon ci y) (canon ci c)); [|discriminate].
    exists t, cap. split; [now constructor | assumption].
  - destruct s as [|y t]; [discriminate|].
    destruct (class_mem ci negated items y) eqn:E; [|discriminate].
    exists t, cap. split; [now constructor | assumption].
  - apply IHr1 in H. destruct H as (s1 & c1 & M1 & H).
    apply IHr2 in H. destruct H as (s2 & c2 & M2 & H).
    exists s2, c2. split; [econstructor; eassumption | assumption].
  - destruct (mrun ci r1 s cap k) eqn:E.
    + inversion H; subst. apply IHr1 in E. destruct E as (s1 & c1 & M1 & E).
      exists s1, c1. split; [now apply M_alt_l | assumption].
    + apply IHr2 in H. destruct H as (s1 & c1 & M1 & H).
      exists s1, c1. split; [now apply M_alt_r | assumption].
  - eapply star_loop_sound; eassumption.
  - apply IHr in H. destruct H as (s1 & c1 & M1 & H).
    exists s1, (Some (firstn (length s - length s1) s)).
    split; [econstructor; eassumption | assumption].
  - destruct s; [|discriminate].
    exists [], cap. split; [constructor | assumption].
Qed.

Lemma star_loop_complete (r0 : re) (g : bool) (k : cont A)
  (IH : forall s s1 c c1, Matches ci r0 s s1 c c1 ->
          forall k : cont A, k s1 c1 <> None -> mrun ci r0 s c k <> None) :
  forall fuel s s1 c c1,
    length s <= fuel -> Matches ci (RStar g r0) s s1 c c1 ->
    k s1 c1 <> None ->
    star_loop (mrun ci r0) g k fuel s c <> None.
Proof.
  induction fuel as [|fuel IHf]; intros s s1 c c1 Hf M Hk; simpl.
  - inversion M; subst; [assumption | lia].
  - inversion M; subst.
    + destruct g.
      * destruct (mrun ci r0 s1 c1 _); [discriminate | assumption].
      * destruct (k s1 c1); [discriminate | contradiction].
    + assert (More :
        mrun ci r0 s c (fun s1 c1 =>
          if length s1 <? length s
          then star_loop (mrun ci r0) g k fuel s1 c1 else None) <> None).
      { eapply IH; [eassumption|].
        destruct (Nat.ltb_spec (length s2) (length s)); [|lia].
        eapply IHf; [lia | eassumption | assumption]. }
      destruct g.
      * destruct (mrun ci r0 s c _); [discriminate | contradiction].
      * destruct (k s c); [discriminate | assumption].
Qed.

(** Completeness: where a match exists that the continuation
    accepts, the matcher does not fail. *)
Lemma mrun_complete r : forall s s1 c c1,
  Matches ci r s s1 c c1 ->
  forall k : cont A, k s1 c1 <> None -> mrun ci r s c k <> None.
Proof.
  induction r; intros s s1 c0 c1 M k Hk; simpl.
  - inversion M; subst. assumption.
  - inversion M; subst.
    match goal with H : canon _ _ = canon _ _ |- _ => rewrite H end.
    now rewrite N.eqb_refl.
  - inversion M; subst.
    match goal with H : class_mem _ _ _ _ = true |- _ => rewrite H end.
    assumption.
  - inversion M; subst.
    eapply IHr1; [eassumption|]. eapply IHr2; eassumption.
  - inversion M; subst.
    + destruct (mrun ci r1 s c0 k) eqn:E; [discriminate|].
      exfalso. eapply IHr1; eassumption.
    + destruct (mrun ci r1 s c0 k) eqn:E; [discriminate|].
      eapply IHr2; eassumption.
  - eapply star_loop_complete; try eassumption.
    all: try (intros; eapply IHr; eassumption).
    apply Nat.le_refl.
  - inversion M; subst. eapply IHr; [eassumption|]. assumption.
  - inversion M; subst. assumption.
Qed.
End Sound.
End MatcherFacts.

(** ** [search], [exec] and the declarative reading *)

Section SearchFacts.
Variable ci : bool.
Variable r : re.

Lemma match_here_sound s s1 c1 :
  match_here ci r s = Some (s1, c1) -> Matches ci r s s1 None c1.
Proof.
  unfold match_here. intros H. apply mrun_sound in H.
  destruct H as (s2 & c2 & M & E). now inversion E; subst.
Qed.

Lemma match_here_none s :
  match_here ci r s = None -> forall s1 c1, ~ Matches ci r s s1 None c1.
Proof.
  unfold match_here. intros H s1 c1 M.
  eapply mrun_complete in M; [apply M; exact H | discriminate].
Qed.

Lemma match_here_some s s1 c1 :
  Matches ci r s s1 None c1 -> match_here ci r s <> None.
Proof.
  intros M H. eapply match_here_none; eassumption.
Qed.

Lemma match_here_consumed s s1 c1 :
  match_here ci r s = Some (s1, c1) ->
  exists w, s = w ++ s1 /\ firstn (length s - length s1) s = w /\
            length s - length s1 = length w /\
            Matches ci r (w ++ s1) s1 None c1.
Proof.
  intros E. apply match_here_sound in E.
  destruct (Matches_suffix E) as [w Hw]. subst s.
  exists w. rewrite firstn_consumed, length_app.
  repeat split; [lia | assumption].
Qed.

(** A result of [search]: where it starts, what it holds, and that no
    match starts further left. *)
Lemma search_Some s : forall i m,
  search ci r s i = Some m ->
  exists pre w s1,
    s = pre ++ w ++ s1 /\
    m = mkMatch (i + length pre) (i + length pre + length w) w (m_1 m) /\
    Matches ci r (w ++ s1) s1 None (m_1 m) /\
    forall j, j < length pre ->
              forall s' c', ~ Matches ci r (skipn j s) s' None c'.
Proof.
  assert (Here : forall s i m s1 c1,
    match_here ci r s = Some (s1, c1) ->
    Some (mkMatch i (i + (length s - length s1))
                  (firstn (length s - length s1) s) c1) = Some m ->
    exists pre w s1,
      s = pre ++ w ++ s1 /\
      m = mkMatch (i + length pre) (i + length pre + length w) w (m_1 m) /\
      Matches ci r (w ++ s1) s1 None (m_1 m) /\
      forall j, j < length pre ->
                forall s' c', ~ Matches ci r (skipn j s) s' None c').
  { intros s0 i m s1 c1 E H.
    apply match_here_consumed in E. destruct E as (w & Hs & Hf & Hl & M).
    rewrite Hf, Hl in H. inversion H; subst m; clear H.
    exists [], w, s1. simpl. rewrite Nat.add_0_r.
    repeat split; try assumption. intros j Hj. inversion Hj. }
  induction s as [|x t IH]; intros i m H; simpl in H.
  - destruct (match_here ci r []) as [[s1 c1]|] eqn:E; [|discriminate].
    eapply Here; eassumption.
  - destruct (match_here ci r (x :: t)) as [[s1 c1]|] eqn:E.
    + eapply Here; eassumption.
    + apply IH in H. destruct H as (pre & w & s1 & Hs & Hm & HM & Hleft).
      exists (x :: pre), w, s1. simpl length.
      rewrite Nat.add_succ_r. simpl in Hm.
      repeat split; try assumption.
      * now rewrite Hs.
      * intros [|j] Hj s' c'; simpl.
        -- now apply match_here_none.
        -- apply Hleft. lia.
Qed.

Lemma search_None s : forall i,
  search ci r s i = None ->
  forall j, j <= length s -> forall s' c', ~ Matches ci r (skipn j s) s' None c'.
Proof.
  induction s as [|x t IH]; intros i H j Hj s' c'; simpl in H.
  - destruct (match_here ci r []) as [[s1 c1]|] eqn:E; [discriminate|].
    rewrite skipn_nil. now apply match_here_none.
  - destruct (match_here ci r (x :: t)) as [[s1 c1]|] eqn:E; [discriminate|].
    destruct j as [|j]; simpl.
    + now apply match_here_none.
    + eapply IH; [eassumption|]. simpl in Hj. lia.
Qed.

Lemma search_complete s : forall i j s' c',
  j <= length s -> Matches ci r (skipn j s) s' None c' ->
  search ci r s i <> None.
Proof.
  intros i j s' c' Hj M H. eapply search_None; eassumption.
Qed.

(** The position at which the search starts only shifts the result. *)
Lemma search_shift s : forall i,
  search ci r s i =
  option_map (fun m => mkMatch (i + m_index m) (i + m_end m) (m_0 m) (m_1 m))
             (search ci r s 0).
Proof.
  induction s as [|x t IH]; intros i; simpl.
  - destruct (match_here ci r []) as [[s1 c1]|]; simpl; [|reflexivity].
    now rewrite Nat.add_0_r.
  - destruct (match_here ci r (x :: t)) as [[s1 c1]|]; simpl.
    + now rewrite Nat.add_0_r.
    + rewrite (IH (S i)), (IH 1).
      destruct (search ci r t 0); simpl; [|reflexivity].
      f_equal. f_equal; lia.
Qed.
End SearchFacts.

(** ** The fuel of the loops is enough

    [star_loop] and [replace_loop] count their rounds down.  Each round
    shortens the input, so they never reach the end of their fuel before
    the end of their work: any larger amount gives the same result. *)

Section Fuel.
Variable A : Type.
Variable ci : bool.

Lemma star_loop_ext r0 g (k1 k2 : cont A)
  (IH : forall s c (k1 k2 : cont A),
     (forall s1 c1, length s1 <= length s -> k1 s1 c1 = k2 s1 c1) ->
     mrun ci r0 s c k1 = mrun ci r0 s c k2) :
  forall fuel s c,
    (forall s1 c1, length s1 <= length s -> k1 s1 c1 = k2 s1 c1) ->
    star_loop (mrun ci r0) g k1 fuel s c = star_loop (mrun ci r0) g k2 fuel s c.
Proof.
  induction fuel as [|fuel IHf]; intros s c H; cbn [star_loop].
  - now apply H.
  - rewrite (H s c (Nat.le_refl _)).
    rewrite (IH s c _ (fun s1 c1 =>
      if length s1 <? length s
      then star_loop (mrun ci r0) g k2 fuel s1 c1 else None)).
    + reflexivity.
    + intros s1 c1 Hs1. destruct (Nat.ltb_spec (length s1) (length s)); [|reflexivity].
      apply IHf. intros s2 c2 Hs2. apply H. lia.
Qed.

(** The matcher calls its continuation on what is left of its input
    only. *)
Lemma mrun_ext r : forall s c (k1 k2 : cont A),
  (forall s1 c1, length s1 <= length s -> k1 s1 c1 = k2 s1 c1) ->
  mrun ci r s c k1 = mrun ci r s c k2.
Proof.
  induction r; intros s c0 k1 k2 H; cbn [mrun].
  - now apply H.
  - destruct s as [|x t]; [reflexivity|].
    destruct (canon ci x =? canon ci c)%N; [|reflexivity].
    apply H. simpl. lia.
  - destruct s as [|x t]; [reflexivity|].
    destruct (class_mem ci negated items x); [|reflexivity].
    apply H. simpl. lia.
  - apply IHr1. intros s1 c1 Hs1. apply IHr2.
    intros s2 c2 Hs2. apply H. lia.
  - now rewrite (IHr1 s c0 k1 k2 H), (IHr2 s c0 k1 k2 H).
  - apply star_loop_ext; assumption.
  - apply IHr. intros s1 c1 Hs1. now apply H.
  - destruct s; [now apply H | reflexivity].
Qed.

Lemma mrun_fail r : forall s c,
  mrun ci r s c (fun _ _ => @None A) = None.
Proof.
  induction r; intros s c0; cbn [mrun]; try reflexivity.
  - destruct s; [reflexivity|]. now destruct (canon ci n =? canon ci c)%N.
  - destruct s; [reflexivity|]. now destruct (class_mem ci negated items n).
  - rewrite (mrun_ext r1 s c0 _ (fun _ _ => None)); [apply IHr1|].
    intros; apply IHr2.
  - now rewrite IHr1, IHr2.
  - induction (length s) as [|fuel IHf] in s, c0 |- *; cbn [star_loop];
      [reflexivity|].
    rewrite (mrun_ext r s c0 _ (fun _ _ => None)).
    + rewrite IHr. now destruct greedy.
    + intros s1 c1 _. destruct (length s1 <? length s); [apply IHf | reflexivity].
  - apply IHr.
  - now destruct s.
Qed.

Lemma star_loop_nil r0 g (k : cont A) fuel c :
  star_loop (mrun ci r0) g k fuel [] c = k [] c.
Proof.
  destruct fuel as [|fuel]; cbn [star_loop]; [reflexivity|].
  rewrite (mrun_ext r0 [] c _ (fun _ _ => None)) by reflexivity.
  rewrite mrun_fail. destruct g; [reflexivity|]. now destruct (k [] c).
Qed.

Lemma star_loop_fuel r0 g (k : cont A) : forall fuel fuel' s c,
  length s <= fuel -> length s <= fuel' ->
  star_loop (mrun ci r0) g k fuel s c = star_loop (mrun ci r0) g k fuel' s c.
Proof.
  induction fuel as [|fuel IHf]; intros fuel' s c Hf Hf'.
  - destruct s; [|simpl in Hf; lia]. now rewrite !star_loop_nil.
  - destruct fuel' as [|fuel'].
    + destruct s; [|simpl in Hf'; lia]. now rewrite !star_loop_nil.
    + cbn [star_loop].
      rewrite (mrun_ext r0 s c _ (fun s1 c1 =>
        if length s1 <? length s
        then star_loop (mrun ci r0) g k fuel' s1 c1 else None)).
      * reflexivity.
      * intros s1 c1 _.
        destruct (Nat.ltb_spec (length s1) (length s)); [|reflexivity].
        apply IHf; lia.
Qed.
End Fuel.

Lemma search_bounds ci r s m :
  search ci r s 0 = Some m -> m_index m <= m_end m <= length s.
Proof.
  intros E. apply search_Some in E.
  destruct E as (pre & w & s1 & -> & -> & _). simpl.
  rewrite !length_app. lia.
Qed.

Lemma replace_loop_fuel ci r f : forall fuel fuel' s,
  length s < fuel -> length s < fuel' ->
  replace_loop fuel ci r f s = replace_loop fuel' ci r f s.
Proof.
  induction fuel as [|fuel IHf]; intros fuel' s Hf Hf'; [lia|].
  destruct fuel' as [|fuel']; [lia|]. cbn [replace_loop].
  destruct (search ci r s 0) as [m|] eqn:E; [|reflexivity].
  pose proof (search_bounds _ _ _ E) as [Hi He].
  f_equal. f_equal.
  destruct (Nat.eqb_spec (m_end m) (m_index m)) as [Heq|Hne].
  - destruct (skipn (m_index m) s) as [|c t] eqn:Es; [reflexivity|].
    f_equal. assert (Hl : length (skipn (m_index m) s) = S (length t))
      by now rewrite Es.
    rewrite length_skipn in Hl. apply IHf; lia.
  - assert (Hl : length (skipn (m_end m) s) < length s)
      by (rewrite length_skipn; lia).
    apply IHf; lia.
Qed.

(** ** What a match captures and consumes *)

Section CaptureFacts.
Variable ci : bool.

Lemma groups_sat_capture (P : jsstring -> Prop) r s s1 c c1 :
  Matches ci r s s1 c c1 -> groups_sat ci P r ->
  (forall x, c = Some x -> P x) -> forall x, c1 = Some x -> P x.
Proof.
  induction 1; simpl; intros G Hc; try assumption.
  - destruct G as [G1 G2]. auto.
  - destruct G as [G1 G2]. auto.
  - destruct G as [G1 G2]. auto.
  - auto.
  - intros x Hx. inversion Hx; subst. eapply G; eassumption.
Qed.

Lemma always_captures_some r s s1 c c1 :
  Matches ci r s s1 c c1 -> (always_captures r = true \/ c <> None) ->
  c1 <> None.
Proof.
  induction 1; simpl; intros [Hr|Hc]; try discriminate; try assumption;
    try (now (apply IHMatches; right));
    try (now (apply IHMatches2; right; apply IHMatches1; right)).
  - apply orb_true_iff in Hr. destruct Hr as [Hr|Hr].
    + apply IHMatches2. right. apply IHMatches1. now left.
    + apply IHMatches2. now left.
  - apply andb_true_iff in Hr. apply IHMatches. left. tauto.
  - apply andb_true_iff in Hr. apply IHMatches. left. tauto.
Qed.

Lemma consumes_shorter r s s1 c c1 :
  Matches ci r s s1 c c1 -> consumes r = true -> length s1 < length s.
Proof.
  induction 1; simpl; intros Hr; try discriminate; try lia.
  - apply orb_true_iff in Hr.
    pose proof (Matches_length H). pose proof (Matches_length H0).
    destruct Hr as [Hr|Hr]; [apply IHMatches1 in Hr | apply IHMatches2 in Hr]; lia.
  - apply andb_true_iff in Hr. apply IHMatches. tauto.
  - apply andb_true_iff in Hr. apply IHMatches. tauto.
  - auto.
Qed.

(** Repetitions of a class: what [\d{4,8}] and the like consume. *)
Lemma Matches_class neg items s s1 c c1 :
  Matches ci (RClass neg items) s s1 c c1 ->
  exists x, s = x :: s1 /\ class_mem ci neg items x = true /\ c1 = c.
Proof.
  intros M. inversion M; subst. eauto.
Qed.

Lemma Matches_exactly_class neg items n : forall s s1 c c1,
  Matches ci (RExactly n (RClass neg items)) s s1 c c1 ->
  exists w, s = w ++ s1 /\ length w = n /\
            Forall (fun x => class_mem ci neg items x = true) w.
Proof.
  induction n as [|n IH]; intros s s1 c c1 M; simpl in M.
  - inversion M; subst. exists []. split; [reflexivity|]. split; [reflexivity|]. constructor.
  - inversion M; subst.
    match goal with H : Matches _ (RClass _ _) _ _ _ _ |- _ =>
      apply Matches_class in H; destruct H as (x & -> & Hx & ->) end.
    match goal with H : Matches _ (RExactly _ _) _ _ _ _ |- _ =>
      apply IH in H; destruct H as (w & -> & Hl & Hw) end.
    exists (x :: w). simpl. split; [reflexivity|]. split; [lia|]. now constructor.
Qed.

Lemma Matches_upto_class neg items n : forall s s1 c c1,
  Matches ci (RUpTo n (RClass neg items)) s s1 c c1 ->
  exists w, s = w ++ s1 /\ length w <= n /\
            Forall (fun x => class_mem ci neg items x = true) w.
Proof.
  induction n as [|n IH]; intros s s1 c c1 M; simpl in M.
  - inversion M; subst. exists []. split; [reflexivity|]. split; [simpl; lia|]. constructor.
  - unfold ROpt in M. inversion M; subst.
    + match goal with H : Matches _ (RSeq _ _) _ _ _ _ |- _ =>
        inversion H; subst end.
      match goal with H : Matches _ (RClass _ _) _ _ _ _ |- _ =>
        apply Matches_class in H; destruct H as (x & -> & Hx & ->) end.
      match goal with H : Matches _ (RUpTo _ _) _ _ _ _ |- _ =>
        apply IH in H; destruct H as (w & -> & Hl & Hw) end.
      exists (x :: w). simpl. split; [reflexivity|]. split; [lia|]. now constructor.
    + match goal with H : Matches _ REps _ _ _ _ |- _ =>
        inversion H; subst end.
      exists []. split; [reflexivity|]. split; [simpl; lia|]. constructor.
Qed.

Lemma Matches_range_class neg items lo hi s s1 c c1 :
  lo <= hi ->
  Matches ci (RRange lo hi (RClass neg items)) s s1 c c1 ->
  exists w, s = w ++ s1 /\ lo <= length w <= hi /\
            Forall (fun x => class_mem ci neg items x = true) w.
Proof.
  intros Hle M. unfold RRange in M. inversion M; subst.
  match goal with H : Matches _ (RExactly _ _) _ _ _ _ |- _ =>
    apply Matches_exactly_class in H; destruct H as (w1 & -> & Hl1 & Hw1) end.
  match goal with H : Matches _ (RUpTo _ _) _ _ _ _ |- _ =>
    apply Matches_upto_class in H; destruct H as (w2 & -> & Hl2 & Hw2) end.
  exists (w1 ++ w2). rewrite length_app, app_assoc.
  split; [reflexivity|]. split; [lia|]. now apply Forall_app.
Qed.
End CaptureFacts.

(** ** The extractor's RegExp objects *)

Lemma setLastIndex_shape rx i : shape (setLastIndex rx i) = shape rx.
Proof. reflexivity. Qed.

Lemma setLastIndex_twice rx i j :
  setLastIndex (setLastIndex rx i) j = setLastIndex rx j.
Proof. reflexivity. Qed.

Lemma exec_object rx content :
  exists i, snd (exec rx content) = setLastIndex rx i.
Proof.
  unfold exec. destruct (length content <? lastIndex rx); [now exists 0|].
  destruct (search _ _ _ _) as [m|]; [now exists (m_end m) | now exists 0].
Qed.

(** With [lastIndex] at 0, [exec] is the search from the start. *)
Lemma exec_rest rx content :
  lastIndex rx = 0 ->
  fst (exec rx content) = search (ignoreCase rx) (source rx) content 0.
Proof.
  intros H. unfold exec. rewrite H. simpl.
  now destruct (search _ _ content 0).
Qed.

(** What [exec] finds is a match of the expression in the content, at
    or after [lastIndex]. *)
Lemma exec_Some rx content m :
  fst (exec rx content) = Some m ->
  exists pre w s1,
    skipn (lastIndex rx) content = pre ++ w ++ s1 /\
    lastIndex rx <= length content /\
    m = mkMatch (lastIndex rx + length pre)
                (lastIndex rx + length pre + length w) w (m_1 m) /\
    snd (exec rx content) = setLastIndex rx (m_end m) /\
    Matches (ignoreCase rx) (source rx) (w ++ s1) s1 None (m_1 m).
Proof.
  unfold exec. destruct (Nat.ltb_spec (length content) (lastIndex rx)) as [|Hle];
    [discriminate|].
  destruct (search _ _ _ _) as [m'|] eqn:E; [|discriminate].
  simpl. intros H; inversion H; subst m'; clear H.
  apply search_Some in E. destruct E as (pre & w & s1 & Hs & Hm & HM & _).
  exists pre, w, s1. repeat split; assumption.
Qed.

(** A property of every pattern of a list that is written out, shown
    pattern by pattern. *)
Ltac each_pattern tac :=
  repeat (apply Forall_cons; [tac|]); apply Forall_nil.

(** ** Codes *)

Lemma digit_class ci x :
  class_mem ci false [CDigit] x = true -> is_digit x = true.
Proof.
  unfold class_mem, items_mem. simpl. rewrite !orb_false_r.
  fold (is_digit x) (is_digit (toUpper x)) (is_digit (toLower x)).
  intros H. apply orb_true_iff in H. destruct H as [H|H]; [exact H|].
  destruct ci; [|discriminate]. simpl in H.
  apply orb_true_iff in H. unfold toUpper, toLower in H.
  destruct H as [H|H].
  - destruct ((97 <=? x) && (x <=? 122))%N eqn:E; [|exact H].
    exfalso. unfold is_digit in H.
    apply andb_true_iff in E, H. rewrite !N.leb_le in *. lia.
  - destruct ((65 <=? x) && (x <=? 90))%N eqn:E; [|exact H].
    exfalso. unfold is_digit in H.
    apply andb_true_iff in E, H. rewrite !N.leb_le in *. lia.
Qed.

(** [(\d{4,8})] holds a code. *)
Lemma digits48_is_code ci s s1 c c1 :
  Matches ci (RRange 4 8 digit) s s1 c c1 ->
  is_code (firstn (length s - length s1) s).
Proof.
  intros M. apply Matches_range_class in M; [|lia].
  destruct M as (w & -> & Hl & Hw). rewrite firstn_consumed.
  split; [assumption|].
  eapply Forall_impl; [|exact Hw]. intros x. apply digit_class.
Qed.

Lemma codePatterns_ok : Forall code_pattern_ok codePatterns.
Proof.
  assert (G : forall ci, groups_sat ci is_code digits48).
  { intros ci s s1 c c1. apply digits48_is_code. }
  unfold codePatterns.
  each_pattern ltac:(split; [simpl; repeat match goal with |- _ /\ _ => split end;
                             trivial; apply G | reflexivity]).
Qed.

Lemma is_code_truthy c : is_code c -> truthy c = true.
Proof.
  intros [[H _] _]. destruct c; [simpl in H; lia | reflexivity].
Qed.

Lemma slice_of_suffix x w s1 : slice_of x s1 -> slice_of x (w ++ s1).
Proof.
  intros (a & b & ->). exists (w ++ a), b. now rewrite app_assoc.
Qed.

(** What is captured is a contiguous piece of the input. *)
Lemma capture_slice ci r s s1 c c1 :
  Matches ci r s s1 c c1 ->
  forall x, c1 = Some x -> c = Some x \/ slice_of x s.
Proof.
  induction 1; intros y Hy; try (now left).
  - destruct (IHMatches2 y Hy) as [E|S2].
    + auto.
    + right. destruct (Matches_suffix H) as [w ->]. now apply slice_of_suffix.
  - auto.
  - auto.
  - destruct (IHMatches2 y Hy) as [E|S2].
    + auto.
    + right. destruct (Matches_suffix H) as [w ->]. now apply slice_of_suffix.
  - right. inversion Hy; subst y.
    destruct (Matches_suffix H) as [w ->]. rewrite firstn_consumed.
    exists [], s1. reflexivity.
Qed.

(** A match of a code pattern always captures a code. *)
Lemma code_pattern_capture rx s s1 c1 :
  code_pattern_ok rx ->
  Matches (ignoreCase rx) (source rx) s s1 None c1 ->
  exists c, c1 = Some c /\ is_code c /\ slice_of c s.
Proof.
  intros [G A] M.
  destruct c1 as [c|].
  - exists c. split; [reflexivity|]. split.
    + eapply groups_sat_capture; try eassumption; [discriminate | reflexivity].
    + destruct (capture_slice M eq_refl) as [E|S]; [discriminate | assumption].
  - exfalso. eapply always_captures_some; [eassumption | now left | reflexivity].
Qed.

(** [match && match[1]] on a code pattern: either there is no match, or
    a code is captured. *)
Lemma group1_search rx content :
  code_pattern_ok rx ->
  match group1 (search (ignoreCase rx) (source rx) content 0) with
  | Some c =>
    is_code c /\
    exists i s1,
      i <= length content /\
      Matches (ignoreCase rx) (source rx) (skipn i content) s1 None (Some c) /\
      (forall j, j < i -> ~ matches_at rx content j)
  | None => ~ matches_somewhere rx content
  end.
Proof.
  intros Hok. unfold group1.
  destruct (search _ _ content 0) as [m|] eqn:E.
  - apply search_Some in E.
    destruct E as (pre & w & s1 & Hs & Hm & HM & Hleft).
    destruct (code_pattern_capture Hok HM) as (c & Hc & Hcode & _).
    rewrite Hc, (is_code_truthy Hcode). split; [assumption|].
    exists (length pre), s1.
    assert (Hsk : skipn (length pre) content = w ++ s1).
    { rewrite Hs, skipn_app, skipn_all, Nat.sub_diag. reflexivity. }
    rewrite Hsk, <- Hc. split; [|split; [assumption|]].
    + rewrite Hs, length_app. lia.
    + intros j Hj (_ & s' & c' & M'). eapply Hleft; eassumption.
  - intros (i & Hi & s' & c' & M'). eapply search_None; eassumption.
Qed.

(** The loop over the code patterns, all at rest: the first pattern
    that has a match decides. *)
Lemma code_loop_rest pats content :
  Forall (fun rx => lastIndex rx = 0) pats ->
  fst (code_loop pats content) = first_code pats content.
Proof.
  induction 1 as [|rx rest H0 _ IH]; simpl; [reflexivity|].
  rewrite <- (exec_rest rx content H0).
  destruct (exec rx content) as [m rx1]. simpl.
  destruct (group1 m); [reflexivity|].
  destruct (code_loop rest content). simpl in *. assumption.
Qed.

Lemma first_code_None pats content :
  Forall code_pattern_ok pats ->
  first_code pats content = None <->
  forall rx, In rx pats -> ~ matches_somewhere rx content.
Proof.
  induction 1 as [|rx rest Hok _ IH]; simpl.
  - split; [intros _ rx [] | reflexivity].
  - pose proof (group1_search content Hok) as G.
    destruct (group1 _) as [c|].
    + split; [discriminate|]. intros Hno. exfalso.
      destruct G as (_ & i & s1 & Hi & M & _).
      apply (Hno rx); [now left|]. exists i. split; [assumption|]. eauto.
    + rewrite IH. split.
      * intros Hno q [<-|Hq]; auto.
      * intros Hno q Hq. apply Hno. now right.
Qed.

Lemma first_code_Some pats content c :
  Forall code_pattern_ok pats ->
  first_code pats content = Some c ->
  exists before rx after i s1,
    pats = before ++ rx :: after /\
    (forall q, In q before -> ~ matches_somewhere q content) /\
    i <= length content /\
    Matches (ignoreCase rx) (source rx) (skipn i content) s1 None (Some c) /\
    (forall j, j < i -> ~ matches_at rx content j) /\
    is_code c /\ slice_of c content.
Proof.
  induction 1 as [|rx rest Hok _ IH]; simpl; [discriminate|].
  pose proof (group1_search content Hok) as G.
  destruct (group1 _) as [c0|].
  - intros E; inversion E; subst c0; clear E.
    destruct G as (Hcode & i & s1 & Hi & M & Hleft).
    exists [], rx, rest, i, s1. simpl.
    repeat match goal with |- _ /\ _ => split end; try assumption.
    + reflexivity.
    + intros q [].
    + destruct (capture_slice M eq_refl) as [E|S]; [discriminate|].
      rewrite <- (firstn_skipn i content). now apply slice_of_suffix.
  - intros E. apply IH in E.
    destruct E as (before & q & after & i & s1 & Hp & Hno & Hi & M & Hl & Hc & Hs).
    exists (rx :: before), q, after, i, s1. simpl. rewrite Hp.
    repeat match goal with |- _ /\ _ => split end; try assumption.
    + reflexivity.
    + intros q' [<-|Hq']; auto.
Qed.

(** ** Links *)

Lemma linkPatterns_consume :
  Forall (fun rx => consumes (source rx) = true /\ lastIndex rx = 0) linkPatterns.
Proof.
  unfold linkPatterns. each_pattern ltac:(split; reflexivity).
Qed.

(** A match of an expression that consumes input is not empty and lies
    within the string it was searched in. *)
Lemma search_consumes ci r s m :
  consumes r = true -> search ci r s 0 = Some m ->
  0 < m_end m <= length s /\ length (skipn (m_end m) s) < length s.
Proof.
  intros Hc E. apply search_Some in E.
  destruct E as (pre & w & s1 & Hs & Hm & HM & _).
  apply consumes_shorter in HM; [|assumption].
  rewrite Hm. simpl. subst s. rewrite length_skipn, !length_app in *. lia.
Qed.

(** The [while] loop of one pattern finds all its matches from
    [lastIndex] on, and ends with the object at rest. *)
Lemma link_while_spec n : forall rx content set,
  consumes (source rx) = true ->
  lastIndex rx <= length content ->
  length content - lastIndex rx <= n ->
  link_while (S n) rx content set =
  Some (add_all (map clean_url
                   (all_matches (S n) (ignoreCase rx) (source rx)
                                (skipn (lastIndex rx) content))) set,
        setLastIndex rx 0).
Proof.
  induction n as [|n IH]; intros rx content set Hc Hi Hn.
  - cbn [link_while all_matches]. unfold exec.
    destruct (Nat.ltb_spec (length content) (lastIndex rx)); [lia|].
    rewrite search_shift.
    destruct (search _ _ (skipn (lastIndex rx) content) 0) as [m|] eqn:E;
      [|reflexivity].
    exfalso. apply search_consumes in E; [|assumption].
    rewrite !length_skipn in E. lia.
  - remember (S n) as k. cbn [link_while all_matches]. unfold exec.
    destruct (Nat.ltb_spec (length content) (lastIndex rx)); [lia|].
    rewrite search_shift.
    destruct (search _ _ (skipn (lastIndex rx) content) 0) as [m|] eqn:E;
      [|reflexivity].
    cbn [option_map m_0 m_end]. subst k.
    pose proof (@search_consumes _ _ _ _ Hc E) as [He Hlen].
    rewrite length_skipn in He. rewrite !length_skipn in Hlen.
    rewrite IH.
    + cbn [lastIndex setLastIndex source ignoreCase].
      rewrite skipn_skipn, (Nat.add_comm (m_end m)). reflexivity.
    + assumption.
    + cbn [lastIndex setLastIndex]. lia.
    + cbn [lastIndex setLastIndex]. lia.
Qed.

Lemma add_all_app a b set :
  add_all (a ++ b) set = add_all b (add_all a set).
Proof. apply fold_left_app. Qed.

Lemma link_loop_spec content : forall pats set,
  Forall (fun rx => consumes (source rx) = true /\ lastIndex rx = 0) pats ->
  link_loop (S (length content)) pats content set =
  Some (add_all (flat_map (fun rx => map clean_url (matches_of rx content)) pats)
                set,
        map (fun rx => setLastIndex rx 0) pats).
Proof.
  induction pats as [|rx rest IH]; intros set H; [reflexivity|].
  inversion H as [|? ? [Hc H0] Hrest]; subst.
  cbn [link_loop flat_map map].
  rewrite link_while_spec; [|assumption|lia|lia].
  rewrite IH by assumption. rewrite H0. cbn [skipn].
  rewrite add_all_app. reflexivity.
Qed.

(** *** The set of links *)

Lemma jseqb_true a b : jseqb a b = true <-> a = b.
Proof.
  unfold jseqb. destruct (list_eq_dec N.eq_dec a b); split; congruence.
Qed.

Lemma jseqb_refl a : jseqb a a = true.
Proof. now apply jseqb_true. Qed.

Lemma jseqb_sym a b : jseqb a b = jseqb b a.
Proof.
  unfold jseqb.
  destruct (list_eq_dec N.eq_dec a b), (list_eq_dec N.eq_dec b a); congruence.
Qed.

Lemma set_add_memb u set :
  set_add u set = if memb u set then set else set ++ [u].
Proof.
  induction set as [|v rest IH]; simpl; [reflexivity|].
  destruct (jseqb u v); simpl; [reflexivity|].
  rewrite IH. now destruct (memb u rest).
Qed.

Lemma filter_and (A : Type) (p q : A -> bool) l :
  filter p (filter q l) = filter (fun y => q y && p y) l.
Proof.
  induction l as [|x t IH]; simpl; [reflexivity|].
  destruct (q x); simpl; [destruct (p x)|]; now rewrite IH.
Qed.

(** Adding to the set one by one keeps the first occurrence of each. *)
Lemma add_all_dedup l : forall acc,
  add_all l acc = acc ++ filter (fun u => negb (memb u acc)) (dedup l).
Proof.
  induction l as [|x t IH]; intros acc; simpl.
  - now rewrite app_nil_r.
  - unfold add_all in *. simpl. rewrite IH, set_add_memb.
    destruct (memb x acc) eqn:E; simpl.
    + f_equal. rewrite filter_and. apply filter_ext. intros y.
      destruct (jseqb x y) eqn:Exy; simpl; [|reflexivity].
      apply jseqb_true in Exy. subst y. now rewrite E.
    + rewrite <- app_assoc. simpl. f_equal. f_equal.
      rewrite filter_and. apply filter_ext. intros y.
      unfold memb. rewrite existsb_app. simpl.
      rewrite orb_false_r, negb_orb, (jseqb_sym y x). apply andb_comm.
Qed.

Lemma add_all_nil l : add_all l [] = dedup l.
Proof.
  rewrite add_all_dedup. simpl.
  induction (dedup l) as [|x t IH]; simpl; [reflexivity | now rewrite IH].
Qed.

Lemma dedup_In l x : In x (dedup l) <-> In x l.
Proof.
  induction l as [|y t IH]; simpl; [reflexivity|].
  rewrite filter_In, IH. split.
  - intros [H|[H _]]; auto.
  - intros [H|H]; [now left|].
    destruct (jseqb y x) eqn:E.
    + left. now apply jseqb_true.
    + right. split; [assumption | reflexivity].
Qed.

Lemma dedup_NoDup l : NoDup (dedup l).
Proof.
  induction l as [|y t IH]; simpl; constructor.
  - rewrite filter_In, jseqb_refl. intros [_ H]. discriminate.
  - now apply NoDup_filter.
Qed.

(** *** Trailing punctuation *)

Lemma punct_class_mem x :
  class_mem false false
    (map (fun s => CChar (ch s))
         ["."; ","; ";"; ":"; "!"; "?"; ")"; "]"; "}"; ">"]%string) x
  = is_punct x.
Proof.
  unfold class_mem, items_mem, is_punct. simpl.
  rewrite !(N.eqb_sym x). now rewrite !orb_false_r.
Qed.

Lemma punct_class_iff x :
  class_mem false false
    (map (fun s => CChar (ch s))
         ["."; ","; ";"; ":"; "!"; "?"; ")"; "]"; "}"; ">"]%string) x = true
  <-> is_punct x = true.
Proof. now rewrite punct_class_mem. Qed.

Lemma Matches_star_class ci g neg items s s1 c c1 :
  Matches ci (RStar g (RClass neg items)) s s1 c c1 ->
  exists w, s = w ++ s1 /\
            Forall (fun x => class_mem ci neg items x = true) w.
Proof.
  remember (RStar g (RClass neg items)) as r eqn:Hr. intros M.
  induction M; try discriminate; inversion Hr; subst.
  - exists []. split; [reflexivity | constructor].
  - apply Matches_class in M1. destruct M1 as (x & -> & Hx & ->).
    destruct (IHM2 eq_refl) as (w & -> & Hw).
    exists (x :: w). split; [reflexivity | now constructor].
Qed.

Lemma star_class_intro ci g neg items w s1 c :
  Forall (fun x => class_mem ci neg items x = true) w ->
  Matches ci (RStar g (RClass neg items)) (w ++ s1) s1 c c.
Proof.
  induction 1 as [|x w Hx _ IH]; simpl.
  - constructor.
  - eapply M_star_more; [constructor; exact Hx | simpl; lia | exact IH].
Qed.

(** What [/[.,;:!?)\]}>]+$/] matches: a non-empty run of punctuation
    that ends the string. *)
Lemma trailing_punct_match s s1 c c1 :
  Matches false trailing_punct s s1 c c1 <->
  s1 = [] /\ c1 = c /\ s <> [] /\ Forall (fun x => is_punct x = true) s.
Proof.
  unfold trailing_punct, RPlus. split.
  - intros M. inversion M; subst.
    match goal with H : Matches _ REnd _ _ _ _ |- _ => inversion H; subst end.
    match goal with H : Matches _ (RSeq _ _) _ _ _ _ |- _ => inversion H; subst end.
    match goal with H : Matches _ (RClass _ _) _ _ _ _ |- _ =>
      apply Matches_class in H; destruct H as (x & -> & Hx & ->) end.
    match goal with H : Matches _ (RStar _ _) _ _ _ _ |- _ =>
      pose proof (Matches_suffix H) as [w' Hw'];
      pose proof H as H'; apply Matches_star_class in H;
      destruct H as (w & -> & Hw) end.
    rewrite app_nil_r in *.
    assert (c1 = c).
    { clear - H'. remember (RStar true _) as r. remember [] as e.
      induction H'; try discriminate; subst; auto.
      inversion Heqr; subst.
      apply Matches_class in H'1. destruct H'1 as (? & ? & ? & ->). auto. }
    repeat split; try assumption; [discriminate|].
    constructor.
    + now apply punct_class_iff.
    + eapply Forall_impl; [|exact Hw]. intros y. apply punct_class_iff.
  - intros (-> & -> & Hne & Hall). destruct s as [|x w]; [contradiction|].
    inversion Hall; subst.
    eapply M_seq; [|apply M_end].
    eapply M_seq; [constructor; now apply punct_class_iff|].
    rewrite <- (app_nil_r w). apply star_class_intro.
    eapply Forall_impl; [|eassumption]. intros y. apply punct_class_iff.
Qed.

(** [clean_url] removes punctuation only, from the end only, and all of
    it. *)
Lemma clean_url_spec u :
  (exists p, u = clean_url u ++ p /\ Forall (fun x => is_punct x = true) p) /\
  no_trailing_punct (clean_url u).
Proof.
  unfold clean_url, replace_first.
  destruct (search false trailing_punct u 0) as [m|] eqn:E.
  - apply search_Some in E. destruct E as (pre & w & s1 & Hu & Hm & HM & Hleft).
    apply trailing_punct_match in HM. destruct HM as (-> & _ & Hne & Hw).
    rewrite app_nil_r in *. rewrite Hm. cbn [m_index m_end]. simpl.
    assert (Hpre : firstn (length pre) u ++ skipn (length pre + length w) u = pre).
    { subst u. rewrite firstn_app, firstn_all, Nat.sub_diag. simpl.
      rewrite skipn_all2 by (rewrite length_app; lia). now rewrite !app_nil_r. }
    rewrite Hpre. split.
    + exists w. split; assumption.
    + intros v x Hv.
      destruct (is_punct x) eqn:Px; [|reflexivity]. exfalso.
      apply (Hleft (length v)) with (s' := []) (c' := None).
      * subst pre. rewrite length_app. simpl. lia.
      * apply trailing_punct_match. subst u pre.
        rewrite <- app_assoc, skipn_app, skipn_all, Nat.sub_diag. simpl.
        repeat split; [discriminate | now constructor].
  - split.
    + exists []. split; [now rewrite app_nil_r | constructor].
    + intros v x Hv. destruct (is_punct x) eqn:Px; [|reflexivity]. exfalso.
      apply (@search_None _ _ _ _ E (length v)) with (s' := []) (c' := None).
      * subst u. rewrite length_app. lia.
      * apply trailing_punct_match. subst u.
        rewrite skipn_app, skipn_all, Nat.sub_diag. simpl.
        repeat split; [discriminate | repeat constructor; assumption].
Qed.

(** ** The states of the module *)

Lemma code_loop_shape content : forall pats,
  map shape (snd (code_loop pats content)) = map shape pats.
Proof.
  induction pats as [|rx rest IH]; simpl; [reflexivity|].
  destruct (exec_object rx content) as [i Hi].
  destruct (exec rx content) as [m rx1]. simpl in Hi. subst rx1.
  destruct (group1 m); simpl; [reflexivity|].
  destruct (code_loop rest content). simpl in *. now rewrite IH.
Qed.

Lemma shape_code_ok l1 l2 :
  map shape l1 = map shape l2 ->
  Forall code_pattern_ok l2 -> Forall code_pattern_ok l1.
Proof.
  revert l2. induction l1 as [|a l1 IH]; intros [|b l2] E H; try discriminate.
  - constructor.
  - inversion E as [[Es Ei El]]. inversion H; subst. constructor.
    + unfold code_pattern_ok in *. now rewrite Es, Ei.
    + eapply IH; eassumption.
Qed.

(** A call from a state whose link patterns are at rest: it returns,
    and leaves them at rest. *)
Lemma extractData_run st text html :
  linkRx st = linkPatterns ->
  extractData st text html =
  Some (mkExtracted
          (fst (code_loop (codeRx st) (content_of text html)))
          (nonempty_or_null (dedup (link_candidates (content_of text html)))),
        mkPatterns (snd (code_loop (codeRx st) (content_of text html)))
                   linkPatterns).
Proof.
  intros Hl. unfold extractData, extractData_fuel.
  destruct (code_loop (codeRx st) (content_of text html)) as [c rx1].
  rewrite Hl, (link_loop_spec _ [] linkPatterns_consume), add_all_nil.
  reflexivity.
Qed.

Lemma reachable_inv st :
  reachable st ->
  linkRx st = linkPatterns /\ map shape (codeRx st) = map shape codePatterns.
Proof.
  induction 1 as [|st text html r st1 _ [IHl IHc] E].
  - split; reflexivity.
  - rewrite (@extractData_run st text html IHl) in E. inversion E; subst. simpl.
    split; [reflexivity|]. now rewrite code_loop_shape.
Qed.

Lemma reachable_code_ok st :
  reachable st -> Forall code_pattern_ok (codeRx st).
Proof.
  intros R. destruct (reachable_inv R) as [_ Hs].
  eapply shape_code_ok; [exact Hs | exact codePatterns_ok].
Qed.

(** Whatever the positions the objects were left at, what the loop
    returns was captured by a code pattern in the content. *)
Lemma code_loop_is_code content c : forall pats,
  Forall code_pattern_ok pats ->
  fst (code_loop pats content) = Some c ->
  is_code c /\ slice_of c content.
Proof.
  induction 1 as [|rx rest Hok _ IH]; simpl; [discriminate|].
  pose proof (@exec_Some rx content) as HS.
  destruct (exec rx content) as [m rx1]. simpl in HS.
  destruct (group1 m) as [c0|] eqn:G.
  - simpl. intros E; inversion E; subst c0; clear E.
    unfold group1 in G. destruct m as [mr|]; [|discriminate].
    destruct (HS mr eq_refl) as (pre & w & s1 & Hs & _ & _ & _ & HM).
    destruct (code_pattern_capture Hok HM) as (c' & Hc' & Hcode & Hsl).
    rewrite Hc' in G. rewrite (is_code_truthy Hcode) in G.
    inversion G; subst c'. split; [assumption|].
    rewrite <- (firstn_skipn (lastIndex rx) content), Hs.
    apply slice_of_suffix. now apply slice_of_suffix.
  - destruct (code_loop rest content). simpl in *. assumption.
Qed.

Lemma all_matches_sound ci r : forall fuel s m0,
  In m0 (all_matches fuel ci r s) ->
  exists a b c1, s = a ++ m0 ++ b /\ Matches ci r (m0 ++ b) b None c1.
Proof.
  induction fuel as [|fuel IH]; intros s m0 H; simpl in H; [contradiction|].
  destruct (search ci r s 0) as [m|] eqn:E; [|contradiction].
  apply search_Some in E. destruct E as (pre & w & s1 & Hs & Hm & HM & _).
  destruct H as [<-|H].
  - rewrite Hm. simpl. eauto.
  - apply IH in H. destruct H as (a & b & c1 & Hs' & M).
    exists (firstn (m_end m) s ++ a), b, c1. split; [|assumption].
    rewrite <- app_assoc, <- Hs'. symmetry. apply firstn_skipn.
Qed.

Lemma all_matches_in_order ci r :
  consumes r = true ->
  forall fuel s, length s < fuel ->
  in_order_of_appearance ci r s (all_matches fuel ci r s).
Proof.
  intros Hc. induction fuel as [|fuel IH]; intros s Hf; [lia|].
  cbn [all_matches].
  destruct (search ci r s 0) as [m|] eqn:E.
  - pose proof (@search_consumes _ _ _ _ Hc E) as [_ Hlen].
    apply search_Some in E. destruct E as (pre & w & s1 & Hs & Hm & HM & Hleft).
    assert (Hsk : skipn (m_end m) s = s1).
    { rewrite Hm, Hs. cbn [m_end]. rewrite Nat.add_0_l.
      rewrite app_assoc, skipn_app, skipn_all2 by (rewrite length_app; lia).
      rewrite length_app, Nat.sub_diag. reflexivity. }
    rewrite Hsk in *. rewrite Hm at 1. cbn [m_0].
    rewrite Hs in Hleft |- *.
    eapply scan_next; [exact HM | exact Hleft |].
    apply IH. lia.
  - apply scan_done. intros j Hj s1 c1. eapply search_None; eassumption.
Qed.

Lemma matches_of_nil rx content :
  matches_of rx content = [] <-> ~ matches_somewhere rx content.
Proof.
  unfold matches_of. cbn [all_matches].
  destruct (search (ignoreCase rx) (source rx) content 0) as [m|] eqn:E.
  - split; [discriminate|]. intros Hno. exfalso. apply Hno.
    apply search_Some in E. destruct E as (pre & w & s1 & Hs & _ & M & _).
    exists (length pre). split; [rewrite Hs, length_app; lia|].
    exists s1, (m_1 m).
    now rewrite Hs, skipn_app, skipn_all, Nat.sub_diag.
  - split; [|reflexivity]. intros _ (i & Hi & s1 & c1 & M).
    eapply search_None; eassumption.
Qed.

Lemma link_candidates_nil content :
  link_candidates content = [] <->
  forall rx, In rx linkPatterns -> ~ matches_somewhere rx content.
Proof.
  unfold link_candidates. induction linkPatterns as [|rx rest IH]; simpl.
  - split; [intros _ rx [] | reflexivity].
  - split.
    + intros H. apply app_eq_nil in H. destruct H as [H1 H2].
      intros q [<-|Hq].
      * apply matches_of_nil. now destruct (matches_of rx content).
      * now apply IH.
    + intros H.
      assert (E : matches_of rx content = []) by (apply matches_of_nil; auto).
      rewrite E. simpl. apply IH. auto.
Qed.

Lemma nonempty_or_null_dedup l :
  nonempty_or_null (dedup l) = None <-> l = [].
Proof.
  destruct l; simpl; split; try reflexivity; discriminate.
Qed.

(** ** What the matcher prefers

    The declarative reading says which matches exist; these lemmas say
    which one [mrun] takes on inputs of a known shape: a literal, a
    greedy run of a class, a counted run of a class. *)

Section Preference.
Variable A : Type.
Variable ci : bool.

Lemma mrun_lit l : forall w s c (k : cont A),
  map (canon ci) w = map (canon ci) l ->
  mrun ci (RLit l) (w ++ s) c k = k s c.
Proof.
  induction l as [|a l IH]; intros w s c k Hw.
  - destruct w; [reflexivity | discriminate].
  - destruct w as [|x w]; [discriminate|]. inversion Hw as [[Hx Hrest]].
    destruct l as [|b t].
    + destruct w; [|discriminate]. simpl. now rewrite Hx, N.eqb_refl.
    + change (RLit (a :: b :: t)) with (RSeq (RChar a) (RLit (b :: t))).
      cbn [mrun app]. rewrite Hx, N.eqb_refl. now apply IH.
Qed.

Lemma mrun_alt_first r1 r2 s c (k : cont A) x :
  mrun ci r1 s c k = Some x -> mrun ci (RAlt r1 r2) s c k = Some x.
Proof. intros H. cbn [mrun]. now rewrite H. Qed.

Definition stops (neg : bool) (items : list citem) (s : jsstring) : Prop :=
  match s with
  | [] => True
  | y :: _ => class_mem ci neg items y = false
  end.

(** A greedy run of a class takes all of [w] when the class ends there
    and what follows accepts. *)
Lemma star_class_greedy neg items (k : cont A) x s c : forall w fuel,
  Forall (fun y => class_mem ci neg items y = true) w ->
  stops neg items s ->
  k s c = Some x ->
  length (w ++ s) <= fuel ->
  star_loop (mrun ci (RClass neg items)) true k fuel (w ++ s) c = Some x.
Proof.
  induction w as [|y w IH]; intros fuel Hw Hs Hk Hf.
  - destruct fuel as [|fuel]; [exact Hk|]. cbn [star_loop app mrun].
    destruct s as [|z s']; [now rewrite Hk|].
    simpl in Hs. now rewrite Hs, Hk.
  - inversion Hw as [|? ? Hy Hw']; subst.
    destruct fuel as [|fuel]; [simpl in Hf; lia|].
    cbn [star_loop app mrun]. rewrite Hy.
    destruct (Nat.ltb_spec (length (w ++ s)) (length (y :: w ++ s))) as [_|H];
      [|simpl in H; lia].
    rewrite IH; [reflexivity | assumption | assumption | assumption |].
    simpl in Hf. lia.
Qed.

Lemma mrun_plus_class_greedy neg items (k : cont A) x s c y w :
  Forall (fun y => class_mem ci neg items y = true) (y :: w) ->
  stops neg items s ->
  k s c = Some x ->
  mrun ci (RPlus (RClass neg items)) (y :: w ++ s) c k = Some x.
Proof.
  intros Hw Hs Hk. inversion Hw as [|? ? Hy Hw']; subst.
  unfold RPlus. cbn [mrun]. rewrite Hy.
  now apply star_class_greedy.
Qed.

Lemma mrun_exactly_class neg items (k : cont A) s c : forall n w,
  Forall (fun y => class_mem ci neg items y = true) w ->
  length w = n ->
  mrun ci (RExactly n (RClass neg items)) (w ++ s) c k = k s c.
Proof.
  induction n as [|n IH]; intros w Hw Hl.
  - destruct w; [reflexivity | discriminate].
  - destruct w as [|y w]; [discriminate|].
    inversion Hw as [|? ? Hy Hw']; subst.
    cbn [RExactly mrun app]. rewrite Hy. apply IH; [assumption|].
    simpl in Hl. lia.
Qed.

(** [r{0,n}] takes [n] when it can and what follows accepts. *)
Lemma mrun_upto_class neg items (k : cont A) x s c : forall n w,
  Forall (fun y => class_mem ci neg items y = true) w ->
  length w = n ->
  k s c = Some x ->
  mrun ci (RUpTo n (RClass neg items)) (w ++ s) c k = Some x.
Proof.
  induction n as [|n IH]; intros w Hw Hl Hk.
  - destruct w; [exact Hk | discriminate].
  - destruct w as [|y w]; [discriminate|].
    inversion Hw as [|? ? Hy Hw']; subst.
    cbn [RUpTo]. unfold ROpt. apply mrun_alt_first.
    cbn [mrun app]. rewrite Hy. apply IH; [assumption | | assumption].
    simpl in Hl. lia.
Qed.
End Preference.

Lemma digit_class_intro ci x :
  is_digit x = true -> class_mem ci false [CDigit] x = true.
Proof.
  intros H. unfold class_mem, items_mem. simpl.
  fold (is_digit x). now rewrite H.
Qed.

Lemma digit_not_colon_space x :
  is_digit x = true -> class_mem true false [CChar (ch ":"); CSpace] x = false.
Proof.
  unfold is_digit. intros H. apply andb_true_iff in H. destruct H as [H1 H2].
  apply N.leb_le in H1, H2.
  assert (U : toUpper x = x).
  { unfold toUpper. destruct (N.leb_spec 97 x); [lia | reflexivity]. }
  assert (L : toLower x = x).
  { unfold toLower. destruct (N.leb_spec 65 x); [lia | reflexivity]. }
  assert (Sp : is_space x = false).
  { unfold is_space. cbn [existsb].
    repeat match goal with
           | |- context [(x =? ?n)%N] =>
             destruct (N.eqb_spec x n); [lia|]
           end.
    destruct (N.leb_spec 8192 x); [lia | reflexivity]. }
  unfold class_mem, items_mem. cbn [existsb item_mem xorb andb].
  rewrite U, L, Sp.
  change (ch ":") with 58%N.
  destruct (N.eqb_spec 58 x); [lia | reflexivity].
Qed.

Lemma search_here ci r s i s1 c1 :
  match_here ci r s = Some (s1, c1) ->
  search ci r s i =
  Some (mkMatch i (i + (length s - length s1))
                (firstn (length s - length s1) s) c1).
Proof. intros H. destruct s; simpl; now rewrite H. Qed.

(** "Code: " and eight digits: the first pattern matches at the start
    and captures the eight digits, whatever follows them. *)
Lemma code_colon_digits_here d1 d2 d3 d4 d5 d6 d7 d8 tl :
  Forall (fun x => is_digit x = true) [d1; d2; d3; d4; d5; d6; d7; d8] ->
  match_here true (source (hd (rx_g REps) codePatterns))
             (js "Code: " ++ [d1; d2; d3; d4; d5; d6; d7; d8] ++ tl)
  = Some (tl, Some [d1; d2; d3; d4; d5; d6; d7; d8]).
Proof.
  intros Hd.
  assert (Hc : Forall (fun y => class_mem true false [CDigit] y = true)
                      [d1; d2; d3; d4; d5; d6; d7; d8]).
  { eapply Forall_impl; [|exact Hd]. intros y. apply digit_class_intro. }
  unfold match_here.
  change (source (hd (rx_g REps) codePatterns))
    with (RSeq (RAlt (RLit (js "code"))
                     (RAlts (map (fun w => RLit (js w))
                        ["otp"; "pin"; "passcode"; "password"; "verification"]%string)))
               (RSeq (RPlus colon_space) digits48)).
  change (js "Code: " ++ [d1; d2; d3; d4; d5; d6; d7; d8] ++ tl)
    with (js "Code" ++ (ch ":" :: [ch " "] ++ [d1; d2; d3; d4; d5; d6; d7; d8] ++ tl)).
  cbn [mrun]. rewrite mrun_lit by reflexivity.
  unfold colon_space. erewrite mrun_plus_class_greedy; [reflexivity | | |].
  - repeat constructor.
  - inversion Hd; subst. now apply digit_not_colon_space.
  - unfold digits48, RRange, digit. cbn [mrun Nat.sub].
    change ([d1; d2; d3; d4; d5; d6; d7; d8] ++ tl)
      with ([d1; d2; d3; d4] ++ [d5; d6; d7; d8] ++ tl) at 1.
    rewrite mrun_exactly_class.
    + apply mrun_upto_class.
      * do 4 (apply Forall_inv_tail in Hc). exact Hc.
      * reflexivity.
      * rewrite firstn_consumed. reflexivity.
    + inversion Hc as [|? ? K1 Hc1]; inversion Hc1 as [|? ? K2 Hc2];
        inversion Hc2 as [|? ? K3 Hc3]; inversion Hc3 as [|? ? K4 Hc4].
      repeat constructor; assumption.
    + reflexivity.
Qed.

Lemma code_colon_digits d8 more html :
  Forall (fun x => is_digit x = true) d8 -> length d8 = 8 ->
  first_code codePatterns (content_of (js "Code: " ++ d8 ++ more) html)
  = Some d8.
Proof.
  intros Hd Hl.
  destruct d8 as [|d1 [|d2 [|d3 [|d4 [|d5 [|d6 [|d7 [|d8 [|]]]]]]]]];
    try discriminate.
  unfold content_of. rewrite <- !app_assoc.
  set (tl := more ++ [ch " "] ++ match html with Some h => h | None => [] end).
  pose proof (code_colon_digits_here tl Hd) as M.
  change codePatterns
    with (hd (rx_g REps) codePatterns :: List.tl codePatterns) at 1.
  cbn [first_code].
  change (ignoreCase (hd (rx_g REps) codePatterns)) with true.
  rewrite (search_here _ _ _ 0 M). reflexivity.
Qed.

Lemma codePatterns_rest : Forall (fun rx => lastIndex rx = 0) codePatterns.
Proof. unfold codePatterns. each_pattern reflexivity. Qed.

(** A call on the module as loaded returns, with the code of the first
    pattern that matches. *)
Lemma extract_loaded text html :
  extract text html =
  Some (mkExtracted
          (first_code codePatterns (content_of text html))
          (nonempty_or_null (dedup (link_candidates (content_of text html))))).
Proof.
  unfold extract. rewrite (@extractData_run loaded text html eq_refl).
  cbn [option_map fst codeRx loaded].
  now rewrite (code_loop_rest _ codePatterns_rest).
Qed.

Lemma codePatterns_consume :
  Forall (fun rx => consumes (source rx) = true) codePatterns.
Proof. unfold codePatterns. each_pattern reflexivity. Qed.

Lemma setLastIndex_rest rx i :
  lastIndex rx = 0 -> setLastIndex (setLastIndex rx i) 0 = rx.
Proof. destruct rx. simpl. now intros ->. Qed.

(** From rest, the loop over the code patterns leaves every object at
    rest when it finds no code, and otherwise leaves the pattern that
    matched with [lastIndex] at the end of its match. *)
Lemma code_loop_state content : forall pats,
  Forall (fun rx => consumes (source rx) = true) pats ->
  Forall (fun rx => lastIndex rx = 0) pats ->
  match fst (code_loop pats content) with
  | None => snd (code_loop pats content) = pats
  | Some _ =>
    exists before rx after e,
      pats = before ++ rx :: after /\
      snd (code_loop pats content) = before ++ setLastIndex rx e :: after /\
      0 < e
  end.
Proof.
  induction pats as [|rx rest IH]; intros Hc H0; [reflexivity|].
  inversion Hc as [|? ? Hc1 Hc2]; inversion H0 as [|? ? Hr1 Hr2]; subst.
  specialize (IH Hc2 Hr2). cbn [code_loop].
  pose proof (exec_object rx content) as [i Hi].
  pose proof (@exec_Some rx content) as HS.
  pose proof (@exec_rest rx content Hr1) as HR.
  destruct (exec rx content) as [m rx1]. cbn [fst snd] in *. subst rx1.
  destruct (group1 m) as [c|] eqn:G.
  - cbn [fst snd]. destruct m as [mr|]; [|discriminate].
    destruct (HS mr eq_refl) as (_ & _ & _ & _ & _ & _ & Hst & _).
    symmetry in HR. apply search_consumes in HR; [|assumption].
    exists [], rx, rest, (m_end mr). cbn [app]. rewrite <- Hst.
    repeat split. lia.
  - destruct (code_loop rest content) as [c rest1]. cbn [fst snd] in *.
    rewrite (@setLastIndex_rest rx i Hr1).
    destruct c as [c|].
    + destruct IH as (before & q & after & e & -> & -> & He).
      exists (rx :: before), q, after, e. auto.
    + now rewrite IH.
Qed.

(** ** The extractor: claims *)

(** C1.  Two calls of [extractData] with the same input do not always
    return the same output.  The loop over the code patterns leaves with
    [break] before the statement that resets [lastIndex], so the pattern
    that matched keeps the end of its match as the place where its next
    search starts: a call on the module as loaded leaves it as loaded
    exactly when it finds no code.  On "Code: 123456" the first call
    returns the code and the second call returns null; on the spec's own
    two-code example the second call returns the backup code. *)
Theorem C1_second_call_differs :
  (forall text html r st1,
     extractData loaded text html = Some (r, st1) ->
     (code r = None <-> st1 = loaded)) /\
  extract_twice (js "Code: 123456") None =
    Some (mkExtracted (Some (js "123456")) None, mkExtracted None None) /\
  extract_twice (js "Primary code: 111111, backup code: 222222") None =
    Some (mkExtracted (Some (js "111111")) None,
          mkExtracted (Some (js "222222")) None).
Proof.
  split; [|split; vm_compute; reflexivity].
  intros text html r st1 E.
  rewrite (@extractData_run loaded text html eq_refl) in E.
  change (codeRx loaded) with codePatterns in E.
  pose proof (code_loop_state (content_of text html)
                codePatterns_consume codePatterns_rest) as H.
  remember (code_loop codePatterns (content_of text html)) as cl eqn:Hcl.
  clear Hcl. destruct cl as [c rxs]. cbn [fst snd] in *.
  injection E as Hr Hst. subst r st1. cbn [code].
  destruct c as [c|].
  - destruct H as (before & rx & after & e & Hp & Hs & He).
    split; [discriminate|]. intros Hl. exfalso.
    unfold loaded in Hl. injection Hl as Hl.
    rewrite Hs, Hp in Hl. apply app_inv_head in Hl.
    injection Hl as Hrx.
    assert (Hi : lastIndex (setLastIndex rx e) = lastIndex rx) by now rewrite Hrx.
    assert (H0 : lastIndex rx = 0).
    { pose proof codePatterns_rest as R. rewrite Hp in R.
      apply Forall_app in R. destruct R as [_ R]. now inversion R. }
    cbn [lastIndex setLastIndex] in Hi. lia.
  - split; [|reflexivity]. intros _. unfold loaded. now rewrite H.
Qed.

Lemma C1_second_call_differs_witness :
  exists r st1,
    extractData loaded (js "Code: 123456") None = Some (r, st1) /\
    code r = Some (js "123456") /\ st1 <> loaded.
Proof.
  destruct C1_second_call_differs as (H & _).
  assert (E : exists r st1,
    extractData loaded (js "Code: 123456") None = Some (r, st1) /\
    code r = Some (js "123456")).
  { vm_compute. do 2 eexists. split; reflexivity. }
  destruct E as (r & st1 & E & Hc). exists r, st1.
  split; [exact E|]. split; [exact Hc|].
  intros Hl. apply (H _ _ _ _ E) in Hl. rewrite Hc in Hl. discriminate.
Defined.

(** C2.  The Chinese labelled form yields the code; the English form
    "Your code is 123456" yields null: no pattern lets the word "is"
    stand between the keyword and the digits. *)
Theorem C2_chinese_form_and_english_form :
  option_map code (extract (js "您的验证码：123456") None) = Some (Some (js "123456")) /\
  option_map code (extract (js "Your code is 123456") None) = Some None.
Proof. split; vm_compute; reflexivity. Qed.

(** C3, as stated, fails: a run of nine digits after "Code: " does
    produce a match, the first eight digits. *)
Lemma C3_nine_digits_are_truncated :
  option_map code (extract (js "Code: 123456789") None)
    = Some (Some (js "12345678")) /\
  option_map code (extract (js "Code: 123456789") None) <> Some None.
Proof. split; vm_compute; [reflexivity | discriminate]. Qed.

(** C3, amended.  Three digits are rejected and eight accepted; in
    every state the module can be in, a code that is returned is a piece
    of the content made of four to eight digits, so that a run of nine
    or more digits is never returned whole; and such a run does match:
    after "Code: ", eight digits are returned whatever follows them, be
    it more digits. *)
Theorem C3_code_length_bounds :
  option_map code (extract (js "Error code: 123") None) = Some None /\
  option_map code (extract (js "Code: 12345678") None)
    = Some (Some (js "12345678")) /\
  option_map code (extract (js "Code: 123456789") None)
    = Some (Some (js "12345678")) /\
  (forall st text html r st1 c,
     reachable st -> extractData st text html = Some (r, st1) ->
     code r = Some c ->
     is_code c /\ slice_of c (content_of text html)) /\
  (forall d8 more html,
     Forall (fun x => is_digit x = true) d8 -> length d8 = 8 ->
     option_map code (extract (js "Code: " ++ d8 ++ more) html)
       = Some (Some d8)).
Proof.
  split; [vm_compute; reflexivity|].
  split; [vm_compute; reflexivity|].
  split; [vm_compute; reflexivity|].
  split.
  - intros st text html r st1 c R E Hc.
    destruct (reachable_inv R) as [Hl _].
    rewrite (@extractData_run st text html Hl) in E.
    inversion E; subst r; clear E. simpl in Hc.
    eapply code_loop_is_code; [|exact Hc]. now apply reachable_code_ok.
  - intros d8 more html Hd Hl. rewrite extract_loaded. cbn [option_map code].
    now rewrite code_colon_digits.
Qed.

Lemma C3_code_length_bounds_witness :
  is_code (js "12345678") /\
  slice_of (js "12345678") (content_of (js "Code: 123456789") None).
Proof.
  destruct C3_code_length_bounds as (_ & _ & _ & H & _).
  eapply (H loaded (js "Code: 123456789") None _ _ (js "12345678")).
  - exact reach_loaded.
  - vm_compute. reflexivity.
  - reflexivity.
Defined.

(** C4.  On the module as loaded the first pattern decides; in the
    state a call that found a code leaves behind, it does not always.

    On the module as loaded, [extractData] returns; the content is the
    text, a space and the html (nothing for an html that is absent), in
    this order; the code is that of the first pattern, in the order of
    [codePatterns], that has a match anywhere in the content: the
    patterns before it match nowhere, the capture comes from its
    leftmost match and is returned as the piece of content it is, four
    to eight digits with their leading zeros; and the code is null
    exactly when no pattern matches anywhere, a bare number being no
    match.

    After the call [extractData("Code: 123456")] the first pattern keeps
    12 as [lastIndex].  In that state, which the module reaches by this
    one call, the first pattern matches "code: 1111" in
    "code: 1111 and then 2222 is your code", yet the call returns
    "2222", the capture of the third pattern; and on "Code: 123456" the
    call returns null although the first pattern matches. *)
Theorem C4_first_pattern_decides_on_loaded_module_only :
  (forall (text : jsstring) (html : option jsstring),
     let content : jsstring :=
       text ++ js " " ++ match html with Some h => h | None => [] end in
     exists r,
       extract text html = Some r /\
       code r = first_code codePatterns content /\
       (code r = None <->
        forall rx, In rx codePatterns -> ~ matches_somewhere rx content) /\
       (forall c, code r = Some c ->
          exists before rx after i s1,
            codePatterns = before ++ rx :: after /\
            (forall q, In q before -> ~ matches_somewhere q content) /\
            i <= length content /\
            Matches (ignoreCase rx) (source rx)
                    (skipn i content) s1 None (Some c) /\
            (forall j, j < i -> ~ matches_at rx content j) /\
            is_code c /\ slice_of c content)) /\
  (option_map code
     (extract (js "Primary code: 111111, backup code: 222222") None)
     = Some (Some (js "111111")) /\
   option_map code (extract (js "Code: 007123") None)
     = Some (Some (js "007123")) /\
   option_map code (extract (js "Call 5551234 or pay 123456 today") None)
     = Some None /\
   option_map code (extract (js "Your code") (Some (js "1234")))
     = Some (Some (js "1234")) /\
   option_map code (extract (js "Code: 1111") (Some (js "<b>Code: 2222</b>")))
     = Some (Some (js "1111")) /\
   option_map code (extract (js "Hello") (Some (js "<b>Code: 4242</b>")))
     = Some (Some (js "4242")) /\
   option_map code (extract (js "Code:") (Some (js "")))
     = Some None) /\
  (exists r0 st,
     extractData loaded (js "Code: 123456") None = Some (r0, st) /\
     reachable st /\
     map lastIndex (codeRx st) = [12; 0; 0; 0; 0; 0; 0; 0; 0; 0] /\
     (exists rx after,
        codePatterns = rx :: after /\
        matches_at rx (js "code: 1111 and then 2222 is your code ") 0) /\
     first_code codePatterns (js "code: 1111 and then 2222 is your code ")
       = Some (js "1111") /\
     option_map (fun p => code (fst p))
       (extractData st (js "code: 1111 and then 2222 is your code") None)
       = Some (Some (js "2222")) /\
     first_code codePatterns (js "Code: 123456 ") = Some (js "123456") /\
     option_map (fun p => code (fst p))
       (extractData st (js "Code: 123456") None)
       = Some None).
Proof.
  split; [|split].
  - intros text html content.
    assert (Ec : content = content_of text html) by reflexivity.
    rewrite Ec. clear Ec content. rewrite extract_loaded.
    eexists. split; [reflexivity|]. cbn [code].
    split; [reflexivity|]. split.
    + apply first_code_None. exact codePatterns_ok.
    + intros c Hc. apply first_code_Some; [exact codePatterns_ok | exact Hc].
  - repeat split; vm_compute; reflexivity.
  - destruct (extractData loaded (js "Code: 123456") None) as [[r0 st]|] eqn:E;
      [|vm_compute in E; discriminate].
    exists r0, st. split; [reflexivity|].
    split; [eapply reach_call; [apply reach_loaded | exact E]|].
    assert (Est : st = snd (r0, st)) by reflexivity.
    assert (Ev : option_map snd (extractData loaded (js "Code: 123456") None)
                 = Some st) by now rewrite E.
    vm_compute in Ev. injection Ev as Ev. subst st. clear E Est.
    split; [vm_compute; reflexivity|].
    split.
    { eexists. eexists. split; [reflexivity|].
      split; [vm_compute; lia|].
      exists (js " and then 2222 is your code "), (Some (js "1111")).
      apply match_here_sound. vm_compute. reflexivity. }
    repeat split; vm_compute; reflexivity.
Qed.

Lemma C4_first_pattern_decides_on_loaded_module_only_witness :
  is_code (js "007123") /\ slice_of (js "007123") (js "Code: 007123 ").
Proof.
  destruct C4_first_pattern_decides_on_loaded_module_only as (H & _).
  pose proof (H (js "Code: 007123") None) as H0. cbv zeta in H0.
  destruct H0 as (r & E & _ & _ & Hc).
  assert (Er : r = mkExtracted (Some (js "007123")) None).
  { assert (E' : extract (js "Code: 007123") None
                 = Some (mkExtracted (Some (js "007123")) None))
      by (vm_compute; reflexivity).
    rewrite E' in E. now inversion E. }
  destruct (Hc (js "007123")) as (_ & _ & _ & _ & _ & _ & _ & _ & _ & _ & Hcode & Hsl).
  - rewrite Er. reflexivity.
  - split; assumption.
Defined.

(** C9.  In every state the module can be in, [extractData] returns, and
    its links are null exactly when no link pattern matches anywhere in
    the content, else the list of the cleaned matches, category by
    category and in order of appearance within a category, each kept
    once at its first place.  Every link is a match of one of the five
    patterns in the content, less the punctuation that ended it. *)
Theorem C9_links :
  (forall st text html,
     reachable st ->
     exists r st1,
       extractData st text html = Some (r, st1) /\
       links r = nonempty_or_null (dedup (link_candidates (content_of text html))) /\
       (links r = None <->
        forall rx, In rx linkPatterns ->
                   ~ matches_somewhere rx (content_of text html)) /\
       (forall rx, In rx linkPatterns ->
          in_order_of_appearance (ignoreCase rx) (source rx)
            (content_of text html) (matches_of rx (content_of text html))) /\
       NoDup (dedup (link_candidates (content_of text html))) /\
       (forall u, In u (dedup (link_candidates (content_of text html))) <->
                  In u (link_candidates (content_of text html))) /\
       (forall u, In u (link_candidates (content_of text html)) ->
          no_trailing_punct u /\
          exists rx p a b c1,
            In rx linkPatterns /\
            Forall (fun x => is_punct x = true) p /\
            content_of text html = a ++ (u ++ p) ++ b /\
            Matches (ignoreCase rx) (source rx) ((u ++ p) ++ b) b None c1)) /\
  option_map links (extract (js "Visit us: https://example.com/about") None)
    = Some None /\
  option_map links
    (extract (js "Verify: https://example.com/verify?token=abc") None)
    = Some (Some [js "https://example.com/verify?token=abc"]) /\
  option_map links
    (extract (js "Reset (https://a.io/reset?token=x1), or sign in: https://a.io/login. Again: https://a.io/reset?token=x1!") None)
    = Some (Some [js "https://a.io/reset?token=x1"; js "https://a.io/login"]).
Proof.
  split; [|repeat split; vm_compute; reflexivity].
  intros st text html R. destruct (reachable_inv R) as [Hl _].
  rewrite (@extractData_run st text html Hl).
  do 2 eexists. split; [reflexivity|]. cbn [links].
  split; [reflexivity|].
  split; [rewrite nonempty_or_null_dedup; apply link_candidates_nil|].
  split.
  { intros rx Hrx. apply all_matches_in_order; [|lia].
    pose proof linkPatterns_consume as Hc. rewrite Forall_forall in Hc.
    now apply Hc. }
  split; [apply dedup_NoDup|].
  split; [intros u; apply dedup_In|].
  intros u Hu. unfold link_candidates in Hu.
  apply in_flat_map in Hu. destruct Hu as (rx & Hrx & Hu).
  apply in_map_iff in Hu. destruct Hu as (m0 & <- & Hm0).
  destruct (clean_url_spec m0) as [(p & Hp & Hpunct) Hclean].
  split; [exact Hclean|].
  apply all_matches_sound in Hm0. destruct Hm0 as (a & b & c1 & Hs & M).
  exists rx, p, a, b, c1. rewrite <- Hp. auto.
Qed.

Lemma C9_links_witness :
  exists r st1,
    extractData loaded (js "Verify: https://example.com/verify?token=abc.") None
      = Some (r, st1) /\
    links r = Some [js "https://example.com/verify?token=abc"].
Proof.
  destruct C9_links as (H & _).
  destruct (H loaded (js "Verify: https://example.com/verify?token=abc.") None
              reach_loaded) as (r & st1 & E & L & _).
  exists r, st1. split; [exact E|]. rewrite L. vm_compute. reflexivity.
Defined.

(** ** The MIME normalizer *)

Lemma transfer_decode_normal scope body :
  exists d, transfer_decode scope body = Normal d.
Proof.
  unfold transfer_decode.
  destruct (test true (transfer_encoding_re "quoted-printable") scope); [eauto|].
  destruct (test true (transfer_encoding_re "base64") scope); [|eauto].
  destruct (atob _); unfold try_catch; eauto.
Qed.

Lemma transfer_decode_decoded scope body :
  transfer_decode scope body = Normal (decoded_body scope body).
Proof.
  unfold decoded_body.
  destruct (transfer_decode_normal scope body) as [d ->]. reflexivity.
Qed.

(** One round of the loop is the effect of the part's segment, if it
    has one. *)
Lemma part_step_segment acc part :
  part_step acc part =
  Normal (match segment_of part with
          | Some sg => seg_step acc sg
          | None => acc
          end).
Proof.
  unfold part_step, segment_of, declares_plain, declares_html.
  destruct (jseqb (trim part) [] || jseqb (trim part) (js "--")); [reflexivity|].
  rewrite transfer_decode_decoded.
  generalize (decoded_body part (trim (substring part (indexOf part CRLFCRLF + 4)))).
  generalize (indexOf part CRLFCRLF <? 0)%Z.
  generalize (test true (content_type_re "text/plain") part).
  generalize (test true (content_type_re "text/html") part).
  intros th tp neg d. destruct acc as [t h].
  unfold bind, seg_step. cbn [fst snd isText isHtml decoded].
  destruct tp, th, neg; cbn [negb andb]; try reflexivity;
    destruct (truthy t); reflexivity.
Qed.

Lemma parts_loop_segments : forall parts acc,
  parts_loop parts acc = Normal (fold_left seg_step (segments_of parts) acc).
Proof.
  induction parts as [|part rest IH]; intros acc; [reflexivity|].
  cbn [parts_loop segments_of]. rewrite part_step_segment. unfold bind.
  destruct (segment_of part); cbn [fold_left]; apply IH.
Qed.

Lemma parseMultipart_segments raw boundary :
  parseMultipart raw boundary =
  Normal (finish (fold_left seg_step (segments raw boundary) ([], None))).
Proof.
  unfold parseMultipart, segments. now rewrite parts_loop_segments.
Qed.

Lemma parseSinglePart_normal raw : exists body, parseSinglePart raw = Normal body.
Proof.
  unfold parseSinglePart. rewrite transfer_decode_decoded. unfold bind.
  destruct (test true (content_type_re "text/html") raw); eauto.
Qed.

(** The normalizer never throws. *)
Lemma parseMimeContent_normal raw :
  exists body, parseMimeContent raw = Normal body.
Proof.
  unfold parseMimeContent. destruct (boundaryMatch raw) as [b|].
  - rewrite parseMultipart_segments. eauto.
  - apply parseSinglePart_normal.
Qed.

Lemma truthy_false s : truthy s = false -> s = [].
Proof. destruct s; [reflexivity | discriminate]. Qed.

(** [text] after the loop: once set to a non-empty string it stays;
    until then the next text/plain segment sets it. *)
Lemma fold_text : forall segs t h,
  fst (fold_left seg_step segs (t, h)) =
  if truthy t then t
  else match first_text segs with
       | Some sg => decoded sg
       | None => []
       end.
Proof.
  unfold first_text.
  induction segs as [|sg rest IH]; intros t h; simpl.
  - destruct (truthy t) eqn:E; [reflexivity | now apply truthy_false].
  - unfold seg_step at 2. simpl.
    destruct (truthy t) eqn:Et; simpl.
    + rewrite andb_false_r.
      destruct (isHtml sg); rewrite IH, Et; reflexivity.
    + rewrite andb_true_r. apply truthy_false in Et. subst t.
      destruct (isText sg); simpl.
      * rewrite IH. destruct (truthy (decoded sg)) eqn:Ed; [reflexivity|].
        reflexivity.
      * destruct (isHtml sg); rewrite IH; reflexivity.
Qed.

(** [html] after the loop, when no segment declares both types: the
    last text/html segment. *)
Lemma fold_html : forall segs t h,
  Forall (fun sg => isText sg && isHtml sg = false) segs ->
  snd (fold_left seg_step segs (t, h)) =
  match last_html segs with
  | Some sg => Some (decoded sg)
  | None => h
  end.
Proof.
  unfold last_html.
  induction segs as [|sg rest IH] using rev_ind; intros t h H; [reflexivity|].
  apply Forall_app in H. destruct H as [Hrest Hsg].
  inversion Hsg as [|? ? Hb _]; subst.
  rewrite fold_left_app, rev_app_distr. simpl.
  specialize (IH t h Hrest).
  destruct (fold_left seg_step rest (t, h)) as [t1 h1]. simpl in IH.
  unfold seg_step. simpl.
  destruct (isHtml sg) eqn:Eh.
  - rewrite andb_true_r in Hb. rewrite Hb. reflexivity.
  - destruct (isText sg && negb (truthy t1)); simpl; exact IH.
Qed.

Lemma fold_html_from : forall segs t h x,
  snd (fold_left seg_step segs (t, h)) = Some x ->
  h = Some x \/ exists sg, In sg segs /\ isHtml sg = true /\ decoded sg = x.
Proof.
  induction segs as [|sg rest IH]; intros t h x H; simpl in H; [now left|].
  unfold seg_step at 2 in H. simpl in H.
  destruct (isText sg && negb (truthy t)).
  - apply IH in H. destruct H as [H|(sg' & Hin & Hh & Hd)]; [now left|].
    right. exists sg'. simpl. auto.
  - destruct (isHtml sg) eqn:Eh.
    + apply IH in H. destruct H as [H|(sg' & Hin & Hh & Hd)].
      * right. exists sg. inversion H. simpl. auto.
      * right. exists sg'. simpl. auto.
    + apply IH in H. destruct H as [H|(sg' & Hin & Hh & Hd)]; [now left|].
      right. exists sg'. simpl. auto.
Qed.

Lemma htmlToText_empty : htmlToText [] = [].
Proof. vm_compute. reflexivity. Qed.

Lemma finish_html acc : html (finish acc) = snd acc.
Proof.
  destruct acc as [t h]. unfold finish.
  destruct (negb (truthy t) && truthy_opt h); reflexivity.
Qed.

Lemma finish_text acc :
  text (finish acc) =
  if truthy (fst acc) then fst acc
  else match snd acc with
       | Some h => htmlToText h
       | None => []
       end.
Proof.
  destruct acc as [t [h|]]; unfold finish; cbn [fst snd truthy_opt].
  - destruct (truthy t) eqn:Et; cbn [negb andb]; [reflexivity|].
    apply truthy_false in Et. subst t.
    destruct (truthy h) eqn:Eh; [reflexivity|].
    apply truthy_false in Eh. subst h. now rewrite htmlToText_empty.
  - destruct (truthy t) eqn:Et; cbn [negb andb]; [reflexivity|].
    now apply truthy_false in Et.
Qed.

(** *** [indexOf] *)

Lemma startsWith_spec p : forall s,
  startsWith p s = true <-> exists b, s = p ++ b.
Proof.
  induction p as [|a p IH]; intros s; simpl.
  - split; [eauto | reflexivity].
  - destruct s as [|x t].
    + split; [discriminate | intros [b Hb]; discriminate].
    + rewrite andb_true_iff, N.eqb_eq, IH. split.
      * intros [-> [b ->]]. eauto.
      * intros [b Hb]. inversion Hb; subst. eauto.
Qed.

Lemma occurs_cons p x t :
  occurs p (x :: t) <-> startsWith p (x :: t) = true \/ occurs p t.
Proof.
  rewrite startsWith_spec. unfold occurs. split.
  - intros ([|y a] & b & H); simpl in H.
    + left. eauto.
    + right. inversion H; subst. eauto.
  - intros [[b ->]|(a & b & ->)].
    + exists [], b. reflexivity.
    + exists (x :: a), b. reflexivity.
Qed.

Lemma indexOf_from_spec p : forall s i,
  (0 <= i)%Z ->
  ((indexOf_from p s i < 0)%Z <-> ~ occurs p s) /\
  (indexOf_from p s i < 0 \/ i <= indexOf_from p s i)%Z.
Proof.
  induction s as [|x t IH]; intros i Hi; simpl.
  - destruct (startsWith p []) eqn:E.
    + split; [|lia]. split; [lia|]. intros H. exfalso. apply H.
      apply startsWith_spec in E. destruct E as [b ->].
      exists [], b. reflexivity.
    + split; [|lia]. split; [|lia]. intros _ (a & b & H).
      destruct a; simpl in H.
      * assert (startsWith p [] = true) by (apply startsWith_spec; eauto).
        congruence.
      * discriminate.
  - destruct (startsWith p (x :: t)) eqn:E.
    + split; [|lia]. split; [lia|]. intros H. exfalso. apply H.
      apply occurs_cons. now left.
    + destruct (IH (i + 1)%Z ltac:(lia)) as [IH1 IH2].
      split; [|lia]. rewrite IH1, occurs_cons. split.
      * intros H [H'|H']; [congruence | contradiction].
      * intros H H'. apply H. now right.
Qed.

(** [indexOf] is negative exactly when the string does not occur. *)
Lemma indexOf_negative s p : (indexOf s p < 0)%Z <-> ~ occurs p s.
Proof. unfold indexOf. apply indexOf_from_spec. lia. Qed.

(** *** Literals *)

Lemma Matches_lit ci l : forall s s1 c c1,
  Matches ci (RLit l) s s1 c c1 <->
  exists w, s = w ++ s1 /\ map (canon ci) w = map (canon ci) l /\ c1 = c.
Proof.
  induction l as [|a l IH]; intros s s1 c c1.
  - simpl. split.
    + intros M. inversion M; subst. exists []. auto.
    + intros (w & -> & Hw & ->). destruct w; [constructor | discriminate].
  - destruct l as [|b t].
    + simpl. split.
      * intros M. inversion M; subst. exists [x]. simpl.
        repeat split; congruence.
      * intros (w & -> & Hw & ->). destruct w as [|x [|y w]]; try discriminate.
        inversion Hw. now constructor.
    + change (RLit (a :: b :: t)) with (RSeq (RChar a) (RLit (b :: t))). split.
      * intros M.
        inversion M as [| | | r1 r2 s0 sm s2 c0 cm c2 M1 M2 | | | | | |]; subst.
        inversion M1; subst.
        apply IH in M2. destruct M2 as (w & -> & Hw & ->).
        exists (x :: w). split; [reflexivity|]. split; [|reflexivity].
        cbn [map] in *. now rewrite Hw, H0.
      * intros (w & -> & Hw & ->). destruct w as [|x w]; [discriminate|].
        inversion Hw. eapply M_seq; [now constructor|].
        apply IH. exists w. auto.
Qed.

Lemma toUpper_cases c : toUpper c = c \/ (65 <= toUpper c <= 90)%N.
Proof.
  unfold toUpper. destruct ((97 <=? c) && (c <=? 122))%N eqn:E; [|now left].
  apply andb_true_iff in E. destruct E as [E1 E2].
  apply N.leb_le in E1, E2. right. lia.
Qed.

Lemma toLower_cases c : toLower c = c \/ (97 <= toLower c <= 122)%N.
Proof.
  unfold toLower. destruct ((65 <=? c) && (c <=? 90))%N eqn:E; [|now left].
  apply andb_true_iff in E. destruct E as [E1 E2].
  apply N.leb_le in E1, E2. right. lia.
Qed.

Lemma boundary_class c :
  class_mem true true [CChar DQUOTE; CChar CR; CChar LF] c = true <->
  boundary_char c.
Proof.
  unfold class_mem, items_mem, boundary_char, DQUOTE, CR, LF.
  cbn [existsb item_mem andb].
  rewrite xorb_true_l, negb_true_iff, !orb_false_iff, !N.eqb_neq.
  destruct (toUpper_cases c) as [->|U], (toLower_cases c) as [->|L];
    split; intros H; repeat split; try tauto; try lia.
Qed.

Lemma dquote_nocase x : canon true x = canon true DQUOTE -> x = DQUOTE.
Proof.
  unfold canon, toUpper, DQUOTE. simpl.
  destruct ((97 <=? x) && (x <=? 122))%N eqn:E; [|auto].
  apply andb_true_iff in E. destruct E as [E1 E2].
  apply N.leb_le in E1, E2. lia.
Qed.

(** *** The boundary decision *)

Lemma boundaryMatch_None raw :
  boundaryMatch raw = None <-> ~ matches_somewhere boundary_rx raw.
Proof.
  unfold boundaryMatch, match_. split.
  - destruct (search true boundary_re raw 0) as [m|] eqn:E; [discriminate|].
    intros _ (i & Hi & s1 & c1 & M). eapply search_None; eassumption.
  - intros Hno.
    destruct (search true boundary_re raw 0) as [m|] eqn:E; [|reflexivity].
    exfalso. apply Hno. apply search_Some in E.
    destruct E as (pre & w & s1 & Hs & _ & M & _).
    exists (length pre). split.
    + rewrite Hs, length_app. lia.
    + exists s1, (m_1 m). simpl.
      now rewrite Hs, skipn_app, skipn_all, Nat.sub_diag.
Qed.

Lemma boundary_group_nonempty :
  groups_sat true (fun x => x <> []) boundary_re.
Proof.
  simpl. repeat split; trivial. intros s0 s2 c0 c2 M0.
  pose proof (@consumes_shorter true _ _ _ _ _ M0 eq_refl) as Hlt.
  destruct (Matches_suffix M0) as [w0 ->].
  rewrite firstn_consumed. rewrite length_app in Hlt.
  destruct w0; [simpl in Hlt; lia | discriminate].
Qed.

Lemma boundaryMatch_Some raw :
  matches_somewhere boundary_rx raw ->
  exists boundary,
    boundaryMatch raw = Some boundary /\ boundary <> [] /\ slice_of boundary raw.
Proof.
  intros Hm. destruct (boundaryMatch raw) as [b|] eqn:E.
  - exists b. split; [reflexivity|].
    unfold boundaryMatch, match_ in E.
    destruct (search true boundary_re raw 0) as [m|] eqn:Es; [|discriminate].
    apply search_Some in Es.
    destruct Es as (pre & w & s' & Hs & _ & M' & _).
    destruct (m_1 m) as [b0|] eqn:Eb.
    + inversion E; subst b0. split.
      * exact (@groups_sat_capture true (fun x => x <> []) _ _ _ _ _ M'
                 boundary_group_nonempty ltac:(discriminate) b eq_refl).
      * destruct (capture_slice M' eq_refl) as [D|S]; [discriminate|].
        rewrite Hs. now apply slice_of_suffix.
    + exfalso. eapply always_captures_some; [exact M' | now left | reflexivity].
  - exfalso. now apply boundaryMatch_None in E.
Qed.

(** The boundary expression matches somewhere exactly when the text
    holds a boundary parameter. *)
Lemma has_boundary_param_iff raw :
  matches_somewhere boundary_rx raw <-> has_boundary_param raw.
Proof.
  unfold matches_somewhere, matches_at, has_boundary_param.
  cbn [boundary_rx source ignoreCase]. unfold boundary_re.
  cbn [RSeqs]. unfold ROpt, RPlus.
  remember (RLit (js "boundary=")) as lit eqn:Hlit.
  split.
  - intros (i & Hi & s1 & c1 & M).
    inversion M as [| | | ? ? ? sa ? ? ca ? Mlit M2 | | | | | |]; subst.
    inversion M2 as [| | | ? ? ? sb ? ? cb ? Mq M3 | | | | | |]; subst.
    inversion M3 as [| | | ? ? ? sc ? ? cc ? Mg M4 | | | | | |]; subst.
    inversion Mg as [| | | | | | | | ? ? ? ? ? Mp |]; subst.
    inversion Mp as [| | | ? ? ? sd ? ? cd ? Mc Ms | | | | | |]; subst.
    apply Matches_class in Mc. destruct Mc as (x & -> & Hx & ->).
    apply Matches_lit in Mlit. destruct Mlit as (kw & Hkw & Hci & ->).
    apply boundary_class in Hx.
    assert (Hq : exists q, sa = q ++ x :: sd /\ (q = [] \/ q = [DQUOTE])).
    { inversion Mq as [| | | | ? ? ? ? ? ? Mq1 | ? ? ? ? ? ? Mq1 | | | |]; subst.
      - inversion Mq1; subst. exists [DQUOTE]. split; [|now right].
        match goal with H : canon _ _ = canon _ _ |- _ =>
          apply dquote_nocase in H; subst end. reflexivity.
      - inversion Mq1; subst. exists []. split; [reflexivity | now left]. }
    destruct Hq as (q & -> & Hq).
    exists (firstn i raw), kw, q, x, sd.
    rewrite <- Hkw, firstn_skipn. auto.
  - intros (pre & kw & q & x & rest & -> & Hci & Hq & Hx).
    exists (length pre). split; [rewrite length_app; lia|].
    rewrite skipn_app, skipn_all, Nat.sub_diag. cbn [skipn app].
    assert (Mlit : Matches true lit (kw ++ q ++ x :: rest) (q ++ x :: rest)
                           None None).
    { subst lit. apply Matches_lit. exists kw. split; [reflexivity|].
      split; [exact Hci | reflexivity]. }
    assert (Mq : Matches true (RAlt (RChar DQUOTE) REps) (q ++ x :: rest)
                         (x :: rest) None None).
    { destruct Hq as [->| ->]; simpl.
      - apply M_alt_r. constructor.
      - apply M_alt_l. now constructor. }
    exists rest. eexists.
    eapply M_seq; [exact Mlit|]. eapply M_seq; [exact Mq|].
    eapply M_seq.
    { eapply M_group. eapply M_seq.
      - constructor. apply boundary_class. exact Hx.
      - apply M_star_stop. }
    apply M_alt_r. constructor.
Qed.

(** ** The normalizer: claims *)

Lemma find_none_all (A : Type) (f : A -> bool) l :
  (forall x, In x l -> f x = false) -> find f l = None.
Proof.
  induction l as [|x t IH]; intros H; simpl; [reflexivity|].
  rewrite (H x) by now left. apply IH. intros y Hy. apply H. now right.
Qed.

Lemma segments_of_app a b :
  segments_of (a ++ b) = segments_of a ++ segments_of b.
Proof.
  induction a as [|p a IH]; simpl; [reflexivity|].
  destruct (segment_of p); simpl; now rewrite IH.
Qed.

Lemma segment_of_no_separator part :
  ~ occurs CRLFCRLF part -> segment_of part = None.
Proof.
  intros H. apply indexOf_negative in H. apply Z.ltb_lt in H.
  unfold segment_of. rewrite H.
  destruct (jseqb (trim part) [] || jseqb (trim part) (js "--")); [reflexivity|].
  destruct (negb (declares_plain part) && negb (declares_html part)); reflexivity.
Qed.

(** C10.  A part that declares text/plain or text/html and holds no
    CR LF CR LF leaves [text] and [html] as they were; the loop gives
    what it gives without that part; and a part whose headers end with
    bare LF LF is lost in this way. *)
Theorem C10_part_without_separator_is_skipped :
  (forall acc part,
     declares_plain part = true \/ declares_html part = true ->
     ~ occurs CRLFCRLF part ->
     part_step acc part = Normal acc) /\
  (forall before part after acc,
     declares_plain part = true \/ declares_html part = true ->
     ~ occurs CRLFCRLF part ->
     parts_loop (before ++ part :: after) acc = parts_loop (before ++ after) acc) /\
  (split msg_bare_lf_part (js "--XYZ") =
     [crlf "Content-Type: multipart/mixed; boundary=XYZ

";
      js "
Content-Type: text/plain

Lost body
";
      crlf "--
"] /\
   parseMimeContent msg_bare_lf_part = Normal (mkBody [] None)).
Proof.
  split; [|split; [|split; vm_compute; reflexivity]].
  - intros acc part _ Hno. rewrite part_step_segment.
    now rewrite segment_of_no_separator.
  - intros before part after acc _ Hno.
    rewrite !parts_loop_segments, !segments_of_app. cbn [segments_of].
    now rewrite segment_of_no_separator.
Qed.

Lemma C10_part_without_separator_is_skipped_witness :
  part_step (js "kept", None) (js "
Content-Type: text/plain

Lost body
") = Normal (js "kept", None).
Proof.
  destruct C10_part_without_separator_is_skipped as (H & _).
  apply H.
  - left. vm_compute. reflexivity.
  - apply indexOf_negative. vm_compute. reflexivity.
Defined.

(* ================================================================== *)
(** * Part III: the code around the extractor and the normalizer *)
(* ================================================================== *)

Unset Implicit Arguments.

(** ** Searching and replacing *)

Lemma search_none_intro ci r s : forall i,
  (forall j, j <= length s ->
             forall s' c', ~ Matches ci r (skipn j s) s' None c') ->
  search ci r s i = None.
Proof.
  intros i H. destruct (search ci r s i) as [m|] eqn:E; [|reflexivity].
  destruct (search_Some _ _ _ _ E) as (pre & w & s1 & Hs & _ & Hm & _).
  exfalso. apply (H (length pre)) with (s' := s1) (c' := m_1 m).
  - subst s. rewrite length_app. lia.
  - subst s. rewrite skipn_app, skipn_all, Nat.sub_diag. simpl. exact Hm.
Qed.

Lemma replace_all_none ci r f s :
  search ci r s 0 = None -> replace_all ci r f s = s.
Proof. intros H. unfold replace_all. cbn [replace_loop]. now rewrite H. Qed.

Lemma starts_with_char_sound ci a r : forall s s1 c c1,
  starts_with_char a r = true -> Matches ci r s s1 c c1 ->
  exists x t, s = x :: t /\ canon ci x = canon ci a.
Proof.
  induction r; intros s s1 cp cp1 Hs Hm; simpl in Hs; try discriminate.
  - apply N.eqb_eq in Hs. subst. inversion Hm; subst. eauto.
  - inversion Hm; subst. eapply IHr1; eauto.
  - apply andb_true_iff in Hs. destruct Hs.
    inversion Hm; subst; [eapply IHr1|eapply IHr2]; eauto.
  - inversion Hm; subst. eapply IHr; eauto.
Qed.

(** An expression whose matches all begin with [a] changes nothing in a
    string that does not hold [a]. *)
Lemma replace_all_absent ci a r f s :
  starts_with_char a r = true ->
  Forall (fun x => canon ci x <> canon ci a) s ->
  replace_all ci r f s = s.
Proof.
  intros Hr Hs. apply replace_all_none. apply search_none_intro.
  intros j Hj s' c' Hm.
  destruct (starts_with_char_sound ci a r _ _ _ _ Hr Hm) as (x & t & E & Hx).
  assert (In x s).
  { rewrite <- (firstn_skipn j s). apply in_or_app. right. rewrite E. now left. }
  rewrite Forall_forall in Hs. now apply (Hs x).
Qed.

(** *** One step of a global replacement *)

Lemma literal_position_free s : position_free (literal s).
Proof. intros m i e. reflexivity. Qed.

Lemma hex_char_position_free : position_free hex_char.
Proof. intros m i e. reflexivity. Qed.

(** Where the expression does not match at the first code unit, that
    code unit is kept and the replacement goes on behind it. *)
Lemma replace_loop_skip ci r f x t fuel :
  position_free f ->
  match_here ci r (x :: t) = None ->
  replace_loop (S fuel) ci r f (x :: t) = x :: replace_loop (S fuel) ci r f t.
Proof.
  intros Hf Hn. cbn [replace_loop search]. rewrite Hn.
  rewrite search_shift. destruct (search ci r t 0) as [m|] eqn:E; cbn [option_map].
  - cbn [m_index m_end m_0 m_1 Nat.add firstn skipn app].
    rewrite (Hf m). cbn [Nat.eqb]. reflexivity.
  - reflexivity.
Qed.

Lemma replace_all_skip ci r f x t :
  position_free f ->
  match_here ci r (x :: t) = None ->
  replace_all ci r f (x :: t) = x :: replace_all ci r f t.
Proof.
  intros Hf Hn. unfold replace_all.
  rewrite replace_loop_skip by assumption. f_equal.
  apply replace_loop_fuel; simpl; lia.
Qed.

(** Where it matches at the first code unit, and not the empty string,
    the match is replaced and the replacement goes on behind it. *)
Lemma replace_all_hit ci r f s s1 c1 :
  match_here ci r s = Some (s1, c1) ->
  length s1 < length s ->
  replace_all ci r f s =
  f (mkMatch 0 (length s - length s1) (firstn (length s - length s1) s) c1)
  ++ replace_all ci r f s1.
Proof.
  intros Hm Hl. unfold replace_all.
  set (rhs := replace_loop (S (length s1)) ci r f s1).
  cbn [replace_loop].
  rewrite (@search_here ci r s 0 s1 c1 Hm). cbn [m_index m_end firstn app Nat.add].
  destruct (@match_here_consumed ci r s s1 c1 Hm) as (w & Hs & _ & Hw & _).
  replace (length s - length s1 =? 0) with false
    by (symmetry; apply Nat.eqb_neq; lia).
  f_equal.
  replace (skipn (length s - length s1) s) with s1.
  - subst rhs. apply replace_loop_fuel; lia.
  - rewrite Hw, Hs, skipn_app, skipn_all, Nat.sub_diag. reflexivity.
Qed.

Lemma replace_all_nil ci r f :
  match_here ci r [] = None -> replace_all ci r f [] = [].
Proof. intros H. apply replace_all_none. simpl. now rewrite H. Qed.

(** ** [decodeQuotedPrintable] *)

(** X1.  A text that holds no equals sign is returned as it is. *)
Theorem decodeQuotedPrintable_without_equals s :
  ~ In 61%N s -> decodeQuotedPrintable s = s.
Proof.
  intros H.
  assert (Hs : Forall (fun x => canon false x <> canon false 61%N) s).
  { apply Forall_forall. intros x Hx E. simpl in E. now subst. }
  unfold decodeQuotedPrintable.
  rewrite (replace_all_absent false 61%N _ (literal []) s)
    by (reflexivity || exact Hs).
  apply (replace_all_absent false 61%N); [reflexivity | exact Hs].
Qed.

Lemma decodeQuotedPrintable_without_equals_witness :
  decodeQuotedPrintable (js "plain text, 100%") = js "plain text, 100%".
Proof.
  apply decodeQuotedPrintable_without_equals.
  vm_compute. intuition discriminate.
Defined.

Lemma hex_digit_of_value v :
  (v < 16)%N -> hex_value (hex_digit_of v) = v.
Proof.
  intros H. unfold hex_digit_of, hex_value.
  destruct (v <? 10)%N eqn:E.
  - apply N.ltb_lt in E.
    replace ((48 <=? 48 + v) && (48 + v <=? 57))%N with true; [lia|].
    symmetry. apply andb_true_iff. split; apply N.leb_le; lia.
  - apply N.ltb_ge in E.
    replace ((48 <=? 55 + v) && (55 + v <=? 57))%N with false.
    + replace ((65 <=? 55 + v) && (55 + v <=? 70))%N with true; [lia|].
      symmetry. apply andb_true_iff. split; apply N.leb_le; lia.
    + symmetry. apply andb_false_iff. right. apply N.leb_gt. lia.
Qed.

Lemma hex_digit_of_class v :
  (v < 16)%N -> class_mem false false
    [CRange 48 57; CRange 65 70; CRange 97 102]%N (hex_digit_of v) = true.
Proof.
  intros H. unfold hex_digit_of, class_mem, items_mem.
  cbn [existsb item_mem andb orb xorb].
  destruct (v <? 10)%N eqn:E.
  - apply N.ltb_lt in E.
    replace ((48 <=? 48 + v) && (48 + v <=? 57))%N with true; [reflexivity|].
    symmetry. apply andb_true_iff. split; apply N.leb_le; lia.
  - apply N.ltb_ge in E.
    replace ((65 <=? 55 + v) && (55 + v <=? 70))%N with true.
    + now rewrite orb_true_r.
    + symmetry. apply andb_true_iff. split; apply N.leb_le; lia.
Qed.

Lemma hex_digit_of_range v :
  (v < 16)%N -> (48 <= hex_digit_of v <= 70)%N /\ hex_digit_of v <> 61%N.
Proof.
  intros H. unfold hex_digit_of. destruct (v <? 10)%N eqn:E.
  - apply N.ltb_lt in E. lia.
  - apply N.ltb_ge in E. lia.
Qed.

Lemma soft_break_not_here x t :
  x <> 61%N ->
  match_here false (RSeqs [RChar (ch "="); ROpt (RChar CR); RChar LF]) (x :: t)
  = None.
Proof.
  intros H. unfold match_here. change (ch "=") with 61%N.
  cbn [RSeqs mrun canon]. now apply N.eqb_neq in H as ->.
Qed.

Lemma soft_break_not_at_escape h t :
  h <> CR -> h <> LF ->
  match_here false (RSeqs [RChar (ch "="); ROpt (RChar CR); RChar LF])
             (61%N :: h :: t) = None.
Proof.
  intros H1 H2. unfold match_here. change (ch "=") with 61%N.
  cbn [RSeqs ROpt mrun canon]. rewrite N.eqb_refl.
  apply N.eqb_neq in H1 as ->. now apply N.eqb_neq in H2 as ->.
Qed.

Lemma escape_not_here x t :
  x <> 61%N ->
  match_here false (RSeq (RChar (ch "=")) (RGroup (RExactly 2 hex_digit)))
             (x :: t) = None.
Proof.
  intros H. unfold match_here. change (ch "=") with 61%N.
  cbn [mrun canon]. now apply N.eqb_neq in H as ->.
Qed.

Lemma escape_here h l t :
  class_mem false false [CRange 48 57; CRange 65 70; CRange 97 102]%N h = true ->
  class_mem false false [CRange 48 57; CRange 65 70; CRange 97 102]%N l = true ->
  match_here false (RSeq (RChar (ch "=")) (RGroup (RExactly 2 hex_digit)))
             (61%N :: h :: l :: t) = Some (t, Some [h; l]).
Proof.
  intros Hh Hl. unfold match_here, hex_digit.
  change (ch "=") with 61%N. change (ch "0") with 48%N.
  change (ch "9") with 57%N. change (ch "A") with 65%N.
  change (ch "F") with 70%N. change (ch "a") with 97%N.
  change (ch "f") with 102%N.
  cbn [mrun canon RExactly]. rewrite N.eqb_refl, Hh, Hl.
  cbn [length]. f_equal. f_equal. f_equal.
  replace (S (S (length t)) - length t) with 2 by lia. reflexivity.
Qed.

Lemma qp_soft_breaks_absent plain : forall bytes,
  Forall (fun b => (b < 256)%N) bytes ->
  replace_all false (RSeqs [RChar (ch "="); ROpt (RChar CR); RChar LF])
              (literal []) (qp_encode plain bytes)
  = qp_encode plain bytes.
Proof.
  induction bytes as [|b bs IH]; intros Hb.
  - reflexivity.
  - inversion Hb as [|? ? Hb1 Hb2]; subst.
    change (qp_encode plain (b :: bs))
      with ((if plain b && negb (b =? 61)%N then [b] else qp_escape b)
            ++ qp_encode plain bs).
    assert (Hq : (b / 16 < 16)%N) by (apply N.Div0.div_lt_upper_bound; lia).
    assert (Hr : (b mod 16 < 16)%N) by (apply N.mod_lt; lia).
    destruct (hex_digit_of_range _ Hq) as (Hq1 & Hq2).
    destruct (hex_digit_of_range _ Hr) as (Hr1 & Hr2).
    destruct (plain b && negb (b =? 61)%N) eqn:E.
    + apply andb_true_iff in E. destruct E as (_ & E).
      apply negb_true_iff, N.eqb_neq in E. cbn [app].
      rewrite replace_all_skip
        by (apply literal_position_free || now apply soft_break_not_here).
      now rewrite IH.
    + unfold qp_escape. cbn [app].
      rewrite replace_all_skip
        by (apply literal_position_free
            || (apply soft_break_not_at_escape; unfold CR, LF; lia)).
      rewrite replace_all_skip
        by (apply literal_position_free || now apply soft_break_not_here).
      rewrite replace_all_skip
        by (apply literal_position_free || now apply soft_break_not_here).
      now rewrite IH.
Qed.

Lemma qp_escapes_decoded plain : forall bytes,
  Forall (fun b => (b < 256)%N) bytes ->
  replace_all false (RSeq (RChar (ch "=")) (RGroup (RExactly 2 hex_digit)))
              hex_char (qp_encode plain bytes)
  = bytes.
Proof.
  induction bytes as [|b bs IH]; intros Hb.
  - reflexivity.
  - inversion Hb as [|? ? Hb1 Hb2]; subst.
    change (qp_encode plain (b :: bs))
      with ((if plain b && negb (b =? 61)%N then [b] else qp_escape b)
            ++ qp_encode plain bs).
    assert (Hq : (b / 16 < 16)%N) by (apply N.Div0.div_lt_upper_bound; lia).
    assert (Hr : (b mod 16 < 16)%N) by (apply N.mod_lt; lia).
    destruct (plain b && negb (b =? 61)%N) eqn:E.
    + apply andb_true_iff in E. destruct E as (_ & E).
      apply negb_true_iff, N.eqb_neq in E. cbn [app].
      rewrite replace_all_skip
        by (apply hex_char_position_free || now apply escape_not_here).
      now rewrite IH.
    + unfold qp_escape. cbn [app].
      erewrite replace_all_hit
        by (first [apply escape_here; now apply hex_digit_of_class
                  | simpl; lia]).
      rewrite IH by assumption.
      unfold hex_char. cbn [m_1 app]. f_equal.
      unfold parseInt16. cbn [fold_left].
      rewrite !hex_digit_of_value by assumption.
      rewrite N.mod_small.
      * rewrite N.mul_0_l, N.add_0_l, N.mul_comm. symmetry. apply N.div_mod. lia.
      * assert (b = 16 * (b / 16) + b mod 16)%N by (apply N.div_mod; lia). lia.
Qed.

(** X2.  Decoding undoes quoted-printable encoding: whichever bytes
    the encoder leaves as they are (never the equals sign) and whichever
    it escapes as = and two hexadecimal digits, the bytes come back.
    The escapes are decoded in one pass, so that an escaped equals sign
    followed by two hexadecimal digits is not decoded again. *)
Theorem decodeQuotedPrintable_qp_encode plain bytes :
  Forall (fun b => (b < 256)%N) bytes ->
  decodeQuotedPrintable (qp_encode plain bytes) = bytes.
Proof.
  intros H. unfold decodeQuotedPrintable.
  rewrite qp_soft_breaks_absent by assumption.
  now apply qp_escapes_decoded.
Qed.

Lemma decodeQuotedPrintable_qp_encode_witness :
  qp_encode (fun b => (32 <=? b) && (b <=? 126))%N (js "1=41 caf" ++ [195; 169]%N)
    = js "1=3D41 caf=C3=A9" /\
  decodeQuotedPrintable (js "1=3D41 caf=C3=A9") = js "1=41 caf" ++ [195; 169]%N.
Proof.
  split; [vm_compute; reflexivity|].
  apply (decodeQuotedPrintable_qp_encode
           (fun b => (32 <=? b) && (b <=? 126))%N (js "1=41 caf" ++ [195; 169]%N)).
  vm_compute. repeat constructor.
Defined.

(** ** [htmlToText] *)

Lemma trimStart_suffix s :
  exists a, s = a ++ trimStart s /\ Forall (fun x => is_space x = true) a.
Proof.
  induction s as [|c t IH]; simpl.
  - now exists [].
  - destruct (is_space c) eqn:E.
    + destruct IH as (a & Ha & Hs). exists (c :: a). split.
      * simpl. now f_equal.
      * now constructor.
    + now exists [].
Qed.

Lemma trimStart_head s c t : trimStart s = c :: t -> is_space c = false.
Proof.
  induction s as [|x u IH]; simpl; [discriminate|].
  destruct (is_space x) eqn:E; [exact IH|].
  intros H. now injection H as -> _.
Qed.

Lemma trimEnd_prefix s :
  exists b, s = trimEnd s ++ b /\ Forall (fun x => is_space x = true) b.
Proof.
  destruct (trimStart_suffix (rev s)) as (a & Ha & Hs).
  exists (rev a). split.
  - unfold trimEnd. rewrite <- rev_app_distr, <- Ha. now rewrite rev_involutive.
  - apply Forall_rev. exact Hs.
Qed.

Lemma trimEnd_last s t c : trimEnd s = t ++ [c] -> is_space c = false.
Proof.
  unfold trimEnd. intros H.
  apply (f_equal (@rev N)) in H. rewrite rev_involutive, rev_app_distr in H.
  simpl in H. now apply trimStart_head in H.
Qed.

Lemma trimEnd_head c t :
  is_space c = false -> exists t', trimEnd (c :: t) = c :: t'.
Proof.
  intros Hc. destruct (trimEnd_prefix (c :: t)) as (b & Hb & Hs).
  destruct (trimEnd (c :: t)) as [|c' t'].
  - simpl in Hb. subst b. inversion Hs; subst. congruence.
  - simpl in Hb. injection Hb as -> _. now exists t'.
Qed.

Lemma trim_trimmed s : trimmed (trim s).
Proof.
  unfold trim. split.
  - intros c t H. destruct (trimStart s) as [|x u] eqn:E.
    + discriminate H.
    + pose proof (trimStart_head s x u E) as Hx.
      destruct (trimEnd_head x u Hx) as (t' & Ht). rewrite Ht in H.
      now injection H as <- _.
  - intros t c H. now apply trimEnd_last in H.
Qed.

(** [trim] keeps a contiguous piece of the string. *)
Lemma trim_slice s : slice_of (trim s) s.
Proof.
  destruct (trimStart_suffix s) as (a & Ha & _).
  destruct (trimEnd_prefix (trimStart s)) as (b & Hb & _).
  exists a, b. unfold trim. now rewrite <- Hb.
Qed.

(** *** Runs of newlines *)

Lemma star_newlines_all : forall fuel s c,
  length s <= fuel ->
  star_loop (mrun false (RChar LF)) true
            (fun s1 c1 => Some (s1, c1)) fuel s c
  = Some (drop_newlines s, c).
Proof.
  induction fuel as [|fuel IH]; intros s c Hl.
  - destruct s; [reflexivity | simpl in Hl; lia].
  - destruct s as [|x t]; [reflexivity|].
    cbn [star_loop mrun canon drop_newlines].
    destruct (x =? LF)%N eqn:E; [|reflexivity].
    replace (length t <? length (x :: t)) with true
      by (symmetry; apply Nat.ltb_lt; simpl; lia).
    rewrite IH by (simpl in Hl; lia). reflexivity.
Qed.

Lemma match_here_newlines s :
  match_here false (RAtLeast 3 (RChar LF)) s =
  if 3 <=? leading_newlines s then Some (drop_newlines s, None) else None.
Proof.
  unfold match_here, RAtLeast. cbn [RExactly mrun canon].
  destruct s as [|a s]; [reflexivity|]. cbn [leading_newlines drop_newlines].
  destruct (a =? LF)%N; [|reflexivity].
  destruct s as [|b s]; [reflexivity|]. cbn [leading_newlines drop_newlines].
  destruct (b =? LF)%N; [|reflexivity].
  destruct s as [|c s]; [reflexivity|]. cbn [leading_newlines drop_newlines].
  destruct (c =? LF)%N; [|reflexivity].
  rewrite star_newlines_all by lia. reflexivity.
Qed.

Lemma drop_newlines_length s :
  length (drop_newlines s) + leading_newlines s = length s.
Proof.
  induction s as [|c t IH]; [reflexivity|]. simpl.
  destruct (c =? LF)%N; simpl; lia.
Qed.

Lemma drop_newlines_lead s : leading_newlines (drop_newlines s) = 0.
Proof.
  induction s as [|c t IH]; [reflexivity|]. simpl.
  destruct (c =? LF)%N eqn:E; [exact IH|]. simpl. now rewrite E.
Qed.

Lemma startsWith_newlines s :
  startsWith [LF; LF; LF] s = (3 <=? leading_newlines s).
Proof.
  destruct s as [|a s]; [reflexivity|]. cbn [startsWith leading_newlines].
  rewrite (N.eqb_sym LF a).
  destruct (a =? LF)%N; [|reflexivity].
  destruct s as [|b s]; [reflexivity|]. cbn [startsWith leading_newlines].
  rewrite (N.eqb_sym LF b).
  destruct (b =? LF)%N; [|reflexivity].
  destruct s as [|c s]; [reflexivity|]. cbn [startsWith leading_newlines].
  rewrite (N.eqb_sym LF c).
  destruct (c =? LF)%N; reflexivity.
Qed.

Lemma no_run_cons x u :
  leading_newlines (x :: u) < 3 -> ~ occurs [LF; LF; LF] u ->
  ~ occurs [LF; LF; LF] (x :: u).
Proof.
  intros Hl Hu H. apply occurs_cons in H. destruct H as [H|H]; [|now apply Hu].
  rewrite startsWith_newlines in H. apply Nat.leb_le in H. lia.
Qed.

Lemma occurs_nil_false (p : jsstring) : p <> [] -> ~ occurs p [].
Proof.
  intros Hp (a & b & H). destruct a; simpl in H.
  - destruct p; [congruence | discriminate].
  - discriminate.
Qed.

(** What the replacement of the runs of three newlines and more leaves:
    at most two newlines at the start, and nowhere three in a row. *)
Lemma squeeze_newlines : forall n s,
  length s <= n ->
  leading_newlines
    (replace_all false (RAtLeast 3 (RChar LF)) (literal [LF; LF]) s)
  = Nat.min (leading_newlines s) 2 /\
  ~ occurs [LF; LF; LF]
      (replace_all false (RAtLeast 3 (RChar LF)) (literal [LF; LF]) s).
Proof.
  induction n as [|n IH]; intros s Hl.
  - destruct s; [|simpl in Hl; lia]. split; [reflexivity|].
    rewrite replace_all_nil by reflexivity. now apply occurs_nil_false.
  - destruct s as [|x t].
    { split; [reflexivity|].
      rewrite replace_all_nil by reflexivity. now apply occurs_nil_false. }
    pose proof (match_here_newlines (x :: t)) as Hm.
    destruct (3 <=? leading_newlines (x :: t)) eqn:E.
    + apply Nat.leb_le in E.
      pose proof (drop_newlines_length (x :: t)) as Hd.
      rewrite (replace_all_hit false _ (literal [LF; LF]) _ _ _ Hm) by lia.
      destruct (IH (drop_newlines (x :: t))) as (H1 & H2); [lia|].
      rewrite drop_newlines_lead in H1. change (Nat.min 0 2) with 0 in H1.
      set (u := replace_all false (RAtLeast 3 (RChar LF)) (literal [LF; LF])
                            (drop_newlines (x :: t))) in *.
      unfold literal. cbv beta. cbn [app].
      assert (L1 : leading_newlines (LF :: u) = 1)
        by (cbn [leading_newlines]; rewrite N.eqb_refl, H1; reflexivity).
      assert (L2 : leading_newlines (LF :: LF :: u) = 2)
        by (cbn [leading_newlines]; rewrite !N.eqb_refl, H1; reflexivity).
      split.
      * rewrite L2. lia.
      * apply no_run_cons; [lia|]. apply no_run_cons; [lia|]. exact H2.
    + apply Nat.leb_gt in E.
      rewrite replace_all_skip
        by (apply literal_position_free || exact Hm).
      destruct (IH t) as (H1 & H2); [simpl in Hl; lia|].
      set (u := replace_all false (RAtLeast 3 (RChar LF)) (literal [LF; LF]) t)
        in *.
      assert (L : leading_newlines (x :: u) = leading_newlines (x :: t)).
      { cbn [leading_newlines] in *. destruct (x =? LF)%N; [|reflexivity].
        rewrite H1. lia. }
      split.
      * rewrite L. lia.
      * apply no_run_cons; [lia | exact H2].
Qed.

Lemma occurs_slice p x s : slice_of x s -> occurs p x -> occurs p s.
Proof.
  intros (a & b & Hs) (a' & b' & Hx). subst. exists (a ++ a'), (b' ++ b).
  now rewrite <- !app_assoc.
Qed.

Lemma no_run_after_squeeze s :
  ~ occurs [LF; LF; LF]
      (trim (replace_all false (RAtLeast 3 (RChar LF)) (literal [LF; LF]) s)).
Proof.
  intros H.
  apply (occurs_slice [LF; LF; LF] _ _ (trim_slice _)) in H.
  revert H. apply (squeeze_newlines (length s) s). apply Nat.le_refl.
Qed.

(** X3.  The text that [htmlToText] returns neither begins nor ends
    with white space, and never holds three newlines in a row: the last
    replacement leaves no such run, and trimming makes none. *)
Theorem htmlToText_tidy html :
  trimmed (htmlToText html) /\ ~ occurs [LF; LF; LF] (htmlToText html).
Proof.
  unfold htmlToText. split; [apply trim_trimmed|].
  match goal with
  | |- ~ occurs _ (trim (replace_all _ _ _ ?s)) =>
    exact (no_run_after_squeeze s)
  end.
Qed.

Lemma htmlToText_tidy_witness :
  htmlToText (js " a<br><br><br><br>b ") = [ch "a"; LF; LF; ch "b"] /\
  trimmed (htmlToText (js " a<br><br><br><br>b ")) /\
  ~ occurs [LF; LF; LF] (htmlToText (js " a<br><br><br><br>b ")).
Proof.
  split; [vm_compute; reflexivity|].
  apply htmlToText_tidy.
Defined.

Lemma canon_not_letter ci a x :
  toUpper a = a -> toLower a = a -> x <> a -> canon ci x <> canon ci a.
Proof.
  intros Hu Hl Hx. destruct ci; simpl; [|exact Hx].
  rewrite Hu. intros E. apply Hx.
  unfold toUpper, toLower in *.
  destruct ((97 <=? x) && (x <=? 122))%N eqn:Ex; [|exact E].
  apply andb_true_iff in Ex. destruct Ex as (E1 & E2).
  apply N.leb_le in E1, E2.
  destruct ((65 <=? a) && (a <=? 90))%N eqn:Ea.
  - lia.
  - apply andb_false_iff in Ea. destruct Ea as [Ea|Ea]; apply N.leb_gt in Ea; lia.
Qed.

Lemma absent_canon ci a s :
  toUpper a = a -> toLower a = a -> ~ In a s ->
  Forall (fun x => canon ci x <> canon ci a) s.
Proof.
  intros Hu Hl H. apply Forall_forall. intros x Hx.
  apply canon_not_letter; try assumption. intros ->. now apply H.
Qed.

(** Without three newlines in a row the replacement of such runs
    changes nothing. *)
Lemma squeeze_newlines_none : forall s,
  ~ occurs [LF; LF; LF] s ->
  replace_all false (RAtLeast 3 (RChar LF)) (literal [LF; LF]) s = s.
Proof.
  induction s as [|x t IH]; intros H.
  - now apply replace_all_nil.
  - assert (Hx : startsWith [LF; LF; LF] (x :: t) = false).
    { destruct (startsWith [LF; LF; LF] (x :: t)) eqn:E; [|reflexivity].
      exfalso. apply H. apply occurs_cons. now left. }
    assert (Ht : ~ occurs [LF; LF; LF] t).
    { intros Ho. apply H. apply occurs_cons. now right. }
    rewrite replace_all_skip.
    + now rewrite IH.
    + apply literal_position_free.
    + rewrite match_here_newlines, <- startsWith_newlines, Hx. reflexivity.
Qed.

(** X4.  A text without markup (no less-than sign, no ampersand) and
    without three newlines in a row comes out of [htmlToText] as it is,
    less the white space around it. *)
Theorem htmlToText_plain_text s :
  ~ In 60%N s -> ~ In 38%N s -> ~ occurs [LF; LF; LF] s ->
  htmlToText s = trim s.
Proof.
  intros Hlt Hamp Hnl.
  pose proof (fun ci => absent_canon ci 60%N s eq_refl eq_refl Hlt) as H1.
  pose proof (fun ci => absent_canon ci 38%N s eq_refl eq_refl Hamp) as H2.
  unfold htmlToText.
  rewrite (replace_all_absent true 60%N _ _ s) by (reflexivity || apply H1).
  rewrite (replace_all_absent true 60%N _ _ s) by (reflexivity || apply H1).
  rewrite (replace_all_absent true 60%N _ _ s) by (reflexivity || apply H1).
  rewrite (replace_all_absent true 60%N _ _ s) by (reflexivity || apply H1).
  rewrite (replace_all_absent true 60%N _ _ s) by (reflexivity || apply H1).
  rewrite (replace_all_absent false 60%N _ _ s) by (reflexivity || apply H1).
  rewrite (replace_all_absent false 38%N _ _ s) by (reflexivity || apply H2).
  rewrite (replace_all_absent false 38%N _ _ s) by (reflexivity || apply H2).
  rewrite (replace_all_absent false 38%N _ _ s) by (reflexivity || apply H2).
  rewrite (replace_all_absent false 38%N _ _ s) by (reflexivity || apply H2).
  rewrite (replace_all_absent false 38%N _ _ s) by (reflexivity || apply H2).
  rewrite (replace_all_absent false 38%N _ _ s) by (reflexivity || apply H2).
  now rewrite squeeze_newlines_none.
Qed.

Lemma htmlToText_plain_text_witness :
  htmlToText (js "  Your code is 123456

Thanks ") = js "Your code is 123456

Thanks".
Proof.
  rewrite htmlToText_plain_text.
  - vm_compute. reflexivity.
  - vm_compute. intuition discriminate.
  - vm_compute. intuition discriminate.
  - apply indexOf_negative. vm_compute. reflexivity.
Defined.

(** ** Mailbox names *)

Lemma Matches_exactly_class_intro ci neg items s c : forall w,
  Forall (fun x => class_mem ci neg items x = true) w ->
  Matches ci (RExactly (length w) (RClass neg items)) (w ++ s) s c c.
Proof.
  induction w as [|x w IH]; intros H; simpl.
  - constructor.
  - inversion H; subst. econstructor.
    + now constructor.
    + now apply IH.
Qed.

Lemma Matches_upto_class_intro ci neg items s c : forall n w,
  Forall (fun x => class_mem ci neg items x = true) w ->
  length w <= n ->
  Matches ci (RUpTo n (RClass neg items)) (w ++ s) s c c.
Proof.
  induction n as [|n IH]; intros w H Hl.
  - destruct w; [constructor | simpl in Hl; lia].
  - destruct w as [|x w]; simpl.
    + apply M_alt_r. constructor.
    + inversion H; subst. apply M_alt_l. econstructor.
      * now constructor.
      * apply IH; [assumption | simpl in Hl; lia].
Qed.

Lemma name_class x :
  class_mem false false
    [CRange (ch "a") (ch "z"); CRange (ch "0") (ch "9");
     CChar (ch "_"); CChar (ch "-")] x
  = is_name_char x.
Proof.
  unfold class_mem, items_mem, is_name_char.
  change (ch "a") with 97%N. change (ch "z") with 122%N.
  change (ch "0") with 48%N. change (ch "9") with 57%N.
  change (ch "_") with 95%N. change (ch "-") with 45%N.
  cbn [existsb item_mem andb xorb].
  rewrite !orb_false_r, (N.eqb_sym 95 x), (N.eqb_sym 45 x).
  now rewrite !orb_assoc.
Qed.

(** A name of three to thirty allowed code units passes. *)
Lemma isValidName_intro name :
  3 <= length name <= 30 /\ Forall (fun c => is_name_char c = true) name ->
  isValidName name = true.
Proof.
  unfold isValidName, test_anchored, name_re. intros (Hl & Hf).
  assert (Hc : Forall (fun x => class_mem false false
            [CRange (ch "a") (ch "z"); CRange (ch "0") (ch "9");
             CChar (ch "_"); CChar (ch "-")] x = true) name).
  { eapply Forall_impl; [|exact Hf]. intros a Ha. now rewrite name_class. }
  assert (Hm : Matches false
            (RSeq (RRange 3 30 (RClass false
               [CRange (ch "a") (ch "z"); CRange (ch "0") (ch "9");
                CChar (ch "_"); CChar (ch "-")])) REnd)
            name [] None None).
  { pose proof Hc as Hc'. rewrite <- (firstn_skipn 3 name) in Hc'.
    apply Forall_app in Hc'. destruct Hc' as (Hc1 & Hc2).
    econstructor; [|constructor].
    rewrite <- (firstn_skipn 3 name) at 1.
    unfold RRange. econstructor.
    - replace 3 with (length (firstn 3 name)) at 1
        by (rewrite length_firstn; lia).
      apply Matches_exactly_class_intro.
      exact Hc1.
    - rewrite <- (app_nil_r (skipn 3 name)) at 1.
      apply Matches_upto_class_intro.
      + exact Hc2.
      + rewrite length_skipn. lia. }
  apply match_here_some in Hm.
  destruct (match_here false _ name); [reflexivity | congruence].
Qed.

(** A name that passes has three to thirty allowed code units. *)
Lemma isValidName_elim name :
  isValidName name = true ->
  3 <= length name <= 30 /\ Forall (fun c => is_name_char c = true) name.
Proof.
  unfold isValidName, test_anchored, name_re.
  destruct (match_here false _ name) as [[s1 c1]|] eqn:E; [|discriminate].
  intros _. apply match_here_sound in E.
  inversion E as [| | |r1 r2 s0 s2 s3 c0 c2 c3 H1 H2| | | | | |]; subst.
  inversion H2; subst.
  apply Matches_range_class in H1; [|lia].
  destruct H1 as (w & Hw & Hl & Hf). rewrite app_nil_r in Hw. subst w.
  split; [exact Hl|].
  eapply Forall_impl; [|exact Hf]. intros a Ha. now rewrite <- name_class.
Qed.

(** X5.  [isValidName] accepts exactly the names of three to thirty
    code units that are all lower-case letters, digits, underscores or
    hyphens; a name that ends with a newline is not among them. *)
Theorem isValidName_spec name :
  isValidName name = true <->
  3 <= length name <= 30 /\ Forall (fun c => is_name_char c = true) name.
Proof.
  split; [apply isValidName_elim | apply isValidName_intro].
Qed.

Lemma isValidName_spec_witness :
  isValidName (js "swift-coral-42") = true /\
  isValidName (js "ab") = false /\
  isValidName (js "Swift") = false /\
  isValidName (js "swift
") = false.
Proof.
  split; [|repeat split; vm_compute; reflexivity].
  apply (proj2 (isValidName_spec (js "swift-coral-42"))).
  split; [vm_compute; lia|].
  vm_compute. repeat constructor.
Defined.

Lemma element_In arr i :
  i < length arr -> In (element arr i) arr.
Proof. intros H. unfold element. now apply nth_In. Qed.

Lemma forallb_In (A : Type) (f : A -> bool) l x :
  forallb f l = true -> In x l -> f x = true.
Proof. intros H Hx. rewrite forallb_forall in H. now apply H. Qed.

Lemma forallb_Forall (A : Type) (f : A -> bool) l :
  forallb f l = true -> Forall (fun x => f x = true) l.
Proof. intros H. apply Forall_forall. intros x. now apply forallb_In. Qed.

(** The names that [generateEmailName] builds have three to thirty
    code units, all of them allowed in a name. *)
Lemma generateEmailName_shape i j num :
  i < 40 -> j < 40 -> num < 100 ->
  3 <= length (generateEmailName i j num) <= 30 /\
  Forall (fun c => is_name_char c = true) (generateEmailName i j num).
Proof.
  intros Hi Hj Hn.
  assert (Ha : forall a, In a adjectives ->
            (forallb is_name_char a && (length a <=? 6)) = true).
  { intros a Hin.
    apply (forallb_In _ (fun a => forallb is_name_char a && (length a <=? 6))
                      adjectives a); [vm_compute; reflexivity | exact Hin]. }
  assert (Hb : forall a, In a nouns ->
            (forallb is_name_char a && (length a <=? 8)) = true).
  { intros a Hin.
    apply (forallb_In _ (fun a => forallb is_name_char a && (length a <=? 8))
                      nouns a); [vm_compute; reflexivity | exact Hin]. }
  assert (Hd : forall k, In k (seq 0 100) ->
            (forallb is_name_char (String_of_nat k)
             && ((1 <=? length (String_of_nat k))
                 && (length (String_of_nat k) <=? 2))) = true).
  { intros k Hin.
    apply (forallb_In _ (fun k => forallb is_name_char (String_of_nat k)
                                  && ((1 <=? length (String_of_nat k))
                                      && (length (String_of_nat k) <=? 2)))
                      (seq 0 100) k); [vm_compute; reflexivity | exact Hin]. }
  specialize (Ha (element adjectives i) (element_In adjectives i Hi)).
  specialize (Hb (element nouns j) (element_In nouns j Hj)).
  specialize (Hd num (proj2 (in_seq _ _ _) (conj (Nat.le_0_l _) Hn))).
  apply andb_true_iff in Ha, Hb, Hd.
  destruct Ha as (Ha1 & Ha2), Hb as (Hb1 & Hb2), Hd as (Hd1 & Hd2).
  apply andb_true_iff in Hd2. destruct Hd2 as (Hd3 & Hd2).
  apply Nat.leb_le in Ha2, Hb2, Hd2, Hd3.
  apply forallb_Forall in Ha1, Hb1, Hd1.
  unfold generateEmailName. split.
  - rewrite !length_app. change (length (js "-")) with 1. lia.
  - repeat (apply Forall_app; split); try assumption;
      (vm_compute; repeat constructor).
Qed.

(** X6.  Whatever the three random draws, the name that
    [generateEmailName] builds passes [isValidName]. *)
Theorem generateEmailName_valid i j num :
  i < 40 -> j < 40 -> num < 100 ->
  isValidName (generateEmailName i j num) = true.
Proof.
  intros Hi Hj Hn. apply isValidName_intro.
  now apply generateEmailName_shape.
Qed.

Lemma generateEmailName_valid_witness :
  generateEmailName 0 39 7 = js "swift-ivy-7" /\
  isValidName (generateEmailName 0 39 7) = true.
Proof.
  split; [vm_compute; reflexivity|].
  apply generateEmailName_valid; lia.
Defined.

(** ** The extractor: links *)

(** X7.  The links of a call do not depend on the calls made before
    it: in any two states the module can be in, the same text and HTML
    give the same links.  (The code does depend on them.) *)
Theorem links_do_not_depend_on_state st st' text html r st1 r' st1' :
  reachable st -> reachable st' ->
  extractData st text html = Some (r, st1) ->
  extractData st' text html = Some (r', st1') ->
  links r = links r'.
Proof.
  intros H H' E E'.
  destruct (reachable_inv H) as (L & _).
  destruct (reachable_inv H') as (L' & _).
  rewrite (extractData_run _ _ _ L) in E.
  rewrite (extractData_run _ _ _ L') in E'.
  injection E as <- _. injection E' as <- _. reflexivity.
Qed.

Lemma links_do_not_depend_on_state_witness :
  exists r r' st1 st1',
    extractData loaded (js "Verify: https://a.io/verify?t=1") None
      = Some (r, st1) /\
    extractData after_code_call (js "Verify: https://a.io/verify?t=1") None
      = Some (r', st1') /\
    after_code_call <> loaded /\
    links r = links r'.
Proof.
  assert (Hst : reachable after_code_call).
  { apply (@reach_call loaded (js "Code: 123456") None
             (mkExtracted (Some (js "123456")) None)).
    - apply reach_loaded.
    - vm_compute. reflexivity. }
  destruct (extractData loaded (js "Verify: https://a.io/verify?t=1") None)
    as [[r st1]|] eqn:E1; [|vm_compute in E1; discriminate E1].
  destruct (extractData after_code_call
              (js "Verify: https://a.io/verify?t=1") None)
    as [[r' st1']|] eqn:E2; [|vm_compute in E2; discriminate E2].
  exists r, r', st1, st1'.
  split; [reflexivity|]. split; [reflexivity|].
  split; [intros H; vm_compute in H; discriminate H|].
  exact (links_do_not_depend_on_state _ _ _ _ _ _ _ _
           reach_loaded Hst E1 E2).
Defined.

(** *** What a match can hold *)

Lemma toUpper_inv x y : toUpper x = y -> x = y \/ x = toLower y.
Proof.
  unfold toUpper, toLower. intros H.
  destruct ((97 <=? x) && (x <=? 122))%N eqn:E; [|now left].
  apply andb_true_iff in E. destruct E as (E1 & E2).
  apply N.leb_le in E1, E2. right.
  replace ((65 <=? y) && (y <=? 90))%N with true; [lia|].
  symmetry. apply andb_true_iff. split; apply N.leb_le; lia.
Qed.

Lemma toLower_inv x y : toLower x = y -> x = y \/ x = toUpper y.
Proof.
  unfold toUpper, toLower. intros H.
  destruct ((65 <=? x) && (x <=? 90))%N eqn:E; [|now left].
  apply andb_true_iff in E. destruct E as (E1 & E2).
  apply N.leb_le in E1, E2. right.
  replace ((97 <=? y) && (y <=? 122))%N with true; [lia|].
  symmetry. apply andb_true_iff. split; apply N.leb_le; lia.
Qed.

Lemma outside_any_case_elim ex a :
  outside_any_case ex a = true ->
  outside ex a = true /\ outside ex (toUpper a) = true
  /\ outside ex (toLower a) = true.
Proof.
  unfold outside_any_case. intros H.
  apply andb_true_iff in H. destruct H as (H & H3).
  apply andb_true_iff in H. destruct H as (H1 & H2). auto.
Qed.

Lemma canon_eq_outside ex ci a x :
  outside_any_case ex a = true -> canon ci x = canon ci a ->
  outside ex x = true.
Proof.
  intros H E. apply outside_any_case_elim in H. destruct H as (H1 & H2 & H3).
  destruct ci; simpl in E; [|now subst].
  apply toUpper_inv in E. destruct E as [-> | ->]; [exact H2|].
  destruct (toUpper_cases a) as [Ea|Ea].
  - now rewrite Ea.
  - unfold toUpper in *.
    destruct ((97 <=? a) && (a <=? 122))%N eqn:E.
    + apply andb_true_iff in E. destruct E as (E1 & E2).
      apply N.leb_le in E1, E2. unfold toLower.
      replace ((65 <=? a - 32) && (a - 32 <=? 90))%N with true.
      * replace (a - 32 + 32)%N with a by lia. exact H1.
      * symmetry. apply andb_true_iff. split; apply N.leb_le; lia.
    + exact H3.
Qed.

Lemma code_units_In lo hi y :
  (lo <= y <= hi)%N -> In y (code_units lo hi).
Proof.
  intros H. unfold code_units. apply in_map_iff.
  exists (N.to_nat (y - lo)). split; [lia|].
  apply in_seq. lia.
Qed.

Lemma item_outside_mem ex it y :
  item_outside ex it = true -> item_mem it y = true ->
  outside_any_case ex y = true.
Proof.
  destruct it as [a|lo hi| | |]; cbn [item_outside item_mem]; intros H Hm;
    try discriminate.
  - apply N.eqb_eq in Hm. now subst.
  - apply andb_true_iff in Hm. destruct Hm as (H1 & H2).
    apply N.leb_le in H1, H2.
    rewrite forallb_forall in H. apply H. now apply code_units_In.
  - apply andb_true_iff in Hm. destruct Hm as (H1 & H2).
    apply N.leb_le in H1, H2.
    rewrite forallb_forall in H. apply H. now apply code_units_In.
Qed.

Lemma items_outside_mem ex items y :
  forallb (item_outside ex) items = true ->
  existsb (fun it => item_mem it y) items = true ->
  outside_any_case ex y = true.
Proof.
  intros H Hm. apply existsb_exists in Hm. destruct Hm as (it & Hin & Hm).
  rewrite forallb_forall in H. eapply item_outside_mem; eauto.
Qed.

Lemma class_outside ex ci items x :
  forallb (item_outside ex) items = true ->
  class_mem ci false items x = true -> outside ex x = true.
Proof.
  intros H Hm. unfold class_mem, items_mem in Hm. simpl in Hm.
  apply orb_true_iff in Hm. destruct Hm as [Hm|Hm].
  - now apply (outside_any_case_elim ex x (items_outside_mem _ _ _ H Hm)).
  - apply andb_true_iff in Hm. destruct Hm as (_ & Hm).
    apply orb_true_iff in Hm. destruct Hm as [Hm|Hm].
    + pose proof (items_outside_mem _ _ _ H Hm) as Ho.
      apply outside_any_case_elim in Ho. destruct Ho as (H1 & _ & H3).
      destruct (toUpper_inv x _ eq_refl) as [E|E]; rewrite E; assumption.
    + pose proof (items_outside_mem _ _ _ H Hm) as Ho.
      apply outside_any_case_elim in Ho. destruct Ho as (H1 & H2 & _).
      destruct (toLower_inv x _ eq_refl) as [E|E]; rewrite E; assumption.
Qed.

Lemma citem_eqb_eq a b : citem_eqb a b = true -> a = b.
Proof.
  destruct a, b; simpl; intros H; try discriminate; try reflexivity.
  - apply N.eqb_eq in H. now subst.
  - apply andb_true_iff in H. destruct H as (H1 & H2).
    apply N.eqb_eq in H1, H2. now subst.
Qed.

Lemma negated_class_outside ex ci items x :
  forallb (fun e => existsb (citem_eqb e) items) ex = true ->
  class_mem ci true items x = true -> outside ex x = true.
Proof.
  intros H Hm. unfold class_mem, items_mem in Hm. simpl in Hm.
  apply negb_true_iff, orb_false_iff in Hm. destruct Hm as (Hm & _).
  unfold outside. apply negb_true_iff.
  destruct (existsb (fun it => item_mem it x) ex) eqn:E; [|reflexivity].
  apply existsb_exists in E. destruct E as (e & He & Hx).
  rewrite forallb_forall in H. specialize (H e He).
  apply existsb_exists in H. destruct H as (e' & He' & Heq).
  apply citem_eqb_eq in Heq. subst e'.
  rewrite <- Hm. symmetry. apply existsb_exists. now exists e.
Qed.

Lemma avoids_sound ex ci r s s1 c c1 :
  Matches ci r s s1 c c1 -> avoids ex r = true ->
  exists w, s = w ++ s1 /\ Forall (fun x => outside ex x = true) w.
Proof.
  induction 1 as [s c|a x s c Hx|neg items x s c Hx
                  |r1 r2 s s1 s2 c c1 c2 H1 IH1 H2 IH2
                  |r1 r2 s s1 c c1 H1 IH1|r1 r2 s s1 c c1 H1 IH1
                  |g r s c|g r s s1 s2 c c1 c2 H1 IH1 Hl H2 IH2
                  |r s s1 c c1 H1 IH1|c]; intros Ha; simpl in Ha.
  - now exists [].
  - exists [x]. split; [reflexivity|]. constructor; [|constructor].
    eapply canon_eq_outside; eauto.
  - exists [x]. split; [reflexivity|]. constructor; [|constructor].
    destruct neg.
    + eapply negated_class_outside; eauto.
    + eapply class_outside; eauto.
  - apply andb_true_iff in Ha. destruct Ha as (Ha1 & Ha2).
    destruct (IH1 Ha1) as (w1 & -> & F1). destruct (IH2 Ha2) as (w2 & -> & F2).
    exists (w1 ++ w2). split; [now rewrite app_assoc|].
    apply Forall_app. now split.
  - apply andb_true_iff in Ha. destruct Ha as (Ha1 & Ha2). now apply IH1.
  - apply andb_true_iff in Ha. destruct Ha as (Ha1 & Ha2). now apply IH1.
  - now exists [].
  - destruct (IH1 Ha) as (w1 & -> & F1). destruct (IH2 Ha) as (w2 & -> & F2).
    exists (w1 ++ w2). split; [now rewrite app_assoc|].
    apply Forall_app. now split.
  - now apply IH1.
  - now exists [].
Qed.

Lemma holds_outside_sound ex ci r s s1 c c1 :
  Matches ci r s s1 c c1 -> holds_outside ex r = true ->
  exists w1 x w2, s = w1 ++ x :: w2 ++ s1 /\ outside ex x = true.
Proof.
  induction 1 as [s c|a x s c Hx|neg items x s c Hx
                  |r1 r2 s s1 s2 c c1 c2 H1 IH1 H2 IH2
                  |r1 r2 s s1 c c1 H1 IH1|r1 r2 s s1 c c1 H1 IH1
                  |g r s c|g r s s1 s2 c c1 c2 H1 IH1 Hl H2 IH2
                  |r s s1 c c1 H1 IH1|c]; intros Ha; simpl in Ha;
    try discriminate.
  - exists [], x, []. split; [reflexivity|]. eapply canon_eq_outside; eauto.
  - destruct neg; [discriminate|].
    exists [], x, []. split; [reflexivity|]. eapply class_outside; eauto.
  - apply orb_true_iff in Ha. destruct Ha as [Ha|Ha].
    + destruct (IH1 Ha) as (w1 & x & w2 & -> & Hx).
      destruct (Matches_suffix H2) as (w & ->).
      exists w1, x, (w2 ++ w). split; [now rewrite <- app_assoc|exact Hx].
    + destruct (IH2 Ha) as (w1 & x & w2 & -> & Hx).
      destruct (Matches_suffix H1) as (w & ->).
      exists (w ++ w1), x, w2. split; [now rewrite <- app_assoc|exact Hx].
  - apply andb_true_iff in Ha. destruct Ha as (Ha1 & Ha2). now apply IH1.
  - apply andb_true_iff in Ha. destruct Ha as (Ha1 & Ha2). now apply IH1.
  - now apply IH1.
Qed.

Lemma outside_punct x : outside punct_items x = negb (is_punct x).
Proof.
  unfold outside, punct_items, is_punct. f_equal.
  induction (js ".,;:!?)]}>") as [|a l IH]; [reflexivity|].
  simpl. now rewrite IH, N.eqb_sym.
Qed.

Lemma outside_url x :
  outside url_excluded x = true ->
  is_space x = false /\ x <> 60%N /\ x <> 62%N /\ x <> DQUOTE.
Proof.
  unfold outside, url_excluded. cbn [existsb item_mem].
  intros H. apply negb_true_iff in H.
  apply orb_false_iff in H. destruct H as (H1 & H).
  apply orb_false_iff in H. destruct H as (H2 & H).
  apply orb_false_iff in H. destruct H as (H3 & H).
  apply orb_false_iff in H. destruct H as (H4 & _).
  apply N.eqb_neq in H2, H3, H4. repeat split; congruence.
Qed.

Lemma linkPatterns_shape :
  Forall (fun rx =>
            ignoreCase rx = true /\
            avoids url_excluded (source rx) = true /\
            exists r, source rx = after_scheme r /\
                      holds_outside punct_items r = true)
         linkPatterns.
Proof.
  unfold linkPatterns.
  each_pattern ltac:(split; [reflexivity|];
                     split; [vm_compute; reflexivity|];
                     eexists; split; [reflexivity | vm_compute; reflexivity]).
Qed.

Lemma after_scheme_match r s s1 c c1 :
  Matches true (after_scheme r) s s1 c c1 ->
  exists h t,
    s = h ++ t /\
    (eq_nocase h (js "http://") \/ eq_nocase h (js "https://")) /\
    Matches true r t s1 c c1.
Proof.
  unfold after_scheme. intros H.
  inversion H as [| | |r1 r2 s0 sa sb c0 ca cb Ha Hb| | | | | |]; subst.
  apply (proj1 (@Matches_lit true (js "http") _ _ _ _)) in Ha.
  destruct Ha as (w1 & -> & E1 & ->).
  inversion Hb as [| | |r1 r2 s0 sc sd c0 cc cd Hc Hd| | | | | |]; subst.
  inversion Hd as [| | |r1 r2 s0 se sf c0 ce cf He Hf| | | | | |]; subst.
  apply (proj1 (@Matches_lit true (js "://") _ _ _ _)) in He.
  destruct He as (w3 & -> & E3 & ->).
  unfold ROpt in Hc.
  inversion Hc as [| | | |r1 r2 s0 sg c0 cg Hg|r1 r2 s0 sg c0 cg Hg| | | |];
    subst.
  - inversion Hg as [|a x s0 c0 Hx| | | | | | | |]; subst.
    exists (w1 ++ x :: w3), se. split; [|split; [right|exact Hf]].
    + rewrite <- app_assoc. reflexivity.
    + unfold eq_nocase. change (js "https://") with (js "http" ++ 115%N :: js "://").
      rewrite !map_app. cbn [map]. f_equal; [exact E1|].
      f_equal; [exact Hx | exact E3].
  - inversion Hg; subst.
    exists (w1 ++ w3), se. split; [|split; [left|exact Hf]].
    + rewrite <- app_assoc. reflexivity.
    + unfold eq_nocase. change (js "http://") with (js "http" ++ js "://").
      rewrite !map_app. f_equal; [exact E1 | exact E3].
Qed.

(** X8.  Every link that [extractData] returns, in whatever state the
    module is, begins with [http://] or [https://] in either case, has
    something behind it, and holds no white space, angle bracket or
    double quote. *)
Theorem links_are_urls st text html r st1 ls u :
  reachable st ->
  extractData st text html = Some (r, st1) ->
  links r = Some ls -> In u ls ->
  has_scheme u /\
  Forall (fun x => is_space x = false /\ x <> 60%N /\ x <> 62%N /\ x <> DQUOTE) u.
Proof.
  intros Hst E Hl Hu.
  destruct (reachable_inv Hst) as (L & _).
  rewrite (extractData_run _ _ _ L) in E. injection E as <- _.
  cbn [links] in Hl.
  assert (Hc : In u (link_candidates (content_of text html))).
  { apply dedup_In. unfold nonempty_or_null in Hl.
    destruct (dedup (link_candidates (content_of text html)));
      [discriminate|]. now injection Hl as <-. }
  unfold link_candidates in Hc. apply in_flat_map in Hc.
  destruct Hc as (rx & Hrx & Hin). apply in_map_iff in Hin.
  destruct Hin as (m0 & <- & Hm0).
  apply all_matches_sound in Hm0. destruct Hm0 as (a & b & c1 & _ & Hm).
  pose proof linkPatterns_shape as Hs. rewrite Forall_forall in Hs.
  destruct (Hs rx Hrx) as (Hci & Hav & r0 & Hsrc & Hho).
  rewrite Hci in Hm.
  destruct (clean_url_spec m0) as ((p & Hp & Fp) & _).
  split.
  - rewrite Hsrc in Hm. apply after_scheme_match in Hm.
    destruct Hm as (h & t & Ht & Hh & Hr).
    destruct (holds_outside_sound punct_items _ _ _ _ _ _ Hr Hho)
      as (w1 & x & w2 & -> & Hx).
    rewrite outside_punct in Hx. apply negb_true_iff in Hx.
    assert (Em : m0 = (h ++ w1) ++ x :: w2).
    { apply (app_inv_tail b). rewrite Ht, <- !app_assoc. reflexivity. }
    rewrite Em in Hp at 1. apply app_eq_app in Hp.
    destruct Hp as (l & [(E1 & E2) | (E1 & E2)]).
    + exfalso. rewrite E2 in Fp. apply Forall_app in Fp.
      destruct Fp as (_ & Fp). inversion Fp; subst. congruence.
    + destruct l as [|y l].
      * exfalso. simpl in E2. rewrite <- E2 in Fp.
        inversion Fp; subst. congruence.
      * exists h, (w1 ++ y :: l). split; [|split; [|exact Hh]].
        -- rewrite E1, <- app_assoc. reflexivity.
        -- destruct w1; discriminate.
  - destruct (avoids_sound url_excluded _ _ _ _ _ _ Hm Hav) as (w & Hw & Fw).
    apply app_inv_tail in Hw. subst w.
    rewrite Hp in Fw. apply Forall_app in Fw. destruct Fw as (Fu & _).
    eapply Forall_impl; [|exact Fu]. intros x. apply outside_url.
Qed.

Lemma links_are_urls_witness :
  has_scheme (js "https://a.io/verify?t=1") /\
  Forall (fun x => is_space x = false /\ x <> 60%N /\ x <> 62%N /\ x <> DQUOTE)
         (js "https://a.io/verify?t=1").
Proof.
  destruct (extractData loaded (js "Go (https://a.io/verify?t=1).") None)
    as [[r st1]|] eqn:E; [|vm_compute in E; discriminate E].
  apply (links_are_urls loaded (js "Go (https://a.io/verify?t=1).") None r st1
           [js "https://a.io/verify?t=1"]).
  - apply reach_loaded.
  - exact E.
  - vm_compute in E. injection E as <- _. reflexivity.
  - now left.
Defined.

(** ** The normalizer: the boundary value *)

(** The leftmost match is where the expression first matches. *)
Lemma search_leftmost ci r w s1 c1 : forall pre i,
  (forall j, j < length pre ->
             forall s' c', ~ Matches ci r (skipn j (pre ++ w ++ s1)) s' None c') ->
  match_here ci r (w ++ s1) = Some (s1, c1) ->
  search ci r (pre ++ w ++ s1) i =
  Some (mkMatch (i + length pre) (i + length pre + length w) w c1).
Proof.
  induction pre as [|x pre IH]; intros i Hno Hm.
  - cbn [app length]. rewrite (@search_here ci r (w ++ s1) i s1 c1 Hm).
    rewrite length_app, Nat.add_sub, firstn_app, Nat.sub_diag, firstn_all.
    cbn [firstn]. rewrite app_nil_r, !Nat.add_0_r. reflexivity.
  - cbn [app search].
    destruct (match_here ci r (x :: pre ++ w ++ s1)) as [[s2 c2]|] eqn:E.
    + exfalso. apply match_here_sound in E.
      apply (Hno 0 ltac:(simpl; lia) s2 c2). exact E.
    + rewrite IH; [|intros j Hj; apply (Hno (S j)); simpl; lia|exact Hm].
      cbn [length]. f_equal. f_equal; lia.
Qed.

Lemma not_dquote_nocase x :
  x <> DQUOTE -> (canon true x =? canon true DQUOTE)%N = false.
Proof.
  intros H. apply N.eqb_neq. intros E. now apply dquote_nocase in E.
Qed.

Lemma boundary_here kw q y w rest :
  eq_nocase kw (js "boundary=") ->
  (q = [] \/ q = [DQUOTE]) ->
  Forall boundary_char (y :: w) ->
  (forall x t, rest = x :: t -> ~ boundary_char x) ->
  match_here true boundary_re (kw ++ q ++ (y :: w) ++ rest)
  = Some (after_value rest, Some (y :: w)).
Proof.
  intros Hkw Hq Hb Hrest.
  assert (Hc : Forall (fun x => class_mem true true
                 [CChar DQUOTE; CChar CR; CChar LF] x = true) (y :: w)).
  { eapply Forall_impl; [|exact Hb]. intros a. apply boundary_class. }
  assert (Hs : stops true true [CChar DQUOTE; CChar CR; CChar LF] rest).
  { destruct rest as [|x t]; [exact I|].
    change (class_mem true true [CChar DQUOTE; CChar CR; CChar LF] x = false).
    destruct (class_mem true true [CChar DQUOTE; CChar CR; CChar LF] x) eqn:E;
      [|reflexivity].
    exfalso. apply (Hrest x t eq_refl). now apply boundary_class. }
  assert (Hy : y <> DQUOTE).
  { inversion Hb as [|? ? (H1 & _) _]. exact H1. }
  unfold match_here, boundary_re. cbn [RSeqs mrun].
  rewrite mrun_lit by exact Hkw.
  match goal with
  | |- mrun true _ _ None ?K0 = _ => set (K := K0)
  end.
  assert (Hg : K ((y :: w) ++ rest) None
               = Some (after_value rest, Some (y :: w))).
  { subst K. cbv beta. cbn [app].
    apply mrun_plus_class_greedy; [exact Hc | exact Hs |].
    change (y :: w ++ rest) with ((y :: w) ++ rest).
    rewrite length_app, Nat.add_sub, firstn_app, Nat.sub_diag, firstn_all.
    cbn [firstn]. rewrite app_nil_r.
    unfold ROpt, after_value. cbn [mrun].
    destruct rest as [|x t]; [reflexivity|].
    destruct (canon true x =? canon true DQUOTE)%N; reflexivity. }
  unfold ROpt. cbn [mrun].
  destruct Hq as [-> | ->]; cbn [app].
  - rewrite (not_dquote_nocase y Hy). exact Hg.
  - rewrite N.eqb_refl.
    change (y :: w ++ rest) with ((y :: w) ++ rest). now rewrite Hg.
Qed.

(** X9.  The boundary is what follows the leftmost [boundary=] (in
    either case, with or without an opening double quote) up to the next
    double quote, carriage return or line feed, or up to the end: a
    value without quotes takes in whatever parameter follows it on the
    line. *)
Theorem boundary_value raw pre kw q b rest :
  raw = pre ++ kw ++ q ++ b ++ rest ->
  eq_nocase kw (js "boundary=") ->
  (q = [] \/ q = [DQUOTE]) ->
  b <> [] -> Forall boundary_char b ->
  (forall x t, rest = x :: t -> ~ boundary_char x) ->
  (forall j, j < length pre -> ~ matches_at boundary_rx raw j) ->
  boundaryMatch raw = Some b.
Proof.
  intros -> Hkw Hq Hne Hb Hrest Hleft.
  destruct b as [|y w]; [congruence|].
  pose proof (boundary_here kw q y w rest Hkw Hq Hb Hrest) as Hm.
  destruct (match_here_consumed _ _ _ Hm) as (m0 & Hm0 & _ & _ & _).
  unfold boundaryMatch, match_.
  rewrite Hm0 in Hm |- *.
  rewrite (search_leftmost true boundary_re m0 (after_value rest)
             (Some (y :: w)) pre 0).
  - reflexivity.
  - intros j Hj s' c' M. apply (Hleft j Hj). split.
    + rewrite length_app. lia.
    + exists s', c'. rewrite <- Hm0 in M. exact M.
  - exact Hm.
Qed.

Lemma boundary_value_witness :
  boundaryMatch (crlf "Content-Type: multipart/mixed; boundary=XYZ; charset=utf-8

--XYZ
Content-Type: text/plain

Hello
--XYZ--
") = Some (js "XYZ; charset=utf-8").
Proof.
  apply (boundary_value _ (js "Content-Type: multipart/mixed; ")
           (js "boundary=") [] (js "XYZ; charset=utf-8")
           (crlf "

--XYZ
Content-Type: text/plain

Hello
--XYZ--
")).
  - vm_compute. reflexivity.
  - reflexivity.
  - now left.
  - discriminate.
  - vm_compute. repeat constructor; discriminate.
  - intros x t E. vm_compute in E. injection E as <- _.
    intros (_ & H & _). now apply H.
  - intros j Hj (_ & s1 & c1 & M).
    revert M. vm_compute in Hj.
    do 31 (destruct j as [|j];
      [intros M; apply match_here_some in M; apply M; vm_compute; reflexivity|]).
    exfalso. lia.
Defined.

(** ** The normalizer: headers and body of a single part *)

Lemma occurs_tail p x t : occurs p t -> occurs p (x :: t).
Proof. intros (a & b & ->). now exists (x :: a), b. Qed.

(** [indexOf] finds the first occurrence. *)
Lemma indexOf_from_first p b : forall h i,
  p <> [] -> ~ occurs p (h ++ removelast p) ->
  indexOf_from p (h ++ p ++ b) i = (i + Z.of_nat (length h))%Z.
Proof.
  induction h as [|x h IH]; intros i Hp Hno.
  - cbn [app length]. destruct p as [|a p]; [congruence|].
    cbn [indexOf_from app].
    replace (startsWith (a :: p) (a :: p ++ b)) with true; [simpl; lia|].
    symmetry. apply startsWith_spec. now exists b.
  - cbn [app indexOf_from].
    destruct (startsWith p (x :: h ++ p ++ b)) eqn:E.
    + exfalso. apply Hno. apply startsWith_spec in E. destruct E as (b' & E).
      rewrite (app_removelast_last 0%N Hp) in E at 1.
      change (x :: h ++ (removelast p ++ [last p 0%N]) ++ b)
        with ((x :: h) ++ (removelast p ++ [last p 0%N]) ++ b) in E.
      rewrite <- !app_assoc in E. rewrite (app_assoc (x :: h)) in E.
      symmetry in E. apply app_eq_app in E.
      destruct E as (l & [(E1 & E2) | (E1 & E2)]).
      * assert (Hl : length l = 0).
        { apply (f_equal (@length N)) in E1.
          rewrite !length_app in E1. cbn [length] in E1.
          pose proof (app_removelast_last 0%N Hp) as Hr.
          apply (f_equal (@length N)) in Hr.
          rewrite length_app in Hr. cbn [length] in Hr. lia. }
        destruct l; [|discriminate]. rewrite app_nil_r in E1.
        exists [], []. now rewrite app_nil_r.
      * exists [], l. exact E1.
    + rewrite IH; [cbn [length]; lia | exact Hp |].
      intros Ho. apply Hno. now apply occurs_tail.
Qed.

Lemma indexOf_first s p h b :
  s = h ++ p ++ b -> p <> [] -> ~ occurs p (h ++ removelast p) ->
  indexOf s p = Z.of_nat (length h).
Proof. intros -> Hp Hno. unfold indexOf. now rewrite indexOf_from_first. Qed.

(** X10.  On the single-part path the body is what follows the first
    CR LF CR LF, decoded as the raw text's transfer encoding asks; with
    a declared text/html it is returned as [html] and [htmlToText] of it
    as [text].  A message that begins with CR LF CR LF is not split: its
    whole text is the body. *)
Theorem single_part_body :
  (forall hdr body,
     let raw := hdr ++ CRLFCRLF ++ body in
     ~ has_boundary_param raw ->
     hdr <> [] -> ~ occurs CRLFCRLF (hdr ++ [CR; LF; CR]) ->
     parseMimeContent raw =
     Normal (if declares_html raw
             then mkBody (htmlToText (decoded_body raw body))
                         (Some (decoded_body raw body))
             else mkBody (decoded_body raw body) None)) /\
  (forall body,
     let raw := CRLFCRLF ++ body in
     ~ has_boundary_param raw ->
     parseMimeContent raw =
     Normal (if declares_html raw
             then mkBody (htmlToText (decoded_body raw raw))
                         (Some (decoded_body raw raw))
             else mkBody (decoded_body raw raw) None)).
Proof.
  split.
  - intros hdr body raw Hnb Hh Hfirst.
    assert (Hb : boundaryMatch raw = None).
    { apply boundaryMatch_None. now rewrite has_boundary_param_iff. }
    unfold parseMimeContent. rewrite Hb. unfold parseSinglePart.
    assert (Hi : indexOf raw CRLFCRLF = Z.of_nat (length hdr)).
    { apply (indexOf_first raw CRLFCRLF hdr body eq_refl);
        [discriminate | exact Hfirst]. }
    rewrite Hi.
    replace (0 <? Z.of_nat (length hdr))%Z with true
      by (symmetry; apply Z.ltb_lt; destruct hdr; [congruence | simpl; lia]).
    replace (substring raw (Z.of_nat (length hdr) + 4)) with body.
    + rewrite transfer_decode_decoded. cbn [bind].
      fold (declares_html raw). now destruct (declares_html raw).
    + unfold substring, raw.
      replace (Z.to_nat (Z.max 0 (Z.of_nat (length hdr) + 4)))
        with (length hdr + 4) by lia.
      rewrite skipn_app, skipn_all2 by lia.
      replace (length hdr + 4 - length hdr) with 4 by lia. reflexivity.
  - intros body raw Hnb.
    assert (Hb : boundaryMatch raw = None).
    { apply boundaryMatch_None. now rewrite has_boundary_param_iff. }
    unfold parseMimeContent. rewrite Hb. unfold parseSinglePart.
    assert (Hi : indexOf raw CRLFCRLF = 0%Z) by reflexivity.
    rewrite Hi. cbn [Z.ltb Z.compare].
    rewrite transfer_decode_decoded. cbn [bind].
    fold (declares_html raw). now destruct (declares_html raw).
Qed.

Lemma single_part_body_witness :
  parseMimeContent (crlf "Content-Type: text/html

<p>Hi</p>") = Normal (mkBody (js "Hi") (Some (js "<p>Hi</p>"))) /\
  parseMimeContent (CRLFCRLF ++ js "Hello")
    = Normal (mkBody (CRLFCRLF ++ js "Hello") None).
Proof.
  destruct single_part_body as (H1 & H2). split.
  - change (crlf "Content-Type: text/html

<p>Hi</p>") with (js "Content-Type: text/html" ++ CRLFCRLF ++ js "<p>Hi</p>").
    rewrite H1.
    + vm_compute. reflexivity.
    + rewrite <- has_boundary_param_iff. apply boundaryMatch_None.
      vm_compute. reflexivity.
    + discriminate.
    + apply indexOf_negative. vm_compute. reflexivity.
  - rewrite H2.
    + vm_compute. reflexivity.
    + rewrite <- has_boundary_param_iff. apply boundaryMatch_None.
      vm_compute. reflexivity.
Defined.

(** ** The normalizer: which segment becomes the text, which the html *)

Lemma text_open_app before sg :
  text_open (before ++ [sg]) =
  text_open before && negb (isText sg && truthy (decoded sg)).
Proof.
  unfold text_open. rewrite forallb_app. cbn [forallb].
  now rewrite andb_true_r.
Qed.

Lemma hd_error_rev_app (A : Type) (a b : list A) :
  hd_error (rev (a ++ b)) =
  match hd_error (rev b) with
  | Some x => Some x
  | None => hd_error (rev a)
  end.
Proof. rewrite rev_app_distr. destruct (rev b); reflexivity. Qed.

Lemma hd_error_rev_nil (A : Type) (l : list A) :
  hd_error (rev l) = None <-> l = [].
Proof.
  split; [|now intros ->].
  destruct l as [|x l] using rev_ind; [reflexivity|].
  rewrite rev_app_distr. discriminate.
Qed.

(** [html] after the loop is the content of the last segment taken as
    the html, whatever [text] was when the loop came to it. *)
Lemma fold_taken : forall segs before t h,
  truthy t = negb (text_open before) ->
  snd (fold_left seg_step segs (t, h)) =
  match hd_error (rev (html_segments before segs)) with
  | Some sg => Some (decoded sg)
  | None => h
  end.
Proof.
  induction segs as [|sg rest IH]; intros before t h Ht; [reflexivity|].
  assert (Ho : text_open before = negb (truthy t))
    by (rewrite Ht; now rewrite negb_involutive).
  cbn [fold_left html_segments]. rewrite hd_error_rev_app.
  unfold seg_step at 2. cbn [fst snd].
  unfold taken_as_html, taken_as_text. rewrite Ho.
  destruct (isText sg) eqn:Et, (truthy t) eqn:Ett; cbn [andb negb] in Ho |- *.
  - (* text/plain, text already set *)
    assert (Hn : true = negb (text_open (before ++ [sg]))).
    { rewrite text_open_app, Ho. reflexivity. }
    rewrite <- Ett in Hn.
    destruct (isHtml sg); rewrite (IH (before ++ [sg]) _ _ Hn);
      destruct (hd_error (rev (html_segments (before ++ [sg]) rest)));
      reflexivity.
  - (* text/plain, text still empty: taken as the text *)
    assert (Hn : truthy (decoded sg) = negb (text_open (before ++ [sg]))).
    { rewrite text_open_app, Ho, Et. cbn [negb andb].
      now rewrite negb_involutive. }
    rewrite andb_false_r. rewrite (IH (before ++ [sg]) _ _ Hn).
    destruct (hd_error (rev (html_segments (before ++ [sg]) rest)));
      reflexivity.
  - assert (Hn : true = negb (text_open (before ++ [sg]))).
    { rewrite text_open_app, Ho. reflexivity. }
    rewrite <- Ett in Hn. rewrite ?andb_true_r.
    destruct (isHtml sg); rewrite (IH (before ++ [sg]) _ _ Hn);
      destruct (hd_error (rev (html_segments (before ++ [sg]) rest)));
      reflexivity.
  - assert (Hn : false = negb (text_open (before ++ [sg]))).
    { rewrite text_open_app, Ho, Et. reflexivity. }
    rewrite <- Ett in Hn. rewrite ?andb_true_r.
    destruct (isHtml sg); rewrite (IH (before ++ [sg]) _ _ Hn);
      destruct (hd_error (rev (html_segments (before ++ [sg]) rest)));
      reflexivity.
Qed.

Lemma html_after_loop segs :
  snd (fold_left seg_step segs
         (@pair (list N) (option jsstring) (@nil N) (@None jsstring))) =
  option_map decoded (last_taken_html segs).
Proof.
  unfold last_taken_html.
  etransitivity; [exact (fold_taken segs [] [] None eq_refl)|].
  now destruct (hd_error (rev (html_segments [] segs))).
Qed.

Lemma html_segments_app : forall a before b,
  html_segments before (a ++ b) =
  html_segments before a ++ html_segments (before ++ a) b.
Proof.
  induction a as [|x a IH]; intros before b; cbn [app html_segments].
  - now rewrite app_nil_r.
  - rewrite IH, <- !app_assoc. reflexivity.
Qed.

Lemma html_segments_none : forall after before,
  Forall (fun s => isHtml s = false) after -> html_segments before after = [].
Proof.
  induction after as [|x after IH]; intros before H; [reflexivity|].
  inversion H as [|? ? Hx Hr]; subst. cbn [html_segments].
  unfold taken_as_html. rewrite Hx. cbn [andb app]. now apply IH.
Qed.

Lemma html_segments_nil_iff : forall segs before,
  html_segments before segs = [] <->
  forall a sg b, segs = a ++ sg :: b -> taken_as_html (before ++ a) sg = false.
Proof.
  induction segs as [|x segs IH]; intros before; cbn [html_segments].
  - split; [|reflexivity]. intros _ a sg b E. now destruct a.
  - split.
    + intros H. apply app_eq_nil in H. destruct H as [Hx Hr].
      intros a sg b E. destruct a as [|y a]; cbn [app] in E.
      * injection E as <- <-. rewrite app_nil_r.
        destruct (taken_as_html before x); [discriminate | reflexivity].
      * injection E as <- E.
        change (before ++ x :: a) with (before ++ [x] ++ a).
        rewrite app_assoc. apply (proj1 (IH (before ++ [x])) Hr a sg b E).
    + intros H.
      assert (Hx : taken_as_html before x = false).
      { rewrite <- (app_nil_r before). apply (H [] x segs). reflexivity. }
      rewrite Hx. cbn [app]. apply IH. intros a sg b E.
      rewrite <- app_assoc. apply (H (x :: a) sg b). cbn [app]. now rewrite E.
Qed.

Lemma html_segments_some_iff : forall segs before,
  html_segments before segs <> [] <->
  exists a sg b, segs = a ++ sg :: b /\ taken_as_html (before ++ a) sg = true.
Proof.
  intros segs before. split.
  - revert before.
    induction segs as [|x segs IH]; intros before H; [now exfalso|].
    cbn [html_segments] in H.
    destruct (taken_as_html before x) eqn:Ex.
    + exists [], x, segs. rewrite app_nil_r. auto.
    + cbn [app] in H. destruct (IH _ H) as (a & sg & b & -> & Ht).
      exists (x :: a), sg, b. split; [reflexivity|].
      rewrite <- app_assoc in Ht. exact Ht.
  - intros (a & sg & b & E & Ht) Hn.
    rewrite (proj1 (html_segments_nil_iff segs before) Hn a sg b E) in Ht.
    discriminate.
Qed.

Lemma find_app (A : Type) (f : A -> bool) (a b : list A) :
  find f (a ++ b) =
  match find f a with
  | Some x => Some x
  | None => find f b
  end.
Proof.
  induction a as [|x a IH]; cbn [app find]; [reflexivity|].
  now destruct (f x).
Qed.

Lemma last_html_split before sg after :
  isHtml sg = true -> Forall (fun s => isHtml s = false) after ->
  last_html (before ++ sg :: after) = Some sg.
Proof.
  intros Hs Ha. unfold last_html.
  rewrite rev_app_distr. cbn [rev]. rewrite <- app_assoc, find_app.
  rewrite (find_none_all isHtml (rev after)).
  - cbn [app find]. now rewrite Hs.
  - intros x Hx. apply in_rev in Hx. rewrite Forall_forall in Ha. now apply Ha.
Qed.

(** C5, as stated, fails.  With two text/plain segments of which the
    first has an empty body, [text] is the content of the second.  With
    two text/html segments of which the last names text/plain in
    another header, the last one is taken as the text and [html] is the
    content of the first.  And a single text/html segment that names
    text/plain too is taken as the text, so that [html] is absent. *)
Lemma C5_first_plain_and_last_html_can_lose :
  (exists body sg,
     boundaryMatch msg_empty_first_plain = Some (js "XYZ") /\
     parseMimeContent msg_empty_first_plain = Normal body /\
     find isText (segments msg_empty_first_plain (js "XYZ")) = Some sg /\
     decoded sg = [] /\
     text body = js "Second" /\
     text body <> decoded sg) /\
  (exists body sg,
     boundaryMatch msg_last_html_names_plain = Some (js "XYZ") /\
     parseMimeContent msg_last_html_names_plain = Normal body /\
     length (segments msg_last_html_names_plain (js "XYZ")) = 2 /\
     last_html (segments msg_last_html_names_plain (js "XYZ")) = Some sg /\
     decoded sg = js "<p>Last</p>" /\
     html body = Some (js "<p>First</p>") /\
     html body <> Some (decoded sg)) /\
  (exists body sg,
     boundaryMatch msg_both_types = Some (js "XYZ") /\
     parseMimeContent msg_both_types = Normal body /\
     last_html (segments msg_both_types (js "XYZ")) = Some sg /\
     decoded sg = js "<p>Hello</p>" /\
     html body = None /\
     html body <> Some (decoded sg)).
Proof.
  split; [|split].
  - exists (mkBody (js "Second") None), (mkSegment true false []).
    repeat split; try (vm_compute; reflexivity). vm_compute. discriminate.
  - exists (mkBody (js "<p>Last</p>") (Some (js "<p>First</p>"))),
           (mkSegment true true (js "<p>Last</p>")).
    repeat split; try (vm_compute; reflexivity). vm_compute. discriminate.
  - exists (mkBody (js "<p>Hello</p>") None),
           (mkSegment true true (js "<p>Hello</p>")).
    repeat split; try (vm_compute; reflexivity). vm_compute. discriminate.
Qed.

(** C5, amended.  On the multipart path the normalizer returns, [text]
    is the decoded content of the first text/plain segment whose content
    is not empty (and, for want of one, [htmlToText] of [html]), and
    [html] is the decoded content of the last segment that is taken as
    the html: one that declares text/html and is not taken as the text,
    which a segment is when it declares text/plain and no text/plain
    segment before it has content.  So [html] is the content of the last
    text/html segment whenever that segment is not taken as the text,
    and what the segments before it give when it is; it is the content
    of the last text/html segment when no segment declares both types,
    and absent when no segment declares text/html.  A segment is a part
    that is not blank, declares one of the two types, anywhere in the
    part, and has a CR LF CR LF separator. *)
Theorem C5_multipart_precedence :
  (forall raw boundary,
     boundaryMatch raw = Some boundary ->
     exists body,
       parseMimeContent raw = Normal body /\
       (forall sg, first_text (segments raw boundary) = Some sg ->
                   text body = decoded sg) /\
       (first_text (segments raw boundary) = None ->
        text body = match html body with
                    | Some h => htmlToText h
                    | None => []
                    end) /\
       html body = option_map decoded (last_taken_html (segments raw boundary)) /\
       (forall before sg after,
          segments raw boundary = before ++ sg :: after ->
          isHtml sg = true ->
          Forall (fun s => isHtml s = false) after ->
          last_html (segments raw boundary) = Some sg /\
          (taken_as_text before sg = false -> html body = Some (decoded sg)) /\
          (taken_as_text before sg = true ->
           html body = option_map decoded (last_taken_html before))) /\
       (Forall (fun sg => isText sg && isHtml sg = false)
               (segments raw boundary) ->
        html body = option_map decoded (last_html (segments raw boundary))) /\
       (Forall (fun sg => isHtml sg = false) (segments raw boundary) ->
        html body = None)) /\
  parseMimeContent msg_two_of_each =
    Normal (mkBody (js "First plain") (Some (js "<p>Last html</p>"))) /\
  parseMimeContent msg_plain_then_two_html =
    Normal (mkBody (js "Plain") (Some (js "<p>Last</p>"))) /\
  parseMimeContent msg_last_html_names_plain =
    Normal (mkBody (js "<p>Last</p>") (Some (js "<p>First</p>"))).
Proof.
  split; [|repeat split; vm_compute; reflexivity].
  intros raw boundary Hb. unfold parseMimeContent. rewrite Hb.
  rewrite parseMultipart_segments. eexists. split; [reflexivity|].
  rewrite finish_text, finish_html, html_after_loop.
  split; [|split; [|split; [|split; [|split]]]].
  - intros sg Hsg. rewrite fold_text. cbn [truthy]. rewrite Hsg.
    apply find_some in Hsg. destruct Hsg as [_ Hsg].
    apply andb_true_iff in Hsg. destruct Hsg as [_ Ht]. now rewrite Ht.
  - intros Hnone. rewrite fold_text. cbn [truthy]. rewrite Hnone.
    reflexivity.
  - reflexivity.
  - intros before sg after E Hs Ha. rewrite E.
    split; [now apply last_html_split|].
    unfold last_taken_html.
    change (sg :: after) with ([sg] ++ after).
    rewrite app_assoc, html_segments_app.
    rewrite (html_segments_none after _ Ha), app_nil_r.
    rewrite html_segments_app. cbn [html_segments app].
    unfold taken_as_html. rewrite app_nil_r, Hs. cbn [andb].
    split; intros Ht; rewrite Ht; cbn [negb].
    + rewrite hd_error_rev_app. reflexivity.
    + now rewrite app_nil_r.
  - intros Hboth. rewrite <- html_after_loop, fold_html by assumption.
    now destruct (last_html (segments raw boundary)).
  - intros Hno. unfold last_taken_html.
    now rewrite (html_segments_none _ _ Hno).
Qed.

Lemma C5_multipart_precedence_witness :
  exists body,
    parseMimeContent msg_plain_then_two_html = Normal body /\
    text body = js "Plain" /\
    html body = Some (js "<p>Last</p>").
Proof.
  destruct C5_multipart_precedence as (H & _).
  destruct (H msg_plain_then_two_html (js "XYZ"))
    as (body & E & Ht & _ & _ & Hh & _).
  - vm_compute. reflexivity.
  - exists body. split; [exact E|]. split.
    + rewrite (Ht (mkSegment true false (js "Plain"))).
      * reflexivity.
      * vm_compute. reflexivity.
    + destruct (Hh [mkSegment true false (js "Plain");
                    mkSegment true true (js "<p>Middle</p>")]
                   (mkSegment false true (js "<p>Last</p>")) [])
        as (_ & Hlast & _).
      * vm_compute. reflexivity.
      * reflexivity.
      * constructor.
      * rewrite Hlast; reflexivity.
Defined.

(** ** The normalizer: the boundary that decides *)

(** A boundary parameter starts where the expression matches. *)
Lemma boundary_param_at_iff raw i :
  boundary_param_at raw i <-> matches_at boundary_rx raw i.
Proof.
  unfold matches_at, boundary_param_at.
  cbn [boundary_rx source ignoreCase]. unfold boundary_re.
  cbn [RSeqs]. unfold ROpt, RPlus.
  remember (RLit (js "boundary=")) as lit eqn:Hlit.
  split.
  - intros (pre & kw & q & x & rest & -> & <- & Hci & Hq & Hx).
    split; [rewrite length_app; lia|].
    rewrite skipn_app, skipn_all, Nat.sub_diag. cbn [skipn app].
    assert (Mlit : Matches true lit (kw ++ q ++ x :: rest) (q ++ x :: rest)
                           None None).
    { subst lit. apply Matches_lit. exists kw. split; [reflexivity|].
      split; [exact Hci | reflexivity]. }
    assert (Mq : Matches true (RAlt (RChar DQUOTE) REps) (q ++ x :: rest)
                         (x :: rest) None None).
    { destruct Hq as [->| ->]; simpl.
      - apply M_alt_r. constructor.
      - apply M_alt_l. now constructor. }
    exists rest. eexists.
    eapply M_seq; [exact Mlit|]. eapply M_seq; [exact Mq|].
    eapply M_seq.
    { eapply M_group. eapply M_seq.
      - constructor. apply boundary_class. exact Hx.
      - apply M_star_stop. }
    apply M_alt_r. constructor.
  - intros (Hi & s1 & c1 & M).
    inversion M as [| | | ? ? ? sa ? ? ca ? Mlit M2 | | | | | |]; subst.
    inversion M2 as [| | | ? ? ? sb ? ? cb ? Mq M3 | | | | | |]; subst.
    inversion M3 as [| | | ? ? ? sc ? ? cc ? Mg M4 | | | | | |]; subst.
    inversion Mg as [| | | | | | | | ? ? ? ? ? Mp |]; subst.
    inversion Mp as [| | | ? ? ? sd ? ? cd ? Mc Ms | | | | | |]; subst.
    apply Matches_class in Mc. destruct Mc as (x & -> & Hx & ->).
    apply Matches_lit in Mlit. destruct Mlit as (kw & Hkw & Hci & ->).
    apply boundary_class in Hx.
    assert (Hq : exists q, sa = q ++ x :: sd /\ (q = [] \/ q = [DQUOTE])).
    { inversion Mq as [| | | | ? ? ? ? ? ? Mq1 | ? ? ? ? ? ? Mq1 | | | |]; subst.
      - inversion Mq1; subst. exists [DQUOTE]. split; [|now right].
        match goal with H : canon _ _ = canon _ _ |- _ =>
          apply dquote_nocase in H; subst end. reflexivity.
      - inversion Mq1; subst. exists []. split; [reflexivity | now left]. }
    destruct Hq as (q & -> & Hq).
    exists (firstn i raw), kw, q, x, sd.
    rewrite <- Hkw, firstn_skipn.
    split; [reflexivity|]. split; [apply firstn_length_le; exact Hi|].
    auto.
Qed.

Lemma boundary_char_dec c : {boundary_char c} + {~ boundary_char c}.
Proof.
  unfold boundary_char.
  destruct (N.eq_dec c DQUOTE); [right; tauto|].
  destruct (N.eq_dec c CR); [right; tauto|].
  destruct (N.eq_dec c LF); [right; tauto|].
  left. auto.
Qed.

(** The longest run of boundary characters at the head of a text. *)
Lemma boundary_span : forall l,
  exists b rest,
    l = b ++ rest /\ Forall boundary_char b /\
    (forall x t, rest = x :: t -> ~ boundary_char x).
Proof.
  induction l as [|c l (b & rest & -> & Hb & Hr)].
  - exists [], []. repeat split; [constructor | discriminate].
  - destruct (boundary_char_dec c) as [Hc|Hc].
    + exists (c :: b), rest. repeat split; [now constructor | exact Hr].
    + exists [], (c :: b ++ rest). repeat split; [constructor|].
      intros x t E. now injection E as <- _.
Qed.

(** The leftmost boundary parameter gives the boundary. *)
Lemma boundaryMatch_leftmost_param raw pre kw q b rest :
  raw = pre ++ kw ++ q ++ b ++ rest ->
  eq_nocase kw (js "boundary=") ->
  (q = [] \/ q = [DQUOTE]) ->
  b <> [] -> Forall boundary_char b ->
  (forall x t, rest = x :: t -> ~ boundary_char x) ->
  (forall j, j < length pre -> ~ boundary_param_at raw j) ->
  boundaryMatch raw = Some b.
Proof.
  intros -> Hkw Hq Hne Hb Hrest Hleft.
  destruct b as [|y w]; [congruence|].
  pose proof (boundary_here kw q y w rest Hkw Hq Hb Hrest) as Hm.
  destruct (match_here_consumed _ _ _ Hm) as (m0 & Hm0 & _ & _ & _).
  unfold boundaryMatch, match_.
  rewrite Hm0 in Hm |- *.
  rewrite (search_leftmost true boundary_re m0 (after_value rest)
             (Some (y :: w)) pre 0).
  - reflexivity.
  - intros j Hj s' c' M. apply (Hleft j Hj). apply boundary_param_at_iff.
    split.
    + rewrite length_app. lia.
    + exists s', c'. rewrite <- Hm0 in M. exact M.
  - exact Hm.
Qed.

(** C6, as stated, fails: the headers of this message hold no boundary
    parameter, yet the one in its body sends it down the multipart path,
    where its text is lost. *)
Lemma C6_boundary_in_body_is_multipart :
  ~ has_boundary_param (headers_of msg_boundary_in_body) /\
  parseSinglePart msg_boundary_in_body =
    Normal (mkBody (js "set boundary=1 please") None) /\
  parseMimeContent msg_boundary_in_body = Normal (mkBody [] None) /\
  parseMimeContent msg_boundary_in_body <> parseSinglePart msg_boundary_in_body.
Proof.
  split; [|repeat split; try (vm_compute; reflexivity); vm_compute; discriminate].
  rewrite <- has_boundary_param_iff. apply boundaryMatch_None.
  vm_compute. reflexivity.
Qed.

(** C6, amended.  The decision is made on the whole raw message,
    headers and body alike.  When the text holds no boundary parameter
    anywhere, the single-part path is taken.  When it holds one, the
    multipart path is taken, and the boundary is the value of the
    leftmost one: the longest run of characters other than the double
    quote, CR and LF that follows [boundary=] (in any case) and the
    double quote that may come after it.  Every text that holds a
    boundary parameter is of this form. *)
Theorem C6_leftmost_boundary_decides :
  (forall raw, ~ has_boundary_param raw ->
               parseMimeContent raw = parseSinglePart raw) /\
  (forall raw pre kw q b rest,
     raw = pre ++ kw ++ q ++ b ++ rest ->
     eq_nocase kw (js "boundary=") ->
     (q = [] \/ q = [DQUOTE]) ->
     b <> [] -> Forall boundary_char b ->
     (forall x t, rest = x :: t -> ~ boundary_char x) ->
     (forall j, j < length pre -> ~ boundary_param_at raw j) ->
     parseMimeContent raw = parseMultipart raw b) /\
  (forall raw, has_boundary_param raw ->
     exists pre kw q b rest,
       raw = pre ++ kw ++ q ++ b ++ rest /\
       eq_nocase kw (js "boundary=") /\
       (q = [] \/ q = [DQUOTE]) /\
       b <> [] /\ Forall boundary_char b /\
       (forall x t, rest = x :: t -> ~ boundary_char x) /\
       (forall j, j < length pre -> ~ boundary_param_at raw j) /\
       parseMimeContent raw = parseMultipart raw b) /\
  (parseMimeContent msg_boundary_in_body =
     parseMultipart msg_boundary_in_body (js "1 please") /\
   parseMimeContent msg_two_of_each = parseMultipart msg_two_of_each (js "XYZ") /\
   parseMultipart msg_two_of_each (js "XYZ") =
     Normal (mkBody (js "First plain") (Some (js "<p>Last html</p>"))) /\
   parseSinglePart msg_two_of_each <> parseMultipart msg_two_of_each (js "XYZ")).
Proof.
  assert (Multi : forall raw pre kw q b rest,
     raw = pre ++ kw ++ q ++ b ++ rest ->
     eq_nocase kw (js "boundary=") ->
     (q = [] \/ q = [DQUOTE]) ->
     b <> [] -> Forall boundary_char b ->
     (forall x t, rest = x :: t -> ~ boundary_char x) ->
     (forall j, j < length pre -> ~ boundary_param_at raw j) ->
     parseMimeContent raw = parseMultipart raw b).
  { intros raw pre kw q b rest E Hkw Hq Hne Hb Hrest Hleft.
    unfold parseMimeContent.
    now rewrite (boundaryMatch_leftmost_param raw pre kw q b rest
                   E Hkw Hq Hne Hb Hrest Hleft). }
  split; [|split; [exact Multi|split]].
  - intros raw Hno. rewrite <- has_boundary_param_iff in Hno.
    apply boundaryMatch_None in Hno.
    unfold parseMimeContent. now rewrite Hno.
  - intros raw Hp. apply has_boundary_param_iff in Hp.
    destruct (search true boundary_re raw 0) as [m|] eqn:Es.
    + apply search_Some in Es.
      destruct Es as (pre & w & s1 & Hs & _ & M & Hleft).
      assert (Hat : boundary_param_at (w ++ s1) 0).
      { apply boundary_param_at_iff. split; [lia|].
        exists s1, (m_1 m). exact M. }
      destruct Hat as (pre0 & kw & q & x & sd & E0 & Hl0 & Hkw & Hq & Hx).
      destruct pre0; [|discriminate]. cbn [app] in E0.
      destruct (boundary_span sd) as (b & rest & -> & Hb & Hrest).
      assert (Hl : forall j, j < length pre -> ~ boundary_param_at raw j).
      { intros j Hj Hat. apply boundary_param_at_iff in Hat.
        destruct Hat as (_ & s' & c' & M').
        exact (Hleft j Hj s' c' M'). }
      assert (Er : raw = pre ++ kw ++ q ++ (x :: b) ++ rest).
      { rewrite Hs, E0. reflexivity. }
      exists pre, kw, q, (x :: b), rest.
      split; [exact Er|]. split; [exact Hkw|]. split; [exact Hq|].
      split; [discriminate|]. split; [now constructor|].
      split; [exact Hrest|]. split; [exact Hl|].
      apply (Multi raw pre kw q (x :: b) rest); try assumption.
      * discriminate.
      * now constructor.
    + exfalso. destruct Hp as (i & Hi & s1 & c1 & M).
      eapply search_None; [exact Es | exact Hi | exact M].
  - repeat split; try (vm_compute; reflexivity). vm_compute. discriminate.
Qed.

Lemma C6_leftmost_boundary_decides_witness :
  parseMimeContent msg_two_of_each = parseMultipart msg_two_of_each (js "XYZ").
Proof.
  destruct C6_leftmost_boundary_decides as (_ & H & _).
  apply (H _ (js "Content-Type: multipart/alternative; ")
           (js "boundary=") [] (js "XYZ")
           (skipn 49 msg_two_of_each)).
  - vm_compute. reflexivity.
  - reflexivity.
  - now left.
  - discriminate.
  - vm_compute. repeat constructor; discriminate.
  - intros x t E. vm_compute in E. injection E as <- _.
    intros (_ & H1 & _). now apply H1.
  - intros j Hj Hat. apply boundary_param_at_iff in Hat.
    destruct Hat as (_ & s1 & c1 & M).
    revert M. vm_compute in Hj.
    do 37 (destruct j as [|j];
      [intros M; apply match_here_some in M; apply M; vm_compute; reflexivity|]).
    exfalso. lia.
Defined.

(** ** The normalizer: the shape of the body *)

(** C7, as stated, fails.  A text/plain message that is not multipart
    and whose body quotes the header of an HTML message gets an [html],
    its own text; so does a multipart message of two text/plain parts,
    the second of which quotes that header: no header of any part
    declares text/html.  A part that declares text/html and names
    text/plain in another header gives no [html], and its markup as
    [text] rather than [htmlToText] of it.  And [text] is the empty
    string for a message with an attachment only, as for the empty
    message. *)
Lemma C7_html_without_html_part_and_empty_text :
  (boundaryMatch msg_plain_quotes_html = None /\
   declares_html (headers_of msg_plain_quotes_html) = false /\
   parseMimeContent msg_plain_quotes_html =
     Normal (mkBody (js "Send it with Content-Type: text/html please")
                    (Some (js "Send it with Content-Type: text/html please")))) /\
  (boundaryMatch msg_plain_part_quotes_html = Some (js "XYZ") /\
   Forall (fun part => declares_html (headers_of part) = false)
          (split msg_plain_part_quotes_html (js "--XYZ")) /\
   parseMimeContent msg_plain_part_quotes_html =
     Normal (mkBody (js "Hello")
                    (Some (js "Send it with Content-Type: text/html please")))) /\
  (parseMimeContent msg_both_types = Normal (mkBody (js "<p>Hello</p>") None) /\
   htmlToText (js "<p>Hello</p>") = js "Hello") /\
  (parseMimeContent msg_attachment_only = Normal (mkBody [] None) /\
   parseMimeContent [] = Normal (mkBody [] None)).
Proof.
  repeat split; try (vm_compute; reflexivity).
  vm_compute. repeat constructor.
Qed.

(** C7, amended.  The normalizer always returns a body, whose [text] is
    a string, which can be empty.  Off the multipart path, [html] is
    present exactly when the expression for a declared text/html
    matches somewhere in the raw text, headers or body, and then [text]
    is [htmlToText] of it.  On the multipart path, [html] is present
    exactly when some segment is taken as the html, that is, matches
    that expression somewhere in the part and is not taken as the text;
    it is then the content of the last such segment.  There [text] is
    the content of the first text/plain segment that has content, and
    for want of one [htmlToText] of [html], or the empty string when
    [html] is absent. *)
Theorem C7_normalized_body_shape :
  forall raw,
    exists body,
      parseMimeContent raw = Normal body /\
      (boundaryMatch raw = None ->
       (html body <> None <-> declares_html raw = true) /\
       (forall h, html body = Some h -> text body = htmlToText h)) /\
      (forall b,
         boundaryMatch raw = Some b ->
         html body = option_map decoded (last_taken_html (segments raw b)) /\
         (html body <> None <->
          exists before sg after,
            segments raw b = before ++ sg :: after /\
            taken_as_html before sg = true) /\
         (forall sg, first_text (segments raw b) = Some sg ->
                     text body = decoded sg /\ text body <> []) /\
         (first_text (segments raw b) = None ->
          text body = match html body with
                      | Some h => htmlToText h
                      | None => []
                      end)).
Proof.
  intros raw. unfold parseMimeContent.
  destruct (boundaryMatch raw) as [b|] eqn:Eb.
  - rewrite parseMultipart_segments. eexists. split; [reflexivity|].
    split; [discriminate|].
    intros b' Hb'. injection Hb' as <-.
    rewrite finish_text, finish_html, html_after_loop.
    split; [reflexivity|]. split; [|split].
    + unfold last_taken_html.
      rewrite <- (html_segments_some_iff (segments raw b) []).
      pose proof (hd_error_rev_nil _ (html_segments [] (segments raw b))) as Hr.
      destruct (hd_error (rev (html_segments [] (segments raw b)))) as [s0|].
      * split; [|discriminate]. intros _ E.
        apply (proj2 Hr) in E. discriminate.
      * split; [intros H; now exfalso|].
        intros H _. apply H. now apply Hr.
    + intros sg Hsg. rewrite fold_text. cbn [truthy]. rewrite Hsg.
      apply find_some in Hsg. destruct Hsg as [_ Hsg].
      apply andb_true_iff in Hsg. destruct Hsg as [_ Ht]. rewrite Ht.
      split; [reflexivity|]. intros E. rewrite E in Ht. discriminate.
    + intros Hnone. rewrite fold_text. cbn [truthy]. rewrite Hnone.
      reflexivity.
  - unfold parseSinglePart. rewrite transfer_decode_decoded. unfold bind.
    fold (declares_html raw).
    destruct (declares_html raw) eqn:Eh; eexists;
      (split; [reflexivity|]); cbn [html text];
      (split; [|intros; discriminate]); intros _.
    + split; [split; [reflexivity | discriminate]|].
      intros h Hh. now injection Hh as <-.
    + split; [split; [intros H; now exfalso | discriminate]|].
      intros h Hh. discriminate.
Qed.

Lemma C7_normalized_body_shape_witness :
  exists body,
    parseMimeContent msg_html_only = Normal body /\
    html body = Some (js "<p>Your code is <b>123456</b></p>") /\
    text body = js "Your code is 123456".
Proof.
  destruct (C7_normalized_body_shape msg_html_only) as (body & E & _ & H).
  destruct (H (js "XYZ")) as (Hh & _ & _ & Ht).
  - vm_compute. reflexivity.
  - exists body. split; [exact E|].
    assert (Eh : html body = Some (js "<p>Your code is <b>123456</b></p>")).
    { rewrite Hh. vm_compute. reflexivity. }
    split; [exact Eh|].
    rewrite Ht, Eh; vm_compute; reflexivity.
Defined.

(** ** The normalizer: malformed input *)

(** C8, as stated, fails in one of its parts: the headers of this
    message hold no boundary parameter, yet single-part handling does
    not apply; the body, which holds one, sends the message down the
    multipart path, where its text is lost. *)
Lemma C8_no_boundary_header_yet_multipart :
  headers_of msg_boundary_word_in_body = js "From: a@b.c" /\
  ~ has_boundary_param (headers_of msg_boundary_word_in_body) /\
  parseSinglePart msg_boundary_word_in_body =
    Normal (mkBody (js "boundary=x") None) /\
  parseMimeContent msg_boundary_word_in_body =
    parseMultipart msg_boundary_word_in_body (js "x") /\
  parseMimeContent msg_boundary_word_in_body = Normal (mkBody [] None) /\
  parseMimeContent msg_boundary_word_in_body
    <> parseSinglePart msg_boundary_word_in_body.
Proof.
  split; [vm_compute; reflexivity|].
  split; [|repeat split; try (vm_compute; reflexivity); vm_compute; discriminate].
  rewrite <- has_boundary_param_iff. apply boundaryMatch_None.
  vm_compute. reflexivity.
Qed.

(** C8, amended.  The normalizer returns a body for every input; a
    base64 body that [atob] rejects is kept as it was received; a
    message that holds no boundary parameter anywhere, in its headers
    or in its body, is handled as a single part, and one that holds a
    boundary parameter somewhere is not: it goes down the multipart
    path; and on the single-part path, when the text holds no
    CR LF CR LF, or begins with it, the whole raw text is the body that
    is decoded. *)
Theorem C8_never_raises :
  (forall raw, exists body, parseMimeContent raw = Normal body) /\
  (forall scope body e,
     test true (transfer_encoding_re "quoted-printable") scope = false ->
     test true (transfer_encoding_re "base64") scope = true ->
     atob (replace_all false sp (literal []) body) = Throw e ->
     transfer_decode scope body = Normal body) /\
  (forall raw, ~ has_boundary_param raw ->
               parseMimeContent raw = parseSinglePart raw) /\
  (forall raw, has_boundary_param raw ->
     exists boundary,
       boundary <> [] /\ parseMimeContent raw = parseMultipart raw boundary) /\
  (forall raw,
     ~ occurs CRLFCRLF raw \/ (exists t, raw = CRLFCRLF ++ t) ->
     parseSinglePart raw =
     bind (transfer_decode raw raw) (fun decoded =>
       if declares_html raw
       then Normal (mkBody (htmlToText decoded) (Some decoded))
       else Normal (mkBody decoded None))) /\
  parseMimeContent msg_bad_base64 = Normal (mkBody (js "!!not base64!!") None) /\
  parseMimeContent msg_no_separator = Normal (mkBody msg_no_separator None) /\
  parseMimeContent msg_separator_first = Normal (mkBody msg_separator_first None).
Proof.
  split; [exact parseMimeContent_normal|].
  split; [|split; [|split; [|split; [|repeat split; vm_compute; reflexivity]]]].
  - intros scope body e Hq Hb Ha. unfold transfer_decode.
    rewrite Hq, Hb, Ha. reflexivity.
  - intros raw Hno. rewrite <- has_boundary_param_iff in Hno.
    apply boundaryMatch_None in Hno.
    unfold parseMimeContent. now rewrite Hno.
  - intros raw Hp. apply has_boundary_param_iff in Hp.
    destruct (boundaryMatch_Some Hp) as (b & E & Hne & _).
    exists b. split; [exact Hne|]. unfold parseMimeContent. now rewrite E.
  - intros raw [Hno|(t & ->)].
    + apply indexOf_negative in Hno.
      unfold parseSinglePart.
      destruct (Z.ltb_spec 0 (indexOf raw CRLFCRLF)) as [H|H]; [lia|].
      reflexivity.
    + unfold parseSinglePart.
      assert (Hi : indexOf (CRLFCRLF ++ t) CRLFCRLF = 0%Z) by reflexivity.
      rewrite Hi. reflexivity.
Qed.

Lemma C8_never_raises_witness :
  transfer_decode msg_bad_base64 (js "!!not base64!!")
    = Normal (js "!!not base64!!") /\
  parseMimeContent msg_no_separator = parseSinglePart msg_no_separator /\
  (exists boundary,
     boundary <> [] /\
     parseMimeContent msg_boundary_word_in_body
       = parseMultipart msg_boundary_word_in_body boundary).
Proof.
  destruct C8_never_raises as (_ & Hb & Hs & Hm & _). split; [|split].
  - apply (Hb msg_bad_base64 (js "!!not base64!!") "InvalidCharacterError"%string);
      vm_compute; reflexivity.
  - apply Hs. rewrite <- has_boundary_param_iff. apply boundaryMatch_None.
    vm_compute. reflexivity.
  - apply Hm.
    exists (crlf "From: a@b.c

"), (js "boundary="), [], (ch "x"), [].
    split; [vm_compute; reflexivity|].
    split; [reflexivity|]. split; [now left|].
    vm_compute. repeat split; discriminate.
Defined.

Import Types Kv StoreKv StoreSpec.

(** ** The KV store *)

Lemma jseqb_false a b : a <> b -> jseqb a b = false.
Proof.
  intros H. destruct (jseqb a b) eqn:E; [|reflexivity].
  apply jseqb_true in E. contradiction.
Qed.

Lemma get_put_same (V : Type) (kv : KVNamespace V) now key v ttl t :
  get (put kv now key v ttl) t key =
  match ttl with
  | Some d => if (t <? now + d)%N then Some v else None
  | None => Some v
  end.
Proof.
  unfold get, put. rewrite jseqb_refl. now destruct ttl.
Qed.

Lemma get_put_other (V : Type) (kv : KVNamespace V) now key v ttl t key' :
  key' <> key -> get (put kv now key v ttl) t key' = get kv t key'.
Proof. intros H. unfold get, put. now rewrite (jseqb_false _ _ H). Qed.

Lemma get_delete_same (V : Type) (kv : KVNamespace V) key t : get (delete kv key) t key = None.
Proof. unfold get, delete. now rewrite jseqb_refl. Qed.

Lemma get_delete_other (V : Type) (kv : KVNamespace V) key t key' :
  key' <> key -> get (delete kv key) t key' = get kv t key'.
Proof. intros H. unfold get, delete. now rewrite (jseqb_false _ _ H). Qed.

(** The four kinds of keys never meet. *)
Lemma email_key_not_list a b : EMAIL_PREFIX ++ a <> EMAIL_LIST_PREFIX ++ b.
Proof. intros H. vm_compute in H. discriminate H. Qed.

Lemma email_key_not_mailbox a b : EMAIL_PREFIX ++ a <> MAILBOX_PREFIX ++ b.
Proof. intros H. vm_compute in H. discriminate H. Qed.

Lemma list_key_not_mailbox a b : EMAIL_LIST_PREFIX ++ a <> MAILBOX_PREFIX ++ b.
Proof. intros H. vm_compute in H. discriminate H. Qed.

Lemma email_key_inj a b : EMAIL_PREFIX ++ a = EMAIL_PREFIX ++ b -> a = b.
Proof. apply app_inv_head. Qed.

Lemma getEmail_updateLastActivity now dateNow kv name t i :
  getEmail t (updateLastActivity now dateNow kv name) i = getEmail t kv i.
Proof.
  unfold updateLastActivity, getEmail.
  destruct (getMailboxByName now kv name); [|reflexivity].
  rewrite get_put_other; [reflexivity | apply email_key_not_mailbox].
Qed.

Lemma emailIds_updateLastActivity now dateNow kv name t key :
  emailIds_of t (updateLastActivity now dateNow kv name) (EMAIL_LIST_PREFIX ++ key)
  = emailIds_of t kv (EMAIL_LIST_PREFIX ++ key).
Proof.
  unfold updateLastActivity, emailIds_of.
  destruct (getMailboxByName now kv name); [|reflexivity].
  rewrite get_put_other; [reflexivity | apply list_key_not_mailbox].
Qed.

Lemma getEmail_put_list kv now key ids t i :
  getEmail t (put kv now (EMAIL_LIST_PREFIX ++ key) (VIds ids) None) i
  = getEmail t kv i.
Proof.
  unfold getEmail. now rewrite get_put_other by apply email_key_not_list.
Qed.

Lemma getEmail_storeEmail retentionMs now dateNow kv e t i :
  getEmail t (storeEmail retentionMs now dateNow kv e) i
  = if jseqb i (id e)
    then if (t <? now + expirationTtl retentionMs)%N then Some e else None
    else getEmail t kv i.
Proof.
  unfold storeEmail. rewrite getEmail_updateLastActivity.
  rewrite getEmail_put_list. unfold getEmail.
  destruct (jseqb i (id e)) eqn:E.
  - apply jseqb_true in E. subst i. rewrite get_put_same.
    now destruct (t <? now + expirationTtl retentionMs)%N.
  - rewrite get_put_other; [reflexivity|].
    intros H. apply email_key_inj in H. subst i.
    now rewrite jseqb_refl in E.
Qed.

Lemma listed_storeEmail retentionMs now dateNow kv e t :
  listed t (storeEmail retentionMs now dateNow kv e) (mailboxName e)
  = firstn 100 (id e :: listed now kv (mailboxName e)).
Proof.
  unfold listed, storeEmail. rewrite emailIds_updateLastActivity.
  unfold emailIds_of at 1. rewrite get_put_same.
  assert (Hl : emailIds_of now
                 (put kv now (EMAIL_PREFIX ++ id e) (VEmail e)
                      (Some (expirationTtl retentionMs)))
                 (EMAIL_LIST_PREFIX ++ mailboxName e)
               = emailIds_of now kv (EMAIL_LIST_PREFIX ++ mailboxName e)).
  { unfold emailIds_of. rewrite get_put_other; [reflexivity|].
    intros H. symmetry in H. now apply email_key_not_list in H. }
  rewrite Hl. unfold maxEmails.
  destruct (100 <? length (id e :: emailIds_of now kv
                                       (EMAIL_LIST_PREFIX ++ mailboxName e)))
    eqn:E; [reflexivity|].
  apply Nat.ltb_ge in E. now rewrite firstn_all2.
Qed.

(** X11.  [storeEmail] puts the id of the email at the head of the
    list of its mailbox and keeps the first hundred ids of that list;
    the email can be read back under its id for the whole retention
    period; and every other email is as it was, those whose id the list
    has just lost included: they are no longer listed, yet still read. *)
Theorem storeEmail_spec retentionMs now dateNow kv e :
  let kv' := storeEmail retentionMs now dateNow kv e in
  emailIds_of now kv' (EMAIL_LIST_PREFIX ++ mailboxName e)
  = firstn 100 (id e :: emailIds_of now kv (EMAIL_LIST_PREFIX ++ mailboxName e))
  /\ length (emailIds_of now kv' (EMAIL_LIST_PREFIX ++ mailboxName e)) <= 100
  /\ (forall t, (t < now + expirationTtl retentionMs)%N ->
                getEmail t kv' (id e) = Some e)
  /\ (forall t i, i <> id e -> getEmail t kv' i = getEmail t kv i).
Proof.
  intros kv'. subst kv'. unfold storeEmail.
  set (kv1 := put kv now (EMAIL_PREFIX ++ id e) (VEmail e)
                  (Some (expirationTtl retentionMs))).
  assert (Hl : emailIds_of now kv1 (EMAIL_LIST_PREFIX ++ mailboxName e)
               = emailIds_of now kv (EMAIL_LIST_PREFIX ++ mailboxName e)).
  { unfold emailIds_of, kv1. rewrite get_put_other; [reflexivity|].
    intros H. symmetry in H. now apply email_key_not_list in H. }
  rewrite Hl.
  set (ids := emailIds_of now kv (EMAIL_LIST_PREFIX ++ mailboxName e)).
  assert (Hc : (if (maxEmails <? length (id e :: ids))%nat
                then firstn maxEmails (id e :: ids) else id e :: ids)
               = firstn 100 (id e :: ids)).
  { unfold maxEmails. destruct (100 <? length (id e :: ids)) eqn:E.
    - reflexivity.
    - apply Nat.ltb_ge in E. now rewrite firstn_all2. }
  rewrite Hc.
  assert (H1 : emailIds_of now
                 (updateLastActivity now dateNow
                    (put kv1 now (EMAIL_LIST_PREFIX ++ mailboxName e)
                         (VIds (firstn 100 (id e :: ids))) None)
                    (mailboxName e))
                 (EMAIL_LIST_PREFIX ++ mailboxName e)
               = firstn 100 (id e :: ids)).
  { rewrite emailIds_updateLastActivity. unfold emailIds_of.
    now rewrite get_put_same. }
  split; [exact H1|]. split; [rewrite H1; apply firstn_le_length|].
  split.
  - intros t Ht. rewrite getEmail_updateLastActivity. unfold getEmail.
    rewrite get_put_other by apply email_key_not_list.
    unfold kv1. rewrite get_put_same.
    now apply N.ltb_lt in Ht as ->.
  - intros t i Hi. rewrite getEmail_updateLastActivity. unfold getEmail.
    rewrite get_put_other by apply email_key_not_list.
    unfold kv1. rewrite get_put_other; [reflexivity|].
    intros H. apply email_key_inj in H. contradiction.
Qed.

Lemma storeEmail_spec_witness :
  getEmail 3604 two_emails (js "a1") = Some email_a /\
  getEmail 3605 two_emails (js "a1") = None /\
  listed 6 two_emails (js "calm-river-7") = [js "b2"].
Proof.
  split; [|split; vm_compute; reflexivity].
  unfold two_emails.
  rewrite (proj2 (proj2 (proj2
             (storeEmail_spec 3600000 6 2000
                (storeEmail 3600000 5 1000 (Kv.empty Value) email_a) email_b)))
             3604%N (js "a1")) by discriminate.
  apply (proj1 (proj2 (proj2
           (storeEmail_spec 3600000 5 1000 (Kv.empty Value) email_a)))).
  vm_compute. reflexivity.
Defined.

Lemma deleteEmail_own now kv i e :
  getEmail now kv i = Some e ->
  fst (deleteEmail now kv i (mailboxName e)) = true /\
  forall t, getEmail t (snd (deleteEmail now kv i (mailboxName e))) i = None.
Proof.
  intros H. unfold deleteEmail. rewrite H, jseqb_refl. cbn [negb].
  assert (Hd : forall t, getEmail t (delete kv (EMAIL_PREFIX ++ i)) i = None).
  { intros t. unfold getEmail. now rewrite get_delete_same. }
  destruct (get (delete kv (EMAIL_PREFIX ++ i)) now
                (EMAIL_LIST_PREFIX ++ mailboxName e))
    as [[m|e'|ids|s]|]; cbn [fst snd]; split; try reflexivity;
    intros t; rewrite ?getEmail_put_list; apply Hd.
Qed.

(** X12.  [deleteEmail] refuses, and leaves the store as it is, when
    no email is stored under the id or when the email belongs to another
    mailbox.  Otherwise the email can no longer be read, its id is taken
    off the list of the mailbox, and every other email is as it was. *)
Theorem deleteEmail_spec now kv i mb :
  (getEmail now kv i = None -> deleteEmail now kv i mb = (false, kv)) /\
  (forall e, getEmail now kv i = Some e -> mailboxName e <> mb ->
             deleteEmail now kv i mb = (false, kv)) /\
  (forall e, getEmail now kv i = Some e -> mailboxName e = mb ->
     fst (deleteEmail now kv i mb) = true /\
     (forall t, getEmail t (snd (deleteEmail now kv i mb)) i = None) /\
     listed now (snd (deleteEmail now kv i mb)) mb
       = filter (fun eid => negb (jseqb eid i)) (listed now kv mb) /\
     (forall t j, j <> i ->
        getEmail t (snd (deleteEmail now kv i mb)) j = getEmail t kv j)).
Proof.
  unfold deleteEmail. split; [|split].
  - now intros ->.
  - intros e -> Hne. now rewrite (jseqb_false _ _ Hne).
  - intros e -> <-. rewrite jseqb_refl. cbn [negb].
    assert (Hg : get kv now (EMAIL_LIST_PREFIX ++ mailboxName e)
                 = get (delete kv (EMAIL_PREFIX ++ i)) now
                       (EMAIL_LIST_PREFIX ++ mailboxName e)).
    { symmetry. apply get_delete_other. intros H. symmetry in H.
      now apply email_key_not_list in H. }
    unfold listed, emailIds_of. rewrite Hg.
    assert (Hd : forall t, getEmail t (delete kv (EMAIL_PREFIX ++ i)) i = None).
    { intros t. unfold getEmail. now rewrite get_delete_same. }
    assert (Ho : forall t j, j <> i ->
              getEmail t (delete kv (EMAIL_PREFIX ++ i)) j = getEmail t kv j).
    { intros t j Hj. unfold getEmail. rewrite get_delete_other; [reflexivity|].
      intros H. apply email_key_inj in H. contradiction. }
    destruct (get (delete kv (EMAIL_PREFIX ++ i)) now
                  (EMAIL_LIST_PREFIX ++ mailboxName e))
      as [[m|e'|ids|s]|] eqn:El; cbn [fst snd].
    + repeat split; try assumption. now rewrite El.
    + repeat split; try assumption. now rewrite El.
    + split; [reflexivity|]. split; [|split].
      * intros t. unfold getEmail.
        rewrite get_put_other by apply email_key_not_list. apply Hd.
      * now rewrite get_put_same.
      * intros t j Hj. unfold getEmail.
        rewrite get_put_other by apply email_key_not_list. now apply Ho.
    + repeat split; try assumption. now rewrite El.
    + repeat split; try assumption. now rewrite El.
Qed.

Lemma deleteEmail_spec_witness :
  deleteEmail 10 two_emails (js "a1") (js "calm-river-7") = (false, two_emails) /\
  fst (deleteEmail 10 two_emails (js "a1") (js "swift-coral-42")) = true /\
  getEmail 10 (snd (deleteEmail 10 two_emails (js "a1") (js "swift-coral-42")))
           (js "b2") = Some email_b.
Proof.
  destruct (deleteEmail_spec 10 two_emails (js "a1") (js "calm-river-7"))
    as (_ & H2 & _).
  destruct (deleteEmail_spec 10 two_emails (js "a1") (js "swift-coral-42"))
    as (_ & _ & H3).
  split; [|split].
  - apply (H2 email_a); [vm_compute; reflexivity | vm_compute; discriminate].
  - apply (H3 email_a); vm_compute; reflexivity.
  - assert (Ha : getEmail 10 two_emails (js "a1") = Some email_a)
      by (vm_compute; reflexivity).
    destruct (H3 email_a Ha eq_refl) as (_ & _ & _ & H4).
    rewrite H4 by discriminate. vm_compute. reflexivity.
Defined.

(** X13.  [markEmailRead] writes the email back with a fresh
    expiration: once read, an email stays for a whole retention period
    from the time of reading, whatever was left of the first one; every
    other email is as it was, and without an email under the id nothing
    is written. *)
Theorem markEmailRead_spec retentionMs now kv i :
  (forall e, getEmail now kv i = Some e ->
     forall t, (t < now + expirationTtl retentionMs)%N ->
       getEmail t (markEmailRead retentionMs now kv i) i = Some (set_read e)) /\
  (getEmail now kv i = None -> markEmailRead retentionMs now kv i = kv) /\
  (forall t j, j <> i ->
     getEmail t (markEmailRead retentionMs now kv i) j = getEmail t kv j).
Proof.
  unfold markEmailRead. split; [|split].
  - intros e -> t Ht. unfold getEmail. rewrite get_put_same.
    now apply N.ltb_lt in Ht as ->.
  - now intros ->.
  - intros t j Hj. destruct (getEmail now kv i); [|reflexivity].
    unfold getEmail. rewrite get_put_other; [reflexivity|].
    intros H. apply email_key_inj in H. contradiction.
Qed.

Lemma markEmailRead_spec_witness :
  getEmail 3604 two_emails (js "a1") = Some email_a /\
  getEmail 7000 two_emails (js "a1") = None /\
  getEmail 7000 (markEmailRead 3600000 3604 two_emails (js "a1")) (js "a1")
    = Some (set_read email_a).
Proof.
  split; [vm_compute; reflexivity|]. split; [vm_compute; reflexivity|].
  apply (proj1 (markEmailRead_spec 3600000 3604 two_emails (js "a1"))).
  - vm_compute. reflexivity.
  - vm_compute. reflexivity.
Defined.

Lemma inbox_loop_counts now kv : forall ids,
  length (fst (inbox_loop now kv ids)) = length (filter (present now kv) ids) /\
  snd (inbox_loop now kv ids) = length (filter (is_unread now kv) ids).
Proof.
  induction ids as [|i ids (IH1 & IH2)]; [now split|].
  cbn [inbox_loop filter]. unfold present, is_unread.
  destruct (inbox_loop now kv ids) as (valid & n). cbn [fst snd] in *.
  fold (present now kv) (is_unread now kv) in *.
  destruct (getEmail now kv i) as [e|]; cbn [fst snd].
  - destruct (read e); cbn [negb length]; split; congruence.
  - now split.
Qed.

Lemma filter_length_le2 (A : Type) (p q : A -> bool) l :
  (forall x, p x = true -> q x = true) ->
  length (filter p l) <= length (filter q l).
Proof.
  intros H. induction l as [|x l IH]; [reflexivity|]. simpl.
  destruct (p x) eqn:E.
  - rewrite (H x E). simpl. lia.
  - destruct (q x); simpl; lia.
Qed.

Lemma slice_piece (A : Type) (arr : list A) start end_ :
  exists a b, arr = a ++ slice arr start end_ ++ b.
Proof.
  unfold slice.
  exists (firstn (relative_index (length arr) start) arr),
         (skipn (relative_index (length arr) end_
                 - relative_index (length arr) start)
                (skipn (relative_index (length arr) start) arr)).
  now rewrite !firstn_skipn.
Qed.

(** X14.  [getInbox] counts the listed emails that are still stored,
    those that have expired being passed over; the unread ones are never
    more than the total.  The page it returns is a run of these emails
    in their order.  For a [limit] and an [offset] that are not
    negative it has [limit] emails from [offset] on, or as many as are
    left; when one of the two is NaN it is empty; and for a negative
    [limit] with [offset] 0 it is all the emails but the last ones, as
    many as [limit] is below 0. *)
Theorem getInbox_spec now kv mb limit offset :
  let inbox := fst (getInbox now kv mb limit offset) in
  let valid := fst (inbox_loop now kv (listed now kv mb)) in
  total inbox = length (filter (present now kv) (listed now kv mb)) /\
  unread inbox = length (filter (is_unread now kv) (listed now kv mb)) /\
  unread inbox <= total inbox /\
  total inbox <= length (listed now kv mb) /\
  total inbox = length valid /\
  (exists a b, valid = a ++ emails inbox ++ b) /\
  (forall l o,
     limit = Int l -> offset = Int o -> (0 <= l)%Z -> (0 <= o)%Z ->
     emails inbox = firstn (Z.to_nat l) (skipn (Z.to_nat o) valid) /\
     length (emails inbox) = Nat.min (Z.to_nat l) (total inbox - Z.to_nat o)) /\
  (limit = NaN \/ offset = NaN -> emails inbox = []) /\
  (forall l,
     limit = Int l -> offset = Int 0 -> (l < 0)%Z ->
     emails inbox = firstn (total inbox - Z.to_nat (- l)) valid).
Proof.
  unfold getInbox, listed.
  destruct (inbox_loop_counts now kv
              (emailIds_of now kv (EMAIL_LIST_PREFIX ++ mb))) as (H1 & H2).
  destruct (inbox_loop now kv (emailIds_of now kv (EMAIL_LIST_PREFIX ++ mb)))
    as (valid & n).
  cbn [fst snd total unread emails] in *.
  split; [exact H1|]. split; [exact H2|].
  split; [|split; [|split; [reflexivity|split; [|split; [|split]]]]].
  - rewrite H1, H2. apply filter_length_le2. intros x. unfold is_unread, present.
    now destruct (getEmail now kv x).
  - rewrite H1. apply filter_length_le.
  - apply slice_piece.
  - intros l o -> -> Hl Ho. unfold slice. cbn [num_add relative_index].
    destruct (Z.ltb_spec o 0) as [?|_]; [lia|].
    destruct (Z.ltb_spec (o + l) 0) as [?|_]; [lia|].
    assert (E : firstn (Nat.min (Z.to_nat (o + l)) (length valid)
                        - Nat.min (Z.to_nat o) (length valid))
                       (skipn (Nat.min (Z.to_nat o) (length valid)) valid)
                = firstn (Z.to_nat l) (skipn (Z.to_nat o) valid)).
    { destruct (Nat.le_gt_cases (length valid) (Z.to_nat o)) as [Hge|Hlt].
      - rewrite (skipn_all2 valid) by lia.
        rewrite (skipn_all2 valid) by lia. now rewrite !firstn_nil.
      - replace (Nat.min (Z.to_nat o) (length valid)) with (Z.to_nat o) by lia.
        destruct (Nat.le_gt_cases (Z.to_nat (o + l)) (length valid)) as [Hin|Hout].
        + f_equal. lia.
        + replace (Nat.min (Z.to_nat (o + l)) (length valid))
            with (length valid) by lia.
          rewrite !firstn_all2; [reflexivity | |];
            rewrite length_skipn; lia. }
    rewrite E. split; [reflexivity|].
    rewrite length_firstn, length_skipn. reflexivity.
  - intros [-> | ->]; unfold slice.
    + assert (E : num_add offset NaN = NaN) by now destruct offset.
      rewrite E. cbn [relative_index]. reflexivity.
    + cbn [num_add relative_index]. reflexivity.
  - intros l -> -> Hl. unfold slice. cbn [num_add relative_index].
    change (0 <? 0)%Z with false. cbv iota.
    replace (0 + l <? 0)%Z with true by (symmetry; apply Z.ltb_lt; lia).
    cbn [Nat.min skipn]. rewrite Nat.sub_0_r. f_equal. lia.
Qed.

Lemma getInbox_spec_witness :
  map s_id (emails (fst (getInbox 3605 two_emails (js "swift-coral-42")
                           (Int 1) (Int 1))))
    = map s_id (firstn 1 (skipn 1
        (fst (inbox_loop 3605 two_emails (listed 3605 two_emails (js "swift-coral-42")))))) /\
  emails (fst (getInbox 3605 two_emails (js "swift-coral-42") NaN (Int 0))) = [] /\
  length (emails (fst (getInbox 3605 two_emails (js "swift-coral-42")
                         (Int (-1)) (Int 0))))
    = total (fst (getInbox 3605 two_emails (js "swift-coral-42")
                    (Int (-1)) (Int 0))) - 1.
Proof.
  split; [|split].
  - destruct (getInbox_spec 3605 two_emails (js "swift-coral-42") (Int 1) (Int 1))
      as (_ & _ & _ & _ & _ & _ & H & _).
    destruct (H 1%Z 1%Z eq_refl eq_refl) as (E & _); [lia | lia |].
    now rewrite E.
  - destruct (getInbox_spec 3605 two_emails (js "swift-coral-42") NaN (Int 0))
      as (_ & _ & _ & _ & _ & _ & _ & H & _).
    apply H. now left.
  - destruct (getInbox_spec 3605 two_emails (js "swift-coral-42") (Int (-1)) (Int 0))
      as (_ & _ & _ & _ & Ht & _ & _ & _ & H).
    rewrite (H (-1)%Z eq_refl eq_refl) by lia.
    rewrite length_firstn, Ht. cbn [Z.opp Z.to_nat Pos.to_nat Pos.iter_op Nat.add].
    lia.
Defined.

Import InboxHandlers.

(** ** The inbox handlers *)

Lemma extractData_reachable st text html :
  reachable st ->
  exists r st1,
    extractData st text html = Some (r, st1) /\
    (forall c, code r = Some c -> truthy c = true) /\
    (forall l, links r = Some l -> l <> []).
Proof.
  intros Hst. destruct (reachable_inv Hst) as (L & _).
  eexists. eexists. split; [apply (extractData_run _ _ _ L)|].
  cbn [code links]. split.
  - intros c Hc. apply is_code_truthy.
    eapply code_loop_is_code; [|exact Hc]. now apply reachable_code_ok.
  - intros l Hl. unfold nonempty_or_null in Hl.
    destruct (dedup (link_candidates (content_of text html)));
      [discriminate|]. injection Hl as <-. discriminate.
Qed.

(** A call on the module as loaded leaves it as loaded exactly when it
    finds no code. *)
Lemma loaded_call_state text html r st1 :
  extractData loaded text html = Some (r, st1) ->
  (code r = None <-> st1 = loaded).
Proof.
  intros E.
  rewrite (@extractData_run loaded text html eq_refl) in E.
  change (codeRx loaded) with codePatterns in E.
  pose proof (code_loop_state (content_of text html)
                codePatterns_consume codePatterns_rest) as H.
  remember (code_loop codePatterns (content_of text html)) as cl eqn:Hcl.
  clear Hcl. destruct cl as [c rxs]. cbn [fst snd] in *.
  injection E as Hr Hst. subst r st1. cbn [code].
  destruct c as [c|].
  - destruct H as (before & rx & after & e & Hp & Hs & He).
    split; [discriminate|]. intros Hl. exfalso.
    unfold loaded in Hl. injection Hl as Hl.
    rewrite Hs, Hp in Hl. apply app_inv_head in Hl.
    injection Hl as Hrx.
    assert (Hi : lastIndex (setLastIndex rx e) = lastIndex rx) by now rewrite Hrx.
    assert (H0 : lastIndex rx = 0).
    { pose proof codePatterns_rest as R. rewrite Hp in R.
      apply Forall_app in R. destruct R as [_ R]. now inversion R. }
    cbn [lastIndex setLastIndex] in Hi. lia.
  - split; [|reflexivity]. intros _. unfold loaded. now rewrite H.
Qed.

(** An email of the mailbox is returned with what the extractor finds
    in it. *)
Lemma handleGetEmail_found (S : Type) (store : IStore S)
  (toISO8601 : Z -> jsstring) s st i e :
  reachable st -> getEmail store s i = Some e ->
  exists r st1,
    extractData st (bodyText e) (bodyHtml e) = Some (r, st1) /\
    handleGetEmail store toISO8601 s st i (mailboxName e) =
    Some (EmailResponse (email_data toISO8601 e) (code r) (links r)
                        (hints_for r),
          markEmailRead store s i, st1).
Proof.
  intros Hst He. unfold handleGetEmail. rewrite He, jseqb_refl. cbn [negb].
  destruct (extractData_reachable st (bodyText e) (bodyHtml e) Hst)
    as (r & st1 & E & Hc & Hl).
  exists r, st1. split; [exact E|]. rewrite E.
  unfold hints_for, email_data.
  destruct (code r) as [c|].
  - rewrite (Hc c eq_refl). reflexivity.
  - destruct (links r) as [l|]; [|reflexivity].
    specialize (Hl l eq_refl).
    destruct l; [congruence|]. reflexivity.
Qed.

(** X15.  [handleGetEmail] answers 404 [not_found], without touching
    the store or running the extractor, when no email is stored under
    the id or when the email belongs to another mailbox.  Otherwise it
    marks the email read and returns the email as it was fetched with
    the code and links of [extractData] on its text and HTML, together
    with the hints of the code when there is a code, else those of the
    links when there are links, else no [meta] at all.  As the extractor
    runs on the module's own expressions, a call on the module as loaded
    leaves it as loaded exactly when it returns no code. *)
Theorem handleGetEmail_spec (S : Type) (store : IStore S)
  (toISO8601 : Z -> jsstring) s st i mb :
  reachable st ->
  (getEmail store s i = None ->
   handleGetEmail store toISO8601 s st i mb = Some (not_found, s, st)) /\
  (forall e, getEmail store s i = Some e -> mailboxName e <> mb ->
   handleGetEmail store toISO8601 s st i mb = Some (not_found, s, st)) /\
  (forall e, getEmail store s i = Some e -> mailboxName e = mb ->
   exists r st1,
     extractData st (bodyText e) (bodyHtml e) = Some (r, st1) /\
     handleGetEmail store toISO8601 s st i mb =
     Some (EmailResponse (email_data toISO8601 e) (code r) (links r)
                         (hints_for r),
           markEmailRead store s i, st1) /\
     (st = loaded -> (code r = None <-> st1 = loaded))).
Proof.
  intros Hst. split; [|split].
  - unfold handleGetEmail. now intros ->.
  - unfold handleGetEmail. intros e -> Hne. now rewrite (jseqb_false _ _ Hne).
  - intros e He <-.
    destruct (handleGetEmail_found S store toISO8601 s st i e Hst He)
      as (r & st1 & E & H).
    exists r, st1. split; [exact E|]. split; [exact H|].
    intros ->. now apply (loaded_call_state (bodyText e) (bodyHtml e)).
Qed.

Lemma handleGetEmail_spec_witness :
  exists st1 st2,
    handleGetEmail (kvStore 3600000 10) (fun _ => js "1970-01-01T00:00:01.000Z")
                   two_emails loaded (js "a1") (js "swift-coral-42")
    = Some (EmailResponse
              (email_data (fun _ => js "1970-01-01T00:00:01.000Z") email_a)
              (Some (js "123456")) None (Some code_hints),
            StoreKv.markEmailRead 3600000 10 two_emails (js "a1"), st1) /\
    st1 <> loaded /\
    handleGetEmail (kvStore 3600000 10) (fun _ => js "1970-01-01T00:00:01.000Z")
                   (StoreKv.markEmailRead 3600000 10 two_emails (js "a1"))
                   st1 (js "a1") (js "swift-coral-42")
    = Some (EmailResponse
              (email_data (fun _ => js "1970-01-01T00:00:01.000Z")
                          (StoreKv.set_read email_a))
              None None None,
            StoreKv.markEmailRead 3600000 10
              (StoreKv.markEmailRead 3600000 10 two_emails (js "a1")) (js "a1"),
            st2).
Proof.
  destruct (handleGetEmail_spec _ (kvStore 3600000 10)
              (fun _ => js "1970-01-01T00:00:01.000Z")
              two_emails loaded (js "a1") (js "swift-coral-42") reach_loaded)
    as (_ & _ & H).
  destruct (H email_a) as (r & st1 & E & Hh & Hl);
    [vm_compute; reflexivity | reflexivity |].
  assert (Hr : r = mkExtracted (Some (js "123456")) None).
  { vm_compute in E. now injection E as <- _. }
  subst r. cbn [code links hints_for] in Hh.
  assert (Hst1 : reachable st1)
    by (exact (@reach_call _ _ _ _ _ reach_loaded E)).
  destruct (handleGetEmail_spec _ (kvStore 3600000 10)
              (fun _ => js "1970-01-01T00:00:01.000Z")
              (StoreKv.markEmailRead 3600000 10 two_emails (js "a1"))
              st1 (js "a1") (js "swift-coral-42") Hst1)
    as (_ & _ & H').
  destruct (H' (StoreKv.set_read email_a)) as (r' & st2 & E' & Hh' & _);
    [vm_compute; reflexivity | reflexivity |].
  assert (Hr' : r' = mkExtracted None None).
  { vm_compute in E. injection E as <-.
    vm_compute in E'. now injection E' as <- _. }
  subst r'. cbn [code links hints_for] in Hh'.
  exists st1, st2. split; [exact Hh|]. split; [|exact Hh'].
  intros Heq. apply (proj2 (Hl eq_refl)) in Heq. discriminate Heq.
Defined.

(** X16.  Through the handlers on the KV store, an email can be read
    and deleted for its own mailbox only.  For another mailbox both
    handlers answer 404 [not_found], as for an id under which nothing
    is stored, and leave the store and the extractor as they were.  For
    its own mailbox [handleDeleteEmail] answers 204, and from then on
    [handleGetEmail] answers 404 for that id. *)
Theorem email_access_by_mailbox retentionMs now toISO8601 kv st i mb e :
  reachable st ->
  StoreKv.getEmail now kv i = Some e ->
  (mailboxName e <> mb ->
   handleGetEmail (kvStore retentionMs now) toISO8601 kv st i mb
     = Some (not_found, kv, st) /\
   handleDeleteEmail (kvStore retentionMs now) kv i mb = (not_found, kv)) /\
  (mailboxName e = mb ->
   exists kv',
     handleDeleteEmail (kvStore retentionMs now) kv i mb = (NoContent, kv') /\
     forall t,
       handleGetEmail (kvStore retentionMs t) toISO8601 kv' st i mb
       = Some (not_found, kv', st)).
Proof.
  intros Hst He. split.
  - intros Hne. split.
    + unfold handleGetEmail, kvStore. cbn [getEmail]. rewrite He.
      now rewrite (jseqb_false _ _ Hne).
    + unfold handleDeleteEmail, kvStore. cbn [deleteEmail].
      unfold StoreKv.deleteEmail. rewrite He.
      now rewrite (jseqb_false _ _ Hne).
  - intros <-. destruct (deleteEmail_own now kv i e He) as (Hd & Hg).
    exists (snd (StoreKv.deleteEmail now kv i (mailboxName e))). split.
    + unfold handleDeleteEmail, kvStore. cbn [deleteEmail].
      destruct (StoreKv.deleteEmail now kv i (mailboxName e)) as (b & kv').
      cbn [fst snd] in *. now rewrite Hd.
    + intros t. unfold handleGetEmail, kvStore. cbn [getEmail].
      now rewrite Hg.
Qed.

Lemma email_access_by_mailbox_witness :
  handleGetEmail (kvStore 3600000 10) (fun _ => [])
                 two_emails loaded (js "a1") (js "calm-river-7")
    = Some (not_found, two_emails, loaded) /\
  handleDeleteEmail (kvStore 3600000 10) two_emails (js "a1") (js "calm-river-7")
    = (not_found, two_emails) /\
  fst (handleDeleteEmail (kvStore 3600000 10) two_emails (js "a1")
                         (js "swift-coral-42")) = NoContent.
Proof.
  assert (Ha : StoreKv.getEmail 10 two_emails (js "a1") = Some email_a)
    by (vm_compute; reflexivity).
  destruct (email_access_by_mailbox 3600000 10 (fun _ => []) two_emails
              loaded (js "a1") (js "calm-river-7") email_a reach_loaded Ha)
    as (H1 & _).
  destruct (email_access_by_mailbox 3600000 10 (fun _ => []) two_emails
              loaded (js "a1") (js "swift-coral-42") email_a reach_loaded Ha)
    as (_ & H2).
  destruct H1 as (G & D); [vm_compute; discriminate|].
  destruct (H2 eq_refl) as (kv' & D' & _).
  split; [exact G|]. split; [exact D|]. now rewrite D'.
Defined.

Import RateLimit RateLimitSpec.

(** ** The rate limiter *)

Lemma digits_value_snoc ds c :
  digits_value (ds ++ [c]) = (digits_value ds * 10 + (Z.of_N c - 48))%Z.
Proof. unfold digits_value. now rewrite fold_left_app. Qed.

Lemma decimal_digits_spec : forall fuel n,
  n < fuel ->
  decimal_digits fuel n <> [] /\
  Forall (fun c => is_decimal_digit c = true) (decimal_digits fuel n) /\
  digits_value (decimal_digits fuel n) = Z.of_nat n.
Proof.
  induction fuel as [|fuel IH]; intros n Hn; [lia|].
  cbn [decimal_digits]. destruct (n <? 10) eqn:E.
  - apply Nat.ltb_lt in E. split; [discriminate|]. split.
    + constructor; [|constructor]. unfold is_decimal_digit.
      apply andb_true_iff. split; apply N.leb_le; lia.
    + unfold digits_value. cbn [fold_left]. lia.
  - apply Nat.ltb_ge in E.
    assert (Hd : n / 10 < fuel).
    { pose proof (Nat.div_lt n 10 ltac:(lia) ltac:(lia)). lia. }
    destruct (IH (n / 10) Hd) as (H1 & H2 & H3).
    split; [|split].
    + intros H. apply app_eq_nil in H. destruct H as (_ & H). discriminate H.
    + apply Forall_app. split; [exact H2|].
      constructor; [|constructor]. unfold is_decimal_digit.
      pose proof (Nat.mod_upper_bound n 10 ltac:(lia)).
      apply andb_true_iff. split; apply N.leb_le; lia.
    + rewrite digits_value_snoc, H3.
      pose proof (Nat.div_mod_eq n 10).
      pose proof (Nat.mod_upper_bound n 10 ltac:(lia)). lia.
Qed.

Lemma digit_prefix_all ds :
  Forall (fun c => is_decimal_digit c = true) ds -> digit_prefix ds = ds.
Proof.
  induction 1 as [|c ds Hc _ IH]; [reflexivity|].
  cbn [digit_prefix]. now rewrite Hc, IH.
Qed.

Lemma digit_cases c :
  is_decimal_digit c = true ->
  is_space c = false /\ (c =? 45)%N = false /\ (c =? 43)%N = false.
Proof.
  unfold is_decimal_digit. intros H. apply andb_true_iff in H.
  destruct H as (H1 & H2). apply N.leb_le in H1, H2.
  assert (Hc : (c = 48 \/ c = 49 \/ c = 50 \/ c = 51 \/ c = 52 \/ c = 53
                \/ c = 54 \/ c = 55 \/ c = 56 \/ c = 57)%N) by lia.
  repeat (destruct Hc as [-> | Hc]; [repeat split; reflexivity|]).
  subst c. repeat split; reflexivity.
Qed.

(** [parseInt] reads back what [String] wrote. *)
Lemma parseInt10_String_of_nat n :
  parseInt10 (String_of_nat n) = Some (Z.of_nat n).
Proof.
  unfold String_of_nat.
  destruct (decimal_digits_spec (S n) n (Nat.lt_succ_diag_r n))
    as (H1 & H2 & H3).
  destruct (decimal_digits (S n) n) as [|c ds] eqn:E; [congruence|].
  inversion H2 as [|? ? Hc Hds]; subst.
  destruct (digit_cases c Hc) as (Hs & Hm & Hp).
  unfold parseInt10. cbn [trimStart]. rewrite Hs, Hm, Hp.
  rewrite (digit_prefix_all (c :: ds) H2), H3. f_equal. lia.
Qed.

Lemma String_of_nat_truthy n : truthy (String_of_nat n) = true.
Proof.
  unfold String_of_nat.
  destruct (decimal_digits_spec (S n) n (Nat.lt_succ_diag_r n)) as (H1 & _).
  now destruct (decimal_digits (S n) n).
Qed.

Lemma holds_count_count kv now key c :
  holds_count kv now key c ->
  match get kv now key with
  | Some d => if truthy d then parseInt10 d else Some 0%Z
  | None => Some 0%Z
  end = Some (Z.of_nat c).
Proof.
  destruct c as [|c]; cbn [holds_count]; intros ->; [reflexivity|].
  now rewrite String_of_nat_truthy, parseInt10_String_of_nat.
Qed.

(** One request: with [c] requests counted and a limit of [limit], it
    is allowed when [c] is below the limit, and then counted, the key
    being written to expire a window later; else it is refused and
    nothing is written. *)
Lemma checkRateLimit_step kv now dateNow ip action limit windowMs c :
  holds_count kv now (rate_key ip action) c ->
  (c < limit ->
   checkRateLimit kv now dateNow ip action (Z.of_nat limit) windowMs =
   (mkInfo true (Z.of_nat limit) (Some (Z.of_nat (limit - c - 1)))
           (ceil_div_1000 dateNow + ceil_div_1000 (Z.of_N windowMs)),
    put kv now (rate_key ip action) (String_of_nat (S c))
        (Some (windowSec windowMs)))) /\
  (limit <= c ->
   checkRateLimit kv now dateNow ip action (Z.of_nat limit) windowMs =
   (mkInfo false (Z.of_nat limit) (Some 0%Z)
           (ceil_div_1000 dateNow + ceil_div_1000 (Z.of_N windowMs)),
    kv)).
Proof.
  intros Hc. apply holds_count_count in Hc.
  unfold checkRateLimit. fold (rate_key ip action). rewrite Hc.
  split; intros Hl.
  - replace (Z.of_nat limit <=? Z.of_nat c)%Z with false
      by (symmetry; apply Z.leb_gt; lia).
    cbn [option_map]. f_equal.
    + f_equal. f_equal. lia.
    + f_equal. unfold String_of_number.
      replace (Z.of_nat c + 1 <? 0)%Z with false
        by (symmetry; apply Z.ltb_ge; lia).
      cbn [app]. f_equal. lia.
  - replace (Z.of_nat limit <=? Z.of_nat c)%Z with true
      by (symmetry; apply Z.leb_le; lia).
    reflexivity.
Qed.

Lemma check_all_counts dateNow ip action limit windowMs : forall times c kv,
  match times with
  | t :: _ => holds_count kv t (rate_key ip action) c
  | [] => True
  end ->
  chained (windowSec windowMs) times ->
  c + length times <= S limit ->
  check_all kv times dateNow ip action (Z.of_nat limit) windowMs
  = map (fun i => i <? limit) (seq c (length times)).
Proof.
  induction times as [|t rest IH]; intros c kv Hc Hch Hl; [reflexivity|].
  cbn [check_all length seq map].
  destruct (checkRateLimit_step kv t dateNow ip action limit windowMs c Hc)
    as (Hlt & Hge).
  destruct (Nat.lt_ge_cases c limit) as [Hcl|Hcl].
  - rewrite (Hlt Hcl). cbn [allowed]. f_equal.
    + symmetry. now apply Nat.ltb_lt.
    + apply IH.
      * destruct rest as [|t2 rest']; [exact I|].
        cbn [chained] in Hch. destruct Hch as ((_ & Ht2) & _).
        cbn [holds_count]. unfold get, put. rewrite jseqb_refl.
        cbn [option_map]. now apply N.ltb_lt in Ht2 as ->.
      * destruct rest as [|t2 rest']; [exact I|]. now destruct Hch.
      * cbn [length] in Hl. lia.
  - rewrite (Hge Hcl). cbn [allowed]. cbn [length] in Hl.
    destruct rest; [|cbn [length] in Hl; lia].
    cbn [check_all seq map length]. f_equal. symmetry. apply Nat.ltb_ge. lia.
Qed.

(** X17.  With no request counted at the first of them, requests of one
    client for one action that follow one another by less than a window
    each are allowed up to the limit, and the next one is refused,
    however long ago the first ones were: every allowed request writes
    the key anew, with a whole window to live. *)
Theorem rate_limit_burst kv times dateNow ip action limit windowMs :
  match times with
  | t :: _ => get kv t (rate_key ip action) = None
  | [] => True
  end ->
  chained (windowSec windowMs) times ->
  length times <= S limit ->
  check_all kv times dateNow ip action (Z.of_nat limit) windowMs
  = map (fun i => i <? limit) (seq 0 (length times)).
Proof.
  intros H0 Hch Hl. apply check_all_counts; [|exact Hch|lia].
  destruct times; [exact I | exact H0].
Qed.

Lemma rate_limit_burst_witness :
  check_all (Kv.empty jsstring) [0; 3000; 6000]%N 0 (js "203.0.113.7")
            (js "register") 2 3600000
  = [true; true; false].
Proof.
  apply (rate_limit_burst (Kv.empty jsstring) [0; 3000; 6000]%N 0
           (js "203.0.113.7") (js "register") 2 3600000).
  - reflexivity.
  - vm_compute. repeat split; discriminate.
  - simpl. lia.
Defined.

Import MailboxHandlers.

(** ** The creation of mailboxes *)

(** The name returned is that of the first draw whose name is free. *)
Lemma generateUniqueName_first_free (S : Type) (store : IStore S) s :
  forall draws name,
     Forall in_range draws ->
     generateUniqueName store s draws = Some name ->
     isValidName name = true /\
     nameExists store s name = false /\
     exists before i j num after,
       draws = before ++ (i, j, num) :: after /\
       name = generateEmailName i j num /\
       Forall (fun d => match d with
                        | (i', j', num') =>
                          nameExists store s (generateEmailName i' j' num') = true
                        end) before.
Proof.
  induction draws as [|[[i j] num] rest IH]; intros name Hr Hg;
    [discriminate Hg|].
  inversion Hr as [|? ? Hd0 Hrest]; subst.
  unfold in_range in Hd0. destruct Hd0 as (Hi & Hj & Hn).
  cbn [generateUniqueName] in Hg.
  destruct (nameExists store s (generateEmailName i j num)) eqn:E.
  + destruct (IH name Hrest Hg)
      as (Hv & Hf & before & i' & j' & num' & after & Hd & Hname & Hb).
    split; [exact Hv|]. split; [exact Hf|].
    exists ((i, j, num) :: before), i', j', num', after.
    split; [now rewrite Hd|]. split; [exact Hname|].
    constructor; assumption.
  + injection Hg as <-.
    split; [now apply isValidName_intro, generateEmailName_shape|].
    split; [exact E|].
    exists [], i, j, num, rest. repeat split. constructor.
Qed.

(** X18.  When [generateUniqueName] returns, the name it returns is
    that of the first draw whose name is not taken, and it passes
    [isValidName]; when every name that [generateEmailName] can build is
    taken, it does not return, whatever the draws. *)
Theorem generateUniqueName_spec (S : Type) (store : IStore S) s :
  (forall draws name,
     Forall in_range draws ->
     generateUniqueName store s draws = Some name ->
     isValidName name = true /\
     nameExists store s name = false /\
     exists before i j num after,
       draws = before ++ (i, j, num) :: after /\
       name = generateEmailName i j num /\
       Forall (fun d => match d with
                        | (i', j', num') =>
                          nameExists store s (generateEmailName i' j' num') = true
                        end) before) /\
  ((forall i j num, i < 40 -> j < 40 -> num < 100 ->
      nameExists store s (generateEmailName i j num) = true) ->
   forall draws, Forall in_range draws ->
                 generateUniqueName store s draws = None).
Proof.
  split; [apply generateUniqueName_first_free|].
  intros Hall. induction draws as [|[[i j] num] rest IH]; intros Hr;
    [reflexivity|].
  inversion Hr as [|? ? Hd0 Hrest]; subst.
  unfold in_range in Hd0. destruct Hd0 as (Hi & Hj & Hn).
  cbn [generateUniqueName]. rewrite (Hall i j num Hi Hj Hn). now apply IH.
Qed.

Lemma generateUniqueName_spec_witness :
  generateUniqueName list_store [js "swift-coral-0"] [(0, 0, 0); (0, 0, 1)]
    = Some (js "swift-coral-1") /\
  isValidName (js "swift-coral-1") = true /\
  generateUniqueName full_store tt [(0, 0, 0); (39, 39, 99)] = None.
Proof.
  assert (E : generateUniqueName list_store [js "swift-coral-0"]
                [(0, 0, 0); (0, 0, 1)] = Some (js "swift-coral-1"))
    by (vm_compute; reflexivity).
  split; [exact E|]. split.
  - apply (proj1 (generateUniqueName_spec _ list_store [js "swift-coral-0"])
             [(0, 0, 0); (0, 0, 1)] (js "swift-coral-1")).
    + repeat (constructor; [unfold in_range; lia|]); constructor.
    + exact E.
  - apply (proj2 (generateUniqueName_spec _ full_store tt)).
    + reflexivity.
    + repeat (constructor; [unfold in_range; lia|]); constructor.
Defined.

(** The outcomes of [handleCreateMailbox]: a refusal, or a mailbox
    under the name asked for or under a generated one. *)
Lemma handleCreateMailbox_cases (S : Type) (store : IStore S)
  (hashToken : jsstring -> jsstring) kv now dateNow dateNow' s
  cfConnectingIp testToken TEST_BYPASS_TOKEN bodyName draws token
  EMAIL_DOMAIN resp kv' s' :
  handleCreateMailbox store hashToken kv now dateNow dateNow' s
    cfConnectingIp testToken TEST_BYPASS_TOKEN bodyName draws token
    EMAIL_DOMAIN = Some (resp, kv', s') ->
  (exists code detail status headers,
     resp = ErrorResponse code detail status headers /\ s' = s) \/
  (exists name headers,
     resp = CreatedResponse
              (Types.email (fst (createMailbox store s name (hashToken token)
                                               EMAIL_DOMAIN)))
              token headers /\
     s' = snd (createMailbox store s name (hashToken token) EMAIL_DOMAIN) /\
     ((bodyName = Some name /\ truthy name = true /\
       isValidName name = true /\ nameExists store s name = false) \/
      ((forall n, bodyName = Some n -> truthy n = false) /\
       generateUniqueName store s draws = Some name))).
Proof.
  unfold handleCreateMailbox.
  destruct (checkRateLimit kv now dateNow _ (js "register") 60 3600000)
    as (rateLimit & kv1).
  destruct (negb (allowed rateLimit)
            && negb (hasTestBypass testToken TEST_BYPASS_TOKEN)).
  { intros H. injection H as <- _ <-. left. repeat eexists. }
  assert (Hcreate : forall name,
    (bodyName = Some name /\ truthy name = true /\
     isValidName name = true /\ nameExists store s name = false) \/
    ((forall n, bodyName = Some n -> truthy n = false) /\
     generateUniqueName store s draws = Some name) ->
    (let (mailbox, s0) :=
       createMailbox store s name (hashToken token) EMAIL_DOMAIN in
     Some (CreatedResponse (Types.email mailbox) token
                           (rateLimitHeaders rateLimit), kv1, s0))
    = Some (resp, kv', s') ->
    exists name headers,
      resp = CreatedResponse
               (Types.email (fst (createMailbox store s name
                                    (hashToken token) EMAIL_DOMAIN)))
               token headers /\
      s' = snd (createMailbox store s name (hashToken token) EMAIL_DOMAIN) /\
      ((bodyName = Some name /\ truthy name = true /\
        isValidName name = true /\ nameExists store s name = false) \/
       ((forall n, bodyName = Some n -> truthy n = false) /\
        generateUniqueName store s draws = Some name))).
  { intros name Hn H.
    destruct (createMailbox store s name (hashToken token) EMAIL_DOMAIN)
      as (mailbox & s0) eqn:E.
    injection H as <- _ <-. exists name, (rateLimitHeaders rateLimit).
    rewrite E. cbn [fst snd]. auto. }
  assert (Hgen :
    (forall n, bodyName = Some n -> truthy n = false) ->
    match generateUniqueName store s draws with
    | Some name =>
      let (mailbox, s0) :=
        createMailbox store s name (hashToken token) EMAIL_DOMAIN in
      Some (CreatedResponse (Types.email mailbox) token
                            (rateLimitHeaders rateLimit), kv1, s0)
    | None => None
    end = Some (resp, kv', s') ->
    exists name headers,
      resp = CreatedResponse
               (Types.email (fst (createMailbox store s name
                                    (hashToken token) EMAIL_DOMAIN)))
               token headers /\
      s' = snd (createMailbox store s name (hashToken token) EMAIL_DOMAIN) /\
      ((bodyName = Some name /\ truthy name = true /\
        isValidName name = true /\ nameExists store s name = false) \/
       ((forall n, bodyName = Some n -> truthy n = false) /\
        generateUniqueName store s draws = Some name))).
  { intros Hno H.
    destruct (generateUniqueName store s draws) as [name|] eqn:Eg;
      [|discriminate H].
    apply (Hcreate name); [|exact H]. right. now split. }
  destruct bodyName as [n|].
  - destruct (truthy n) eqn:Et.
    + destruct (isValidName n) eqn:Ev; cbn [negb].
      * destruct (nameExists store s n) eqn:Ee.
        -- intros H. injection H as <- _ <-. left. repeat eexists.
        -- intros H. right. apply (Hcreate n); [|exact H]. left. auto.
      * intros H. injection H as <- _ <-. left. repeat eexists.
    + intros H. right. apply Hgen; [|exact H].
      intros n' Hn'. now injection Hn' as <-.
  - intros H. right. apply Hgen; [|exact H]. intros n' Hn'. discriminate Hn'.
Qed.

(** X19.  Whatever [handleCreateMailbox] creates has a name that passes
    [isValidName] and was not taken in the store: the name asked for, or
    one that [generateUniqueName] returned.  A request that is refused
    (as over the rate limit, for a name that is not valid, or for a name
    that is taken) leaves the store as it was. *)
Theorem handleCreateMailbox_spec (S : Type) (store : IStore S)
  (hashToken : jsstring -> jsstring) kv now dateNow dateNow' s
  cfConnectingIp testToken TEST_BYPASS_TOKEN bodyName draws token
  EMAIL_DOMAIN resp kv' s' :
  Forall in_range draws ->
  handleCreateMailbox store hashToken kv now dateNow dateNow' s
    cfConnectingIp testToken TEST_BYPASS_TOKEN bodyName draws token
    EMAIL_DOMAIN = Some (resp, kv', s') ->
  match resp with
  | CreatedResponse email' token' _ =>
    exists name,
      isValidName name = true /\
      nameExists store s name = false /\
      createMailbox store s name (hashToken token) EMAIL_DOMAIN
        = (fst (createMailbox store s name (hashToken token) EMAIL_DOMAIN), s') /\
      email' = Types.email
                 (fst (createMailbox store s name (hashToken token) EMAIL_DOMAIN)) /\
      token' = token /\
      (forall n, bodyName = Some n -> truthy n = true -> name = n)
  | ErrorResponse _ _ _ _ => s' = s
  end.
Proof.
  intros Hr E. apply handleCreateMailbox_cases in E.
  destruct E as [(c & dt & st & hd & -> & ->)
                |(name & hd & -> & -> & Hname)]; [reflexivity|].
  exists name.
  assert (Hv : isValidName name = true /\ nameExists store s name = false).
  { destruct Hname as [(_ & _ & Hv & Hf)|(_ & Eg)]; [now split|].
    destruct (generateUniqueName_first_free _ store s draws name Hr Eg)
      as (Hv & Hf & _). now split. }
  destruct Hv as (Hv & Hf).
  split; [exact Hv|]. split; [exact Hf|].
  split; [now destruct (createMailbox store s name (hashToken token)
                                      EMAIL_DOMAIN)|].
  split; [reflexivity|]. split; [reflexivity|].
  intros n Hn Ht.
  destruct Hname as [(Hb & _)|(Hno & _)].
  - rewrite Hb in Hn. now injection Hn.
  - rewrite (Hno n Hn) in Ht. discriminate Ht.
Qed.

Lemma handleCreateMailbox_spec_witness :
  exists kv' s',
    handleCreateMailbox list_store (fun t => t) (Kv.empty jsstring) 0 0 0
      [js "swift-coral-0"] (Some (js "203.0.113.7")) None None None
      [(0, 0, 0); (0, 0, 1)] (js "tok") (js "mailcat.ai")
    = Some (CreatedResponse (js "swift-coral-1@mailcat.ai") (js "tok")
              [(js "RateLimit-Limit", js "60");
               (js "RateLimit-Remaining", js "59");
               (js "RateLimit-Reset", js "3600")], kv', s') /\
    isValidName (js "swift-coral-1") = true /\
    s' = [js "swift-coral-1"; js "swift-coral-0"].
Proof.
  destruct (handleCreateMailbox list_store (fun t => t) (Kv.empty jsstring)
              0 0 0 [js "swift-coral-0"] (Some (js "203.0.113.7")) None None
              None [(0, 0, 0); (0, 0, 1)] (js "tok") (js "mailcat.ai"))
    as [[[resp kv'] s']|] eqn:E; [|vm_compute in E; discriminate E].
  assert (Hr : Forall in_range [(0, 0, 0); (0, 0, 1)])
    by (repeat (constructor; [unfold in_range; lia|]); constructor).
  pose proof (handleCreateMailbox_spec _ list_store (fun t => t) _ _ _ _ _ _ _
                _ _ _ _ _ _ _ _ Hr E) as H.
  assert (Hresp : resp = CreatedResponse (js "swift-coral-1@mailcat.ai")
                           (js "tok")
                           [(js "RateLimit-Limit", js "60");
                            (js "RateLimit-Remaining", js "59");
                            (js "RateLimit-Reset", js "3600")] /\
                  s' = [js "swift-coral-1"; js "swift-coral-0"]).
  { vm_compute in E. injection E as <- _ <-. split; reflexivity. }
  destruct Hresp as (-> & ->).
  destruct H as (name & Hv & Hf & Hc & He & _ & _).
  exists kv', [js "swift-coral-1"; js "swift-coral-0"].
  split; [reflexivity|]. split; [|reflexivity].
  assert (Hn : name = js "swift-coral-1").
  { cbn [list_store createMailbox fst Types.email] in He.
    change (js "swift-coral-1@mailcat.ai")
      with (js "swift-coral-1" ++ js "@" ++ js "mailcat.ai") in He.
    symmetry in He. apply (f_equal (@rev N)) in He.
    rewrite !rev_app_distr in He. apply app_inv_head in He.
    apply (f_equal (@rev N)) in He.
    now rewrite !rev_involutive in He. }
  now rewrite <- Hn.
Defined.

(** ** The normalizer: a well-formed multipart message *)











(** ** Mailboxes in the KV store *)

Lemma mailbox_key_not_token a b : MAILBOX_PREFIX ++ a <> TOKEN_PREFIX ++ b.
Proof. intros H. vm_compute in H. discriminate H. Qed.

Lemma list_key_not_token a b : EMAIL_LIST_PREFIX ++ a <> TOKEN_PREFIX ++ b.
Proof. intros H. vm_compute in H. discriminate H. Qed.

Lemma email_key_not_token a b : EMAIL_PREFIX ++ a <> TOKEN_PREFIX ++ b.
Proof. intros H. vm_compute in H. discriminate H. Qed.

Lemma mailbox_key_inj a b : MAILBOX_PREFIX ++ a = MAILBOX_PREFIX ++ b -> a = b.
Proof. apply app_inv_head. Qed.

Lemma getMailboxByName_created now dateNow kv name tokenHash domain t :
  StoreKv.getMailboxByName t
    (snd (StoreKv.createMailbox now dateNow kv name tokenHash domain)) name
  = Some (fst (StoreKv.createMailbox now dateNow kv name tokenHash domain)).
Proof.
  unfold StoreKv.createMailbox, StoreKv.getMailboxByName. cbn [fst snd].
  rewrite get_put_other
    by (intros H; symmetry in H; now apply list_key_not_mailbox in H).
  rewrite get_put_other by apply mailbox_key_not_token.
  now rewrite get_put_same.
Qed.

Lemma getMailboxByToken_created now dateNow kv name tokenHash domain t :
  StoreKv.getMailboxByToken t
    (snd (StoreKv.createMailbox now dateNow kv name tokenHash domain)) tokenHash
  = if truthy name
    then Some (fst (StoreKv.createMailbox now dateNow kv name tokenHash domain))
    else None.
Proof.
  assert (Hg : get (snd (StoreKv.createMailbox now dateNow kv name tokenHash
                           domain)) t (TOKEN_PREFIX ++ tokenHash)
               = Some (VString name)).
  { unfold StoreKv.createMailbox. cbn [fst snd].
    rewrite get_put_other
      by (intros H; symmetry in H; now apply list_key_not_token in H).
    now rewrite get_put_same. }
  unfold StoreKv.getMailboxByToken. rewrite Hg.
  now rewrite getMailboxByName_created.
Qed.

Lemma getEmail_createMailbox now dateNow kv name tokenHash domain t i :
  StoreKv.getEmail t
    (snd (StoreKv.createMailbox now dateNow kv name tokenHash domain)) i
  = StoreKv.getEmail t kv i.
Proof.
  unfold StoreKv.createMailbox, StoreKv.getEmail. cbn [fst snd].
  rewrite get_put_other by apply email_key_not_list.
  rewrite get_put_other by apply email_key_not_token.
  rewrite get_put_other by apply email_key_not_mailbox. reflexivity.
Qed.

(** X21.  A mailbox that [createMailbox] has written is found under its
    name and, the name not being empty, under the hash of its token, at
    any later time: the keys of a mailbox are written without an
    expiration.  Its list of emails starts empty, also when the name was
    that of an earlier mailbox; the other mailboxes and every email are
    as they were. *)
Theorem createMailbox_spec now dateNow kv name tokenHash domain :
  let mailbox :=
    fst (StoreKv.createMailbox now dateNow kv name tokenHash domain) in
  let kv' :=
    snd (StoreKv.createMailbox now dateNow kv name tokenHash domain) in
  (forall t, StoreKv.getMailboxByName t kv' name = Some mailbox) /\
  (forall t, StoreKv.nameExists t kv' name = true) /\
  (name <> [] ->
   forall t, StoreKv.getMailboxByToken t kv' tokenHash = Some mailbox) /\
  (forall t, listed t kv' name = []) /\
  (forall t name', name' <> name ->
     StoreKv.getMailboxByName t kv' name' = StoreKv.getMailboxByName t kv name') /\
  (forall t i, StoreKv.getEmail t kv' i = StoreKv.getEmail t kv i).
Proof.
  intros mailbox kv'. subst mailbox kv'.
  split; [intros t; apply getMailboxByName_created|].
  split; [intros t; unfold StoreKv.nameExists;
          now rewrite getMailboxByName_created|].
  split.
  { intros Hn t. rewrite getMailboxByToken_created.
    destruct name; [contradiction | reflexivity]. }
  unfold StoreKv.createMailbox. cbn [fst snd]. split; [|split].
  - intros t. unfold listed, emailIds_of. now rewrite get_put_same.
  - intros t name' Hne. unfold StoreKv.getMailboxByName.
    rewrite get_put_other
      by (intros H; symmetry in H; now apply list_key_not_mailbox in H).
    rewrite get_put_other by apply mailbox_key_not_token.
    rewrite get_put_other; [reflexivity|].
    intros H. apply mailbox_key_inj in H. contradiction.
  - intros t i.
    exact (getEmail_createMailbox now dateNow kv name tokenHash domain t i).
Qed.

Lemma createMailbox_spec_witness :
  let kv' := snd (StoreKv.createMailbox 7 7000 two_emails (js "swift-coral-42")
                    (js "h1") (js "mailcat.ai")) in
  StoreKv.getMailboxByToken 1000000 kv' (js "h1")
  = Some (mkMailbox (js "swift-coral-42@mailcat.ai") (js "swift-coral-42")
                    (js "h1") 7000 7000) /\
  listed 7 two_emails (js "swift-coral-42") = [js "a1"] /\
  listed 7 kv' (js "swift-coral-42") = [] /\
  StoreKv.getEmail 7 kv' (js "a1") = Some email_a.
Proof.
  intros kv'. subst kv'.
  destruct (createMailbox_spec 7 7000 two_emails (js "swift-coral-42")
              (js "h1") (js "mailcat.ai")) as (_ & _ & H3 & H4 & _ & H6).
  split; [rewrite H3; [reflexivity | discriminate]|].
  split; [vm_compute; reflexivity|].
  split; [apply H4|].
  rewrite H6. vm_compute. reflexivity.
Defined.

(** ** The inbox and the statistics *)

Lemma inbox_loop_ext now kv kv' :
  (forall i, StoreKv.getEmail now kv' i = StoreKv.getEmail now kv i) ->
  forall ids, inbox_loop now kv' ids = inbox_loop now kv ids.
Proof.
  intros H. induction ids as [|i ids IH]; [reflexivity|].
  cbn [inbox_loop]. now rewrite IH, H.
Qed.

Lemma inbox_loop_present now kv : forall ids,
  inbox_loop now kv (filter (present now kv) ids) = inbox_loop now kv ids.
Proof.
  induction ids as [|i ids IH]; [reflexivity|].
  cbn [filter inbox_loop]. unfold present at 1.
  destruct (StoreKv.getEmail now kv i) as [e|] eqn:E.
  - cbn [inbox_loop]. now rewrite IH, E.
  - rewrite IH. now destruct (inbox_loop now kv ids).
Qed.

Lemma inbox_loop_ids now kv :
  keyed_by_id now kv ->
  forall ids,
    map s_id (fst (inbox_loop now kv ids)) = filter (present now kv) ids.
Proof.
  intros K. induction ids as [|i ids IH]; [reflexivity|].
  cbn [inbox_loop filter]. unfold present at 1.
  destruct (inbox_loop now kv ids) as (valid & n). cbn [fst] in IH.
  destruct (StoreKv.getEmail now kv i) as [e|] eqn:E; cbn [fst map].
  - unfold summary. cbn [s_id]. now rewrite (K i e E), IH.
  - exact IH.
Qed.

Lemma filter_all_length (A : Type) (p : A -> bool) : forall l,
  length (filter p l) = length l -> filter p l = l.
Proof.
  induction l as [|x l IH]; [reflexivity|]. cbn [filter].
  destruct (p x); cbn [length]; intros H.
  - f_equal. apply IH. lia.
  - pose proof (filter_length_le p l). lia.
Qed.

(** What [getInbox] leaves in the store. *)
Lemma getInbox_store now kv mb limit offset :
  keyed_by_id now kv ->
  listed now (snd (StoreKv.getInbox now kv mb limit offset)) mb
  = filter (present now kv) (listed now kv mb) /\
  (forall t i,
     StoreKv.getEmail t (snd (StoreKv.getInbox now kv mb limit offset)) i
     = StoreKv.getEmail t kv i).
Proof.
  intros K. unfold StoreKv.getInbox, listed.
  pose proof (inbox_loop_ids now kv K
                (emailIds_of now kv (EMAIL_LIST_PREFIX ++ mb))) as Hi.
  destruct (inbox_loop_counts now kv
              (emailIds_of now kv (EMAIL_LIST_PREFIX ++ mb))) as (Hc & _).
  destruct (inbox_loop now kv (emailIds_of now kv (EMAIL_LIST_PREFIX ++ mb)))
    as (valid & n).
  cbn [fst snd] in *.
  destruct (length valid =? length (emailIds_of now kv (EMAIL_LIST_PREFIX ++ mb)))
    eqn:E; cbn [negb].
  - apply Nat.eqb_eq in E. rewrite Hc in E.
    split; [|reflexivity]. symmetry. now apply filter_all_length.
  - split.
    + unfold emailIds_of at 1. rewrite get_put_same. exact Hi.
    + intros t i. apply getEmail_put_list.
Qed.

(** X22.  [getInbox] takes the ids of the emails that are gone off the
    list of the mailbox, in a store in which every email is kept under
    its own id, and changes no email; a second call at the same time
    returns the same inbox and leaves the store as the first one left
    it. *)
Theorem getInbox_prunes now kv mb limit offset :
  keyed_by_id now kv ->
  let kv' := snd (StoreKv.getInbox now kv mb limit offset) in
  listed now kv' mb = filter (present now kv) (listed now kv mb) /\
  (forall t i, StoreKv.getEmail t kv' i = StoreKv.getEmail t kv i) /\
  StoreKv.getInbox now kv' mb limit offset
  = (fst (StoreKv.getInbox now kv mb limit offset), kv').
Proof.
  intros K kv'.
  destruct (getInbox_store now kv mb limit offset K) as (Hl & He).
  fold kv' in Hl, He.
  split; [exact Hl|]. split; [exact He|].
  assert (Hloop : inbox_loop now kv' (listed now kv' mb)
                  = inbox_loop now kv (listed now kv mb)).
  { rewrite (inbox_loop_ext now kv kv' (He now)), Hl.
    apply inbox_loop_present. }
  assert (Hlen : length (fst (inbox_loop now kv' (listed now kv' mb)))
                 = length (listed now kv' mb)).
  { rewrite Hloop, Hl. apply inbox_loop_counts. }
  unfold StoreKv.getInbox at 1. fold (listed now kv' mb).
  unfold kv' at 4. unfold StoreKv.getInbox at 2. fold (listed now kv mb).
  rewrite <- Hloop.
  destruct (inbox_loop now kv' (listed now kv' mb)) as (valid & n).
  cbn [fst snd] in *. rewrite Hlen, Nat.eqb_refl. cbn [negb].
  reflexivity.
Qed.

Lemma keyed_storeEmail retentionMs now dateNow kv e t :
  keyed_by_id t kv ->
  keyed_by_id t (StoreKv.storeEmail retentionMs now dateNow kv e).
Proof.
  intros K i e'. rewrite getEmail_storeEmail.
  destruct (jseqb i (id e)) eqn:E.
  - apply jseqb_true in E. subst i.
    destruct (t <? now + expirationTtl retentionMs)%N; [|discriminate].
    now intros [= <-].
  - apply K.
Qed.

Lemma keyed_empty t : keyed_by_id t (Kv.empty Value).
Proof. intros i e. discriminate. Qed.

Lemma keyed_two_emails t : keyed_by_id t two_emails.
Proof. unfold two_emails. repeat apply keyed_storeEmail. apply keyed_empty. Qed.

Lemma getInbox_prunes_witness :
  listed 3605 two_emails (js "swift-coral-42") = [js "a1"] /\
  listed 3605 (snd (StoreKv.getInbox 3605 two_emails (js "swift-coral-42") (Int 20) (Int 0)))
         (js "swift-coral-42") = [].
Proof.
  split; [vm_compute; reflexivity|].
  pose proof (keyed_two_emails 3605) as K.
  rewrite (proj1 (getInbox_prunes 3605 two_emails (js "swift-coral-42") (Int 20) (Int 0) K)).
  vm_compute. reflexivity.
Defined.

Lemma size_loop_sum now kv : forall ids acc,
  size_loop now kv ids acc = acc + list_sum (map (stored_size now kv) ids).
Proof.
  induction ids as [|i ids IH]; intros acc; cbn [size_loop map].
  - cbn. lia.
  - rewrite IH.
    change (list_sum (stored_size now kv i :: map (stored_size now kv) ids))
      with (stored_size now kv i + list_sum (map (stored_size now kv) ids)).
    unfold stored_size at 2.
    destruct (StoreKv.getEmail now kv i); lia.
Qed.

Lemma stored_size_present now kv : forall ids,
  list_sum (map (stored_size now kv) (filter (present now kv) ids))
  = list_sum (map (stored_size now kv) ids).
Proof.
  induction ids as [|i ids IH]; [reflexivity|].
  cbn [filter]. unfold present at 1.
  destruct (StoreKv.getEmail now kv i) as [e|] eqn:E; cbn [map].
  - change (list_sum (stored_size now kv i
                      :: map (stored_size now kv) (filter (present now kv) ids)))
      with (stored_size now kv i
            + list_sum (map (stored_size now kv) (filter (present now kv) ids))).
    change (list_sum (stored_size now kv i :: map (stored_size now kv) ids))
      with (stored_size now kv i + list_sum (map (stored_size now kv) ids)).
    now rewrite IH.
  - change (list_sum (stored_size now kv i :: map (stored_size now kv) ids))
      with (stored_size now kv i + list_sum (map (stored_size now kv) ids)).
    rewrite IH. unfold stored_size at 2. now rewrite E.
Qed.

(** X23.  [getStats] counts the listed emails that are still stored
    and the unread ones among them, and adds up the sizes of the same
    emails, in a store in which every email is kept under its own id;
    it leaves the store as [getInbox] does. *)
Theorem getStats_spec now kv mb :
  keyed_by_id now kv ->
  let stats := fst (StoreKv.getStats now kv mb) in
  totalEmails stats = length (filter (present now kv) (listed now kv mb)) /\
  unreadEmails stats = length (filter (is_unread now kv) (listed now kv mb)) /\
  totalSize stats = list_sum (map (stored_size now kv) (listed now kv mb)) /\
  snd (StoreKv.getStats now kv mb) = snd (StoreKv.getInbox now kv mb (Int 1000) (Int 0)).
Proof.
  intros K stats. subst stats. unfold StoreKv.getStats.
  destruct (getInbox_store now kv mb (Int 1000) (Int 0) K) as (Hl & He).
  assert (Hc : total (fst (StoreKv.getInbox now kv mb (Int 1000) (Int 0)))
               = length (filter (present now kv) (listed now kv mb)) /\
               unread (fst (StoreKv.getInbox now kv mb (Int 1000) (Int 0)))
               = length (filter (is_unread now kv) (listed now kv mb))).
  { unfold StoreKv.getInbox, listed.
    destruct (inbox_loop_counts now kv
                (emailIds_of now kv (EMAIL_LIST_PREFIX ++ mb))) as (H1 & H2).
    destruct (inbox_loop now kv (emailIds_of now kv (EMAIL_LIST_PREFIX ++ mb)))
      as (valid & n).
    cbn [fst snd total unread] in *. now split. }
  destruct (StoreKv.getInbox now kv mb (Int 1000) (Int 0)) as (inbox & kv1).
  cbn [fst snd totalEmails unreadEmails totalSize] in *.
  destruct Hc as (Hc1 & Hc2).
  split; [exact Hc1|]. split; [exact Hc2|]. split; [|reflexivity].
  assert (Hs : match get kv1 now (EMAIL_LIST_PREFIX ++ mb) with
               | Some (VIds emailIds) => size_loop now kv1 emailIds 0
               | _ => 0
               end = size_loop now kv1 (listed now kv1 mb) 0).
  { unfold listed, emailIds_of.
    now destruct (get kv1 now (EMAIL_LIST_PREFIX ++ mb)) as [[m|e|ids|s]|]. }
  rewrite Hs, size_loop_sum, Hl. cbn [Nat.add].
  assert (Hx : forall ids, map (stored_size now kv1) ids
                           = map (stored_size now kv) ids).
  { intros ids. apply map_ext. intros i. unfold stored_size. now rewrite He. }
  rewrite Hx. apply stored_size_present.
Qed.

Lemma getStats_spec_witness :
  fst (StoreKv.getStats 10 two_emails (js "swift-coral-42"))
  = mkStats 1 1 (size email_a).
Proof.
  destruct (getStats_spec 10 two_emails (js "swift-coral-42")
              (keyed_two_emails 10)) as (H1 & H2 & H3 & _).
  destruct (fst (StoreKv.getStats 10 two_emails (js "swift-coral-42")))
    as [a b c].
  cbn [totalEmails unreadEmails totalSize] in *.
  rewrite H1, H2, H3. vm_compute. reflexivity.
Defined.

Lemma getEmail_markEmailRead retentionMs now kv i t j e :
  StoreKv.getEmail t (StoreKv.markEmailRead retentionMs now kv i) j = Some e ->
  StoreKv.getEmail t kv j = Some e \/
  j = i /\ exists e0, StoreKv.getEmail now kv i = Some e0 /\ e = set_read e0.
Proof.
  unfold StoreKv.markEmailRead.
  destruct (StoreKv.getEmail now kv i) as [e0|] eqn:E0; [|now left].
  unfold StoreKv.getEmail at 1.
  destruct (jseqb j i) eqn:E.
  - apply jseqb_true in E. subst j. rewrite get_put_same.
    destruct (t <? now + expirationTtl retentionMs)%N; [|discriminate].
    intros [= <-]. right. split; [reflexivity|]. now exists e0.
  - rewrite get_put_other.
    + intros H. left. exact H.
    + intros H. apply email_key_inj in H. subst j.
      now rewrite jseqb_refl in E.
Qed.

Lemma getEmail_deleteEmail now kv i mb t j e :
  StoreKv.getEmail t (snd (StoreKv.deleteEmail now kv i mb)) j = Some e ->
  StoreKv.getEmail t kv j = Some e.
Proof.
  unfold StoreKv.deleteEmail.
  destruct (StoreKv.getEmail now kv i) as [e0|]; [|exact (fun H => H)].
  destruct (negb (jseqb (mailboxName e0) mb)); [exact (fun H => H)|].
  assert (Hd : StoreKv.getEmail t (delete kv (EMAIL_PREFIX ++ i)) j = Some e ->
               StoreKv.getEmail t kv j = Some e).
  { unfold StoreKv.getEmail. destruct (jseqb j i) eqn:E.
    - apply jseqb_true in E. subst j. now rewrite get_delete_same.
    - rewrite get_delete_other; [exact (fun H => H)|].
      intros H. apply email_key_inj in H. subst j.
      now rewrite jseqb_refl in E. }
  destruct (get (delete kv (EMAIL_PREFIX ++ i)) now (EMAIL_LIST_PREFIX ++ mb))
    as [[m|e'|ids|s0]|]; cbn [snd]; try exact Hd.
Qed.

Lemma getEmail_getInbox now kv mb limit offset t i :
  StoreKv.getEmail t (snd (StoreKv.getInbox now kv mb limit offset)) i
  = StoreKv.getEmail t kv i.
Proof.
  unfold StoreKv.getInbox.
  destruct (inbox_loop now kv (emailIds_of now kv (EMAIL_LIST_PREFIX ++ mb)))
    as (valid & n).
  destruct (negb (length valid
                  =? length (emailIds_of now kv (EMAIL_LIST_PREFIX ++ mb))));
    cbn [snd]; [apply getEmail_put_list | reflexivity].
Qed.

(** X24.  Every email in the KV store is kept under the key of its own
    id: this holds in the empty namespace, and [storeEmail],
    [markEmailRead], [deleteEmail], [createMailbox], [getInbox] and
    [getStats] keep it. *)
Theorem store_keeps_emails_keyed :
  (forall t, keyed_by_id t (Kv.empty Value)) /\
  (forall kv, (forall t, keyed_by_id t kv) ->
     (forall retentionMs now dateNow e t,
        keyed_by_id t (StoreKv.storeEmail retentionMs now dateNow kv e)) /\
     (forall retentionMs now i t,
        keyed_by_id t (StoreKv.markEmailRead retentionMs now kv i)) /\
     (forall now i mb t,
        keyed_by_id t (snd (StoreKv.deleteEmail now kv i mb))) /\
     (forall now dateNow name tokenHash domain t,
        keyed_by_id t
          (snd (StoreKv.createMailbox now dateNow kv name tokenHash domain))) /\
     (forall now mb limit offset t,
        keyed_by_id t (snd (StoreKv.getInbox now kv mb limit offset))) /\
     (forall now mb t,
        keyed_by_id t (snd (StoreKv.getStats now kv mb)))).
Proof.
  split; [exact keyed_empty|]. intros kv K.
  assert (HI : forall now mb limit offset t,
            keyed_by_id t (snd (StoreKv.getInbox now kv mb limit offset))).
  { intros now mb limit offset t i e. rewrite getEmail_getInbox. apply K. }
  split; [|split; [|split; [|split; [|split]]]].
  - intros retentionMs now dateNow e t. apply keyed_storeEmail, K.
  - intros retentionMs now i t j e H.
    apply getEmail_markEmailRead in H.
    destruct H as [H | (-> & e0 & H0 & ->)]; [now apply (K t)|].
    apply (K now) in H0. exact H0.
  - intros now i mb t j e H. apply getEmail_deleteEmail in H. now apply (K t).
  - intros now dateNow name tokenHash domain t i e.
    rewrite getEmail_createMailbox. apply K.
  - exact HI.
  - intros now mb t. unfold StoreKv.getStats.
    specialize (HI now mb (Int 1000) (Int 0) t).
    destruct (StoreKv.getInbox now kv mb (Int 1000) (Int 0)) as (inbox & kv1).
    exact HI.
Qed.

Lemma store_keeps_emails_keyed_witness :
  keyed_by_id 10 (StoreKv.markEmailRead 3600000 10 two_emails (js "a1")).
Proof.
  apply (proj2 store_keeps_emails_keyed two_emails keyed_two_emails).
Defined.

(** ** Authentication *)

Lemma startsWith_app p s : startsWith p (p ++ s) = true.
Proof.
  induction p as [|a p IH]; [reflexivity|].
  cbn [app startsWith]. now rewrite N.eqb_refl, IH.
Qed.

(** X25.  The token that [handleCreateMailbox] returns authenticates
    as the mailbox it created, on the KV store and at any later time:
    [authenticate] with the header [Bearer] and that token returns the
    mailbox of the address returned, which is the one stored under its
    name. *)
Theorem created_mailbox_authenticates (hashToken : jsstring -> jsstring)
  kv now dateNow dateNow' storeNow storeDateNow s
  cfConnectingIp testToken TEST_BYPASS_TOKEN bodyName draws token
  EMAIL_DOMAIN email' token' headers kv' s' :
  Forall in_range draws ->
  handleCreateMailbox (MailboxHandlers.kvStore storeNow storeDateNow)
    hashToken kv now dateNow dateNow' s
    cfConnectingIp testToken TEST_BYPASS_TOKEN bodyName draws token
    EMAIL_DOMAIN = Some (CreatedResponse email' token' headers, kv', s') ->
  forall t, exists m,
    Auth.authenticate (Auth.kvStore t) hashToken s'
      (Some (js "Bearer " ++ token')) = Auth.Authenticated m /\
    Types.email m = email' /\
    tokenHash m = hashToken token' /\
    StoreKv.getMailboxByName t s' (Types.name m) = Some m.
Proof.
  intros Hr E t.
  apply handleCreateMailbox_cases in E.
  destruct E as [(c & dt & st & hd & E & _)
                |(name & hd & E & Hs & Hname)]; [discriminate E|].
  injection E as -> -> _.
  cbn [MailboxHandlers.createMailbox MailboxHandlers.kvStore] in Hs.
  assert (Hv : isValidName name = true).
  { destruct Hname as [(_ & _ & Hv & _)|(_ & Eg)]; [exact Hv|].
    now destruct (generateUniqueName_first_free _ _ s draws name Hr Eg). }
  assert (Hn : name <> []).
  { apply isValidName_elim in Hv. destruct Hv as (Hl & _).
    intros ->. cbn in Hl. lia. }
  exists (fst (StoreKv.createMailbox storeNow storeDateNow s name
                 (hashToken token) EMAIL_DOMAIN)).
  split; [|split; [|split]].
  - unfold Auth.authenticate.
    rewrite startsWith_app.
    change (truthy (js "Bearer " ++ token)) with true.
    cbn [negb orb].
    change (skipn 7 (js "Bearer " ++ token)) with token.
    cbn [Auth.getMailboxByToken Auth.kvStore].
    rewrite Hs, getMailboxByToken_created.
    destruct name; [contradiction | reflexivity].
  - reflexivity.
  - reflexivity.
  - rewrite Hs. cbn [StoreKv.createMailbox fst Types.name].
    apply getMailboxByName_created.
Qed.

Lemma created_mailbox_authenticates_witness :
  exists kv' s' m,
    handleCreateMailbox (MailboxHandlers.kvStore 5 5000) (fun t => t ++ js "#")
      (Kv.empty jsstring) 5 5000 5000 (Kv.empty Value)
      (Some (js "203.0.113.7")) None None (Some (js "agent-007")) []
      (js "tok") (js "mailcat.ai")
    = Some (CreatedResponse (js "agent-007@mailcat.ai") (js "tok")
              [(js "RateLimit-Limit", js "60");
               (js "RateLimit-Remaining", js "59");
               (js "RateLimit-Reset", js "3605")], kv', s') /\
    Auth.authenticate (Auth.kvStore 1000000) (fun t => t ++ js "#") s'
      (Some (js "Bearer tok")) = Auth.Authenticated m /\
    Types.email m = js "agent-007@mailcat.ai" /\
    tokenHash m = js "tok#".
Proof.
  destruct (handleCreateMailbox (MailboxHandlers.kvStore 5 5000)
              (fun t => t ++ js "#") (Kv.empty jsstring) 5 5000 5000
              (Kv.empty Value) (Some (js "203.0.113.7")) None None
              (Some (js "agent-007")) [] (js "tok") (js "mailcat.ai"))
    as [[[resp kv'] s']|] eqn:E; [|vm_compute in E; discriminate E].
  assert (Hresp : resp = CreatedResponse (js "agent-007@mailcat.ai") (js "tok")
                           [(js "RateLimit-Limit", js "60");
                            (js "RateLimit-Remaining", js "59");
                            (js "RateLimit-Reset", js "3605")]).
  { vm_compute in E. now injection E as <- _ _. }
  subst resp.
  destruct (created_mailbox_authenticates (fun t => t ++ js "#") _ _ _ _ _ _ _
              _ _ _ _ _ _ _ _ _ _ _ _ (Forall_nil _) E 1000000%N)
    as (m & Ha & He & Ht & _).
  exists kv', s', m.
  split; [reflexivity|]. split; [exact Ha|]. split; [exact He | exact Ht].
Defined.

Import EmailHandlers EmailSpec.

(** ** The reception of emails *)

(** *** Greedy runs that give back *)

(** A greedy run of a class fails when what follows fails wherever the
    run may stop. *)
Lemma star_class_all_fail (A : Type) ci neg items (k : cont A) c rest :
  forall v fuel,
    (forall v1 v2, v = v1 ++ v2 -> k (v2 ++ rest) c = None) ->
    match rest with
    | [] => True
    | y :: _ => class_mem ci neg items y = false
    end ->
    star_loop (mrun ci (RClass neg items)) true k fuel (v ++ rest) c = None.
Proof.
  induction v as [|y v IH]; intros fuel H Hs.
  - pose proof (H [] [] eq_refl) as H0. cbn [app] in *.
    destruct fuel as [|fuel]; [exact H0|]. cbn [star_loop mrun].
    destruct rest as [|z rest']; [exact H0|]. now rewrite Hs.
  - pose proof (H [] (y :: v) eq_refl) as H0.
    destruct fuel as [|fuel]; [exact H0|]. cbn [star_loop mrun app].
    assert (Hin : star_loop (mrun ci (RClass neg items)) true k fuel
                    (v ++ rest) c = None).
    { apply IH; [|exact Hs]. intros v1 v2 ->. apply (H (y :: v1) v2 eq_refl). }
    destruct (class_mem ci neg items y); [|exact H0].
    destruct (length (v ++ rest) <? length (y :: v ++ rest)); [|exact H0].
    match goal with
    | |- match ?t with _ => _ end = _ =>
      change t with (star_loop (mrun ci (RClass neg items)) true k fuel
                               (v ++ rest) c)
    end.
    now rewrite Hin.
Qed.

(** A greedy run of a class stops at the last place at which what
    follows accepts. *)
Lemma star_class_backtrack (A : Type) ci neg items (k : cont A) c x rest v :
  forall w fuel,
    Forall (fun y => class_mem ci neg items y = true) w ->
    Forall (fun y => class_mem ci neg items y = true) v ->
    match rest with
    | [] => True
    | y :: _ => class_mem ci neg items y = false
    end ->
    (forall v1 v2, v = v1 ++ v2 -> v1 <> [] -> k (v2 ++ rest) c = None) ->
    k (v ++ rest) c = Some x ->
    length (w ++ v ++ rest) <= fuel ->
    star_loop (mrun ci (RClass neg items)) true k fuel (w ++ v ++ rest) c
    = Some x.
Proof.
  induction w as [|y w IH]; intros fuel Hw Hv Hs H Hk Hf.
  - cbn [app] in *. destruct v as [|y v].
    + cbn [app] in *. destruct fuel as [|fuel]; [exact Hk|].
      cbn [star_loop mrun].
      destruct rest as [|z rest']; [now rewrite Hk|]. now rewrite Hs, Hk.
    + destruct fuel as [|fuel]; [simpl in Hf; lia|].
      cbn [star_loop mrun app].
      inversion Hv as [|? ? Hy Hv']; subst. rewrite Hy.
      assert (Hin : star_loop (mrun ci (RClass neg items)) true k fuel
                      (v ++ rest) c = None).
      { apply star_class_all_fail; [|exact Hs].
        intros v1 v2 ->. apply (H (y :: v1) v2 eq_refl). discriminate. }
      destruct (length (v ++ rest) <? length (y :: v ++ rest)); [|exact Hk].
      match goal with
      | |- match ?t with _ => _ end = _ =>
        change t with (star_loop (mrun ci (RClass neg items)) true k fuel
                                 (v ++ rest) c)
      end.
      now rewrite Hin.
  - inversion Hw as [|? ? Hy Hw']; subst.
    destruct fuel as [|fuel]; [simpl in Hf; lia|].
    cbn [star_loop mrun app]. rewrite Hy.
    destruct (Nat.ltb_spec (length (w ++ v ++ rest))
                           (length (y :: w ++ v ++ rest))) as [_|Hc];
      [|simpl in Hc; lia].
    match goal with
    | |- match ?t with _ => _ end = _ =>
      change t with (star_loop (mrun ci (RClass neg items)) true k fuel
                               (w ++ v ++ rest) c)
    end.
    rewrite (IH fuel Hw' Hv Hs H Hk); [reflexivity|]. simpl in Hf. lia.
Qed.

Lemma mrun_opt_skip (A : Type) ci a s c (k : cont A) :
  match s with
  | [] => True
  | y :: _ => (canon ci y =? canon ci a)%N = false
  end ->
  mrun ci (ROpt (RChar a)) s c k = k s c.
Proof.
  intros H. unfold ROpt. cbn [mrun]. destruct s as [|y t]; [reflexivity|].
  now rewrite H.
Qed.

Lemma mrun_opt_take (A : Type) ci a s c (k : cont A) x :
  k s c = Some x -> mrun ci (ROpt (RChar a)) (a :: s) c k = Some x.
Proof.
  intros H. unfold ROpt. cbn [mrun]. now rewrite N.eqb_refl, H.
Qed.

Lemma mrun_seq (A : Type) ci r1 r2 s c (k : cont A) :
  mrun ci (RSeq r1 r2) s c k
  = mrun ci r1 s c (fun s1 c1 => mrun ci r2 s1 c1 k).
Proof. reflexivity. Qed.

Lemma mrun_group (A : Type) ci r s c (k : cont A) :
  mrun ci (RGroup r) s c k
  = mrun ci r s c (fun s1 _ => k s1 (Some (firstn (length s - length s1) s))).
Proof. reflexivity. Qed.

Lemma mrun_plus_class (A : Type) ci neg items y s c (k : cont A) :
  class_mem ci neg items y = true ->
  mrun ci (RPlus (RClass neg items)) (y :: s) c k
  = star_loop (mrun ci (RClass neg items)) true k (length s) s c.
Proof. intros H. unfold RPlus. cbn [mrun]. now rewrite H. Qed.

Lemma firstn_less (A : Type) (a b : list A) :
  firstn (length (a ++ b) - length b) (a ++ b) = a.
Proof.
  rewrite length_app, Nat.add_sub.
  rewrite firstn_app, Nat.sub_diag, firstn_all. cbn. apply app_nil_r.
Qed.

(** *** [parseEmailAddress] *)

Lemma addr_char_spec c :
  addr_char c = true ->
  is_space c = false /\ c <> 60%N /\ c <> 62%N /\ c <> 34%N.
Proof.
  unfold addr_char. rewrite !andb_true_iff, !negb_true_iff, !N.eqb_neq.
  tauto.
Qed.

Lemma not_gt_class c : c <> 62%N -> class_mem false true [CChar (ch ">")] c = true.
Proof.
  intros H. unfold class_mem, items_mem. cbn [existsb item_mem andb orb].
  change (ch ">") with 62%N. rewrite orb_false_r.
  apply N.eqb_neq in H. rewrite N.eqb_sym, H. reflexivity.
Qed.

Lemma not_dquote_class c :
  c <> 34%N -> class_mem false true [CChar DQUOTE] c = true.
Proof.
  intros H. unfold class_mem, items_mem. cbn [existsb item_mem andb orb].
  change DQUOTE with 34%N. rewrite orb_false_r.
  apply N.eqb_neq in H. rewrite N.eqb_sym, H. reflexivity.
Qed.

Lemma sp_class c : class_mem false false [CSpace] c = is_space c.
Proof.
  unfold class_mem, items_mem. cbn [existsb item_mem andb orb].
  now rewrite !orb_false_r, xorb_false_l.
Qed.

(** The part of the expression that holds the second group, on an
    address with or without its angle brackets. *)
Lemma address_part_match (lt gt : bool) l d (c1 : option jsstring) :
  is_address l d ->
  mrun false address_part
       ((if lt then [60%N] else []) ++ (l ++ [64%N] ++ d)
        ++ (if gt then [62%N] else []))
       None (fun _ c2 => Some (c1, c2))
  = Some (c1, Some (l ++ [64%N] ++ d)).
Proof.
  intros (Hl & Hd & Hc & Hat).
  rewrite forallb_app in Hc. apply andb_true_iff in Hc.
  destruct Hc as (Hcl & Hcd).
  rewrite forallb_forall in Hcl, Hcd.
  destruct l as [|l0 l']; [contradiction|].
  destruct d as [|d0 d']; [contradiction|].
  set (post := if gt then [62%N] else []).
  assert (Hpost : match post with
                  | [] => True
                  | y :: _ => class_mem false true [CChar (ch ">")] y = false
                  end) by (unfold post; destruct gt; [reflexivity | exact I]).
  assert (Hnl : Forall (fun y => class_mem false true [CChar (ch ">")] y = true)
                       (l0 :: l')).
  { apply Forall_forall. intros y Hy. apply not_gt_class.
    apply (addr_char_spec y (Hcl y Hy)). }
  assert (Hnd : Forall (fun y => class_mem false true [CChar (ch ">")] y = true)
                       (d0 :: d')).
  { apply Forall_forall. intros y Hy. apply not_gt_class.
    apply (addr_char_spec y (Hcd y Hy)). }
  unfold address_part. cbn [RSeqs]. rewrite mrun_seq.
  assert (Hmain :
    mrun false
      (RSeq (RGroup (RSeq (RPlus not_gt) (RSeq (RChar (ch "@")) (RPlus not_gt))))
            (RSeq (ROpt (RChar (ch ">"))) REnd))
      ((l0 :: l') ++ [64%N] ++ (d0 :: d') ++ post) None
      (fun _ c2 => Some (c1, c2))
    = Some (c1, Some ((l0 :: l') ++ [64%N] ++ d0 :: d'))).
  { rewrite mrun_seq, mrun_group, mrun_seq.
    cbn [app]. unfold not_gt at 1.
    rewrite mrun_plus_class by (inversion Hnl; assumption).
    change (l' ++ 64%N :: d0 :: d' ++ post)
      with (l' ++ (64%N :: d0 :: d') ++ post).
    apply star_class_backtrack.
    - now inversion Hnl.
    - constructor; [reflexivity | exact Hnd].
    - exact Hpost.
    - intros v1 v2 Hv Hv1.
      destruct v1 as [|a v1]; [contradiction|]. injection Hv as _ Hv.
      rewrite mrun_seq. cbn [mrun].
      destruct (v2 ++ post) as [|z t] eqn:Ez; [reflexivity|].
      assert (Hz : z <> 64%N).
      { destruct v2 as [|z' v2'].
        - cbn [app] in Ez. unfold post in Ez. destruct gt; [|discriminate].
          injection Ez as <- _. discriminate.
        - injection Ez as <- _. intros ->. apply Hat.
          rewrite Hv. apply in_or_app. right. now left. }
      unfold canon. change (ch "@") with 64%N.
      apply N.eqb_neq in Hz. now rewrite Hz.
    - rewrite mrun_seq. cbn [mrun app]. unfold canon.
      change (ch "@") with 64%N. rewrite N.eqb_refl.
      unfold not_gt.
      apply (@mrun_plus_class_greedy _ false true [CChar (ch ">")]).
      + exact Hnd.
      + exact Hpost.
      + assert (Ha : l0 :: l' ++ 64%N :: d0 :: d' ++ post
                     = (l0 :: l' ++ 64%N :: d0 :: d') ++ post)
          by (cbn [app]; now rewrite <- app_assoc).
        rewrite Ha, firstn_less.
        unfold post. destruct gt.
        * now apply mrun_opt_take.
        * rewrite mrun_opt_skip by exact I. reflexivity.
    - apply Nat.le_refl. }
  cbn [app] in Hmain. rewrite <- app_assoc. cbn [app].
  destruct lt.
  - cbn [app]. change (ch "<") with 60%N. apply mrun_opt_take.
    exact Hmain.
  - rewrite mrun_opt_skip; [exact Hmain|].
    cbn [app]. unfold canon. change (ch "<") with 60%N.
    apply N.eqb_neq.
    apply (addr_char_spec l0 (Hcl l0 (or_introl eq_refl))).
Qed.

Lemma mrun_star (A : Type) ci g r s c (k : cont A) :
  mrun ci (RStar g r) s c k = star_loop (mrun ci r) g k (length s) s c.
Proof. reflexivity. Qed.

Lemma mrun_plus_sp_fail (A : Type) s c (k : cont A) :
  match s with
  | [] => True
  | y :: _ => is_space y = false
  end ->
  mrun false (RPlus sp) s c k = None.
Proof.
  intros H. unfold RPlus, sp. cbn [mrun]. destruct s as [|y t]; [reflexivity|].
  now rewrite sp_class, H.
Qed.

(** What follows the name holds no white space and no double quote. *)
Lemma address_chars l d :
  is_address l d ->
  Forall (fun z => is_space z = false /\ z <> 34%N)
         ([60%N] ++ (l ++ [64%N] ++ d) ++ [62%N]).
Proof.
  intros (_ & _ & Hc & _).
  rewrite forallb_app in Hc. apply andb_true_iff in Hc.
  destruct Hc as (Hcl & Hcd). rewrite forallb_forall in Hcl, Hcd.
  assert (Ha : forall s, (forall x, In x s -> addr_char x = true) ->
               Forall (fun z => is_space z = false /\ z <> 34%N) s).
  { intros s Hs. apply Forall_forall. intros x Hx.
    destruct (addr_char_spec x (Hs x Hx)) as (H1 & _ & _ & H4). now split. }
  apply Forall_app. split; [repeat constructor; discriminate|].
  apply Forall_app. split; [|repeat constructor; discriminate].
  apply Forall_app. split; [now apply Ha|].
  apply Forall_app. split; [repeat constructor; discriminate | now apply Ha].
Qed.

(** The first group and what follows it, the end of the name being the
    last place at which white space follows. *)
Lemma name_part_match nm tl (x : option jsstring * option jsstring) :
  Forall (fun z => z <> 34%N) nm ->
  Forall (fun z => is_space z = false /\ z <> 34%N) tl ->
  mrun false address_part tl None (fun _ c2 => Some (Some nm, c2)) = Some x ->
  mrun false name_part (nm ++ [32%N] ++ tl) None
       (fun s1 c1 =>
          mrun false address_part s1 None (fun _ c2 => Some (c1, c2)))
  = Some x.
Proof.
  intros Hnm Htl Hx.
  unfold name_part, ROpt at 1. apply mrun_alt_first.
  cbn [RSeqs]. rewrite mrun_seq.
  rewrite mrun_opt_skip.
  2:{ destruct nm as [|n0 nm']; cbn [app]; unfold canon; apply N.eqb_neq.
      - discriminate.
      - now inversion Hnm. }
  rewrite mrun_seq, mrun_group, mrun_star.
  set (v := [32%N] ++ tl).
  set (k := fun (s1 : jsstring) (_ : option jsstring) =>
              mrun false (RSeq (ROpt (RChar DQUOTE)) (RPlus sp)) s1
                   (Some (firstn (length (nm ++ v) - length s1) (nm ++ v)))
                   (fun s0 c1 =>
                      mrun false address_part s0 None
                           (fun _ c2 => Some (c1, c2)))).
  pose proof (star_class_backtrack _ false true [CChar DQUOTE] k None x [] v
                nm (length (nm ++ v ++ []))) as H.
  rewrite !app_nil_r in H. apply H; clear H.
  - apply Forall_forall. intros y Hy. apply not_dquote_class.
    rewrite Forall_forall in Hnm. now apply Hnm.
  - apply Forall_forall. intros y Hy. apply not_dquote_class.
    destruct Hy as [<-|Hy]; [discriminate|].
    rewrite Forall_forall in Htl. now apply (Htl y Hy).
  - exact I.
  - intros v1 v2 Hv Hv1. unfold k. rewrite app_nil_r.
    destruct v1 as [|a v1]; [contradiction|].
    unfold v in Hv. injection Hv as _ Hv. rewrite Hv in Htl.
    apply Forall_app in Htl. destruct Htl as (_ & Hv2).
    rewrite mrun_seq. rewrite mrun_opt_skip.
    + apply mrun_plus_sp_fail. destruct v2 as [|z t]; [exact I|].
      now inversion Hv2.
    + destruct v2 as [|z t]; [exact I|]. unfold canon. apply N.eqb_neq.
      now inversion Hv2.
  - unfold k. rewrite firstn_less.
    rewrite mrun_seq. rewrite mrun_opt_skip
      by (unfold v; cbn [app]; reflexivity).
    unfold v. cbn [app]. unfold sp.
    rewrite mrun_plus_class by reflexivity.
    apply (star_class_greedy false false [CSpace] _ tl (Some nm) (w := [])).
    + constructor.
    + unfold stops. destruct tl as [|z t]; [exact I|].
      rewrite sp_class. now inversion Htl.
    + exact Hx.
    + apply Nat.le_refl.
  - apply Nat.le_refl.
Qed.

(** The same with the name between double quotes. *)
Lemma name_part_match_quoted nm tl (x : option jsstring * option jsstring) :
  Forall (fun z => z <> 34%N) nm ->
  Forall (fun z => is_space z = false /\ z <> 34%N) tl ->
  mrun false address_part tl None (fun _ c2 => Some (Some nm, c2)) = Some x ->
  mrun false name_part ([34%N] ++ nm ++ [34%N] ++ [32%N] ++ tl) None
       (fun s1 c1 =>
          mrun false address_part s1 None (fun _ c2 => Some (c1, c2)))
  = Some x.
Proof.
  intros Hnm Htl Hx.
  unfold name_part, ROpt at 1. apply mrun_alt_first.
  cbn [RSeqs]. rewrite mrun_seq. cbn [app].
  apply (mrun_opt_take _ false DQUOTE). cbv beta.
  rewrite mrun_seq, mrun_group, mrun_star.
  apply (star_class_greedy false true [CChar DQUOTE]).
  - apply Forall_forall. intros y Hy. apply not_dquote_class.
    rewrite Forall_forall in Hnm. now apply Hnm.
  - reflexivity.
  - rewrite firstn_less. rewrite mrun_seq.
    apply (mrun_opt_take _ false DQUOTE). cbv beta. unfold sp.
    rewrite mrun_plus_class by reflexivity.
    apply (star_class_greedy false false [CSpace] _ tl (Some nm) (w := [])).
    + constructor.
    + unfold stops. destruct tl as [|z t]; [exact I|].
      rewrite sp_class. now inversion Htl.
    + exact Hx.
    + apply Nat.le_refl.
  - apply Nat.le_refl.
Qed.

(** Without white space the part of the name matches nothing. *)
Lemma name_part_skip s (x : option jsstring * option jsstring) :
  Forall (fun z => is_space z = false /\ z <> 34%N) s ->
  mrun false address_part s None (fun _ c2 => Some (None, c2)) = Some x ->
  mrun false name_part s None
       (fun s1 c1 =>
          mrun false address_part s1 None (fun _ c2 => Some (c1, c2)))
  = Some x.
Proof.
  intros Hs Hx. unfold name_part, ROpt at 1.
  cbn [RSeqs].
  change (mrun false (RAlt ?r REps) s None ?k)
    with (match mrun false r s None k with
          | Some y => Some y
          | None => k s None
          end).
  match goal with
  | |- match ?t with _ => _ end = _ => assert (Hf : t = None)
  end.
  { rewrite mrun_seq. rewrite mrun_opt_skip.
    2:{ destruct s as [|z t]; [exact I|]. unfold canon. apply N.eqb_neq.
        now inversion Hs. }
    rewrite mrun_seq, mrun_group, mrun_star.
    rewrite <- (app_nil_r s) at 2.
    apply star_class_all_fail; [|exact I].
    intros v1 v2 Hv. rewrite app_nil_r. rewrite Hv in Hs.
    apply Forall_app in Hs. destruct Hs as (_ & Hv2).
    rewrite mrun_seq. rewrite mrun_opt_skip.
    - apply mrun_plus_sp_fail. destruct v2 as [|z t]; [exact I|].
      now inversion Hv2.
    - destruct v2 as [|z t]; [exact I|]. unfold canon. apply N.eqb_neq.
      now inversion Hv2. }
  rewrite Hf. exact Hx.
Qed.

Lemma trimStart_no_space s :
  Forall (fun z => is_space z = false) s -> trimStart s = s.
Proof.
  intros H. destruct s as [|z t]; [reflexivity|]. cbn [trimStart].
  inversion H as [|? ? Hz _]; subst. now rewrite Hz.
Qed.

Lemma trim_no_space s :
  Forall (fun z => is_space z = false) s -> trim s = s.
Proof.
  intros H. unfold trim, trimEnd. rewrite (trimStart_no_space s H).
  rewrite trimStart_no_space; [apply rev_involutive|].
  now apply Forall_rev.
Qed.

Lemma address_no_space l d :
  is_address l d -> Forall (fun z => is_space z = false) (l ++ [64%N] ++ d).
Proof.
  intros H. pose proof (address_chars l d H) as Hc.
  apply Forall_app in Hc. destruct Hc as (_ & Hc).
  apply Forall_app in Hc. destruct Hc as (Hc & _).
  eapply Forall_impl; [|exact Hc]. now intros a (Ha & _).
Qed.

(** The second group always takes part in a match. *)
Lemma address_match_group2 raw m1 m2 :
  address_match raw = Some (m1, m2) -> m2 <> None.
Proof.
  unfold address_match. intros H.
  apply (mrun_sound false) in H. destruct H as (s1 & c1 & _ & H).
  apply (mrun_sound false) in H. destruct H as (s2 & c2 & M & H).
  injection H as _ <-.
  apply (always_captures_some M). left. vm_compute. reflexivity.
Qed.

Lemma parseEmailAddress_total (toLowerCase : jsstring -> jsstring) raw :
  exists a, parseEmailAddress toLowerCase raw = Normal a.
Proof.
  unfold parseEmailAddress.
  destruct (address_match raw) as [[m1 m2]|] eqn:E; [|eauto].
  destruct m2 as [m2|]; [eauto|].
  now apply address_match_group2 in E.
Qed.

(** X26.  [parseEmailAddress] never throws.  Of a name without double
    quotes, between double quotes or not, a space and an address in
    angle brackets, it returns the name trimmed (none when nothing is
    left of it) and the address in lower case; of an address alone, in
    angle brackets or not, the address in lower case and no name.  The
    address is a local part, an [@] and a domain, without white space,
    angle brackets or double quotes. *)
Theorem parseEmailAddress_spec (toLowerCase : jsstring -> jsstring) :
  (forall raw, exists a, parseEmailAddress toLowerCase raw = Normal a) /\
  (forall (quotes : bool) nm l d,
     Forall (fun z => z <> 34%N) nm -> is_address l d ->
     parseEmailAddress toLowerCase
       ((if quotes then [DQUOTE] ++ nm ++ [DQUOTE] else nm)
        ++ js " " ++ js "<" ++ (l ++ js "@" ++ d) ++ js ">")
     = Normal (mkAddress (if truthy (trim nm) then Some (trim nm) else None)
                         (toLowerCase (l ++ js "@" ++ d)))) /\
  (forall (brackets : bool) l d,
     is_address l d ->
     parseEmailAddress toLowerCase
       ((if brackets then js "<" else []) ++ (l ++ js "@" ++ d)
        ++ (if brackets then js ">" else []))
     = Normal (mkAddress None (toLowerCase (l ++ js "@" ++ d)))).
Proof.
  split; [|split].
  - exact (parseEmailAddress_total toLowerCase).
  - intros quotes nm l d Hnm Ha. unfold parseEmailAddress.
    assert (E : address_match
                  ((if quotes then [DQUOTE] ++ nm ++ [DQUOTE] else nm)
                   ++ js " " ++ js "<" ++ (l ++ js "@" ++ d) ++ js ">")
                = Some (Some nm, Some (l ++ js "@" ++ d))).
    { unfold address_match. destruct quotes.
      - change DQUOTE with 34%N. cbn [app]. rewrite <- (app_assoc nm).
        apply name_part_match_quoted.
        + exact Hnm.
        + exact (address_chars l d Ha).
        + exact (address_part_match true true l d (Some nm) Ha).
      - apply name_part_match.
        + exact Hnm.
        + exact (address_chars l d Ha).
        + exact (address_part_match true true l d (Some nm) Ha). }
    rewrite E. change (js "@") with [64%N].
    now rewrite (trim_no_space _ (address_no_space l d Ha)).
  - intros brackets l d Ha. unfold parseEmailAddress.
    assert (E : address_match
                  ((if brackets then js "<" else []) ++ (l ++ js "@" ++ d)
                   ++ (if brackets then js ">" else []))
                = Some (None, Some (l ++ js "@" ++ d))).
    { unfold address_match. apply name_part_skip.
      - pose proof (address_chars l d Ha) as Hc. destruct brackets.
        + exact Hc.
        + apply Forall_app in Hc. destruct Hc as (_ & Hc).
          apply Forall_app in Hc. destruct Hc as (Hc & _).
          cbn [app]. now rewrite app_nil_r.
      - exact (address_part_match brackets brackets l d None Ha). }
    rewrite E. change (js "@") with [64%N].
    now rewrite (trim_no_space _ (address_no_space l d Ha)).
Qed.

Lemma parseEmailAddress_spec_witness :
  parseEmailAddress ascii_lower (js "Jo Doe <Jo.Doe@Example.COM>")
  = Normal (mkAddress (Some (js "Jo Doe")) (js "jo.doe@example.com")) /\
  parseEmailAddress ascii_lower (js "noreply@example.com")
  = Normal (mkAddress None (js "noreply@example.com")).
Proof.
  destruct (parseEmailAddress_spec ascii_lower) as (_ & H2 & H3).
  assert (Ha : is_address (js "Jo.Doe") (js "Example.COM")).
  { repeat split; try discriminate. vm_compute. intuition discriminate. }
  assert (Hb : is_address (js "noreply") (js "example.com")).
  { repeat split; try discriminate. vm_compute. intuition discriminate. }
  assert (Hn : Forall (fun z => z <> 34%N) (js "Jo Doe"))
    by (repeat constructor; discriminate).
  split.
  - change (js "Jo Doe <Jo.Doe@Example.COM>")
      with (js "Jo Doe" ++ js " " ++ js "<"
            ++ (js "Jo.Doe" ++ js "@" ++ js "Example.COM") ++ js ">").
    rewrite (H2 false _ _ _ Hn Ha). vm_compute. reflexivity.
  - change (js "noreply@example.com")
      with ([] ++ (js "noreply" ++ js "@" ++ js "example.com") ++ []) at 1.
    rewrite (H3 false _ _ Hb). vm_compute. reflexivity.
Defined.

(** *** The subject *)

Lemma is_space_letter x : (65 <= x <= 122)%N -> is_space x = false.
Proof.
  intros H. unfold is_space. cbn [existsb].
  repeat (rewrite (proj2 (N.eqb_neq x _)) by lia). cbn [orb].
  apply andb_false_iff. left. apply N.leb_gt. lia.
Qed.

Lemma sp_class_nocase c : class_mem true false [CSpace] c = is_space c.
Proof.
  unfold class_mem, items_mem. cbn [existsb item_mem andb orb].
  rewrite !orb_false_r, xorb_false_l.
  destruct (is_space c) eqn:E; [reflexivity|]. cbn [orb].
  assert (Hu : is_space (toUpper c) = false).
  { destruct (toUpper_cases c) as [->|U]; [exact E|].
    apply is_space_letter. lia. }
  assert (Hl : is_space (toLower c) = false).
  { destruct (toLower_cases c) as [->|L]; [exact E|].
    apply is_space_letter. lia. }
  now rewrite Hu, Hl.
Qed.

Lemma is_line_terminator_letter x :
  (65 <= x <= 122)%N -> is_line_terminator x = false.
Proof.
  intros H. unfold is_line_terminator.
  repeat (rewrite (proj2 (N.eqb_neq x _)) by lia). reflexivity.
Qed.

Lemma dot_class_nocase c :
  class_mem true true [CChar 10%N; CChar 13%N; CChar 8232%N; CChar 8233%N] c
  = negb (is_line_terminator c).
Proof.
  assert (H : forall x,
            existsb (fun it => item_mem it x)
                    [CChar 10%N; CChar 13%N; CChar 8232%N; CChar 8233%N]
            = is_line_terminator x).
  { intros x. cbn [existsb item_mem]. unfold is_line_terminator.
    rewrite orb_false_r, !orb_assoc.
    now rewrite (N.eqb_sym 10), (N.eqb_sym 13), (N.eqb_sym 8232),
                (N.eqb_sym 8233). }
  unfold class_mem, items_mem. rewrite !H. cbn [andb].
  destruct (is_line_terminator c) eqn:E; [reflexivity|]. cbn [orb].
  assert (Hu : is_line_terminator (toUpper c) = false).
  { destruct (toUpper_cases c) as [->|U]; [exact E|].
    apply is_line_terminator_letter. lia. }
  assert (Hl : is_line_terminator (toLower c) = false).
  { destruct (toLower_cases c) as [->|L]; [exact E|].
    apply is_line_terminator_letter. lia. }
  now rewrite Hu, Hl.
Qed.

Lemma mrun_lit_fail (A : Type) ci a l s c (k : cont A) :
  match s with
  | [] => True
  | y :: _ => (canon ci y =? canon ci a)%N = false
  end ->
  mrun ci (RLit (a :: l)) s c k = None.
Proof.
  intros H. destruct l as [|b t].
  - cbn [RLit mrun]. destruct s as [|y u]; [reflexivity|]. now rewrite H.
  - change (RLit (a :: b :: t)) with (RSeq (RChar a) (RLit (b :: t))).
    cbn [mrun]. destruct s as [|y u]; [reflexivity|]. now rewrite H.
Qed.

Lemma mrun_lit_none (A : Type) l : forall s c (k : cont A),
  starts_nocase l s = false -> mrun true (RLit l) s c k = None.
Proof.
  induction l as [|a l IH]; intros s c k H; [discriminate|].
  destruct s as [|y u].
  - destruct l; reflexivity.
  - cbn [starts_nocase] in H.
    destruct l as [|b t].
    + cbn [RLit mrun canon].
      destruct (toUpper y =? toUpper a)%N; [discriminate | reflexivity].
    + change (RLit (a :: b :: t)) with (RSeq (RChar a) (RLit (b :: t))).
      cbn [mrun canon].
      destruct (toUpper y =? toUpper a)%N; [|reflexivity].
      apply IH. exact H.
Qed.

Lemma subject_here_none s :
  starts_nocase (js "subject:") s = false -> subject_here s = None.
Proof.
  intros H. unfold subject_here, subject_re. cbn [RSeqs].
  rewrite mrun_seq. now apply mrun_lit_none.
Qed.

Lemma terminator_upper y : is_line_terminator y = true -> toUpper y = y.
Proof.
  unfold is_line_terminator. rewrite !orb_true_iff, !N.eqb_eq.
  intros [[[-> | ->] | ->] | ->]; reflexivity.
Qed.

Lemma ends_line_tail c t : ends_line (c :: t) = true -> ends_line t = true.
Proof.
  unfold ends_line. cbn [rev].
  destruct (rev t) as [|x r]; [reflexivity|]. cbn [app]. auto.
Qed.

(** A text that ends a line and does not begin with [p] does not begin
    with it whatever follows, when [p] holds no line terminator. *)
Lemma starts_nocase_app p : forall s rest,
  Forall (fun a => is_line_terminator (toUpper a) = false) p ->
  s <> [] -> ends_line s = true ->
  starts_nocase p s = false ->
  starts_nocase p (s ++ rest) = false.
Proof.
  induction p as [|a p IH]; intros s rest Hp Hs He H; [discriminate|].
  destruct s as [|y s']; [congruence|].
  inversion Hp as [|? ? Ha Hp']; subst.
  cbn [starts_nocase app] in *.
  destruct (toUpper y =? toUpper a)%N eqn:E; [|reflexivity].
  cbn [andb] in *. destruct s' as [|z s''].
  - exfalso. change (is_line_terminator y = true) in He.
    apply N.eqb_eq in E. rewrite (terminator_upper y He) in E.
    rewrite <- E, He in Ha. discriminate.
  - apply IH; [exact Hp' | discriminate | | exact H].
    apply (ends_line_tail y). exact He.
Qed.

Lemma subject_search_skip rest : forall before line_start,
  no_subject_line line_start before = true ->
  rest = [] \/ ends_line before = true ->
  subject_search line_start (before ++ rest)
  = subject_search
      (fold_left (fun _ c => is_line_terminator c) before line_start) rest.
Proof.
  induction before as [|c t IH]; intros ls H He; [reflexivity|].
  cbn [no_subject_line] in H. apply andb_true_iff in H. destruct H as (Hc & Ht).
  cbn [app fold_left subject_search].
  assert (Hh : (if ls then subject_here (c :: t ++ rest) else None) = None).
  { destruct ls; [|reflexivity]. apply subject_here_none.
    cbn [andb] in Hc. apply negb_true_iff in Hc.
    destruct He as [-> | He].
    - now rewrite app_nil_r.
    - change (c :: t ++ rest) with ((c :: t) ++ rest).
      apply starts_nocase_app; [|discriminate | exact He | exact Hc].
      vm_compute. repeat constructor. }
  rewrite Hh. apply IH; [exact Ht|].
  destruct He as [He | He]; [now left | right].
  now apply (ends_line_tail c).
Qed.

Lemma fold_left_last (ls : bool) before :
  fold_left (fun _ c => is_line_terminator c) before ls
  = match rev before with
    | [] => ls
    | c :: _ => is_line_terminator c
    end.
Proof.
  induction before as [|c t IH] using rev_ind; [reflexivity|].
  rewrite fold_left_app, rev_app_distr. reflexivity.
Qed.

Lemma subject_here_match kw ws v0 v rest :
  eq_nocase kw (js "subject:") ->
  Forall (fun c => is_space c = true) ws ->
  is_space v0 = false ->
  Forall (fun c => is_line_terminator c = false) (v0 :: v) ->
  at_line_end rest = true ->
  subject_here (kw ++ ws ++ (v0 :: v) ++ rest) = Some (Some (v0 :: v)).
Proof.
  intros Hkw Hws Hv0 Hv Hrest.
  unfold subject_here, subject_re. cbn [RSeqs].
  rewrite mrun_seq, mrun_lit by exact Hkw.
  rewrite mrun_seq, mrun_star. unfold sp.
  apply (star_class_greedy true false [CSpace]).
  - eapply Forall_impl; [|exact Hws]. intros a Ha. now rewrite sp_class_nocase.
  - unfold stops. cbn [app]. now rewrite sp_class_nocase.
  - rewrite mrun_group. unfold dot. cbn [app].
    apply (mrun_plus_class_greedy true true
             [CChar 10%N; CChar 13%N; CChar 8232%N; CChar 8233%N]).
    + eapply Forall_impl; [|exact Hv]. intros a Ha.
      now rewrite dot_class_nocase, Ha.
    + unfold stops. destruct rest as [|z t]; [exact I|].
      cbn [at_line_end] in Hrest. now rewrite dot_class_nocase, Hrest.
    + change (v0 :: v ++ rest) with ((v0 :: v) ++ rest).
      now rewrite firstn_less, Hrest.
  - apply Nat.le_refl.
Qed.

(** The first group always takes part in a match. *)
Lemma subject_search_group1 : forall raw line_start c,
  subject_search line_start raw = Some c -> c <> None.
Proof.
  assert (Hh : forall s c, subject_here s = Some c -> c <> None).
  { intros s c H. unfold subject_here in H.
    apply (mrun_sound true) in H. destruct H as (s1 & c1 & M & H).
    destruct (at_line_end s1); [|discriminate]. injection H as <-.
    apply (always_captures_some M). left. vm_compute. reflexivity. }
  induction raw as [|x t IH]; intros ls c; cbn [subject_search].
  - destruct ls; [|discriminate].
    destruct (subject_here []) as [c'|] eqn:E; [|discriminate].
    intros [= <-]. now apply (Hh [] c').
  - destruct (if ls then subject_here (x :: t) else None) as [c'|] eqn:E.
    + intros [= <-]. destruct ls; [|discriminate]. now apply (Hh (x :: t) c').
    + apply IH.
Qed.

Lemma subject_total raw : exists s, subject_of raw = Normal s.
Proof.
  unfold subject_of.
  destruct (subject_search true raw) as [[m1|]|] eqn:E; eauto.
  now apply subject_search_group1 in E.
Qed.

(** X27.  The lookup of the subject never throws.  The subject is the
    rest of the first line that begins with [subject:], in either case,
    after the white space that follows the colon, and trimmed, when
    something other than white space follows the colon.  That white
    space may hold line terminators: after a [Subject:] with nothing
    behind it, the subject is the line that follows.  Without a line
    that begins with [subject:] the subject is [(no subject)]. *)
Theorem subject_spec :
  (forall raw, exists s, subject_of raw = Normal s) /\
  (forall before kw ws value rest,
     no_subject_line true before = true -> ends_line before = true ->
     eq_nocase kw (js "subject:") ->
     Forall (fun c => is_space c = true) ws ->
     match value with
     | [] => False
     | v0 :: _ => is_space v0 = false
     end ->
     Forall (fun c => is_line_terminator c = false) value ->
     at_line_end rest = true ->
     subject_of (before ++ kw ++ ws ++ value ++ rest) = Normal (trim value)) /\
  (forall raw, no_subject_line true raw = true ->
               subject_of raw = Normal (js "(no subject)")).
Proof.
  split; [|split].
  - exact subject_total.
  - intros before kw ws value rest Hb He Hkw Hws Hv0 Hv Hrest.
    destruct value as [|v0 v]; [contradiction|].
    unfold subject_of.
    rewrite (subject_search_skip _ before true Hb (or_intror He)).
    rewrite fold_left_last. unfold ends_line in He.
    assert (Hs : match rev before with
                 | [] => true
                 | c :: _ => is_line_terminator c
                 end = true) by exact He.
    rewrite Hs.
    assert (E : subject_search true (kw ++ ws ++ (v0 :: v) ++ rest)
                = Some (Some (v0 :: v))).
    { destruct (kw ++ ws ++ (v0 :: v) ++ rest) as [|x t] eqn:Es;
        cbn [subject_search]; rewrite <- Es;
        now rewrite (subject_here_match kw ws v0 v rest). }
    now rewrite E.
  - intros raw H. unfold subject_of.
    rewrite <- (app_nil_r raw).
    rewrite (subject_search_skip [] raw true H (or_introl eq_refl)).
    cbn [subject_search].
    destruct (fold_left (fun _ c => is_line_terminator c) raw true);
      [|reflexivity].
    now rewrite subject_here_none.
Qed.

Lemma subject_spec_witness :
  subject_of (js "Sender: a@b.c" ++ [CR; LF] ++ js "SUBJECT:" ++ js " "
              ++ js "Your code " ++ [CR; LF; CR; LF] ++ js "Hi")
  = Normal (js "Your code") /\
  subject_of ([] ++ js "Subject:" ++ [CR; LF] ++ js "From: a@b.c"
              ++ [CR; LF; CR; LF] ++ js "Hi")
  = Normal (js "From: a@b.c") /\
  subject_of (js "Sender: a@b.c" ++ [CR; LF; CR; LF] ++ js "Hi")
  = Normal (js "(no subject)").
Proof.
  destruct subject_spec as (_ & H2 & H3). split; [|split].
  - rewrite (app_assoc (js "Sender: a@b.c") [CR; LF]).
    rewrite (H2 (js "Sender: a@b.c" ++ [CR; LF]) (js "SUBJECT:") (js " ")
                (js "Your code ") ([CR; LF; CR; LF] ++ js "Hi"));
      try (vm_compute; reflexivity).
    + repeat constructor.
    + repeat constructor.
  - rewrite (H2 [] (js "Subject:") [CR; LF] (js "From: a@b.c")
                ([CR; LF; CR; LF] ++ js "Hi"));
      try (vm_compute; reflexivity).
    + repeat constructor.
    + repeat constructor.
  - apply H3. vm_compute. reflexivity.
Defined.

(** *** The handlers *)





(** What a stored delivery is made of. *)
Lemma handleInternalEmail_stored (S : Type)
  (toLowerCase : jsstring -> jsstring) (env : Env S) (store : IStore S)
  s from to rawEmail id dateNow e s' :
  createStore toLowerCase env = Normal store ->
  handleInternalEmail toLowerCase env s from to rawEmail id dateNow
  = Normal (StoredEmail e s') ->
  exists body,
    parseMimeContent rawEmail = Normal body /\
    Types.id e = id /\ bodyText e = text body /\ bodyHtml e = html body /\
    read e = false /\
    mailboxName e = getLocalPart toLowerCase (toLowerCase to) /\
    storeEmail store s e = Normal s'.
Proof.
  intros Ec. unfold handleInternalEmail. rewrite Ec. cbn [bind].
  destruct (getMailboxByName store s
              (getLocalPart toLowerCase (toLowerCase to))) as [[m|]|];
    cbn [bind]; [|discriminate|discriminate].
  destruct (1024 * 1024 <? length rawEmail); [discriminate|].
  destruct (parseEmailAddress toLowerCase from) as [a|]; [|discriminate].
  destruct (parseMimeContent rawEmail) as [b|]; [|discriminate].
  destruct (subject_of rawEmail) as [sj|]; [|discriminate].
  cbn [bind].
  destruct (storeEmail store s _) as [s1|] eqn:Es; [|discriminate].
  cbn [bind]. intros [= <- <-]. exists b. repeat split. exact Es.
Qed.

(** X29.  An email that [handleInternalEmail] has stored in the KV
    store is the first of the list of its mailbox, and until its
    retention period is over [handleGetEmail] returns it for that
    mailbox, with the text and the HTML that [parseMimeContent] made of
    the raw message and the code and links that [extractData] finds in
    them. *)
Theorem received_email_is_read (retentionMs now : N) (storeDateNow : Z)
  (toLowerCase : jsstring -> jsstring) (toISO8601 : Z -> jsstring)
  (env : Env KVStore) kv from to rawEmail id dateNow e kv' t :
  createStore toLowerCase env = Normal (kvStore retentionMs now storeDateNow) ->
  handleInternalEmail toLowerCase env kv from to rawEmail id dateNow
  = Normal (StoredEmail e kv') ->
  (t < now + expirationTtl retentionMs)%N ->
  exists body r st1,
    parseMimeContent rawEmail = Normal body /\
    extractData loaded (text body) (html body) = Some (r, st1) /\
    hd_error (listed t kv' (mailboxName e)) = Some id /\
    handleGetEmail (InboxHandlers.kvStore retentionMs t) toISO8601 kv' loaded
                   id (mailboxName e)
    = Some (EmailResponse (email_data toISO8601 e) (code r) (links r)
                          (hints_for r),
            StoreKv.markEmailRead retentionMs t kv' id, st1) /\
    d_text (email_data toISO8601 e) = text body /\
    d_html (email_data toISO8601 e) = html body.
Proof.
  intros Ec H Ht.
  apply (handleInternalEmail_stored _ _ _ _ _ _ _ _ _ _ _ _ Ec) in H.
  destruct H as (body & Eb & Hid & Htext & Hhtml & _ & _ & Hs).
  cbn [storeEmail kvStore] in Hs. injection Hs as Hs. symmetry in Hs.
  assert (Hg : StoreKv.getEmail t kv' id = Some e).
  { rewrite Hs, getEmail_storeEmail, <- Hid, jseqb_refl.
    apply N.ltb_lt in Ht. now rewrite Ht. }
  destruct (handleGetEmail_found _ (InboxHandlers.kvStore retentionMs t)
              toISO8601 kv' loaded id e reach_loaded Hg)
    as (r & st1 & Ex & Hr).
  exists body, r, st1. rewrite <- Htext, <- Hhtml.
  split; [exact Eb|]. split; [exact Ex|]. split; [|split; [exact Hr|]].
  - rewrite Hs, listed_storeEmail, Hid. reflexivity.
  - split; reflexivity.
Qed.

Lemma received_email_is_read_witness :
  exists st1,
    handleGetEmail (InboxHandlers.kvStore 3600000 20)
      (fun _ => js "1970-01-01T00:00:10.000Z")
      (StoreKv.storeEmail 3600000 10 10000 one_mailbox code_email) loaded
      (js "e1") (js "swift-coral-42")
    = Some (EmailResponse
              (email_data (fun _ => js "1970-01-01T00:00:10.000Z") code_email)
              (Some (js "123456")) None (Some code_hints),
            StoreKv.markEmailRead 3600000 20
              (StoreKv.storeEmail 3600000 10 10000 one_mailbox code_email)
              (js "e1"),
            st1).
Proof.
  assert (E : handleInternalEmail ascii_lower (kvEnv 3600000 10 10000)
                one_mailbox (js "Jo <Jo@X.io>")
                (js "Swift-Coral-42@MailCat.ai") code_message (js "e1") 10000
              = Normal (StoredEmail code_email
                          (StoreKv.storeEmail 3600000 10 10000 one_mailbox
                             code_email)))
    by (vm_compute; reflexivity).
  destruct (received_email_is_read 3600000 10 10000 ascii_lower
              (fun _ => js "1970-01-01T00:00:10.000Z")
              (kvEnv 3600000 10 10000) _ _ _ _ _ _ _ _ 20%N eq_refl E)
    as (body & r & st1 & Eb & Ex & _ & Hr & _); [vm_compute; reflexivity|].
  assert (Hb : body = mkBody (js "Your code: 123456") None).
  { vm_compute in Eb. now injection Eb as <-. }
  subst body.
  assert (Hx : r = mkExtracted (Some (js "123456")) None).
  { vm_compute in Ex. now injection Ex as <- _. }
  subst r. exists st1. exact Hr.
Defined.

